(** * obsidian-mindmap: outline parser, serializer, layout and mutation core

    A shallow embedding of [src/markdown-parser.ts] (class [MarkdownParser]),
    of the canvas class [MindmapCanvas] and of the view class [MindmapView],
    together with the properties of the specification that concern them.

    The program works on a mutable graph of [MindmapNodeData] objects that
    reference each other ([children], [parent]).  The embedding keeps that
    graph as an explicit store: a heap of node records indexed by allocation
    order, with object references as addresses. *)

From Stdlib Require Import ZArith NArith QArith Lia Lqa DecimalString DecimalZ.
From stdpp Require Import base option list strings.

Local Open Scope nat_scope.

(** ** JavaScript strings

    A JavaScript string is a sequence of UTF-16 code units; the regular
    expressions of the parser have no [u] flag, so they work on code units as
    well. *)

Abbreviation jschar := N (only parsing).
Abbreviation jsstring := (list N) (only parsing).

Fixpoint lit (s : string) : jsstring :=
  match s with
  | EmptyString => []
  | String a s' => Ascii.N_of_ascii a :: lit s'
  end.

(** [`${n}`] for an integral number below 1e21 in magnitude: plain decimal
    digits, with a leading minus sign for negative numbers. *)
Definition numToString (z : Z) : jsstring :=
  lit (NilEmpty.string_of_int (Z.to_int z)).

(** The characters matched by [\s] and stripped by [String.prototype.trim]:
    WhiteSpace and LineTerminator of ECMAScript. *)
Definition isWhiteSpace (c : jschar) : bool :=
  ((c =? 9) || (c =? 10) || (c =? 11) || (c =? 12) || (c =? 13) || (c =? 32)
   || (c =? 160) || (c =? 5760) || ((8192 <=? c) && (c <=? 8202))
   || (c =? 8232) || (c =? 8233) || (c =? 8239) || (c =? 8287)
   || (c =? 12288) || (c =? 65279))%N.

(** The characters that [.] does not match. *)
Definition isLineTerminator (c : jschar) : bool :=
  ((c =? 10) || (c =? 13) || (c =? 8232) || (c =? 8233))%N.

Definition c_hash : jschar := 35%N.
Definition c_dash : jschar := 45%N.
Definition c_space : jschar := 32%N.
Definition c_tab : jschar := 9%N.
Definition c_newline : jschar := 10%N.
Definition c_lbracket : jschar := 91%N.
Definition c_rbracket : jschar := 93%N.
Definition c_pipe : jschar := 124%N.

Fixpoint dropWhile {A} (p : A -> bool) (l : list A) : list A :=
  match l with
  | [] => []
  | a :: l' => if p a then dropWhile p l' else l
  end.

Fixpoint takeWhile {A} (p : A -> bool) (l : list A) : list A :=
  match l with
  | [] => []
  | a :: l' => if p a then a :: takeWhile p l' else []
  end.

(** [s.trim()] *)
Definition trim (s : jsstring) : jsstring :=
  rev (dropWhile isWhiteSpace (rev (dropWhile isWhiteSpace s))).

(** [s.split(sep)] for a one-character separator: always at least one piece. *)
Fixpoint split (sep : jschar) (s : jsstring) : list jsstring :=
  match s with
  | [] => [[]]
  | c :: s' =>
      if (c =? sep)%N then [] :: split sep s'
      else match split sep s' with
           | [] => [[c]]
           | p :: ps => (c :: p) :: ps
           end
  end.

(** [pieces.join(sep)] *)
Fixpoint join (sep : jschar) (pieces : list jsstring) : jsstring :=
  match pieces with
  | [] => []
  | [p] => p
  | p :: ps => p ++ sep :: join sep ps
  end.

(** ** Regular expressions

    The three regular expressions of the parser are sequences of literal
    characters and of greedily quantified character classes, some of them
    captured, possibly closed by [$].  [exec] is the backtracking matcher
    of ECMAScript on that fragment: a quantified class first takes as many
    characters as it can and gives them back one at a time while the rest of
    the pattern fails. *)
Module Regex.

Inductive cls :=
| Char (c : jschar)      (* a literal character *)
| Space                  (* \s *)
| Dot                    (* . *)
| NotChar (c : jschar).  (* [^c] *)

Definition cls_match (k : cls) (c : jschar) : bool :=
  match k with
  | Char d => (c =? d)%N
  | Space => isWhiteSpace c
  | Dot => negb (isLineTerminator c)
  | NotChar d => negb (c =? d)%N
  end.

Inductive item :=
| Lit (c : jschar)
| Rep (k : cls) (lo : nat) (hi : option nat) (capture : bool)
| Eos. (* $ without the m flag *)

(** The longest prefix of [s] in the class, at most [hi] characters. *)
Fixpoint run (k : cls) (hi : option nat) (s : jsstring) : nat :=
  match hi with
  | Some 0 => 0
  | _ =>
      match s with
      | c :: s' =>
          if cls_match k c then S (run k (pred <$> hi) s') else 0
      | [] => 0
      end
  end.

(** Try the continuation with [n] characters taken, then with [n - 1],
    down to [lo]. *)
Fixpoint backtrack {R} (n lo : nat) (s : jsstring)
    (cont : jsstring -> jsstring -> option R) : option R :=
  if n <? lo then None
  else match cont (take n s) (drop n s) with
       | Some r => Some r
       | None =>
           match n with
           | 0 => None
           | S n' => backtrack n' lo s cont
           end
       end.

(** Match at the start of [s]: the captures in order and what follows the
    match. *)
Fixpoint exec (r : list item) (s : jsstring)
    : option (list jsstring * jsstring) :=
  match r with
  | [] => Some ([], s)
  | Eos :: r' => match s with [] => exec r' s | _ => None end
  | Lit c :: r' =>
      match s with
      | d :: s' => if (d =? c)%N then exec r' s' else None
      | [] => None
      end
  | Rep k lo hi capture :: r' =>
      backtrack (run k hi s) lo s (fun taken rest =>
        match exec r' rest with
        | Some (caps, after) =>
            Some (if capture then taken :: caps else caps, after)
        | None => None
        end)
  end.

(** The first match at or after the start of [s] (a pattern that does not
    begin with [^]). *)
Fixpoint search (r : list item) (s : jsstring)
    : option (list jsstring * jsstring) :=
  match exec r s with
  | Some m => Some m
  | None => match s with [] => None | _ :: s' => search r s' end
  end.

End Regex.

(** The header pattern, [^ (#{1,6}) \s+ (.+) $] (written with spaces between
    its parts). *)
Definition headerRegex : list Regex.item :=
  [Regex.Rep (Regex.Char c_hash) 1 (Some 6) true;
   Regex.Rep Regex.Space 1 None false;
   Regex.Rep Regex.Dot 1 None true;
   Regex.Eos].

(** The list pattern, [^ ( \s* ) - \s+ (.+) $]. *)
Definition listRegex : list Regex.item :=
  [Regex.Rep Regex.Space 0 None true;
   Regex.Lit c_dash;
   Regex.Rep Regex.Space 1 None false;
   Regex.Rep Regex.Dot 1 None true;
   Regex.Eos].

(** The wikilink pattern, [\[ \[ ( [^\]]+ ) \] \]] with the [g] flag. *)
Definition wikilinkRegex : list Regex.item :=
  [Regex.Lit c_lbracket; Regex.Lit c_lbracket;
   Regex.Rep (Regex.NotChar c_rbracket) 1 None true;
   Regex.Lit c_rbracket; Regex.Lit c_rbracket].

(** ** Nodes and the object store *)

(** [type: 'header' | 'list'] *)
Inductive NodeType := header | listItem.

(** [color?: 'red' | 'blue' | 'green' | 'orange' | 'purple' | 'default'] *)
Inductive Color := red | blue | green | orange | purple | defaultColor.

(** An object reference: the index of the object in the store. *)
Abbreviation addr := nat (only parsing).

(** [interface MindmapNodeData].  Optional fields are [option]s ([None] is
    [undefined]).  [level] is a count in every place that writes it; the
    coordinates are the half-integers that the layout computes, as
    rationals. *)
Record Node := mkNode {
  id : jsstring;
  text : jsstring;
  level : nat;
  type : NodeType;
  children : list addr;
  parent : option addr;
  x : option Q;
  y : option Q;
  lineNumber : Z;
  originalText : jsstring;
  hasWikilink : bool;
  wikilinks : list jsstring;
  color : option Color;
  collapsed : option bool
}.

Abbreviation heap := (list Node) (only parsing).

Definition setChildren (cs : list addr) (n : Node) : Node :=
  mkNode (id n) (text n) (level n) (type n) cs (parent n) (x n) (y n)
    (lineNumber n) (originalText n) (hasWikilink n) (wikilinks n) (color n)
    (collapsed n).

Definition setParent (p : option addr) (n : Node) : Node :=
  mkNode (id n) (text n) (level n) (type n) (children n) p (x n) (y n)
    (lineNumber n) (originalText n) (hasWikilink n) (wikilinks n) (color n)
    (collapsed n).

Definition setXY (vx vy : option Q) (n : Node) : Node :=
  mkNode (id n) (text n) (level n) (type n) (children n) (parent n) vx vy
    (lineNumber n) (originalText n) (hasWikilink n) (wikilinks n) (color n)
    (collapsed n).

(** [o.children.push(c)] on the object at [a]. *)
Definition pushChild (a c : addr) (h : heap) : heap :=
  alter (fun n => setChildren (children n ++ [c]) n) a h.

Instance NodeType_eq_dec : EqDecision NodeType.
Proof. solve_decision. Defined.

(** ** The outline parser *)

(** ['根节点'] and ['新节点'] *)
Definition rootText : jsstring := [26681; 33410; 28857]%N.
Definition newNodeText : jsstring := [26032; 33410; 28857]%N.

(** The loop of [extractWikilinks]: [exec] resumes after the previous match
    ([lastIndex]).  Every match takes at least five characters, so the
    length of the text bounds the number of rounds. *)
Fixpoint wikilinkLoop (rounds : nat) (s : jsstring) : list jsstring :=
  match rounds with
  | 0 => []
  | S rounds' =>
      match Regex.search wikilinkRegex s with
      | Some ([m1], rest) =>
          let linkText := trim (hd [] (split c_pipe m1)) in
          linkText :: wikilinkLoop rounds' rest
      | _ => []
      end
  end.

Definition extractWikilinks (s : jsstring) : jsstring * list jsstring :=
  let cleanText := s in
  (cleanText, wikilinkLoop (length s) s).

(** [indent.replace(/\t/g, '    ').length] *)
Definition indentLength (indent : jsstring) : nat :=
  length (concat ((fun c => if (c =? c_tab)%N then lit "    " else [c]) <$> indent)).

Definition nodeId (n : Z) : jsstring := lit "node-" ++ numToString n.

Definition parseLine (line : jsstring) (lineNo : nat) (idNum : Z) : option Node :=
  let trimmedLine := trim line in
  match Regex.exec headerRegex trimmedLine with
  | Some ([m1; m2], _) =>
      let lvl := length m1 in
      let '(cleanText, links) := extractWikilinks m2 in
      Some (mkNode (nodeId idNum) cleanText lvl header [] None None None
              (Z.of_nat lineNo) line (0 <? length links) links
              (Some (if lvl =? 1 then red else defaultColor)) None)
  | _ =>
      match Regex.exec listRegex line with
      | Some ([m1; m2], _) =>
          let indent := m1 in
          let indentLevel := indentLength indent / 4 + 1 in
          let '(cleanText, links) := extractWikilinks m2 in
          Some (mkNode (nodeId idNum) cleanText (indentLevel + 6) listItem []
                  None None None (Z.of_nat lineNo) line (0 <? length links)
                  links None None)
      | _ => None
      end
  end.

Definition levelAt (h : heap) (a : addr) : nat :=
  from_option level 0 (h !! a).

(** The [for] loop of [findParentNode], from the top of the stack (the end of
    the array) down. *)
Fixpoint scanStack (h : heap) (fromTop : list addr) (lvl : nat) : option addr :=
  match fromTop with
  | [] => None
  | stackNode :: below =>
      if levelAt h stackNode <? lvl then Some stackNode
      else scanStack h below lvl
  end.

(** [None] is [undefined]: [nodeStack[0]] of an empty array. *)
Definition findParentNode (h : heap) (nodeStack : list addr) (currentLevel : nat)
    : option addr :=
  match scanStack h (rev nodeStack) currentLevel with
  | Some a => Some a
  | None => head nodeStack
  end.

(** The [while] loop of [updateNodeStack], on the reversed array. *)
Fixpoint popStack (h : heap) (fromTop : list addr) (lvl : nat) : list addr :=
  match fromTop with
  | [] => []
  | top :: below =>
      if lvl <=? levelAt h top then popStack h below lvl else fromTop
  end.

Definition updateNodeStack (h : heap) (nodeStack : list addr) (currentNode : addr)
    : list addr :=
  rev (popStack h (rev nodeStack) (levelAt h currentNode)) ++ [currentNode].

Record ParseState := mkParseState {
  ps_heap : heap;
  ps_nodeStack : list addr;
  ps_currentId : Z
}.

(** The root object of [parseMarkdown]. *)
Definition rootNode : Node :=
  mkNode (lit "root") rootText 0 header [] None None None (-1) [] false []
    None None.

(** One round of the loop of [parseMarkdown], for line [i].  [None]: the
    [TypeError] of [parentNode.children] when [findParentNode] returns
    [undefined]. *)
Definition parseStep (st : ParseState) (i : nat) (line : jsstring)
    : option ParseState :=
  match trim line with
  | [] => Some st
  | _ =>
      let idNum := ps_currentId st in
      let nextId := (idNum + 1)%Z in
      match parseLine line i idNum with
      | None => Some (mkParseState (ps_heap st) (ps_nodeStack st) nextId)
      | Some node =>
          let h := ps_heap st in
          let a := length h in
          parentNode ← findParentNode h (ps_nodeStack st) (level node);
          let h1 := h ++ [setParent (Some parentNode) node] in
          let h2 := pushChild parentNode a h1 in
          Some (mkParseState h2 (updateNodeStack h2 (ps_nodeStack st) a) nextId)
      end
  end.

Fixpoint parseLines (st : ParseState) (i : nat) (lines : list jsstring)
    : option ParseState :=
  match lines with
  | [] => Some st
  | line :: rest => st' ← parseStep st i line; parseLines st' (S i) rest
  end.

(** [parseMarkdown(content)]: the store it builds, with the root at address
    0 and the other nodes in the order of their lines. *)
Definition parseMarkdown (content : jsstring) : option heap :=
  ps_heap <$> parseLines (mkParseState [rootNode] [0] 1) 0 (split c_newline content).

(** ** The serializer *)

(** What running a method gives: a value, a [TypeError], or nothing (the
    recursion does not end, which takes a graph that is not a tree). *)
Inductive result (A : Type) :=
| Return (a : A)
| Throw
| NoResult.
Arguments Return {A} a.
Arguments Throw {A}.
Arguments NoResult {A}.

Definition rbind {A B} (m : result A) (f : A -> result B) : result B :=
  match m with
  | Return a => f a
  | Throw => Throw
  | NoResult => NoResult
  end.

(** [cs.forEach(c => f(c))] for an [f] that works on a state. *)
Fixpoint forEachR {A S} (f : A -> S -> result S) (cs : list A) (s : S) : result S :=
  match cs with
  | [] => Return s
  | c :: rest => rbind (f c s) (forEachR f rest)
  end.

(** [this.restoreWikilinks(...)] inside [function traverse]: the function is
    called plainly, so [this] is not the class, and the call raises a
    [TypeError]. *)
Definition lineText (node : Node) : result (list N) :=
  if hasWikilink node && (0 <? length (wikilinks node)) then Throw
  else Return (text node).

(** The line that [traverse] pushes for a node that is not the root. *)
Definition nodeLine (node : Node) : result (list N) :=
  match type node with
  | header =>
      let headerLevel := replicate (level node) c_hash in
      rbind (lineText node) (fun t => Return (headerLevel ++ c_space :: t))
  | listItem =>
      let indentLevel := Z.to_nat (Z.max 0 (Z.of_nat (level node) - 7)) in
      let indent := replicate indentLevel c_tab in
      rbind (lineText node) (fun t => Return (indent ++ c_dash :: c_space :: t))
  end.

(** [traverse(node)], with the array [lines] as state. *)
Fixpoint traverse (fuel : nat) (h : heap) (a : addr) (lines : list (list N))
    : result (list (list N)) :=
  match fuel with
  | 0 => NoResult
  | S fuel' =>
      match h !! a with
      | None => NoResult
      | Some node =>
          if decide (id node = lit "root") then
            forEachR (traverse fuel' h) (children node) lines
          else
            rbind (nodeLine node) (fun l =>
              forEachR (traverse fuel' h) (children node) (lines ++ [l]))
      end
  end.

(** [generateMarkdown(rootNode)].  On a tree the recursion is no deeper than
    the number of objects in the store. *)
Definition generateMarkdown (h : heap) (rootNode : addr) : result (list N) :=
  rbind (traverse (length h) h rootNode []) (fun lines =>
    Return (join c_newline lines)).

(** ** The layout *)

Inductive Direction := dirLeft | dirRight.

Definition sumZ (l : list Z) : Z := foldl Z.add 0%Z l.

(** [Math.max(100 - (level * 10), 60)] *)
Definition slotHeight (lvl : Z) : Z := Z.max (100 - lvl * 10) 60.

(** [node.collapsed] as a condition. *)
Definition isCollapsed (node : Node) : bool := default false (collapsed node).

Fixpoint calculateSubtreeHeight (fuel : nat) (h : heap) (a : addr) (lvl : Z)
    : option Z :=
  match fuel with
  | 0 => None
  | S fuel' =>
      node ← h !! a;
      if (length (children node) =? 0) || isCollapsed node then
        Some (slotHeight lvl)
      else
        childHeights ← mapM (fun c => calculateSubtreeHeight fuel' h c (lvl + 1)%Z)
                          (children node);
        let totalChildHeight := sumZ childHeights in
        Some (Z.max totalChildHeight (slotHeight lvl))
  end.

(** [o.x = vx; o.y = vy] on the object at [a]. *)
Definition place (a : addr) (vx vy : Q) (h : heap) : heap :=
  alter (setXY (Some vx) (Some vy)) a h.

(** The [forEach] of [arrangeHorizontalSubtree]; [sub] is the recursive
    call on a child. *)
Fixpoint placeChildren (sub : heap -> addr -> option heap) (baseX : Q)
    (h : heap) (cs : list (addr * Z)) (currentY : Q) : option heap :=
  match cs with
  | [] => Some h
  | (child, childHeight) :: rest =>
      let h1 := place child baseX (currentY + inject_Z childHeight / 2)%Q h in
      h2 ← sub h1 child;
      placeChildren sub baseX h2 rest (currentY + inject_Z childHeight)%Q
  end.

(** [parentNode.x!] and [parentNode.y!]: the callers position the node first;
    there is no result for a node without coordinates. *)
Fixpoint arrangeHorizontalSubtree (fuel : nat) (h : heap) (parentNode : addr)
    (direction : Direction) (lvl : Z) : option heap :=
  match fuel with
  | 0 => None
  | S fuel' =>
      node ← h !! parentNode;
      match children node with
      | [] => Some h
      | cs =>
          px ← x node;
          py ← y node;
          let horizontalSpacing := Z.max (220 - lvl * 20) 150 in
          let directionMultiplier := match direction with dirRight => 1 | dirLeft => -1 end%Z in
          let baseX := (px + inject_Z (directionMultiplier * horizontalSpacing))%Q in
          childHeights ← mapM (fun c => calculateSubtreeHeight fuel' h c (lvl + 1)%Z) cs;
          let totalRequiredHeight := sumZ childHeights in
          let currentY := (py - inject_Z totalRequiredHeight / 2)%Q in
          placeChildren
            (fun h' child => arrangeHorizontalSubtree fuel' h' child direction (lvl + 1)%Z)
            baseX h (zip cs childHeights) currentY
      end
  end.

(** One of the two [for] loops of [arrangeHorizontalTree], over the branches
    of one side, [i] being the loop index. *)
Fixpoint placeBranches (fuel : nat) (direction : Direction) (vx centerY : Q)
    (count : nat) (h : heap) (branches : list addr) (i : nat) : option heap :=
  match branches with
  | [] => Some h
  | branch :: rest =>
      let offsetFromCenter :=
        ((inject_Z (Z.of_nat i) - (inject_Z (Z.of_nat count) - 1) / 2) * 100)%Q in
      let h1 := place branch vx (centerY + offsetFromCenter)%Q h in
      h2 ← arrangeHorizontalSubtree fuel h1 branch direction 0;
      placeBranches fuel direction vx centerY count h2 rest (S i)
  end.

Definition arrangeHorizontalTree (fuel : nat) (h : heap) (centerNode : addr)
    (centerX centerY : Q) : option heap :=
  node ← h !! centerNode;
  let mainBranches := children node in
  match mainBranches with
  | [] => Some h
  | _ =>
      let totalBranches := length mainBranches in
      let rightCount := (totalBranches + 1) / 2 in (* Math.ceil(totalBranches / 2) *)
      let leftCount := totalBranches - rightCount in
      let horizontalDistance := 300%Q in
      h1 ← placeBranches fuel dirRight (centerX + horizontalDistance)%Q centerY
             rightCount h (take rightCount mainBranches) 0;
      placeBranches fuel dirLeft (centerX - horizontalDistance)%Q centerY
        leftCount h1 (drop rightCount mainBranches) 0
  end.

Definition calculateNodePositions (h : heap) (rootNode : addr) : option heap :=
  root ← h !! rootNode;
  match children root with
  | [] => Some h
  | centerNode :: _ =>
      let centerX := 600%Q in
      let centerY := 400%Q in
      let h1 := place centerNode centerX centerY h in
      arrangeHorizontalTree (length h) h1 centerNode centerX centerY
  end.

(** ** The canvas and the view

    One record for the fields of [MindmapView] and of its [MindmapCanvas]
    that the tree operations read or write, and for the store they share. *)
Record View := mkView {
  store : list Node;
  currentFile : bool;               (* [this.currentFile] is not [null] *)
  mindmapData : option nat;         (* of the view *)
  history : list nat;
  historyIndex : Z;
  canvasData : option nat;          (* [mindmapData] of the canvas *)
  selectedNodeId : option (list N)
}.

Definition withStore (h : heap) (v : View) : View :=
  mkView h (currentFile v) (mindmapData v) (history v) (historyIndex v)
    (canvasData v) (selectedNodeId v).

(** [for (const child of cs) { found = f(child); if (found) return found }
    return null] *)
Fixpoint findFirst (f : addr -> option (option addr)) (cs : list addr)
    : option (option addr) :=
  match cs with
  | [] => Some None
  | c :: rest =>
      found ← f c;
      match found with
      | Some a => Some (Some a)
      | None => findFirst f rest
      end
  end.

(** [findNodeById(root, id)]; [Some None] is [null]. *)
Fixpoint findNodeById (fuel : nat) (h : heap) (root : addr) (ident : list N)
    : option (option addr) :=
  match fuel with
  | 0 => None
  | S fuel' =>
      node ← h !! root;
      if decide (id node = ident) then Some (Some root)
      else findFirst (fun c => findNodeById fuel' h c ident) (children node)
  end.

Definition getSelectedNode (v : View) : option (option addr) :=
  match selectedNodeId v, canvasData v with
  | Some (c :: s), Some data => findNodeById (length (store v)) (store v) data (c :: s)
  | _, _ => Some None
  end.

(** [selectNode(nodeId)] *)
Definition selectNode (nodeId : list N) (v : View) : View :=
  mkView (store v) (currentFile v) (mindmapData v) (history v) (historyIndex v)
    (canvasData v) (Some nodeId).

(** [renderMindmap(data)], as far as the fields go: [clear()] drops the
    selection. *)
Definition renderMindmap (data : addr) (v : View) : View :=
  mkView (store v) (currentFile v) (mindmapData v) (history v) (historyIndex v)
    (Some data) None.

Definition recalculateAndRender (v : View) : option View :=
  match mindmapData v with
  | Some data =>
      h ← calculateNodePositions (store v) data;
      Some (renderMindmap data (withStore h v))
  | None => Some v
  end.

(** [cs.map(child => copy(child))], the copies being allocated in order. *)
Fixpoint copyChildren (copy : heap -> addr -> option (heap * addr)) (h : heap)
    (cs : list addr) : option (heap * list addr) :=
  match cs with
  | [] => Some (h, [])
  | c :: rest =>
      '(h1, c') ← copy h c;
      '(h2, rest') ← copyChildren copy h1 rest;
      Some (h2, c' :: rest')
  end.

(** [createCleanCopy(node)]: the new object comes first, then the copies of
    the children, then [clean.children] is set. *)
Fixpoint createCleanCopy (fuel : nat) (h : heap) (a : addr) : option (heap * addr) :=
  match fuel with
  | 0 => None
  | S fuel' =>
      node ← h !! a;
      let clean :=
        mkNode (id node) (text node) (level node) (type node) [] None (x node)
          (y node) (lineNumber node) (originalText node) (hasWikilink node)
          (wikilinks node) (color node) (collapsed node) in
      let a' := length h in
      '(h2, cs') ← copyChildren (createCleanCopy fuel') (h ++ [clean]) (children node);
      Some (alter (setChildren cs') a' h2, a')
  end.

(** [history.slice(0, historyIndex + 1)], [push], [shift]; the index never
    goes below -1. *)
Definition saveToHistory (v : View) : option View :=
  match mindmapData v with
  | None => Some v
  | Some data =>
      '(h, cleanState) ← createCleanCopy (length (store v)) (store v) data;
      let hist := take (Z.to_nat (historyIndex v + 1)) (history v) ++ [cleanState] in
      let idx := (historyIndex v + 1)%Z in
      if 20 <? length hist then
        Some (mkView h (currentFile v) (mindmapData v) (drop 1 hist) (idx - 1)%Z
                (canvasData v) (selectedNodeId v))
      else
        Some (mkView h (currentFile v) (mindmapData v) hist idx
                (canvasData v) (selectedNodeId v))
  end.

Fixpoint restoreNodeReferences (fuel : nat) (h : heap) (a : addr) : option heap :=
  match fuel with
  | 0 => None
  | S fuel' =>
      node ← h !! a;
      foldl (fun acc child =>
               h' ← acc;
               restoreNodeReferences fuel' (alter (setParent (Some a)) child h') child)
            (Some h) (children node)
  end.

(** [undo()] *)
Definition undo (v : View) : option View :=
  if (0 <? historyIndex v)%Z then
    let idx := (historyIndex v - 1)%Z in
    previousState ← history v !! Z.to_nat idx;
    h ← restoreNodeReferences (length (store v)) (store v) previousState;
    recalculateAndRender
      (mkView h (currentFile v) (Some previousState) (history v) idx
         (canvasData v) (selectedNodeId v))
  else Some v.

(** [const i = cs.indexOf(c); if (i > -1) cs.splice(i, 1)] *)
Fixpoint removeFirst (c : addr) (cs : list addr) : list addr :=
  match cs with
  | [] => []
  | d :: rest => if d =? c then rest else d :: removeFirst c rest
  end.

Definition detach (parentNode child : addr) (h : heap) : heap :=
  alter (fun n => setChildren (removeFirst child (children n)) n) parentNode h.

Definition newChild (selectedNode : addr) (sel : Node) (now : Z) : Node :=
  mkNode (nodeId now) newNodeText (level sel + 1)
    (if bool_decide (type sel = header) && (level sel <? 6) then header else listItem)
    [] (Some selectedNode) None None (-1) [] false [] None None.

(** [addChildToSelectedNode()], [now] being what [Date.now()] returns. *)
Definition addChildToSelectedNode (now : Z) (v : View) : option View :=
  sel ← getSelectedNode v;
  match sel, mindmapData v with
  | Some selectedNode, Some data =>
      v1 ← saveToHistory v;
      node ← store v1 !! selectedNode;
      let a := length (store v1) in
      let newNode := newChild selectedNode node now in
      let h := pushChild selectedNode a (store v1 ++ [newNode]) in
      h' ← calculateNodePositions h data;
      Some (selectNode (id newNode) (renderMindmap data (withStore h' v1)))
  | _, _ => Some v
  end.

(** [deleteSelectedNode()] *)
Definition deleteSelectedNode (v : View) : option View :=
  match currentFile v, mindmapData v with
  | true, Some data =>
      sel ← getSelectedNode v;
      match sel with
      | None => Some v
      | Some selectedNode =>
          node ← store v !! selectedNode;
          match parent node with
          | None => Some v
          | Some parentNode =>
              v1 ← saveToHistory v;
              let h := detach parentNode selectedNode (store v1) in
              h' ← calculateNodePositions h data;
              let v2 := renderMindmap data (withStore h' v1) in
              pnode ← h' !! parentNode;
              if decide (id pnode = lit "root") then
                root ← h' !! data;
                match children root with
                | centerNode :: _ =>
                    cnode ← h' !! centerNode; Some (selectNode (id cnode) v2)
                | [] => Some v2
                end
              else Some (selectNode (id pnode) v2)
          end
      end
  | _, _ => Some v
  end.

(** The [while] loop of [isAncestor]. *)
Fixpoint walkUp (fuel : nat) (h : heap) (ancestor : addr) (current : option addr)
    : option bool :=
  match current with
  | None => Some false
  | Some c =>
      if c =? ancestor then Some true
      else match fuel with
           | 0 => None
           | S fuel' => node ← h !! c; walkUp fuel' h ancestor (parent node)
           end
  end.

Definition isAncestor (h : heap) (ancestor descendant : addr) : option bool :=
  node ← h !! descendant;
  walkUp (length h) h ancestor (parent node).

(** [moveNodeToParent(childNode, newParent)] of the canvas. *)
Definition moveNodeToParent (childNode newParent : addr) (v : View) : option View :=
  match canvasData v with
  | None => Some v
  | Some _ =>
      if childNode =? newParent then Some v
      else
        anc ← isAncestor (store v) childNode newParent;
        if anc : bool then Some v
        else
          cnode ← store v !! childNode;
          let h1 := match parent cnode with
                    | Some p => detach p childNode (store v)
                    | None => store v
                    end in
          let h2 := alter (setParent (Some newParent)) childNode h1 in
          let h3 := pushChild newParent childNode h2 in
          recalculateAndRender (withStore h3 v)
  end.

Definition setCollapsed (c : option bool) (n : Node) : Node :=
  mkNode (id n) (text n) (level n) (type n) (children n) (parent n) (x n) (y n)
    (lineNumber n) (originalText n) (hasWikilink n) (wikilinks n) (color n) c.

(** [toggleNodeCollapse(node)] of the canvas. *)
Definition toggleNodeCollapse (a : addr) (v : View) : option View :=
  node ← store v !! a;
  match children node with
  | [] => Some v
  | _ =>
      recalculateAndRender
        (withStore (alter (fun n => setCollapsed (Some (negb (isCollapsed n))) n) a (store v)) v)
  end.

(** The tree that [loadFile] makes for a file without nodes. *)
Definition defaultStructure (fileName : list N) : list Node :=
  [mkNode (lit "root") rootText 0 header [1] None None None (-1) [] false [] None None;
   mkNode (lit "node-center") fileName 1 header [] (Some 0) None None (-1) [] false []
     (Some blue) None].

(** [renderView()], as far as the canvas goes: the tree is drawn, and the
    timer that is set, [setTimeout(() => selectNode(centerNode.id), 100)],
    has run; [centerNode] is what [findCenterNode] returns, the first child
    of the root. *)
Definition renderView (v : View) : option View :=
  match mindmapData v with
  | Some data =>
      let v1 := renderMindmap data v in
      root ← store v1 !! data;
      match children root with
      | centerNode :: _ => cnode ← store v1 !! centerNode; Some (selectNode (id cnode) v1)
      | [] => Some v1
      end
  | None => Some v
  end.

(** [loadFile(file)] on a new view, [content] being what the file holds;
    [refresh()] at its end calls [renderView()]. *)
Definition loadFile (content fileName : list N) : option View :=
  parsed ← parseMarkdown content;
  root ← parsed !! 0;
  let h := if (length (children root) =? 0) || bool_decide (trim content = [])
           then defaultStructure fileName else parsed in
  h' ← calculateNodePositions h 0;
  renderView (mkView h' true (Some 0) [] (-1) None None).

(** ** Other methods of the canvas and of the view *)

(** [cs.forEach(c => f(c))] for an [f] that works on a state and may have
    no result. *)
Fixpoint forEachO {A S} (f : A -> S -> option S) (cs : list A) (s : S) : option S :=
  match cs with
  | [] => Some s
  | c :: rest => s' ← f c s; forEachO f rest s'
  end.

(** [traverse(node)] inside [getAllNodes], with the array [nodes] as
    state. *)
Fixpoint getAllNodes_traverse (fuel : nat) (h : heap) (a : addr) (nodes : list addr)
    : option (list addr) :=
  match fuel with
  | 0 => None
  | S fuel' =>
      node ← h !! a;
      let nodes1 := if decide (id node = lit "root") then nodes else nodes ++ [a] in
      forEachO (getAllNodes_traverse fuel' h) (children node) nodes1
  end.

(** [getAllNodes(root)] *)
Definition getAllNodes (h : heap) (root : addr) : option (list addr) :=
  getAllNodes_traverse (length h) h root [].

(** [!n] for a number that may be [undefined]. *)
Definition falsy (n : option Q) : bool :=
  match n with
  | None => true
  | Some q => Qeq_bool q 0
  end.

(** The [for] loop of [findNodeAtPosition]. *)
Fixpoint findNodeAtPosition_loop (h : heap) (px py : Q) (excludeNode : addr)
    (allNodes : list addr) : option (option addr) :=
  match allNodes with
  | [] => Some None
  | a :: rest =>
      node ← h !! a;
      if (a =? excludeNode) || falsy (x node) || falsy (y node) then
        findNodeAtPosition_loop h px py excludeNode rest
      else
        match x node, y node with
        | Some nx, Some ny =>
            let nodeWidth := 100%Q in
            let nodeHeight := 50%Q in
            if Qle_bool nx px && Qle_bool px (nx + nodeWidth)
               && Qle_bool ny py && Qle_bool py (ny + nodeHeight)
            then Some (Some a)
            else findNodeAtPosition_loop h px py excludeNode rest
        | _, _ => findNodeAtPosition_loop h px py excludeNode rest
        end
  end.

(** [findNodeAtPosition(x, y, excludeNode)] of the canvas; [Some None] is
    [null]. *)
Definition findNodeAtPosition (px py : Q) (excludeNode : addr) (v : View)
    : option (option addr) :=
  match canvasData v with
  | None => Some None
  | Some data =>
      allNodes ← getAllNodes (store v) data;
      findNodeAtPosition_loop (store v) px py excludeNode allNodes
  end.

(** [addNode()] of the view, [now] being what [Date.now()] returns. *)
Definition addNode (now : Z) (v : View) : option View :=
  match currentFile v, mindmapData v with
  | true, Some data =>
      sel ← getSelectedNode v;
      match sel with
      | None => Some v
      | Some selectedNode =>
          node ← store v !! selectedNode;
          let a := length (store v) in
          let newNode := newChild selectedNode node now in
          let h := pushChild selectedNode a (store v ++ [newNode]) in
          h' ← calculateNodePositions h data;
          Some (renderMindmap data (withStore h' v))
      end
  | _, _ => Some v
  end.

(** [saveToFile()], as far as the text written goes: [None] when nothing is
    written. *)
Definition saveToFile (v : View) : result (option (list N)) :=
  match currentFile v, mindmapData v with
  | true, Some data => rbind (generateMarkdown (store v) data) (fun markdown => Return (Some markdown))
  | _, _ => Return None
  end.


(** ** Vocabulary of the statements *)

Definition allb {A} (p : A -> bool) (l : list A) : Prop :=
  Forall (fun c => p c = true) l.

(** The next character, if there is one, is outside the class. *)
Definition stops {A} (p : A -> bool) (l : list A) : Prop :=
  match l with
  | [] => True
  | c :: _ => p c = false
  end.

(** The tails that the header and list patterns share. *)
Definition textTail : list Regex.item :=
  [Regex.Rep Regex.Dot 1 None true; Regex.Eos].
Definition spaceTail : list Regex.item :=
  Regex.Rep Regex.Space 1 None false :: textTail.

(** *** The line forms in the words of the specification *)

Definition notLineTerminator (c : N) : bool := negb (isLineTerminator c).

(** "expanding each tab to 4 spaces": the width of an indentation. *)
Fixpoint indentWidth (indent : list N) : nat :=
  match indent with
  | [] => 0
  | c :: rest => (if (c =? c_tab)%N then 4 else 1) + indentWidth rest
  end.

(** The lines that the header pattern accepts: 1-6 [#], white space, and a
    text as [.+] takes it, one character or more, none a line terminator. *)
Definition isHeaderLine (s : list N) (lvl : nat) : Prop :=
  exists ws txt,
    s = replicate lvl c_hash ++ ws ++ txt /\ 1 <= lvl <= 6 /\
    ws <> [] /\ allb isWhiteSpace ws /\
    txt <> [] /\ allb notLineTerminator txt.

(** The lines that the list pattern accepts: optional white space, [-],
    white space, and a text as [.+] takes it, one character or more, none a
    line terminator; with the level that comes from the indentation. *)
Definition isListLine (s : list N) (lvl : nat) : Prop :=
  exists indent ws txt,
    s = indent ++ c_dash :: ws ++ txt /\ allb isWhiteSpace indent /\
    ws <> [] /\ allb isWhiteSpace ws /\
    txt <> [] /\ allb notLineTerminator txt /\
    lvl = indentWidth indent / 4 + 1 + 6.

(** *** Document order

    The nodes that [parseMarkdown] creates lie in the store in the order of
    their lines, after the root.  [lastBelow h lvl n] is the last of the
    first [n] objects whose level is under [lvl]. *)
Fixpoint lastBelow (h : heap) (lvl : nat) (n : nat) : option addr :=
  match n with
  | 0 => None
  | S k => if levelAt h k <? lvl then Some k else lastBelow h lvl k
  end.


(** *** Trees in the store

    The shape of the part of the store that hangs under an object: the
    address of the object and the shapes under its children, in order. *)
Inductive ATree := ANode (a : nat) (cs : list ATree).

Definition rootOf (t : ATree) : nat := match t with ANode a _ => a end.
Definition kids (t : ATree) : list ATree := match t with ANode _ cs => cs end.

(** The addresses of a shape, the root first (the order of [traverse]). *)
Fixpoint addrs (t : ATree) : list nat :=
  match t with ANode a cs => a :: flat_map addrs cs end.

Fixpoint height (t : ATree) : nat :=
  match t with ANode a cs => S (foldr Nat.max 0 (map height cs)) end.

(** [repr h t]: the objects of [h] at the addresses of [t] have the children
    that [t] says. *)
Inductive repr (h : list Node) : ATree -> Prop :=
| repr_node a n cs :
    h !! a = Some n -> children n = map rootOf cs -> Forall (repr h) cs ->
    repr h (ANode a cs).

(** The store holds a tree under [a]: a shape with no address twice. *)
Definition isTree (h : list Node) (t : ATree) : Prop :=
  repr h t /\ NoDup (addrs t).

(** [s] is a subtree of [t], [d] levels down. *)
Inductive subtreeAt : ATree -> nat -> ATree -> Prop :=
| subtree_here t : subtreeAt t 0 t
| subtree_child a cs c d s :
    c ∈ cs -> subtreeAt c d s -> subtreeAt (ANode a cs) (S d) s.

(** Two objects that differ at most in their coordinates. *)
Definition sameButXY (n n' : Node) : Prop :=
  setXY None None n = setXY None None n'.


(** *** Reserved heights and stacking

    The height that [calculateSubtreeHeight] reserves, read off a shape. *)
Fixpoint subtreeHeight (h : list Node) (t : ATree) (lvl : Z) : Z :=
  match t with
  | ANode a cs =>
      if (length cs =? 0) || from_option isCollapsed false (h !! a) then slotHeight lvl
      else Z.max (sumZ (map (fun c => subtreeHeight h c (lvl + 1)%Z) cs)) (slotHeight lvl)
  end.

Definition yAt (h : list Node) (a : nat) : option Q := h !! a ≫= y.
Definition xAt (h : list Node) (a : nat) : option Q := h !! a ≫= x.

(** The subtrees [cs] lie one under the other from [top] on, each in the
    middle of a band as high as what it reserves. *)
Fixpoint stacked (h : list Node) (lvl : Z) (cs : list ATree) (top : Q) : Prop :=
  match cs with
  | [] => True
  | c :: rest =>
      (exists q, yAt h (rootOf c) = Some q /\
                 (q == top + inject_Z (subtreeHeight h c lvl) / 2)%Q) /\
      stacked h lvl rest (top + inject_Z (subtreeHeight h c lvl))%Q
  end.

(** Below the root of a shape, all the children of a node are stacked. *)
Inductive allStacked (h : list Node) : Z -> ATree -> Prop :=
| allStacked_node lvl a cs top :
    stacked h (lvl + 1)%Z cs top ->
    Forall (allStacked h (lvl + 1)%Z) cs ->
    allStacked h lvl (ANode a cs).


(** *** Reading a shape off the store *)

Fixpoint shapeOf (fuel : nat) (h : list Node) (a : nat) : option ATree :=
  match fuel with
  | 0 => None
  | S fuel' =>
      n ← h !! a;
      cs ← mapM (shapeOf fuel' h) (children n);
      Some (ANode a cs)
  end.

(** The tree under [a], when the store holds one. *)
Definition treeAt (h : list Node) (a : nat) : option ATree :=
  t ← shapeOf (length h) h a;
  if bool_decide (NoDup (addrs t)) then Some t else None.


(** *** Example outlines *)

(** [# A], [## B], [- C], a tab and [- D], [## E], [## F] on six lines. *)
Definition outlineText : list N :=
  join c_newline
    [lit "# A"; lit "## B"; lit "- C"; c_tab :: lit "- D"; lit "## E"; lit "## F"].

Definition outlineStore : list Node :=
  Eval vm_compute in default [] (parseMarkdown outlineText).

Definition outlineTree : ATree :=
  Eval vm_compute in default (ANode 0 []) (treeAt outlineStore 0).

(** A centre with two branches. *)
Definition twoBranchText : list N := join c_newline [lit "# A"; lit "## B"; lit "## C"].

Definition twoBranchStore : list Node :=
  Eval vm_compute in default [] (parseMarkdown twoBranchText).

(** A centre, a branch [B] and two nodes under [B]; then with [B]
    collapsed. *)
Definition collapsedText : list N :=
  join c_newline [lit "# A"; lit "## B"; lit "### C"; lit "### D"].

Definition nestedStore : list Node :=
  Eval vm_compute in default [] (parseMarkdown collapsedText).

Definition nestedTree : ATree :=
  Eval vm_compute in default (ANode 0 []) (treeAt nestedStore 0).

Definition collapsedStore : list Node :=
  Eval vm_compute in alter (setCollapsed (Some true)) 2 nestedStore.


(** What the layout makes of the last two. *)
Definition twoBranchLaidOut : list Node :=
  Eval vm_compute in default [] (calculateNodePositions twoBranchStore 0).

Definition collapsedLaidOut : list Node :=
  Eval vm_compute in default [] (calculateNodePositions collapsedStore 0).


(** *** A session of twenty-five edits

    The file holds [# A]; each edit selects the centre and adds a child. *)
Definition sessionStart : option View := loadFile (lit "# A") (lit "note").

Definition edit (k : nat) (v : View) : option View :=
  addChildToSelectedNode (1000 + Z.of_nat k) (selectNode (lit "node-1") v).

Fixpoint edits (n : nat) (v : View) : option View :=
  match n with
  | 0 => Some v
  | S k => v' ← edits k v; edit k v'
  end.

Fixpoint undos (n : nat) (v : View) : option View :=
  match n with
  | 0 => Some v
  | S k => v' ← undos k v; undo v'
  end.

(** The number of children of the centre of the tree of the view. *)
Definition centreChildren (v : View) : option nat :=
  data ← mindmapData v;
  root ← store v !! data;
  centre ← head (children root);
  node ← store v !! centre;
  Some (length (children node)).

Definition afterEdits : option View :=
  Eval vm_compute in (sessionStart ≫= edits 25).


(** *** Identifiers, parents and edits of a shape *)

Definition idAt (h : list Node) (a : nat) : list N := from_option id [] (h !! a).

(** The identifiers of a tree, in the order of [addrs]. *)
Definition ids (h : list Node) (t : ATree) : list (list N) := map (idAt h) (addrs t).

Definition parentAt (h : list Node) (a : nat) : option nat := h !! a ≫= parent.

(** Every node under the root of the shape points back to its parent. *)
Inductive parentOK (h : list Node) : ATree -> Prop :=
| parentOK_node a cs :
    Forall (fun c => parentAt h (rootOf c) = Some a) cs ->
    Forall (parentOK h) cs ->
    parentOK h (ANode a cs).

(** [s] added as the last child of the node at [p]. *)
Fixpoint graft (p : nat) (s : ATree) (t : ATree) : ATree :=
  match t with
  | ANode a cs =>
      let cs' := map (graft p s) cs in
      ANode a (if a =? p then cs' ++ [s] else cs')
  end.

(** The shape without the subtrees whose root is at [c]. *)
Fixpoint keepOthers (f : ATree -> ATree) (c : nat) (l : list ATree) : list ATree :=
  match l with
  | [] => []
  | k :: l' => if rootOf k =? c then keepOthers f c l' else f k :: keepOthers f c l'
  end.

Fixpoint prune (c : nat) (t : ATree) : ATree :=
  match t with ANode a cs => ANode a (keepOthers (prune c) c cs) end.

(** [cs] without the address [c]: what [detach] leaves when [c] is there
    once. *)
Definition without (c : nat) (cs : list nat) : list nat :=
  List.filter (fun a => negb (a =? c)) cs.

(** The first of the addresses whose object has the identifier. *)
Fixpoint firstWithId (h : list Node) (ident : list N) (l : list nat) : option nat :=
  match l with
  | [] => None
  | a :: l' => if decide (idAt h a = ident) then Some a else firstWithId h ident l'
  end.


(** *** Snapshots *)

(** [n'] is the copy that [createCleanCopy] makes of [n], but for its
    children. *)
Definition copyOf (n n' : Node) : Prop :=
  parent n' = None /\
  setChildren [] (setParent None n') = setChildren [] (setParent None n).

(** The object of [h2] at [a'] is a copy of the object of [h1] at [a]. *)
Definition copied (h1 h2 : list Node) (a a' : nat) : Prop :=
  exists n n', h1 !! a = Some n /\ h2 !! a' = Some n' /\ copyOf n n'.

(** Two objects that differ at most in their parent. *)
Definition sameButParent (n n' : Node) : Prop :=
  setParent None n = setParent None n'.

(** [l] lists the addresses met on the way down from under the root of the
    first shape to the root of the second. *)
Inductive pathDown : ATree -> list nat -> ATree -> Prop :=
| pathDown_here t : pathDown t [] t
| pathDown_child a cs c l s :
    c ∈ cs -> pathDown c l s -> pathDown (ANode a cs) (rootOf c :: l) s.


(** *** Views in good order

    The view shows the tree [t]: the view and the canvas hold its root, the
    store holds a tree there, the nodes under the root point back to their
    parents and the root has no parent. *)
Definition shows (v : View) (t : ATree) : Prop :=
  mindmapData v = Some (rootOf t) /\ canvasData v = Some (rootOf t) /\
  isTree (store v) t /\ parentOK (store v) t /\ parentAt (store v) (rootOf t) = None.


(** Two objects that differ at most in their children and parent. *)
Definition sameButLinks (n n' : Node) : Prop :=
  setChildren [] (setParent None n) = setChildren [] (setParent None n').

(** The store after [childNode] at [c], whose parent is at [q], is moved under
    [p]: the three updates of [moveNodeToParent]. *)
Definition moved (q c p : nat) (h : list Node) : list Node :=
  pushChild p c (alter (setParent (Some p)) c (detach q c h)).


(** [parentOK] as a test. *)
Fixpoint parentOKb (h : list Node) (t : ATree) : bool :=
  match t with
  | ANode a cs =>
      forallb (fun c => bool_decide (parentAt h (rootOf c) = Some a)) cs
      && forallb (parentOKb h) cs
  end.

(** [shows] as a test, the tree being read off the store. *)
Definition shownTree (v : View) : option ATree :=
  data ← mindmapData v;
  t ← treeAt (store v) data;
  if bool_decide (canvasData v = Some data) && parentOKb (store v) t
     && bool_decide (parentAt (store v) data = None)
  then Some t else None.

(** The view after [loadFile] on the example outlines. *)
Definition outlineView : View :=
  Eval vm_compute in
    default (mkView [] false None [] 0 None None) (loadFile outlineText (lit "note")).

Definition nestedView : View :=
  Eval vm_compute in
    default (mkView [] false None [] 0 None None) (loadFile collapsedText (lit "note")).


Definition outlineShown : ATree :=
  Eval vm_compute in default (ANode 0 []) (shownTree outlineView).


(** *** Editing sessions *)

(** One action of the user on the view: selecting a node, adding a child
    under the selected node, at any reading [now] of the clock, deleting,
    dragging a node of the displayed tree onto another, undoing. *)
Inductive step : View -> View -> Prop :=
| step_select ident v : step v (selectNode ident v)
| step_add now v v' : addChildToSelectedNode now v = Some v' -> step v v'
| step_delete v v' : deleteSelectedNode v = Some v' -> step v v'
| step_move c p t v v' :
    shows v t -> c ∈ addrs t -> p ∈ addrs t ->
    moveNodeToParent c p v = Some v' -> step v v'
| step_undo v v' : undo v = Some v' -> step v v'.

(** The views reached from the one that [loadFile] makes. *)
Inductive reachable (content fileName : list N) : View -> Prop :=
| reach_load v : loadFile content fileName = Some v -> reachable content fileName v
| reach_step v v' :
    reachable content fileName v -> step v v' -> reachable content fileName v'.

(** The identifier that [addChildToSelectedNode] would make from the clock
    reading [now] is that of no node of the displayed tree. *)
Definition freshId (now : Z) (v : View) : Prop :=
  exists data, canvasData v = Some data /\
    findNodeById (length (store v)) (store v) data (nodeId now) = Some None.

(** The steps in which the clock, when it is read, gives a fresh
    identifier. *)
Inductive freshStep : View -> View -> Prop :=
| fresh_select ident v : freshStep v (selectNode ident v)
| fresh_add now v v' :
    freshId now v -> addChildToSelectedNode now v = Some v' -> freshStep v v'
| fresh_delete v v' : deleteSelectedNode v = Some v' -> freshStep v v'
| fresh_move c p t v v' :
    shows v t -> c ∈ addrs t -> p ∈ addrs t ->
    moveNodeToParent c p v = Some v' -> freshStep v v'
| fresh_undo v v' : undo v = Some v' -> freshStep v v'.

(** The views reached from the one that [loadFile] makes by such steps. *)
Inductive freshlyReachable (content fileName : list N) : View -> Prop :=
| fresh_load v : loadFile content fileName = Some v -> freshlyReachable content fileName v
| fresh_next v v' :
    freshlyReachable content fileName v -> freshStep v v' ->
    freshlyReachable content fileName v'.

(** The outline with its second node selected. *)
Definition selectedView : View := selectNode (lit "node-2") outlineView.


(** A child added under the selected node of [selectedView], and a second
    one added under the first with the same clock reading. *)
Definition addedView : View :=
  Eval vm_compute in
    default outlineView (addChildToSelectedNode 1700000000000 selectedView).

Definition clashView : View :=
  Eval vm_compute in
    default outlineView (addChildToSelectedNode 1700000000000 addedView).

Definition clashTree : ATree :=
  Eval vm_compute in default (ANode 0 []) (shownTree clashView).


(** *** Outlines *)

(** What a tree says, whatever the objects that hold it: the kind, level and
    text of a node, and the same of its children in order. *)
Inductive OTree := ONode (kind : NodeType) (lvl : nat) (txt : list N) (subs : list OTree).

Definition olevel (f : OTree) : nat := match f with ONode _ l _ _ => l end.

Definition typeAt (h : list Node) (a : nat) : NodeType := from_option type header (h !! a).
Definition textAt (h : list Node) (a : nat) : list N := from_option text [] (h !! a).

Fixpoint content (h : list Node) (t : ATree) : OTree :=
  match t with
  | ANode a cs => ONode (typeAt h a) (levelAt h a) (textAt h a) (map (content h) cs)
  end.

(** The same without the levels: shape, kind and text. *)
Fixpoint forget (f : OTree) : OTree :=
  match f with ONode k _ t subs => ONode k 0 t (map forget subs) end.

(** A text that a line gives back: not empty, no line terminator, no white
    space in front nor, for a header, at the end. *)
Definition goodText (k : NodeType) (t : list N) : bool :=
  match t with [] => false | c :: _ => negb (isWhiteSpace c) end
  && forallb notLineTerminator t
  && match k with
     | header => negb (isWhiteSpace (List.last t 0%N))
     | listItem => true
     end.

Definition goodLevel (k : NodeType) (l : nat) : bool :=
  match k with
  | header => (1 <=? l) && (l <=? 6)
  | listItem => 7 <=? l
  end.

(** No number of the list is above the one before it. *)
Fixpoint descending (l : list nat) : bool :=
  match l with
  | a :: (b :: _) as rest => (b <=? a) && descending rest
  | _ => true
  end.

(** Levels and texts as the lines need them: children lie deeper than their
    parent, and no child lies deeper than the child before it. *)
Fixpoint wellLevelled (f : OTree) : bool :=
  match f with
  | ONode k l t subs =>
      goodLevel k l && goodText k t
      && forallb (fun s => l <? olevel s) subs
      && descending (map olevel subs)
      && forallb wellLevelled subs
  end.

(** A node that [traverse] writes a line for, without raising. *)
Definition plainNode (n : Node) : bool :=
  negb (bool_decide (id n = lit "root"))
  && negb (hasWikilink n && (0 <? length (wikilinks n))).

(** The root is as [parseMarkdown] makes it, the other nodes are plain and
    the outline is well levelled. *)
Definition tidy (h : list Node) (t : ATree) : bool :=
  bool_decide (idAt h (rootOf t) = lit "root")
  && bool_decide (typeAt h (rootOf t) = header)
  && (levelAt h (rootOf t) =? 0)
  && bool_decide (textAt h (rootOf t) = rootText)
  && forallb (fun a => from_option plainNode false (h !! a)) (flat_map addrs (kids t))
  && descending (map olevel (map (content h) (kids t)))
  && forallb wellLevelled (map (content h) (kids t)).

(** The outline after its last node is dragged onto the node before it. *)
Definition movedView : View :=
  Eval vm_compute in default outlineView (moveNodeToParent 6 5 outlineView).

Definition movedTree : ATree :=
  Eval vm_compute in default (ANode 0 []) (shownTree movedView).


(** ** Invariants and intermediate statements *)

(** The store after the node of a line is attached under [p]. *)
Definition attached (h : list Node) (p : nat) (node : Node) : list Node :=
  pushChild p (length h) (h ++ [setParent (Some p) node]).

(** What holds of the state of the loop of [parseMarkdown] after any number
    of lines: every node but the root has the last node before it with a
    smaller level as parent, and is a child of it. *)
Record ParseInv (st : ParseState) : Prop := {
  pi_root : exists r, ps_heap st !! 0 = Some r /\ level r = 0 /\ type r = header;
  pi_levels : forall i n, 0 < i -> ps_heap st !! i = Some n ->
    1 <= level n /\ (type n = header <-> level n <= 6);
  pi_head : head (ps_nodeStack st) = Some 0;
  pi_bound : Forall (fun a => a < length (ps_heap st)) (ps_nodeStack st);
  pi_scan : forall lvl,
    scanStack (ps_heap st) (rev (ps_nodeStack st)) lvl
    = lastBelow (ps_heap st) lvl (length (ps_heap st));
  pi_parent : forall i n, 0 < i -> ps_heap st !! i = Some n ->
    exists p pn, parent n = Some p /\ p < i /\ ps_heap st !! p = Some pn /\
      level pn < level n /\
      (forall j, p < j < i -> level n <= levelAt (ps_heap st) j) /\
      i ∈ children pn
}.

(** The statement of the subtree layout, for a given amount of fuel. *)
Definition arrangeOk (fuel : nat) : Prop :=
  forall t h dir lvl,
    isTree h t -> height t <= fuel ->
    (kids t <> [] -> is_Some (xAt h (rootOf t)) /\ is_Some (yAt h (rootOf t))) ->
    exists h', arrangeHorizontalSubtree fuel h (rootOf t) dir lvl = Some h' /\
      (forall a, a ∉ flat_map addrs (kids t) -> h' !! a = h !! a) /\
      allStacked h' lvl t.

(** The object [clean] of [createCleanCopy], before its children are set. *)
Definition cleanOf (node : Node) : Node :=
  mkNode (id node) (text node) (level node) (type node) [] None (x node)
    (y node) (lineNumber node) (originalText node) (hasWikilink node)
    (wikilinks node) (color node) (collapsed node).

(** The statement of the copy of one tree, for a given amount of fuel. *)
Definition copyOk (fuel : nat) (t : ATree) : Prop :=
  forall h, repr h t -> height t <= fuel ->
  exists ext t',
    createCleanCopy fuel h (rootOf t) = Some (h ++ ext, length h) /\
    rootOf t' = length h /\ repr (h ++ ext) t' /\
    addrs t' = seq (length h) (length (addrs t)) /\
    length ext = length (addrs t) /\
    Forall2 (copied h (h ++ ext)) (addrs t) (addrs t').

(** The statement of [restoreNodeReferences] on a tree, for a given amount
    of fuel. *)
Definition restoreOk (fuel : nat) : Prop :=
  forall t h, repr h t -> NoDup (addrs t) -> height t <= fuel ->
  exists h', restoreNodeReferences fuel h (rootOf t) = Some h' /\
    Forall2 sameButParent h h' /\
    (forall a, a ∉ flat_map addrs (kids t) -> h' !! a = h !! a) /\
    parentOK h' t.

(** The store of the loop of [parseMarkdown] holds a tree under address 0,
    the stack holds nodes of it, and the identifiers are those of different
    line counts. *)
Definition parseTree (st : ParseState) (t : ATree) : Prop :=
  rootOf t = 0 /\ isTree (ps_heap st) t /\ parentOK (ps_heap st) t /\
  parentAt (ps_heap st) 0 = None /\
  Forall (fun a => a ∈ addrs t) (ps_nodeStack st) /\
  (1 <= ps_currentId st)%Z /\
  exists ks, map id (ps_heap st) = lit "root" :: map nodeId ks /\
    Forall (fun k => (1 <= k < ps_currentId st)%Z) ks /\ NoDup ks.

(** A tree of the store whose root has no parent; in a session of fresh
    clock readings, [fresh], its nodes have different identifiers as
    well. *)
Definition goodTree (fresh : Prop) (h : list Node) (s : ATree) : Prop :=
  repr h s /\ parentAt h (rootOf s) = None /\ (fresh -> NoDup (ids h s)).

(** The trees of the store that the view can come to show: they share no
    object, and every snapshot of the history is the root of one. *)
Definition stored (fresh : Prop) (h : list Node) (hist : list nat) (all : list ATree)
    : Prop :=
  Forall (goodTree fresh h) all /\ NoDup (flat_map addrs all) /\
  Forall (fun r => r ∈ map rootOf all) hist.

(** The view shows one of its stored trees. *)
Definition kept (fresh : Prop) (v : View) : Prop :=
  exists cur snaps, shows v cur /\ stored fresh (store v) (history v) (cur :: snaps).

(** The line of a node of the given kind, level and text. *)
Definition itemLine (k : NodeType) (l : nat) (t : list N) : list N :=
  match k with
  | header => replicate l c_hash ++ c_space :: t
  | listItem => replicate (l - 7) c_tab ++ c_dash :: c_space :: t
  end.

(** The lines of an outline, a node before its children. *)
Fixpoint olines (f : OTree) : list (list N) :=
  match f with ONode k l t subs => itemLine k l t :: flat_map olines subs end.

(** Several children pushed, one after the other. *)
Definition pushChildren (p : nat) (rs : list nat) (h : list Node) : list Node :=
  alter (fun n => setChildren (children n ++ rs) n) p h.

(** What reading the lines of a list of outlines does to a state whose stack
    has [p] under entries that the first of them pops: the outlines get
    built under [p], in new objects. *)
Definition builds (fs : list OTree) : Prop :=
  forall (H : list Node) (S0 : list nat) (p : nat) (J : list nat) (i : nat) (idn : Z),
    p < length H -> Forall (fun a => a < length H) J ->
    Forall (fun f => levelAt H p < olevel f) fs ->
    match fs with f :: _ => Forall (fun a => olevel f <= levelAt H a) J | [] => True end ->
    descending (map olevel fs) = true -> Forall (fun f => wellLevelled f = true) fs ->
    exists ext ts J' idn',
      let H' := pushChildren p (map rootOf ts) H ++ ext in
      parseLines (mkParseState H (S0 ++ p :: J) idn) i (flat_map olines fs)
      = Some (mkParseState H' (S0 ++ p :: J') idn') /\
      Forall (repr H') ts /\ map (content H') ts = fs /\
      Forall (fun a => length H <= a < length H') (flat_map addrs ts) /\
      NoDup (flat_map addrs ts) /\
      Forall (fun a => a < length H') J' /\
      match last fs with
      | Some f => Forall (fun a => olevel f <= levelAt H' a) J'
      | None => J' = J
      end.

(** The way down a shape by the last child of each node. *)
Fixpoint spine (t : ATree) : list nat :=
  match t with
  | ANode a cs =>
      a :: (fix lastSpine (l : list ATree) : list nat :=
              match l with
              | [] => []
              | [c] => spine c
              | _ :: l' => lastSpine l'
              end) cs
  end.

(** The store of the loop of [parseMarkdown] holds a tree whose nodes are, in
    the order of [traverse], the objects in the order of their creation; the
    stack holds nodes of the way down by the last children. *)
Definition parseOrder (st : ParseState) (t : ATree) : Prop :=
  rootOf t = 0 /\ isTree (ps_heap st) t /\ parentOK (ps_heap st) t /\
  addrs t = seq 0 (length (ps_heap st)) /\
  sublist (ps_nodeStack st) (spine t).


(** The line that [generateMarkdown] writes for the node that [parseLine]
    makes of a line, if it makes one. *)
Definition canonicalLine (line : list N) : option (list N) :=
  match parseLine line 0 0 with
  | Some n => match nodeLine n with Return l => Some l | _ => None end
  | None => None
  end.


(** No line of the text gives a node with links. *)
Definition linkFree (content : list N) : bool :=
  forallb (fun line => match parseLine line 0 0 with
                       | Some n => length (wikilinks n) =? 0
                       | None => true
                       end)
    (split c_newline content).

(** A header, an empty line, a paragraph, a header and a list item with
    spaces to spare. *)
Definition proseText : list N :=
  join c_newline
    [lit "# A"; []; lit "some text"; lit "##   B"; lit "  -   C "].


(** *** Links *)

(** The text holds [[[b]]] for a [b] that is not empty and has no []]. *)
Definition hasLink (s : list N) : Prop :=
  exists pre b post,
    s = pre ++ lit "[[" ++ b ++ lit "]]" ++ post /\ b <> [] /\ c_rbracket ∉ b.

(** A header with a link that has an alias. *)
Definition linkedText : list N := lit "# see [[Target|alias]]".

Definition linkedView : View :=
  Eval vm_compute in
    default (mkView [] false None [] 0 None None) (loadFile linkedText (lit "note")).


(** Some line of the text is a header or a list item. *)
Definition hasOutline (content : list N) : bool :=
  existsb (fun line => match parseLine line 0 0 with Some _ => true | None => false end)
    (split c_newline content).


(** *** Hit tests *)

(** The node at [a] has coordinates, neither of them 0, and the point
    [(px, py)] is in its box, 100 wide and 50 high. *)
Definition covers (h : list Node) (px py : Q) (a : nat) : Prop :=
  exists n nx ny,
    h !! a = Some n /\ x n = Some nx /\ y n = Some ny /\
    ~ (nx == 0)%Q /\ ~ (ny == 0)%Q /\
    (nx <= px)%Q /\ (px <= nx + 100)%Q /\ (ny <= py)%Q /\ (py <= ny + 50)%Q.

(** The node at [a] is not named [root]. *)
Definition notRoot (h : list Node) (a : nat) : bool :=
  negb (bool_decide (idAt h a = lit "root")).


(** *** Columns

    Under a node, every child stands one column further out: its [x] is
    that of its parent plus or minus the horizontal spacing of the depth. *)
Inductive columns (h : list Node) (dir : Direction) : Z -> ATree -> Prop :=
| columns_node lvl a cs px :
    xAt h a = Some px ->
    Forall (fun c =>
              xAt h (rootOf c)
              = Some (px + inject_Z (match dir with dirRight => 1 | dirLeft => -1 end
                                     * Z.max (220 - lvl * 20) 150))%Q) cs ->
    Forall (columns h dir (lvl + 1)%Z) cs ->
    columns h dir lvl (ANode a cs).

(** What [arrangeHorizontalSubtree] leaves, when it returns, on a tree
    whose root has an [x]. *)
Definition columnsOk (fuel : nat) : Prop :=
  forall t h dir lvl h',
    isTree h t -> height t <= fuel -> is_Some (xAt h (rootOf t)) ->
    arrangeHorizontalSubtree fuel h (rootOf t) dir lvl = Some h' ->
    columns h' dir lvl t.

(** Two top-level headers: the second and what is under it come after the
    centre among the children of the root. *)
Definition twoTopText : list N :=
  join c_newline [lit "# A"; lit "## B"; lit "## C"; lit "## D"; lit "# E"; lit "## F"].

Definition twoTopView : View :=
  Eval vm_compute in
    default (mkView [] false None [] 0 None None) (loadFile twoTopText (lit "note")).

Definition twoTopShown : ATree :=
  Eval vm_compute in default (ANode 0 []) (shownTree twoTopView).


(** *** The shape of a copy

    The shape [t] with its addresses replaced by the numbers from [base] on,
    in the order of [addrs]: the shape that a copy of [t] has when its
    objects are allocated one after the other, a node before its children. *)
Fixpoint renumber (base : nat) (t : ATree) : ATree :=
  match t with
  | ANode _ cs =>
      ANode base
        ((fix renumberFrom (b : nat) (l : list ATree) : list ATree :=
            match l with
            | [] => []
            | c :: l' => renumber b c :: renumberFrom (b + length (addrs c)) l'
            end) (S base) cs)
  end.

Fixpoint renumberList (b : nat) (l : list ATree) : list ATree :=
  match l with
  | [] => []
  | c :: l' => renumber b c :: renumberList (b + length (addrs c)) l'
  end.

(** The statement of the copy of one tree, with the shape of the copy. *)
Definition copyShape (fuel : nat) (t : ATree) : Prop :=
  forall h, repr h t -> height t <= fuel ->
  exists ext,
    createCleanCopy fuel h (rootOf t) = Some (h ++ ext, length h) /\
    length ext = length (addrs t) /\
    repr (h ++ ext) (renumber (length h) t) /\
    content (h ++ ext) (renumber (length h) t) = content h t.

(** The outline after two additions with different clock readings. *)
Definition twiceView : View :=
  Eval vm_compute in
    default outlineView
      (addChildToSelectedNode 1700000000001 (selectNode (lit "node-2") addedView)).


(** [undo] after the two additions, and a third addition after it. *)
Definition undoneView : View :=
  Eval vm_compute in default outlineView (undo twiceView).

Definition redoneView : View :=
  Eval vm_compute in
    default outlineView
      (addChildToSelectedNode 1700000000002 (selectNode (lit "node-2") undoneView)).


(** What the shape and the outline of a tree are read from, in the object
    at [a]. *)
Definition coreAt (h : list Node) (a : nat) : option (list nat * NodeType * nat * list N) :=
  (fun n => (children n, type n, level n, text n)) <$> h !! a.


(** The line that stands for the node at [a] in the text: none for a node
    named [root]. *)
Definition writtenLine (h : list Node) (a : nat) : option (list N) :=
  n ← h !! a;
  if decide (id n = lit "root") then None
  else Some (itemLine (type n) (level n) (text n)).

(** The tree of the snapshot that [addedView] holds. *)
Definition snapshotTree : ATree :=
  Eval vm_compute in default (ANode 0 []) (treeAt (store addedView) 7).


(* ================================================================== *)
(** * Properties *)
(* ================================================================== *)

(** ** Facts about the matcher *)

Section RegexFacts.
Import Regex.

Lemma run_le_length k hi s : run k hi s <= length s.
Proof.
  revert hi; induction s as [|c s IH]; intros hi; destruct hi as [[|n]|]; simpl; try lia;
    destruct (cls_match k c); simpl; try lia.
  - specialize (IH (Some n)). simpl in IH. lia.
  - specialize (IH None). simpl in IH. lia.
Qed.

Lemma run_le_bound k n s : run k (Some n) s <= n.
Proof.
  revert n; induction s as [|c s IH]; intros [|n]; simpl; try lia.
  destruct (cls_match k c); simpl; [|lia]. specialize (IH n). lia.
Qed.

Lemma run_take k hi s m : m <= run k hi s -> allb (cls_match k) (take m s).
Proof.
  revert hi m; induction s as [|c s IH]; intros hi m Hm.
  - destruct m; constructor.
  - destruct m as [|m]; [constructor|].
    destruct hi as [[|n]|]; simpl in Hm; try lia;
      destruct (cls_match k c) eqn:E; simpl in Hm; try lia;
      simpl; constructor; auto; eapply IH; apply Nat.succ_le_mono; exact Hm.
Qed.

Lemma run_unbounded k a b :
  allb (cls_match k) a -> stops (cls_match k) b -> run k None (a ++ b) = length a.
Proof.
  intros Ha Hb. induction Ha as [|c a Hc Ha IH]; simpl.
  - destruct b as [|d b]; simpl in *; [reflexivity|]. now rewrite Hb.
  - rewrite Hc. simpl. now rewrite IH.
Qed.

Lemma run_bounded k n a b :
  allb (cls_match k) a -> stops (cls_match k) b -> length a <= n ->
  run k (Some n) (a ++ b) = length a.
Proof.
  intros Ha Hb. revert n. induction Ha as [|c a Hc Ha IH]; intros n Hn; simpl.
  - destruct b as [|d b]; destruct n; simpl in *; try reflexivity.
    now rewrite Hb.
  - simpl in Hn. destruct n as [|n]; [lia|]. rewrite Hc. simpl.
    rewrite IH; [reflexivity|lia].
Qed.

Lemma backtrack_sound {R} n lo s (cont : list N -> list N -> option R) r :
  backtrack n lo s cont = Some r ->
  exists m, lo <= m <= n /\ cont (take m s) (drop m s) = Some r.
Proof.
  induction n as [|n IH]; simpl.
  - destruct lo; simpl; [|discriminate].
    destruct (cont (take 0 s) (drop 0 s)) eqn:E; [|discriminate].
    intros [= <-]. exists 0. split; [lia|exact E].
  - destruct (S n <? lo) eqn:Hlt; [discriminate|].
    apply Nat.ltb_ge in Hlt.
    destruct (cont (take (S n) s) (drop (S n) s)) eqn:E.
    + intros [= <-]. exists (S n). split; [lia|exact E].
    + intros H. destruct (IH H) as (m & Hm & Hc). exists m. split; [lia|exact Hc].
Qed.

Lemma backtrack_complete {R} n lo s (cont : list N -> list N -> option R) m :
  lo <= m <= n -> is_Some (cont (take m s) (drop m s)) ->
  is_Some (backtrack n lo s cont).
Proof.
  intros Hm Hc. induction n as [|n IH]; simpl.
  - assert (m = 0) by lia. subst m. assert (lo = 0) by lia. subst lo. simpl.
    destruct Hc as [r ->]. eauto.
  - destruct (S n <? lo) eqn:Hlt.
    { apply Nat.ltb_lt in Hlt. lia. }
    destruct (cont (take (S n) s) (drop (S n) s)) eqn:E; [eauto|].
    apply IH. destruct (decide (m = S n)) as [->|Hne]; [|lia].
    rewrite E in Hc. destruct Hc as [? [=]].
Qed.

(** The greedy choice is kept when the rest of the pattern accepts it. *)
Lemma backtrack_first {R} n lo s (cont : list N -> list N -> option R) r :
  lo <= n -> cont (take n s) (drop n s) = Some r -> backtrack n lo s cont = Some r.
Proof.
  intros Hlo Hc. destruct n; simpl.
  - assert (lo = 0) by lia. subst lo. simpl. simpl in Hc. now rewrite Hc.
  - destruct (S n <? lo) eqn:Hlt.
    { apply Nat.ltb_lt in Hlt. lia. }
    simpl in Hc. now rewrite Hc.
Qed.

Lemma backtrack_ext {R} n lo s (c1 c2 : list N -> list N -> option R) :
  (forall a b, c1 a b = c2 a b) -> backtrack n lo s c1 = backtrack n lo s c2.
Proof.
  intros He. induction n as [|n IH]; simpl; rewrite He; [reflexivity|].
  now rewrite IH.
Qed.

Lemma backtrack_below {R} n lo s (cont : list N -> list N -> option R) :
  n < lo -> backtrack n lo s cont = None.
Proof.
  intros Hlt. destruct n; simpl.
  - destruct lo; [lia|reflexivity].
  - apply Nat.ltb_lt in Hlt. now rewrite Hlt.
Qed.

End RegexFacts.

Section LineForms.
Import Regex.

Lemma indentLength_width indent : indentLength indent = indentWidth indent.
Proof.
  unfold indentLength. induction indent as [|c r IH]; [reflexivity|].
  rewrite fmap_cons. cbn [concat]. rewrite length_app. cbn [indentWidth].
  rewrite IH. destruct (c =? c_tab)%N; reflexivity.
Qed.

Lemma textTail_eq t :
  exec textTail t
  = backtrack (run Dot None t) 1 t (fun taken rest =>
      match rest with [] => Some ([taken], []) | _ => None end).
Proof.
  unfold textTail. cbn [exec]. apply backtrack_ext. intros a [|c b]; reflexivity.
Qed.

Lemma spaceTail_eq u :
  exec spaceTail u
  = backtrack (run Space None u) 1 u (fun _ rest =>
      match exec textTail rest with
      | Some (caps, after) => Some (caps, after)
      | None => None
      end).
Proof. reflexivity. Qed.

Lemma headerRegex_eq s :
  exec headerRegex s
  = backtrack (run (Char c_hash) (Some 6) s) 1 s (fun taken rest =>
      match exec spaceTail rest with
      | Some (caps, after) => Some (taken :: caps, after)
      | None => None
      end).
Proof. reflexivity. Qed.

Lemma textTail_exact t :
  t <> [] -> allb notLineTerminator t -> exec textTail t = Some ([t], []).
Proof.
  intros Hne Hall. rewrite textTail_eq.
  assert (Hrun : run Dot None t = length t).
  { rewrite <- (app_nil_r t) at 1. now apply run_unbounded. }
  rewrite Hrun. apply backtrack_first.
  - destruct t; [congruence|simpl; lia].
  - now rewrite firstn_all, drop_all.
Qed.

Lemma textTail_sound t caps rest :
  exec textTail t = Some (caps, rest) ->
  t <> [] /\ allb notLineTerminator t /\ caps = [t] /\ rest = [].
Proof.
  rewrite textTail_eq. intros H.
  apply backtrack_sound in H. destruct H as (m & Hm & H). cbv beta in H.
  destruct (drop m t) eqn:Hd; [|discriminate]. injection H as <- <-.
  assert (Ht : take m t = t).
  { rewrite <- (take_drop m t) at 2. rewrite Hd. now rewrite app_nil_r. }
  rewrite Ht. repeat split; auto.
  - intros ->. destruct m; simpl in Hm; lia.
  - rewrite <- Ht. exact (run_take Dot None t m (proj2 Hm)).
Qed.

Lemma spaceTail_exact ws t :
  ws <> [] -> allb isWhiteSpace ws -> stops isWhiteSpace t ->
  t <> [] -> allb notLineTerminator t ->
  exec spaceTail (ws ++ t) = Some ([t], []).
Proof.
  intros Hws Hall Hstop Hne Ht. rewrite spaceTail_eq.
  rewrite (run_unbounded Space ws t Hall Hstop). apply backtrack_first.
  - destruct ws; [congruence|simpl; lia].
  - cbv beta iota. rewrite drop_app_length. now rewrite textTail_exact.
Qed.

Lemma spaceTail_sound u caps rest :
  exec spaceTail u = Some (caps, rest) ->
  exists ws txt, u = ws ++ txt /\ ws <> [] /\ allb isWhiteSpace ws /\
    txt <> [] /\ allb notLineTerminator txt /\ caps = [txt] /\ rest = [].
Proof.
  rewrite spaceTail_eq. intros H.
  apply backtrack_sound in H. destruct H as (m & Hm & H). cbv beta in H.
  destruct (exec textTail (drop m u)) as [[caps' rest']|] eqn:E; [|discriminate].
  injection H as <- <-.
  apply textTail_sound in E. destruct E as (Hne & Hall & -> & ->).
  exists (take m u), (drop m u). repeat split; auto.
  - now rewrite take_drop.
  - intros Hnil. assert (Hl : length (take m u) = 0) by now rewrite Hnil.
    rewrite length_take in Hl. pose proof (run_le_length Space None u). lia.
  - exact (run_take Space None u m (proj2 Hm)).
Qed.

Lemma spaceTail_complete ws txt :
  ws <> [] -> allb isWhiteSpace ws -> txt <> [] -> allb notLineTerminator txt ->
  exists txt', exec spaceTail (ws ++ txt) = Some ([txt'], []).
Proof.
  intros Hws Hall Hne Ht.
  assert (Hsome : is_Some (exec spaceTail (ws ++ txt))).
  { rewrite spaceTail_eq.
    apply backtrack_complete with (m := length ws).
    - split; [destruct ws; [congruence|simpl; lia]|].
      clear Hws. induction Hall as [|c ws Hc Hall IH]; simpl; [lia|].
      rewrite Hc. simpl. lia.
    - cbv beta iota. rewrite drop_app_length, textTail_exact by assumption. eauto. }
  destruct Hsome as [[caps rest] E]. pose proof E as E'.
  apply spaceTail_sound in E'. destruct E' as (? & txt' & _ & _ & _ & _ & _ & -> & ->).
  eauto.
Qed.

Lemma hash_not_space : isWhiteSpace c_hash = false.
Proof. reflexivity. Qed.

Lemma stops_hash_of_space (ws rest : list N) :
  ws <> [] -> allb isWhiteSpace ws -> stops (cls_match (Char c_hash)) (ws ++ rest).
Proof.
  intros Hne Hall. destruct Hall as [|c ws Hc _]; [congruence|]. simpl.
  destruct (N.eqb_spec c c_hash) as [->|]; [|reflexivity].
  rewrite hash_not_space in Hc. discriminate.
Qed.

Lemma allb_replicate_hash n : allb (cls_match (Char c_hash)) (replicate n c_hash).
Proof. induction n; simpl; constructor; auto. Qed.

Lemma allb_char_replicate c (l : list N) :
  allb (cls_match (Char c)) l -> l = replicate (length l) c.
Proof.
  induction 1 as [|d l Hd _ IH]; simpl; [reflexivity|].
  simpl in Hd. apply N.eqb_eq in Hd. subst d. now rewrite <- IH.
Qed.

(** The header pattern accepts exactly the header lines, and its first
    group is the run of [#]. *)
Lemma headerRegex_sound s caps rest :
  exec headerRegex s = Some (caps, rest) ->
  exists m1 m2, caps = [m1; m2] /\ isHeaderLine s (length m1).
Proof.
  rewrite headerRegex_eq. intros H.
  apply backtrack_sound in H. destruct H as (m & Hm & H). cbv beta in H.
  destruct (exec spaceTail (drop m s)) as [[caps' rest']|] eqn:E; [|discriminate].
  injection H as <- <-.
  apply spaceTail_sound in E.
  destruct E as (ws & txt & Hu & Hws & Hall & Hne & Ht & -> & ->).
  exists (take m s), txt. split; [reflexivity|].
  assert (Hlen : length (take m s) = m).
  { rewrite length_take. pose proof (run_le_length (Char c_hash) (Some 6) s). lia. }
  exists ws, txt. rewrite Hlen. repeat split; auto; try lia.
  - rewrite <- Hu. rewrite <- Hlen at 1.
    rewrite <- (allb_char_replicate c_hash (take m s)).
    + now rewrite take_drop.
    + exact (run_take (Char c_hash) (Some 6) s m (proj2 Hm)).
  - pose proof (run_le_bound (Char c_hash) 6 s). lia.
Qed.

Lemma headerRegex_complete s lvl :
  isHeaderLine s lvl ->
  exists m2, exec headerRegex s = Some ([replicate lvl c_hash; m2], []).
Proof.
  intros (ws & txt & -> & Hlvl & Hws & Hall & Hne & Ht).
  destruct (spaceTail_complete ws txt Hws Hall Hne Ht) as [txt' E].
  exists txt'. rewrite headerRegex_eq.
  rewrite run_bounded.
  - apply backtrack_first; [rewrite length_replicate; lia|]. cbv beta.
    rewrite take_app_length, drop_app_length, E. reflexivity.
  - apply allb_replicate_hash.
  - now apply stops_hash_of_space.
  - rewrite length_replicate. lia.
Qed.

Lemma headerRegex_exact lvl ws txt :
  1 <= lvl <= 6 -> ws <> [] -> allb isWhiteSpace ws -> stops isWhiteSpace txt ->
  txt <> [] -> allb notLineTerminator txt ->
  exec headerRegex (replicate lvl c_hash ++ ws ++ txt)
  = Some ([replicate lvl c_hash; txt], []).
Proof.
  intros Hlvl Hws Hall Hstop Hne Ht. rewrite headerRegex_eq.
  rewrite run_bounded.
  - apply backtrack_first; [rewrite length_replicate; lia|]. cbv beta.
    rewrite take_app_length, drop_app_length, spaceTail_exact by assumption.
    reflexivity.
  - apply allb_replicate_hash.
  - now apply stops_hash_of_space.
  - rewrite length_replicate. lia.
Qed.

End LineForms.

Section ListForms.
Import Regex.

Lemma listRegex_eq s :
  exec listRegex s
  = backtrack (run Space None s) 0 s (fun taken rest =>
      match
        match rest with
        | d :: s' => if (d =? c_dash)%N then exec spaceTail s' else None
        | [] => None
        end
      with
      | Some (caps, after) => Some (taken :: caps, after)
      | None => None
      end).
Proof. reflexivity. Qed.

Lemma dash_not_space : isWhiteSpace c_dash = false.
Proof. reflexivity. Qed.

Lemma listRegex_sound s caps rest :
  exec listRegex s = Some (caps, rest) ->
  exists indent m2, caps = [indent; m2] /\
    isListLine s (indentWidth indent / 4 + 1 + 6).
Proof.
  rewrite listRegex_eq. intros H.
  apply backtrack_sound in H. destruct H as (m & Hm & H). cbv beta in H.
  destruct (drop m s) as [|d s'] eqn:Hd; [discriminate|].
  destruct (N.eqb_spec d c_dash) as [->|]; [|discriminate].
  destruct (exec spaceTail s') as [[caps' rest']|] eqn:E; [|discriminate].
  injection H as <- <-.
  apply spaceTail_sound in E.
  destruct E as (ws & txt & -> & Hws & Hall & Hne & Ht & -> & ->).
  exists (take m s), txt. split; [reflexivity|].
  exists (take m s), ws, txt. repeat split; auto.
  - rewrite <- Hd. now rewrite take_drop.
  - exact (run_take Space None s m (proj2 Hm)).
Qed.

Lemma listRegex_complete indent ws txt :
  allb isWhiteSpace indent -> ws <> [] -> allb isWhiteSpace ws ->
  txt <> [] -> allb notLineTerminator txt ->
  exists m2, exec listRegex (indent ++ c_dash :: ws ++ txt) = Some ([indent; m2], []).
Proof.
  intros Hind Hws Hall Hne Ht.
  destruct (spaceTail_complete ws txt Hws Hall Hne Ht) as [txt' E].
  exists txt'. rewrite listRegex_eq.
  rewrite (run_unbounded Space indent (c_dash :: ws ++ txt) Hind dash_not_space).
  apply backtrack_first; [lia|]. cbv beta.
  rewrite take_app_length, drop_app_length. rewrite N.eqb_refl, E. reflexivity.
Qed.

Lemma listRegex_exact indent ws txt :
  allb isWhiteSpace indent -> ws <> [] -> allb isWhiteSpace ws ->
  stops isWhiteSpace txt -> txt <> [] -> allb notLineTerminator txt ->
  exec listRegex (indent ++ c_dash :: ws ++ txt) = Some ([indent; txt], []).
Proof.
  intros Hind Hws Hall Hstop Hne Ht. rewrite listRegex_eq.
  rewrite (run_unbounded Space indent (c_dash :: ws ++ txt) Hind dash_not_space).
  apply backtrack_first; [lia|]. cbv beta.
  rewrite take_app_length, drop_app_length. rewrite N.eqb_refl.
  now rewrite spaceTail_exact.
Qed.

Lemma dropWhile_allb {A} (p : A -> bool) (l k : list A) :
  allb p l -> dropWhile p (l ++ k) = dropWhile p k.
Proof.
  induction 1 as [|c l Hc _ IH]; simpl; [reflexivity|]. now rewrite Hc.
Qed.

Lemma dropWhile_stops {A} (p : A -> bool) (l : list A) :
  stops p l -> dropWhile p l = l.
Proof. destruct l as [|c l]; simpl; [reflexivity|]. now intros ->. Qed.

Lemma dropWhile_keeps_last {A} (p : A -> bool) (l : list A) (c : A) :
  p c = false -> exists v, dropWhile p (l ++ [c]) = v ++ [c].
Proof.
  intros Hc. induction l as [|d l IH]; simpl.
  - rewrite Hc. now exists [].
  - destruct (p d); [exact IH|]. now exists (d :: l).
Qed.

Lemma trim_starts_with indent (c : N) u :
  allb isWhiteSpace indent -> isWhiteSpace c = false ->
  exists r, trim (indent ++ c :: u) = c :: r.
Proof.
  intros Hind Hc. unfold trim.
  rewrite dropWhile_allb by assumption.
  rewrite (dropWhile_stops isWhiteSpace (c :: u)) by exact Hc.
  change (rev (c :: u)) with (rev u ++ [c]).
  destruct (dropWhile_keeps_last isWhiteSpace (rev u) c Hc) as [v ->].
  rewrite rev_app_distr. simpl. eauto.
Qed.

Lemma headerRegex_not_hash (c : N) r :
  c <> c_hash -> exec headerRegex (c :: r) = None.
Proof.
  intros Hc. rewrite headerRegex_eq. apply backtrack_below. simpl.
  destruct (N.eqb_spec c c_hash); [contradiction|]. lia.
Qed.

End ListForms.

(** ** What [parseLine] returns *)

Lemma parseLine_header line lineNo idNum lvl m2 :
  Regex.exec headerRegex (trim line) = Some ([replicate lvl c_hash; m2], []) ->
  parseLine line lineNo idNum
  = Some (mkNode (nodeId idNum) m2 lvl header [] None None None (Z.of_nat lineNo) line
            (0 <? length (wikilinkLoop (length m2) m2)) (wikilinkLoop (length m2) m2)
            (Some (if lvl =? 1 then red else defaultColor)) None).
Proof.
  intros E. unfold parseLine. rewrite E. cbn [extractWikilinks].
  now rewrite length_replicate.
Qed.

Lemma parseLine_list line lineNo idNum indent m2 :
  Regex.exec headerRegex (trim line) = None ->
  Regex.exec listRegex line = Some ([indent; m2], []) ->
  parseLine line lineNo idNum
  = Some (mkNode (nodeId idNum) m2 (indentWidth indent / 4 + 1 + 6) listItem [] None
            None None (Z.of_nat lineNo) line
            (0 <? length (wikilinkLoop (length m2) m2)) (wikilinkLoop (length m2) m2)
            None None).
Proof.
  intros E1 E2. unfold parseLine. rewrite E1, E2. cbn [extractWikilinks].
  now rewrite indentLength_width.
Qed.

Lemma parseLine_sound line lineNo idNum n :
  parseLine line lineNo idNum = Some n ->
  (type n = header /\ isHeaderLine (trim line) (level n)) \/
  (type n = listItem /\ isListLine line (level n)).
Proof.
  unfold parseLine.
  destruct (Regex.exec headerRegex (trim line)) as [[caps rest]|] eqn:E1.
  - destruct (headerRegex_sound _ _ _ E1) as (m1 & m2 & -> & Hform).
    cbn [extractWikilinks]. intros [= <-]. left. simpl. auto.
  - destruct (Regex.exec listRegex line) as [[caps rest]|] eqn:E2; [|discriminate].
    destruct (listRegex_sound _ _ _ E2) as (indent & m2 & -> & Hform).
    cbn [extractWikilinks]. intros [= <-]. right. simpl.
    rewrite indentLength_width. auto.
Qed.

(** X25.  What [parseLine] accepts, a text being one character or more,
    none of them a line terminator.  A line whose trimmed form is 1-6 [#],
    white space and a text is parsed as a header whose level is the number
    of [#]; a line made of optional white space, [-], white space and a
    text is parsed as a list item whose level is the indentation width (a
    tab counting for four) divided by four, rounded down, plus 1 plus 6;
    for every other line [parseLine] returns [null], and when that line is
    not blank the loop of [parseMarkdown] goes on with the store and the
    stack as they were, the counter of identifiers one up. *)
Theorem parseLine_classifies (line : list N) (lineNo : nat) (idNum : Z) :
  (forall lvl, isHeaderLine (trim line) lvl ->
     exists n, parseLine line lineNo idNum = Some n /\ type n = header /\ level n = lvl) /\
  (forall lvl, isListLine line lvl ->
     exists n, parseLine line lineNo idNum = Some n /\ type n = listItem /\ level n = lvl) /\
  ((forall lvl, ~ isHeaderLine (trim line) lvl) -> (forall lvl, ~ isListLine line lvl) ->
     parseLine line lineNo idNum = None /\
     forall st, trim line <> [] ->
       parseStep st lineNo line
       = Some (mkParseState (ps_heap st) (ps_nodeStack st) (ps_currentId st + 1))).
Proof.
  split; [|split].
  - intros lvl Hh. destruct (headerRegex_complete _ _ Hh) as [m2 E].
    rewrite (parseLine_header _ _ _ _ _ E). eexists. repeat split.
  - intros lvl (indent & ws & txt & -> & Hind & Hws & Hall & Hne & Ht & ->).
    destruct (trim_starts_with indent c_dash (ws ++ txt) Hind dash_not_space) as [r Hr].
    destruct (listRegex_complete indent ws txt Hind Hws Hall Hne Ht) as [m2 E].
    rewrite (parseLine_list _ _ _ indent m2); [eexists; repeat split| |exact E].
    rewrite Hr. now apply headerRegex_not_hash.
  - intros Hnh Hnl.
    assert (Hnone : forall k, parseLine line lineNo k = None).
    { intros k. destruct (parseLine line lineNo k) as [n|] eqn:E; [|reflexivity].
      destruct (parseLine_sound _ _ _ _ E) as [[_ H]|[_ H]];
        [destruct (Hnh _ H)|destruct (Hnl _ H)]. }
    split; [apply Hnone|]. intros st Hblank. unfold parseStep.
    destruct (trim line); [congruence|]. now rewrite Hnone.
Qed.

(** ** The stack of open ancestors *)

Section NodeStack.

Lemma scanStack_app h above p below lvl :
  Forall (fun a => lvl <= levelAt h a) above -> levelAt h p < lvl ->
  scanStack h (above ++ p :: below) lvl = Some p.
Proof.
  intros Hab Hp. induction Hab as [|a above Ha _ IH]; simpl.
  - apply Nat.ltb_lt in Hp. now rewrite Hp.
  - destruct (Nat.ltb_spec (levelAt h a) lvl); [lia|exact IH].
Qed.

Lemma scanStack_none h s lvl :
  Forall (fun a => lvl <= levelAt h a) s -> scanStack h s lvl = None.
Proof.
  induction 1 as [|a s Ha _ IH]; simpl; [reflexivity|].
  destruct (Nat.ltb_spec (levelAt h a) lvl); [lia|exact IH].
Qed.

Lemma scanStack_some h s lvl p :
  scanStack h s lvl = Some p ->
  exists above below, s = above ++ p :: below /\
    Forall (fun a => lvl <= levelAt h a) above /\ levelAt h p < lvl.
Proof.
  induction s as [|a s IH]; simpl; [discriminate|].
  destruct (Nat.ltb_spec (levelAt h a) lvl) as [Hlt|Hge].
  - intros [= <-]. exists [], s. repeat split; auto.
  - intros H. destruct (IH H) as (above & below & -> & Hab & Hp).
    exists (a :: above), below. repeat split; auto.
Qed.

Lemma popStack_app h popped kept lvl :
  Forall (fun a => lvl <= levelAt h a) popped ->
  match kept with [] => True | t :: _ => levelAt h t < lvl end ->
  popStack h (popped ++ kept) lvl = kept.
Proof.
  intros Hpop Hkept. induction Hpop as [|a popped Ha _ IH]; simpl.
  - destruct kept as [|t kept]; simpl; [reflexivity|].
    destruct (Nat.leb_spec lvl (levelAt h t)); [lia|reflexivity].
  - destruct (Nat.leb_spec lvl (levelAt h a)); [exact IH|lia].
Qed.

(** Popping does not change what a scan for a level no deeper finds. *)
Lemma scanStack_popStack h s lvl lvl' :
  lvl' <= lvl -> scanStack h (popStack h s lvl) lvl' = scanStack h s lvl'.
Proof.
  intros Hle. induction s as [|a s IH]; simpl; [reflexivity|].
  destruct (Nat.leb_spec lvl (levelAt h a)) as [Hge|Hlt].
  - rewrite IH. destruct (Nat.ltb_spec (levelAt h a) lvl'); [lia|reflexivity].
  - reflexivity.
Qed.

Lemma scanStack_ext h h' s lvl :
  Forall (fun a => levelAt h' a = levelAt h a) s ->
  scanStack h' s lvl = scanStack h s lvl.
Proof. induction 1 as [|a s Ha _ IH]; simpl; [reflexivity|]. now rewrite Ha, IH. Qed.

Lemma elem_of_rev {A} (a : A) (l : list A) : a ∈ rev l <-> a ∈ l.
Proof. rewrite !list_elem_of_In. symmetry. apply in_rev. Qed.

Lemma popStack_incl h s lvl a : a ∈ popStack h s lvl -> a ∈ s.
Proof.
  induction s as [|b s IH]; simpl; [auto|].
  destruct (lvl <=? levelAt h b); [|auto].
  intros H. apply elem_of_cons. right. auto.
Qed.

Lemma lastBelow_ext h h' lvl n :
  (forall j, j < n -> levelAt h' j = levelAt h j) ->
  lastBelow h' lvl n = lastBelow h lvl n.
Proof.
  induction n as [|k IH]; intros He; simpl; [reflexivity|].
  rewrite He by lia. rewrite IH; [reflexivity|]. intros j Hj. apply He. lia.
Qed.

Lemma lastBelow_some h lvl n p :
  lastBelow h lvl n = Some p ->
  p < n /\ levelAt h p < lvl /\ forall j, p < j < n -> lvl <= levelAt h j.
Proof.
  induction n as [|k IH]; simpl; [discriminate|].
  destruct (Nat.ltb_spec (levelAt h k) lvl) as [Hlt|Hge].
  - intros [= <-]. repeat split; auto. intros j Hj. lia.
  - intros H. destruct (IH H) as (Hp & Hl & Hbetween). repeat split; auto.
    intros j Hj. destruct (decide (j = k)) as [->|]; [assumption|]. apply Hbetween. lia.
Qed.

Lemma lastBelow_is_some h lvl n j :
  j < n -> levelAt h j < lvl -> is_Some (lastBelow h lvl n).
Proof.
  induction n as [|k IH]; intros Hj Hl; [lia|]. simpl.
  destruct (Nat.ltb_spec (levelAt h k) lvl); [eauto|].
  apply IH; [|assumption]. destruct (decide (j = k)) as [->|]; lia.
Qed.

End NodeStack.

(** ** Reading the store after an update *)

Section StoreFacts.

Lemma levelAt_app_l (h k : list Node) j : j < length h -> levelAt (h ++ k) j = levelAt h j.
Proof. intros Hj. unfold levelAt. now rewrite lookup_app_l. Qed.

Lemma levelAt_app_new (h : list Node) n : levelAt (h ++ [n]) (length h) = level n.
Proof.
  unfold levelAt. rewrite lookup_app_r by lia. now rewrite Nat.sub_diag.
Qed.

Lemma levelAt_alter (f : Node -> Node) p (h : list Node) j :
  (forall n, level (f n) = level n) -> levelAt (alter f p h) j = levelAt h j.
Proof.
  intros Hf. unfold levelAt. destruct (decide (p = j)) as [->|Hne].
  - rewrite list_lookup_alter_eq. destruct (h !! j); simpl; auto.
  - now rewrite list_lookup_alter_ne.
Qed.

Lemma levelAt_pushChild p c (h : list Node) j : levelAt (pushChild p c h) j = levelAt h j.
Proof. apply levelAt_alter. reflexivity. Qed.

(** The store after a new node is attached under [p]. *)
Lemma attach_lookup (h : list Node) p node i m :
  p < length h ->
  pushChild p (length h) (h ++ [node]) !! i = Some m ->
  (i < length h /\ exists m0, h !! i = Some m0 /\ level m = level m0 /\
     type m = type m0 /\ parent m = parent m0 /\ id m = id m0 /\ text m = text m0 /\
     (if decide (i = p) then children m = children m0 ++ [length h]
      else children m = children m0))
  \/ (i = length h /\ m = node).
Proof.
  intros Hp. unfold pushChild. destruct (decide (p = i)) as [->|Hne].
  - rewrite list_lookup_alter_eq, lookup_app_l by assumption.
    destruct (h !! i) as [m0|] eqn:E; simpl; [|discriminate].
    intros [= <-]. left. split; [assumption|]. exists m0. simpl.
    rewrite decide_True by reflexivity. repeat split; reflexivity.
  - rewrite list_lookup_alter_ne by assumption.
    destruct (decide (i < length h)) as [Hlt|Hge].
    + rewrite lookup_app_l by assumption. intros E. left. split; [assumption|].
      exists m. rewrite decide_False by congruence. repeat split; auto.
    + intros E. right. pose proof (lookup_lt_Some _ _ _ E) as Hl.
      rewrite length_app in Hl. simpl in Hl. assert (i = length h) by lia. subst i.
      rewrite lookup_app_r, Nat.sub_diag in E by lia. simpl in E. now injection E.
Qed.

Lemma attach_old (h : list Node) p node i m0 :
  p < length h -> h !! i = Some m0 ->
  exists m, pushChild p (length h) (h ++ [node]) !! i = Some m /\
    level m = level m0 /\ type m = type m0 /\ parent m = parent m0 /\
    id m = id m0 /\ text m = text m0 /\
    (if decide (i = p) then children m = children m0 ++ [length h]
     else children m = children m0).
Proof.
  intros Hp E. pose proof (lookup_lt_Some _ _ _ E) as Hi.
  unfold pushChild. destruct (decide (p = i)) as [->|Hne].
  - rewrite list_lookup_alter_eq, lookup_app_l, E by assumption. simpl.
    eexists. split; [reflexivity|]. rewrite decide_True by reflexivity.
    repeat split; reflexivity.
  - rewrite list_lookup_alter_ne, lookup_app_l, E by assumption.
    eexists. split; [reflexivity|]. rewrite decide_False by congruence.
    repeat split; reflexivity.
Qed.

Lemma attach_new (h : list Node) p node :
  p < length h -> pushChild p (length h) (h ++ [node]) !! length h = Some node.
Proof.
  intros Hp. unfold pushChild. rewrite list_lookup_alter_ne by lia.
  rewrite lookup_app_r, Nat.sub_diag by lia. reflexivity.
Qed.

Lemma attach_length (h : list Node) p node :
  length (pushChild p (length h) (h ++ [node])) = S (length h).
Proof. unfold pushChild. rewrite length_alter, length_app. simpl. lia. Qed.

End StoreFacts.

(** ** The loop of [parseMarkdown] *)

Section ParseLoop.

Lemma parseStep_cases st i line st' :
  parseStep st i line = Some st' ->
  (ps_heap st' = ps_heap st /\ ps_nodeStack st' = ps_nodeStack st /\
     (ps_currentId st <= ps_currentId st' <= ps_currentId st + 1)%Z) \/
  (exists node p,
     parseLine line i (ps_currentId st) = Some node /\
     findParentNode (ps_heap st) (ps_nodeStack st) (level node) = Some p /\
     ps_heap st' = attached (ps_heap st) p node /\
     ps_nodeStack st'
     = updateNodeStack (ps_heap st') (ps_nodeStack st) (length (ps_heap st)) /\
     ps_currentId st' = (ps_currentId st + 1)%Z).
Proof.
  unfold parseStep. destruct (trim line) as [|c t].
  - intros [= <-]. left. repeat split; lia.
  - destruct (parseLine line i (ps_currentId st)) as [node|] eqn:E.
    + destruct (findParentNode (ps_heap st) (ps_nodeStack st) (level node)) as [p|] eqn:Ep;
        simpl; [|discriminate].
      intros [= <-]. right. exists node, p. simpl. repeat split; auto.
    + intros [= <-]. left. simpl. repeat split; lia.
Qed.

Lemma parseLines_inv (P : ParseState -> Prop) :
  (forall st i line st', P st -> parseStep st i line = Some st' -> P st') ->
  forall lines st i st', P st -> parseLines st i lines = Some st' -> P st'.
Proof.
  intros Hstep. induction lines as [|line lines IH]; intros st i st' HP; simpl.
  - now intros [= <-].
  - destruct (parseStep st i line) as [st1|] eqn:E; simpl; [|discriminate].
    apply IH. eapply Hstep; eauto.
Qed.

Lemma parseLines_total (P : ParseState -> Prop) :
  (forall st i line st', P st -> parseStep st i line = Some st' -> P st') ->
  (forall st i line, P st -> is_Some (parseStep st i line)) ->
  forall lines st i, P st -> is_Some (parseLines st i lines).
Proof.
  intros Hstep Htot. induction lines as [|line lines IH]; intros st i HP; simpl.
  - eauto.
  - destruct (Htot st i line HP) as [st1 E]. rewrite E. simpl.
    apply IH. eapply Hstep; eauto.
Qed.

(** The levels that [parseLine] gives. *)
Lemma parseLine_level line i k node :
  parseLine line i k = Some node ->
  1 <= level node /\ (type node = header <-> level node <= 6).
Proof.
  intros E. destruct (parseLine_sound _ _ _ _ E) as [[Ht H]|[Ht H]].
  - destruct H as (ws & txt & _ & Hl & _). rewrite Ht. split; [lia|]. split; [lia|auto].
  - destruct H as (indent & ws & txt & _ & _ & _ & _ & _ & _ & Hl).
    rewrite Ht, Hl. split; [lia|]. split; [discriminate|lia].
Qed.

Lemma parseLine_fresh line i k node :
  parseLine line i k = Some node ->
  id node = nodeId k /\ children node = [] /\ collapsed node = None /\
  x node = None /\ y node = None.
Proof.
  unfold parseLine.
  destruct (Regex.exec headerRegex (trim line)) as [[caps rest]|] eqn:E1.
  - destruct (headerRegex_sound _ _ _ E1) as (m1 & m2 & -> & _).
    cbn [extractWikilinks]. intros [= <-]. repeat split.
  - destruct (Regex.exec listRegex line) as [[caps rest]|] eqn:E2; [|discriminate].
    destruct (listRegex_sound _ _ _ E2) as (indent & m2 & -> & _).
    cbn [extractWikilinks]. intros [= <-]. repeat split.
Qed.

Lemma ParseInv_init : ParseInv (mkParseState [rootNode] [0] 1).
Proof.
  split; simpl.
  - exists rootNode. repeat split.
  - intros [|[|i]] n Hi; try lia; discriminate.
  - reflexivity.
  - repeat constructor.
  - intros lvl. reflexivity.
  - intros [|[|i]] n Hi; try lia; discriminate.
Qed.

Lemma levelAt_attached h p node j :
  j < length h -> levelAt (attached h p node) j = levelAt h j.
Proof.
  intros Hj. unfold attached. now rewrite levelAt_pushChild, levelAt_app_l.
Qed.

Lemma levelAt_attached_new h p node :
  levelAt (attached h p node) (length h) = level node.
Proof.
  unfold attached. rewrite levelAt_pushChild. now rewrite levelAt_app_new.
Qed.

Lemma levelAt_lookup (h : list Node) j n : h !! j = Some n -> levelAt h j = level n.
Proof. unfold levelAt. now intros ->. Qed.

(** With the root at the bottom of the stack, a node of level 1 or more
    finds its parent: the last object before it with a smaller level. *)
Lemma findParentNode_last st lvl :
  ParseInv st -> 1 <= lvl ->
  exists p, findParentNode (ps_heap st) (ps_nodeStack st) lvl = Some p /\
    lastBelow (ps_heap st) lvl (length (ps_heap st)) = Some p.
Proof.
  intros Hinv Hl. destruct (pi_root _ Hinv) as (r & Hr & Hr0 & _).
  destruct (lastBelow_is_some (ps_heap st) lvl (length (ps_heap st)) 0) as [p Hp].
  - apply lookup_lt_Some in Hr. exact Hr.
  - rewrite (levelAt_lookup _ _ _ Hr). lia.
  - exists p. split; [|exact Hp]. unfold findParentNode.
    now rewrite (pi_scan _ Hinv), Hp.
Qed.

Lemma ParseInv_step st i line st' :
  ParseInv st -> parseStep st i line = Some st' -> ParseInv st'.
Proof.
  intros Hinv Hstep. destruct (parseStep_cases _ _ _ _ Hstep) as
    [(Hh & Hs & _)|(node & p & Hline & Hfind & Hh & Hs & _)].
  { destruct Hinv. split; rewrite ?Hh, ?Hs; assumption. }
  destruct (parseLine_level _ _ _ _ Hline) as [Hl1 Hty].
  destruct (findParentNode_last st (level node) Hinv Hl1) as (p' & Hfind' & Hlast).
  rewrite Hfind in Hfind'. injection Hfind' as <-.
  destruct (lastBelow_some _ _ _ _ Hlast) as (Hp & Hplevel & Hbetween).
  set (h := ps_heap st) in *. set (a := length h) in *.
  assert (Hlen : length (ps_heap st') = S a).
  { rewrite Hh. apply attach_length. }
  assert (Hold : forall j, j < a -> levelAt (ps_heap st') j = levelAt h j).
  { intros j Hj. rewrite Hh. now apply levelAt_attached. }
  assert (Hnew : levelAt (ps_heap st') a = level node).
  { rewrite Hh. apply levelAt_attached_new. }
  destruct (pi_root _ Hinv) as (r & Hr & Hr0 & Hrt).
  split.
  - rewrite Hh. destruct (attach_old h p (setParent (Some p) node) 0 r Hp Hr)
      as (m & Hm & Hml & Hmt & _).
    exists m. split; [exact Hm|]. split; congruence.
  - intros j n Hj Hn. rewrite Hh in Hn.
    destruct (attach_lookup h p _ j n Hp Hn) as
      [(Hjlt & m0 & Hm0 & Hml & Hmt & _)|(-> & ->)].
    + rewrite Hml, Hmt. eapply (pi_levels _ Hinv); eauto.
    + simpl. auto.
  - rewrite Hs. unfold updateNodeStack.
    destruct (ps_nodeStack st) as [|b s] eqn:Es; [now pose proof (pi_head _ Hinv)|].
    pose proof (pi_head _ Hinv) as Hhd. rewrite Es in Hhd. injection Hhd as ->.
    (* the root stays at the bottom *)
    assert (Hroot : exists s', rev (popStack (ps_heap st') (rev (0 :: s))
                                  (levelAt (ps_heap st') a)) = 0 :: s').
    { rewrite Hnew. simpl rev.
      assert (H0 : levelAt (ps_heap st') 0 < level node).
      { rewrite Hold by lia. unfold h. rewrite (levelAt_lookup _ _ _ Hr). lia. }
      generalize (rev s). intros t. induction t as [|c t IH]; simpl.
      - destruct (Nat.leb_spec (level node) (levelAt (ps_heap st') 0)); [lia|].
        now exists [].
      - destruct (level node <=? levelAt (ps_heap st') c); [exact IH|].
        change (c :: t ++ [0]) with ((c :: t) ++ [0]). rewrite rev_app_distr. simpl.
        eauto. }
    destruct Hroot as [s' ->]. reflexivity.
  - rewrite Hs, Hlen. unfold updateNodeStack. apply Forall_app. split.
    + apply Forall_forall. intros b Hb.
      rewrite elem_of_rev in Hb. apply popStack_incl in Hb. rewrite elem_of_rev in Hb.
      pose proof (pi_bound _ Hinv) as Hbd. rewrite Forall_forall in Hbd.
      specialize (Hbd b Hb). fold h a in Hbd. lia.
    + repeat constructor.
  - intros lvl. rewrite Hs, Hlen. unfold updateNodeStack.
    rewrite rev_app_distr, rev_involutive. simpl. rewrite Hnew.
    assert (Hext : scanStack (ps_heap st') (rev (ps_nodeStack st)) lvl
                   = scanStack h (rev (ps_nodeStack st)) lvl).
    { apply scanStack_ext. apply Forall_forall. intros b Hb. rewrite elem_of_rev in Hb.
      pose proof (pi_bound _ Hinv) as Hbd. rewrite Forall_forall in Hbd.
      apply Hold. exact (Hbd b Hb). }
    destruct (Nat.ltb_spec (level node) lvl) as [Hlt|Hge]; [reflexivity|].
    rewrite scanStack_popStack by assumption.
    rewrite Hext, (pi_scan _ Hinv). symmetry. apply lastBelow_ext. exact Hold.
  - intros j n Hj Hn. rewrite Hh in Hn.
    destruct (attach_lookup h p _ j n Hp Hn) as
      [(Hjlt & m0 & Hm0 & Hml & Hmt & Hmp & _ & _ & Hmc)|(-> & ->)].
    + destruct (pi_parent _ Hinv j m0 Hj Hm0) as (q & qn & Hq & Hqj & Hqn & Hql & Hqb & Hqc).
      destruct (attach_old h p (setParent (Some p) node) q qn Hp Hqn)
        as (qm & Hqm & Hqml & _ & _ & _ & _ & Hqmc).
      exists q, qm. rewrite Hh.
      split; [congruence|]. split; [lia|]. split; [exact Hqm|]. split; [lia|]. split.
      * intros k Hk. rewrite levelAt_attached by (fold h a; lia). rewrite Hml. now apply Hqb.
      * destruct (decide (q = p)); rewrite Hqmc; [apply elem_of_app; left|]; exact Hqc.
    + destruct (h !! p) as [pn|] eqn:Epn; [|apply lookup_ge_None in Epn; lia].
      destruct (attach_old h p (setParent (Some p) node) p pn Hp Epn)
        as (pm & Hpm & Hpml & _ & _ & _ & _ & Hpmc).
      rewrite decide_True in Hpmc by reflexivity.
      exists p, pm. rewrite Hh. simpl.
      split; [reflexivity|]. split; [exact Hp|]. split; [exact Hpm|]. split; [|split].
      * rewrite Hpml, <- (levelAt_lookup _ _ _ Epn). exact Hplevel.
      * intros k Hk. rewrite levelAt_attached by (fold h a; lia). now apply Hbetween.
      * rewrite Hpmc. apply elem_of_app. right. now apply list_elem_of_singleton.
Qed.

Lemma parseStep_total st i line : ParseInv st -> is_Some (parseStep st i line).
Proof.
  intros Hinv. unfold parseStep. destruct (trim line); [eauto|].
  destruct (parseLine line i (ps_currentId st)) as [node|] eqn:E; [|eauto].
  destruct (parseLine_level _ _ _ _ E) as [Hl _].
  destruct (findParentNode_last st (level node) Hinv Hl) as (p & -> & _).
  simpl. eauto.
Qed.

(** [parseMarkdown] returns, whatever the text. *)
Lemma parseMarkdown_total content : is_Some (parseMarkdown content).
Proof.
  unfold parseMarkdown.
  destruct (parseLines_total ParseInv ParseInv_step parseStep_total
              (split c_newline content) _ 0 ParseInv_init) as [st ->].
  simpl. eauto.
Qed.

Lemma parseMarkdown_inv (P : ParseState -> Prop) content h :
  P (mkParseState [rootNode] [0] 1) ->
  (forall st i line st', P st -> parseStep st i line = Some st' -> P st') ->
  parseMarkdown content = Some h ->
  exists st, ps_heap st = h /\ P st.
Proof.
  intros H0 Hstep. unfold parseMarkdown.
  destruct (parseLines _ 0 _) as [st|] eqn:E; simpl; [|discriminate].
  intros [= <-]. exists st. split; [reflexivity|].
  eapply parseLines_inv; eauto.
Qed.

End ParseLoop.

(** ** The stack of open ancestors in [findParentNode] and [updateNodeStack] *)

Lemma last_head_rev {A} (l : list A) : last l = head (rev l).
Proof.
  induction l as [|x l _] using rev_ind; [reflexivity|].
  rewrite last_snoc, rev_app_distr. reflexivity.
Qed.

Lemma Forall_rev_iff {A} (P : A -> Prop) (l : list A) : Forall P l -> Forall P (rev l).
Proof.
  rewrite !Forall_forall. intros H a Ha. apply H. now apply elem_of_rev.
Qed.

Lemma findParentNode_nearest h below p above lvl :
  levelAt h p < lvl -> Forall (fun a => lvl <= levelAt h a) above ->
  findParentNode h (below ++ p :: above) lvl = Some p.
Proof.
  intros Hp Hab. unfold findParentNode.
  rewrite rev_app_distr. simpl. rewrite <- app_assoc. simpl.
  rewrite scanStack_app; auto. now apply Forall_rev_iff.
Qed.

Lemma findParentNode_bottom h stack lvl :
  Forall (fun a => lvl <= levelAt h a) stack -> findParentNode h stack lvl = head stack.
Proof.
  intros H. unfold findParentNode. rewrite scanStack_none; [reflexivity|].
  now apply Forall_rev_iff.
Qed.

Lemma updateNodeStack_pops h kept popped a :
  Forall (fun b => levelAt h a <= levelAt h b) popped ->
  match last kept with Some t => levelAt h t < levelAt h a | None => True end ->
  updateNodeStack h (kept ++ popped) a = kept ++ [a].
Proof.
  intros Hpop Hkept. unfold updateNodeStack. rewrite rev_app_distr.
  rewrite popStack_app.
  - now rewrite rev_involutive.
  - now apply Forall_rev_iff.
  - rewrite last_head_rev in Hkept. destruct (rev kept); exact Hkept.
Qed.

(** ** Trees in the store *)

Section Trees.

Lemma ATree_ind' (P : ATree -> Prop) :
  (forall a cs, Forall P cs -> P (ANode a cs)) -> forall t, P t.
Proof.
  intros Hnode. fix IH 1. intros [a cs]. apply Hnode.
  induction cs as [|c cs IHcs]; constructor; [apply IH|exact IHcs].
Qed.

Lemma repr_inv h a cs :
  repr h (ANode a cs) ->
  exists n, h !! a = Some n /\ children n = map rootOf cs /\ Forall (repr h) cs.
Proof. inversion 1; subst. eauto. Qed.

Lemma repr_root h t : repr h t -> exists n, h !! rootOf t = Some n /\ children n = map rootOf (kids t).
Proof. destruct t as [a cs]. intros H. apply repr_inv in H. destruct H as (n & ? & ? & _). eauto. Qed.

Lemma addrs_root t : rootOf t ∈ addrs t.
Proof. destruct t; simpl. apply elem_of_cons. now left. Qed.

Lemma addrs_child a cs c b : c ∈ cs -> b ∈ addrs c -> b ∈ addrs (ANode a cs).
Proof.
  intros Hc Hb. simpl. apply elem_of_cons. right.
  apply list_elem_of_In, in_flat_map. exists c. split; now apply list_elem_of_In.
Qed.

Lemma addrs_inv a cs b :
  b ∈ addrs (ANode a cs) -> b = a \/ exists c, c ∈ cs /\ b ∈ addrs c.
Proof.
  simpl. intros H. apply elem_of_cons in H. destruct H as [->|H]; [now left|right].
  apply list_elem_of_In, in_flat_map in H. destruct H as (c & Hc & Hb).
  exists c. split; now apply list_elem_of_In.
Qed.

(** What [repr] reads of the store. *)
Lemma repr_ext h h' t :
  (forall a, a ∈ addrs t -> children <$> h' !! a = children <$> h !! a) ->
  repr h t -> repr h' t.
Proof.
  induction t as [a cs IH] using ATree_ind'. intros Hext Hr.
  apply repr_inv in Hr. destruct Hr as (n & Hn & Hc & Hcs).
  pose proof (Hext a (addrs_root (ANode a cs))) as Ha. rewrite Hn in Ha. simpl in Ha.
  destruct (h' !! a) as [n'|] eqn:En'; [|discriminate]. simpl in Ha.
  apply repr_node with n'; [exact En'|congruence|].
  rewrite Forall_forall in IH, Hcs. apply Forall_forall. intros c Hcin.
  apply IH; auto. intros b Hb. apply Hext. eapply addrs_child; eauto.
Qed.

Lemma repr_bound h t a : repr h t -> a ∈ addrs t -> a < length h.
Proof.
  induction t as [b cs IH] using ATree_ind'. intros Hr Ha.
  apply repr_inv in Hr. destruct Hr as (n & Hn & _ & Hcs).
  apply addrs_inv in Ha. destruct Ha as [->|(c & Hc & Ha)].
  - now apply lookup_lt_Some in Hn.
  - rewrite Forall_forall in IH, Hcs. eapply IH; eauto.
Qed.

Lemma height_le_addrs t : height t <= length (addrs t).
Proof.
  induction t as [a cs IH] using ATree_ind'. simpl. apply le_n_S.
  induction IH as [|c cs Hc _ IHcs]; simpl; [lia|].
  rewrite length_app. lia.
Qed.

Lemma NoDup_bounded (l : list nat) n :
  NoDup l -> (forall a, a ∈ l -> a < n) -> length l <= n.
Proof.
  intros Hnd Hb. rewrite <- (length_seq n 0).
  apply submseteq_length, NoDup_submseteq; [exact Hnd|].
  intros a Ha. apply elem_of_seq. specialize (Hb a Ha). lia.
Qed.

(** On a tree the store is at least as large as the tree is deep. *)
Lemma isTree_height h t : isTree h t -> height t <= length h.
Proof.
  intros [Hr Hnd]. etransitivity; [apply height_le_addrs|].
  apply NoDup_bounded; [exact Hnd|]. intros a. now apply repr_bound.
Qed.

Lemma height_child a cs c : c ∈ cs -> height c < height (ANode a cs).
Proof.
  intros Hc. simpl. apply Nat.lt_succ_r.
  induction cs as [|d cs IH]; [now apply elem_of_nil in Hc|].
  apply elem_of_cons in Hc. simpl. destruct Hc as [->|Hc]; [lia|].
  specialize (IH Hc). lia.
Qed.

Lemma NoDup_child a cs c : c ∈ cs -> NoDup (addrs (ANode a cs)) -> NoDup (addrs c).
Proof.
  simpl. intros Hc Hnd. apply NoDup_cons in Hnd. destruct Hnd as [_ Hnd].
  induction cs as [|d cs IH]; [now apply elem_of_nil in Hc|].
  simpl in Hnd. apply NoDup_app in Hnd. destruct Hnd as (Hd & _ & Hcs).
  apply elem_of_cons in Hc. destruct Hc as [->|Hc]; auto.
Qed.

Lemma isTree_child h a cs c : c ∈ cs -> isTree h (ANode a cs) -> isTree h c.
Proof.
  intros Hc [Hr Hnd]. split; [|eapply NoDup_child; eauto].
  apply repr_inv in Hr. destruct Hr as (_ & _ & _ & Hcs).
  rewrite Forall_forall in Hcs. auto.
Qed.

Lemma subtreeAt_addrs t d s b : subtreeAt t d s -> b ∈ addrs s -> b ∈ addrs t.
Proof.
  induction 1 as [|a cs c d s Hc _ IH]; [auto|].
  intros Hb. eapply addrs_child; eauto.
Qed.

Lemma subtreeAt_isTree h t d s : subtreeAt t d s -> isTree h t -> isTree h s.
Proof.
  induction 1 as [|a cs c d s Hc _ IH]; [auto|].
  intros Ht. apply IH. eapply isTree_child; eauto.
Qed.

Lemma sameButXY_refl n : sameButXY n n.
Proof. reflexivity. Qed.

Lemma sameButXY_trans n1 n2 n3 : sameButXY n1 n2 -> sameButXY n2 n3 -> sameButXY n1 n3.
Proof. unfold sameButXY. congruence. Qed.

Lemma sameButXY_setXY vx vy n : sameButXY n (setXY vx vy n).
Proof. reflexivity. Qed.

Lemma sameButXY_fields n n' :
  sameButXY n n' ->
  id n' = id n /\ text n' = text n /\ level n' = level n /\ type n' = type n /\
  children n' = children n /\ parent n' = parent n /\ lineNumber n' = lineNumber n /\
  originalText n' = originalText n /\ hasWikilink n' = hasWikilink n /\
  wikilinks n' = wikilinks n /\ color n' = color n /\ collapsed n' = collapsed n.
Proof.
  unfold sameButXY, setXY. destruct n, n'; simpl. intros [=]. subst. repeat split.
Qed.

Lemma Forall2_sameButXY_refl (h : list Node) : Forall2 sameButXY h h.
Proof. apply Forall2_same_length_lookup. split; [reflexivity|]. intros i n n' H1 H2. congruence. Qed.

Lemma Forall2_sameButXY_trans (h1 h2 h3 : list Node) :
  Forall2 sameButXY h1 h2 -> Forall2 sameButXY h2 h3 -> Forall2 sameButXY h1 h3.
Proof.
  intros H12 H23. revert h3 H23. induction H12 as [|n1 n2 h1 h2 Hn _ IH]; intros h3 H23.
  - inversion H23. constructor.
  - inversion H23; subst. constructor; [eapply sameButXY_trans; eauto|auto].
Qed.

Lemma Forall2_sameButXY_place a vx vy (h : list Node) :
  Forall2 sameButXY h (place a vx vy h).
Proof.
  unfold place. apply Forall2_same_length_lookup. split; [now rewrite length_alter|].
  intros i n n' Hn Hn'. destruct (decide (a = i)) as [->|Hne].
  - rewrite list_lookup_alter_eq, Hn in Hn'. simpl in Hn'. injection Hn' as <-.
    apply sameButXY_setXY.
  - rewrite list_lookup_alter_ne in Hn' by assumption. rewrite Hn in Hn'.
    injection Hn' as <-. reflexivity.
Qed.

Lemma frame_lookup (h h' : list Node) a n :
  Forall2 sameButXY h h' -> h !! a = Some n ->
  exists n', h' !! a = Some n' /\ sameButXY n n'.
Proof.
  intros HF Hn. destruct (Forall2_lookup_l _ _ _ _ _ HF Hn) as (n' & ? & ?). eauto.
Qed.

Lemma frame_repr (h h' : list Node) t : Forall2 sameButXY h h' -> repr h t -> repr h' t.
Proof.
  intros HF. apply repr_ext. intros a _.
  destruct (h !! a) as [n|] eqn:E.
  - destruct (frame_lookup _ _ _ _ HF E) as (n' & -> & Hs). simpl.
    apply sameButXY_fields in Hs. f_equal. tauto.
  - apply lookup_ge_None in E. rewrite (Forall2_length _ _ _ HF) in E.
    apply lookup_ge_None in E. now rewrite E.
Qed.

End Trees.

(** ** The layout writes coordinates only *)

Section LayoutFrame.

Lemma placeChildren_frame sub baseX :
  (forall h c h', sub h c = Some h' -> Forall2 sameButXY h h') ->
  forall cs h top h', placeChildren sub baseX h cs top = Some h' -> Forall2 sameButXY h h'.
Proof.
  intros Hsub. induction cs as [|[c ch] cs IH]; intros h top h'; simpl.
  - intros [= <-]. apply Forall2_sameButXY_refl.
  - destruct (sub _ c) as [h2|] eqn:E; simpl; [|discriminate].
    intros H. eapply Forall2_sameButXY_trans; [apply Forall2_sameButXY_place|].
    eapply Forall2_sameButXY_trans; [eapply Hsub; exact E|]. eapply IH; exact H.
Qed.

Lemma arrangeHorizontalSubtree_eq fuel h a dir lvl :
  arrangeHorizontalSubtree (S fuel) h a dir lvl
  = (node ← h !! a;
     match children node with
     | [] => Some h
     | cs =>
         px ← x node;
         py ← y node;
         childHeights ← mapM (fun c => calculateSubtreeHeight fuel h c (lvl + 1)%Z) cs;
         placeChildren
           (fun h' child => arrangeHorizontalSubtree fuel h' child dir (lvl + 1)%Z)
           (px + inject_Z (match dir with dirRight => 1 | dirLeft => -1 end
                           * Z.max (220 - lvl * 20) 150))%Q
           h (zip cs childHeights) (py - inject_Z (sumZ childHeights) / 2)%Q
     end).
Proof. reflexivity. Qed.

Lemma arrangeHorizontalSubtree_frame fuel :
  forall h a dir lvl h',
    arrangeHorizontalSubtree fuel h a dir lvl = Some h' -> Forall2 sameButXY h h'.
Proof.
  induction fuel as [|fuel IH]; intros h a dir lvl h'; [discriminate|].
  rewrite arrangeHorizontalSubtree_eq.
  destruct (h !! a) as [node|]; cbn [mbind option_bind]; [|discriminate].
  destruct (children node) as [|c cs]; [intros [= <-]; apply Forall2_sameButXY_refl|].
  destruct (x node) as [px|]; cbn [mbind option_bind]; [|discriminate].
  destruct (y node) as [py|]; cbn [mbind option_bind]; [|discriminate].
  match goal with |- context [mapM ?f ?l] => destruct (mapM f l) as [hs|] end;
    cbn [mbind option_bind]; [|discriminate].
  apply placeChildren_frame. intros h1 c1 h2. apply IH.
Qed.

Lemma placeBranches_frame fuel dir vx cy count :
  forall bs h i h',
    placeBranches fuel dir vx cy count h bs i = Some h' -> Forall2 sameButXY h h'.
Proof.
  induction bs as [|b bs IH]; intros h i h'; simpl.
  - intros [= <-]. apply Forall2_sameButXY_refl.
  - destruct (arrangeHorizontalSubtree fuel _ b dir 0) as [h2|] eqn:E; simpl; [|discriminate].
    intros H. eapply Forall2_sameButXY_trans; [apply Forall2_sameButXY_place|].
    eapply Forall2_sameButXY_trans; [eapply arrangeHorizontalSubtree_frame; exact E|].
    eapply IH; exact H.
Qed.

Lemma arrangeHorizontalTree_frame fuel h c cx cy h' :
  arrangeHorizontalTree fuel h c cx cy = Some h' -> Forall2 sameButXY h h'.
Proof.
  unfold arrangeHorizontalTree. destruct (h !! c) as [node|]; simpl; [|discriminate].
  destruct (children node) as [|b bs] eqn:Ec; [intros [= <-]; apply Forall2_sameButXY_refl|].
  destruct (placeBranches fuel dirRight _ cy _ h _ 0) as [h1|] eqn:E1; simpl; [|discriminate].
  intros E2. eapply Forall2_sameButXY_trans; eapply placeBranches_frame; eauto.
Qed.

Lemma calculateNodePositions_frame h root h' :
  calculateNodePositions h root = Some h' -> Forall2 sameButXY h h'.
Proof.
  unfold calculateNodePositions. destruct (h !! root) as [r|]; simpl; [|discriminate].
  destruct (children r) as [|c cs]; [intros [= <-]; apply Forall2_sameButXY_refl|].
  intros H. eapply Forall2_sameButXY_trans; [apply Forall2_sameButXY_place|].
  eapply arrangeHorizontalTree_frame; exact H.
Qed.

End LayoutFrame.

(** ** Reserved heights *)

Section Heights.

Lemma mapM_map_Some {A B C} (f : B -> option C) (r : A -> B) (g : A -> C) (l : list A) :
  Forall (fun a => f (r a) = Some (g a)) l -> mapM f (map r l) = Some (map g l).
Proof.
  induction 1 as [|a l Ha _ IH]; [reflexivity|].
  simpl. rewrite Ha. simpl. rewrite IH. reflexivity.
Qed.

Lemma foldr_max_le (l : list nat) n : n ∈ l -> n <= foldr Nat.max 0 l.
Proof.
  induction l as [|m l IH]; intros H; [now apply elem_of_nil in H|].
  apply elem_of_cons in H. simpl. destruct H as [->|H]; [lia|]. specialize (IH H). lia.
Qed.

(** On a shape of the store, with fuel for its depth, the method returns the
    reserved height of the shape. *)
Lemma calculateSubtreeHeight_spec h t :
  repr h t -> forall fuel lvl, height t <= fuel ->
  calculateSubtreeHeight fuel h (rootOf t) lvl = Some (subtreeHeight h t lvl).
Proof.
  induction t as [a cs IH] using ATree_ind'. intros Hr fuel lvl Hf.
  apply repr_inv in Hr. destruct Hr as (n & Hn & Hc & Hcs).
  destruct fuel as [|fuel]; [simpl in Hf; lia|].
  simpl. rewrite Hn. simpl. rewrite Hc, length_map.
  destruct ((length cs =? 0) || isCollapsed n); [reflexivity|].
  rewrite (mapM_map_Some _ rootOf (fun c => subtreeHeight h c (lvl + 1)%Z)); [reflexivity|].
  rewrite Forall_forall in IH, Hcs. apply Forall_forall. intros c Hcin.
  apply IH; auto. pose proof (height_child a cs c Hcin) as Hh. simpl in Hh, Hf. lia.
Qed.

Lemma subtreeHeight_ext h h' t lvl :
  (forall a, a ∈ addrs t -> collapsed <$> h' !! a = collapsed <$> h !! a) ->
  subtreeHeight h' t lvl = subtreeHeight h t lvl.
Proof.
  revert lvl. induction t as [a cs IH] using ATree_ind'. intros lvl Hext. simpl.
  assert (Ha : from_option isCollapsed false (h' !! a) = from_option isCollapsed false (h !! a)).
  { pose proof (Hext a (addrs_root (ANode a cs))) as E.
    destruct (h' !! a), (h !! a); simpl in *; try congruence.
    unfold isCollapsed. congruence. }
  rewrite Ha. destruct ((length cs =? 0) || _); [reflexivity|].
  f_equal. f_equal. apply map_ext_in. intros c Hc. apply list_elem_of_In in Hc.
  rewrite Forall_forall in IH. apply IH; auto.
  intros b Hb. apply Hext. eapply addrs_child; eauto.
Qed.

Lemma subtreeHeight_frame (h h' : list Node) t lvl :
  Forall2 sameButXY h h' -> subtreeHeight h' t lvl = subtreeHeight h t lvl.
Proof.
  intros HF. apply subtreeHeight_ext. intros a _.
  destruct (h !! a) as [n|] eqn:E.
  - destruct (frame_lookup _ _ _ _ HF E) as (n' & -> & Hs). simpl.
    apply sameButXY_fields in Hs. f_equal. tauto.
  - apply lookup_ge_None in E. rewrite (Forall2_length _ _ _ HF) in E.
    apply lookup_ge_None in E. now rewrite E.
Qed.

Lemma slotHeight_pos lvl : (60 <= slotHeight lvl)%Z.
Proof. unfold slotHeight. lia. Qed.

Lemma subtreeHeight_pos h t lvl : (60 <= subtreeHeight h t lvl)%Z.
Proof.
  destruct t as [a cs]. simpl. pose proof (slotHeight_pos lvl).
  destruct ((length cs =? 0) || _); lia.
Qed.

End Heights.

(** ** What the subtree layout does on a tree *)

Section ArrangeSpec.

Lemma place_lookup_eq a vx vy (h : list Node) n :
  h !! a = Some n -> place a vx vy h !! a = Some (setXY (Some vx) (Some vy) n).
Proof. intros Hn. unfold place. now rewrite list_lookup_alter_eq, Hn. Qed.

Lemma place_lookup_ne a b vx vy (h : list Node) :
  a <> b -> place a vx vy h !! b = h !! b.
Proof. intros Hne. unfold place. now rewrite list_lookup_alter_ne. Qed.

Lemma stacked_ext h h' lvl cs top :
  (forall a, a ∈ flat_map addrs cs -> h' !! a = h !! a) ->
  stacked h lvl cs top -> stacked h' lvl cs top.
Proof.
  revert top. induction cs as [|c cs IH]; intros top Hext; simpl; [auto|].
  assert (Hc : forall a, a ∈ addrs c -> h' !! a = h !! a).
  { intros a Ha. apply Hext. simpl. apply elem_of_app. now left. }
  assert (HH : subtreeHeight h' c lvl = subtreeHeight h c lvl).
  { apply subtreeHeight_ext. intros a Ha. now rewrite Hc. }
  intros [(q & Hq & Hqe) Hrest]. split.
  - exists q. unfold yAt in *. rewrite Hc by apply addrs_root. rewrite HH. auto.
  - rewrite HH. apply IH; [|exact Hrest].
    intros a Ha. apply Hext. simpl. apply elem_of_app. now right.
Qed.

Lemma allStacked_ext h h' t :
  forall lvl, (forall a, a ∈ addrs t -> h' !! a = h !! a) ->
  allStacked h lvl t -> allStacked h' lvl t.
Proof.
  induction t as [a cs IH] using ATree_ind'. intros lvl Hext Hs.
  inversion Hs as [lvl' a' cs' top Hst Hall]; subst.
  apply allStacked_node with top.
  - eapply stacked_ext; [|exact Hst]. intros b Hb. apply Hext.
    simpl. apply elem_of_cons. now right.
  - rewrite Forall_forall in IH, Hall. apply Forall_forall. intros c Hc.
    apply IH; auto. intros b Hb. apply Hext. eapply addrs_child; eauto.
Qed.

Lemma root_not_in_kids a cs : NoDup (addrs (ANode a cs)) -> a ∉ flat_map addrs cs.
Proof. simpl. intros H. now apply NoDup_cons in H. Qed.

Lemma kids_in_addrs t a : a ∈ flat_map addrs (kids t) -> a ∈ addrs t.
Proof. destruct t as [b cs]. simpl. intros H. apply elem_of_cons. now right. Qed.

(** Placing the root of a subtree and laying the subtree out. *)
Lemma place_then_arrange fuel c h dir lvl vx vy :
  arrangeOk fuel -> isTree h c -> height c <= fuel ->
  exists n h2,
    h !! rootOf c = Some n /\
    arrangeHorizontalSubtree fuel (place (rootOf c) vx vy h) (rootOf c) dir lvl = Some h2 /\
    Forall2 sameButXY h h2 /\
    (forall a, a ∉ addrs c -> h2 !! a = h !! a) /\
    h2 !! rootOf c = Some (setXY (Some vx) (Some vy) n) /\
    allStacked h2 lvl c.
Proof.
  intros IH [Hr Hnd] Hh. destruct (repr_root _ _ Hr) as (n & Hn & _).
  set (h1 := place (rootOf c) vx vy h).
  assert (HF1 : Forall2 sameButXY h h1) by apply Forall2_sameButXY_place.
  assert (Hn1 : h1 !! rootOf c = Some (setXY (Some vx) (Some vy) n))
    by now apply place_lookup_eq.
  destruct (IH c h1 dir lvl) as (h2 & E & Hfoot & Hst).
  - split; [eapply frame_repr; eauto|exact Hnd].
  - exact Hh.
  - intros _. unfold xAt, yAt. rewrite Hn1. simpl. eauto.
  - exists n, h2. split; [exact Hn|]. split; [exact E|]. split; [|split; [|split]].
    + eapply Forall2_sameButXY_trans; [exact HF1|].
      eapply arrangeHorizontalSubtree_frame; exact E.
    + intros a Ha. rewrite Hfoot.
      * apply place_lookup_ne. intros <-. apply Ha, addrs_root.
      * intros Hk. apply Ha. now apply kids_in_addrs.
    + rewrite Hfoot; [exact Hn1|]. destruct c as [b cs]. now apply root_not_in_kids.
    + exact Hst.
Qed.

Lemma NoDup_flat_map_cons c (cs : list ATree) :
  NoDup (flat_map addrs (c :: cs)) ->
  NoDup (addrs c) /\ NoDup (flat_map addrs cs) /\
  (forall a, a ∈ addrs c -> a ∉ flat_map addrs cs).
Proof. simpl. intros H. apply NoDup_app in H. tauto. Qed.

Lemma placeChildren_spec fuel dir lvl baseX (h0 : list Node) :
  arrangeOk fuel ->
  forall cs h top,
    Forall2 sameButXY h0 h ->
    Forall (repr h) cs -> NoDup (flat_map addrs cs) ->
    Forall (fun c => height c <= fuel) cs ->
    exists h',
      placeChildren
        (fun h' child => arrangeHorizontalSubtree fuel h' child dir (lvl + 1)%Z) baseX h
        (zip (map rootOf cs) (map (fun c => subtreeHeight h0 c (lvl + 1)%Z) cs)) top
      = Some h' /\
      Forall2 sameButXY h h' /\
      (forall a, a ∉ flat_map addrs cs -> h' !! a = h !! a) /\
      stacked h' (lvl + 1)%Z cs top /\
      Forall (allStacked h' (lvl + 1)%Z) cs.
Proof.
  intros IH. induction cs as [|c cs IHcs]; intros h top HF0 Hr Hnd Hh.
  - exists h. simpl. repeat split; auto using Forall2_sameButXY_refl.
  - apply Forall_cons in Hr. destruct Hr as [Hrc Hrcs].
    apply Forall_cons in Hh. destruct Hh as [Hhc Hhcs].
    apply NoDup_flat_map_cons in Hnd. destruct Hnd as (Hndc & Hndcs & Hdisj).
    set (H := subtreeHeight h0 c (lvl + 1)%Z).
    destruct (place_then_arrange fuel c h dir (lvl + 1)%Z baseX
                (top + inject_Z H / 2)%Q IH (conj Hrc Hndc) Hhc)
      as (n & h2 & Hn & E & HF2 & Hfoot2 & Hroot2 & Hst2).
    destruct (IHcs h2 (top + inject_Z H)%Q) as (h' & E' & HF' & Hfoot' & Hst' & Hall').
    + eapply Forall2_sameButXY_trans; eauto.
    + eapply Forall_impl; [exact Hrcs|]. intros t. now apply frame_repr.
    + exact Hndcs.
    + exact Hhcs.
    + assert (HFfinal : Forall2 sameButXY h0 h').
      { eapply Forall2_sameButXY_trans; [exact HF0|].
        eapply Forall2_sameButXY_trans; eauto. }
      assert (Hagree : forall a, a ∈ addrs c -> h' !! a = h2 !! a).
      { intros a Ha. apply Hfoot'. now apply Hdisj. }
      exists h'. simpl. fold H. rewrite E. cbn [mbind option_bind]. rewrite E'.
      split; [reflexivity|]. split; [eapply Forall2_sameButXY_trans; eauto|].
      split; [|split; [split|]].
      * intros a Ha. rewrite Hfoot', Hfoot2; [reflexivity| |].
        -- intros Hin. apply Ha. apply elem_of_app. now left.
        -- intros Hin. apply Ha. apply elem_of_app. now right.
      * exists (top + inject_Z H / 2)%Q. unfold yAt.
        rewrite Hagree by apply addrs_root. rewrite Hroot2. simpl.
        split; [reflexivity|]. rewrite (subtreeHeight_frame h0 h') by assumption.
        reflexivity.
      * rewrite (subtreeHeight_frame h0 h') by assumption. exact Hst'.
      * constructor; [|exact Hall']. eapply allStacked_ext; [|exact Hst2]. exact Hagree.
Qed.

Lemma height_kids (cs : list ATree) :
  Forall (fun c => height c <= foldr Nat.max 0 (map height cs)) cs.
Proof.
  apply Forall_forall. intros c Hc. apply foldr_max_le.
  apply list_elem_of_In, in_map, list_elem_of_In. exact Hc.
Qed.

Lemma arrangeOk_all fuel : arrangeOk fuel.
Proof.
  induction fuel as [|fuel IH]; intros [a cs] h dir lvl [Hr Hnd] Hh Hpos.
  { simpl in Hh. lia. }
  pose proof Hr as Hr'. apply repr_inv in Hr'. destruct Hr' as (n & Hn & Hc & Hcs).
  simpl rootOf. rewrite arrangeHorizontalSubtree_eq, Hn. cbn [mbind option_bind].
  destruct cs as [|c cs].
  { rewrite Hc. simpl. exists h. repeat split; auto.
    apply allStacked_node with 0%Q; constructor. }
  rewrite Hc. change (map rootOf (c :: cs)) with (rootOf c :: map rootOf cs).
  cbv beta iota. change (rootOf c :: map rootOf cs) with (map rootOf (c :: cs)).
  destruct Hpos as [[px Hpx] [py Hpy]]; [discriminate|].
  unfold xAt, yAt in Hpx, Hpy. simpl in Hpx, Hpy. rewrite Hn in Hpx, Hpy.
  simpl in Hpx, Hpy. rewrite Hpx, Hpy. cbn [mbind option_bind].
  assert (Hkh : Forall (fun k => height k <= fuel) (c :: cs)).
  { eapply Forall_impl; [apply height_kids|]. intros k Hk. simpl in Hh, Hk. lia. }
  rewrite (mapM_map_Some _ rootOf (fun k => subtreeHeight h k (lvl + 1)%Z)).
  2:{ rewrite Forall_forall in Hcs, Hkh. apply Forall_forall. intros k Hk.
      apply calculateSubtreeHeight_spec; auto. }
  cbn [mbind option_bind].
  destruct (placeChildren_spec fuel dir lvl
              (px + inject_Z (match dir with dirRight => 1 | dirLeft => -1 end
                              * Z.max (220 - lvl * 20) 150))%Q h IH (c :: cs) h
              (py - inject_Z (sumZ (map (fun k => subtreeHeight h k (lvl + 1)%Z) (c :: cs))) / 2)%Q)
    as (h' & E & HF & Hfoot & Hst & Hall).
  - apply Forall2_sameButXY_refl.
  - exact Hcs.
  - simpl in Hnd. now apply NoDup_cons in Hnd.
  - exact Hkh.
  - exists h'. split; [exact E|]. split; [exact Hfoot|].
    eapply allStacked_node; eauto.
Qed.

End ArrangeSpec.

(** ** The whole layout on a tree *)

Section LayoutSpec.

Lemma placeBranches_spec fuel dir vx cy count :
  forall bs h i,
    Forall (repr h) bs -> NoDup (flat_map addrs bs) ->
    Forall (fun b => height b <= fuel) bs ->
    exists h',
      placeBranches fuel dir vx cy count h (map rootOf bs) i = Some h' /\
      Forall2 sameButXY h h' /\
      (forall a, a ∉ flat_map addrs bs -> h' !! a = h !! a) /\
      Forall (allStacked h' 0) bs.
Proof.
  induction bs as [|b bs IH]; intros h i Hr Hnd Hh.
  - exists h. simpl. repeat split; auto using Forall2_sameButXY_refl.
  - apply Forall_cons in Hr. destruct Hr as [Hrb Hrbs].
    apply Forall_cons in Hh. destruct Hh as [Hhb Hhbs].
    apply NoDup_flat_map_cons in Hnd. destruct Hnd as (Hndb & Hndbs & Hdisj).
    destruct (place_then_arrange fuel b h dir 0 vx
                (cy + (inject_Z (Z.of_nat i) - (inject_Z (Z.of_nat count) - 1) / 2) * 100)%Q
                (arrangeOk_all fuel) (conj Hrb Hndb) Hhb)
      as (n & h2 & Hn & E & HF2 & Hfoot2 & Hroot2 & Hst2).
    destruct (IH h2 (S i)) as (h' & E' & HF' & Hfoot' & Hall'); auto.
    { eapply Forall_impl; [exact Hrbs|]. intros t. now apply frame_repr. }
    exists h'. simpl. rewrite E. cbn [mbind option_bind]. rewrite E'.
    split; [reflexivity|]. split; [eapply Forall2_sameButXY_trans; eauto|]. split.
    + intros a Ha. rewrite Hfoot', Hfoot2; [reflexivity| |].
      * intros Hin. apply Ha. apply elem_of_app. now left.
      * intros Hin. apply Ha. apply elem_of_app. now right.
    + constructor; [|exact Hall']. eapply allStacked_ext; [|exact Hst2].
      intros a Ha. apply Hfoot'. now apply Hdisj.
Qed.

Lemma flat_map_take_drop (bs : list ATree) k :
  flat_map addrs bs = flat_map addrs (take k bs) ++ flat_map addrs (drop k bs).
Proof. now rewrite <- flat_map_app, take_drop. Qed.

Lemma map_take {A B} (f : A -> B) (l : list A) k : take k (map f l) = map f (take k l).
Proof. revert k; induction l; intros [|k]; simpl; f_equal; auto. Qed.

Lemma map_drop {A B} (f : A -> B) (l : list A) k : drop k (map f l) = map f (drop k l).
Proof. revert k; induction l; intros [|k]; simpl; f_equal; auto. Qed.

Lemma Forall_take_drop {A} (P : A -> Prop) (l : list A) k :
  Forall P l -> Forall P (take k l) /\ Forall P (drop k l).
Proof. intros H. rewrite <- (take_drop k l) in H. now apply Forall_app in H. Qed.

(** The layout of the branches of the centre. *)
Lemma arrangeHorizontalTree_spec fuel h c bs cx cy :
  isTree h (ANode c bs) -> height (ANode c bs) <= S fuel ->
  exists h', arrangeHorizontalTree fuel h c cx cy = Some h' /\
    Forall (allStacked h' 0) bs.
Proof.
  intros [Hr Hnd] Hh. apply repr_inv in Hr. destruct Hr as (n & Hn & Hc & Hcs).
  unfold arrangeHorizontalTree. rewrite Hn. cbn [mbind option_bind].
  destruct bs as [|b bs'] eqn:Ebs.
  { rewrite Hc. simpl. eauto. }
  rewrite <- Ebs in *. rewrite Hc.
  assert (Hne : map rootOf bs <> []) by (rewrite Ebs; discriminate).
  destruct (map rootOf bs) as [|r0 rs] eqn:Em; [congruence|]. rewrite <- Em. clear Hne.
  rewrite length_map. set (rc := (length bs + 1) / 2).
  assert (Hkh : Forall (fun k => height k <= fuel) bs).
  { eapply Forall_impl; [apply height_kids|]. intros k Hk. simpl in Hh, Hk. lia. }
  apply root_not_in_kids in Hnd as Hroot. simpl in Hnd. apply NoDup_cons in Hnd.
  destruct Hnd as [_ Hnd]. rewrite (flat_map_take_drop bs rc) in Hnd.
  apply NoDup_app in Hnd. destruct Hnd as (Hnd1 & Hdisj & Hnd2).
  destruct (Forall_take_drop _ _ rc Hcs) as [Hcs1 Hcs2].
  destruct (Forall_take_drop _ _ rc Hkh) as [Hkh1 Hkh2].
  rewrite map_take, map_drop.
  destruct (placeBranches_spec fuel dirRight (cx + 300)%Q cy rc (take rc bs) h 0)
    as (h1 & E1 & HF1 & Hfoot1 & Hall1); auto.
  rewrite E1. cbn [mbind option_bind].
  destruct (placeBranches_spec fuel dirLeft (cx - 300)%Q cy (length bs - rc)
              (drop rc bs) h1 0) as (h2 & E2 & HF2 & Hfoot2 & Hall2); auto.
  { eapply Forall_impl; [exact Hcs2|]. intros t. now apply frame_repr. }
  exists h2. split; [exact E2|].
  rewrite <- (take_drop rc bs). apply Forall_app. split; [|exact Hall2].
  rewrite Forall_forall in Hall1. apply Forall_forall. intros t Ht.
  eapply allStacked_ext; [|apply Hall1; exact Ht].
  intros a Ha. apply Hfoot2. apply Hdisj.
  apply list_elem_of_In, in_flat_map. exists t. split; now apply list_elem_of_In.
Qed.

(** [calculateNodePositions] returns on a tree, and under every branch of
    the centre the children of each node are stacked. *)
Lemma calculateNodePositions_spec h t :
  isTree h t ->
  exists h', calculateNodePositions h (rootOf t) = Some h' /\
    Forall2 sameButXY h h' /\
    forall c bs rest, kids t = ANode c bs :: rest -> Forall (allStacked h' 0) bs.
Proof.
  intros Ht. pose proof (isTree_height _ _ Ht) as Hh. destruct Ht as [Hr Hnd].
  destruct t as [r cs]. apply repr_inv in Hr. destruct Hr as (n & Hn & Hc & Hcs).
  simpl rootOf. unfold calculateNodePositions. rewrite Hn. cbn [mbind option_bind].
  rewrite Hc. destruct cs as [|[c bs] rest].
  { simpl. exists h. split; [reflexivity|]. split; [apply Forall2_sameButXY_refl|].
    intros c bs rest [=]. }
  simpl map. cbv beta iota.
  apply Forall_cons in Hcs. destruct Hcs as [Hrc _].
  assert (Hndc : NoDup (addrs (ANode c bs))).
  { eapply (NoDup_child r (ANode c bs :: rest)); [|exact Hnd]. apply elem_of_cons. now left. }
  destruct (arrangeHorizontalTree_spec (length h) (place c 600 400 h) c bs 600 400)
    as (h' & E & Hall).
  - split; [|exact Hndc]. eapply frame_repr; [apply Forall2_sameButXY_place|exact Hrc].
  - pose proof (height_child r (ANode c bs :: rest) (ANode c bs)) as Hlt.
    assert (Hin : ANode c bs ∈ ANode c bs :: rest) by (apply elem_of_cons; now left).
    specialize (Hlt Hin). lia.
  - exists h'. split; [exact E|]. split.
    + eapply Forall2_sameButXY_trans; [apply Forall2_sameButXY_place|].
      eapply arrangeHorizontalTree_frame; exact E.
    + intros c' bs' rest' [= <- <- <-]. exact Hall.
Qed.

Lemma band_top (top w q : Q) : (q == top + w / 2 -> top <= q - w / 2)%Q.
Proof. intros H. unfold Qdiv in *. change (/ 2)%Q with (1#2)%Q in *. lra. Qed.

Lemma band_next (top w v q yB : Q) :
  (q == top + w / 2 -> top + w <= yB - v / 2 -> q + w / 2 <= yB - v / 2)%Q.
Proof. intros H1 H2. unfold Qdiv in *. change (/ 2)%Q with (1#2)%Q in *. lra. Qed.

Lemma band_grows (top w r : Q) : (0 <= w -> top + w <= r -> top <= r)%Q.
Proof. intros H1 H2. unfold Qdiv in *. change (/ 2)%Q with (1#2)%Q in *. lra. Qed.

Lemma stacked_below h lvl cs top j B :
  stacked h lvl cs top -> cs !! j = Some B ->
  exists yB, yAt h (rootOf B) = Some yB /\
    (top <= yB - inject_Z (subtreeHeight h B lvl) / 2)%Q.
Proof.
  revert top j. induction cs as [|c cs IH]; intros top j Hst Hj; [discriminate|].
  destruct Hst as [(q & Hq & Hqe) Hrest]. destruct j as [|j].
  - injection Hj as <-. exists q. split; [exact Hq|]. now apply band_top.
  - destruct (IH _ _ Hrest Hj) as (yB & HyB & Hle). exists yB. split; [exact HyB|].
    pose proof (subtreeHeight_pos h c lvl) as Hpos.
    assert (0 <= inject_Z (subtreeHeight h c lvl))%Q.
    { change 0%Q with (inject_Z 0). rewrite <- Zle_Qle. lia. }
    eapply band_grows; eauto.
Qed.

Lemma stacked_separates h lvl cs top i j A B :
  stacked h lvl cs top -> i < j -> cs !! i = Some A -> cs !! j = Some B ->
  exists yA yB, yAt h (rootOf A) = Some yA /\ yAt h (rootOf B) = Some yB /\
    (yA + inject_Z (subtreeHeight h A lvl) / 2
     <= yB - inject_Z (subtreeHeight h B lvl) / 2)%Q.
Proof.
  revert top i j. induction cs as [|c cs IH]; intros top i j Hst Hij Hi Hj; [discriminate|].
  destruct Hst as [(q & Hq & Hqe) Hrest]. destruct j as [|j]; [lia|].
  destruct i as [|i].
  - injection Hi as <-. simpl in Hj.
    destruct (stacked_below _ _ _ _ _ _ Hrest Hj) as (yB & HyB & Hle).
    exists q, yB. split; [exact Hq|]. split; [exact HyB|]. eapply band_next; eauto.
  - simpl in Hi, Hj. apply (IH _ i j Hrest); [lia|exact Hi|exact Hj].
Qed.

Lemma allStacked_subtree h t d s :
  subtreeAt t d s -> forall lvl, allStacked h lvl t -> allStacked h (lvl + Z.of_nat d)%Z s.
Proof.
  induction 1 as [t|a cs c d s Hc _ IH]; intros lvl Hst.
  - now rewrite Z.add_0_r.
  - inversion Hst as [lvl' a' cs' top _ Hall]; subst.
    rewrite Forall_forall in Hall. specialize (IH _ (Hall c Hc)).
    replace (lvl + Z.of_nat (S d))%Z with (lvl + 1 + Z.of_nat d)%Z by lia. exact IH.
Qed.

End LayoutSpec.

(** ** Reading a shape off the store *)

Section ShapeOf.

Lemma mapM_Some_Forall2 {A B} (f : A -> option B) (l : list A) (k : list B) :
  mapM f l = Some k -> Forall2 (fun a b => f a = Some b) l k.
Proof. intros H. now apply mapM_Some_1 in H. Qed.

Lemma shapeOf_repr fuel :
  forall h a t, shapeOf fuel h a = Some t -> repr h t /\ rootOf t = a.
Proof.
  induction fuel as [|fuel IH]; intros h a t; simpl; [discriminate|].
  destruct (h !! a) as [n|] eqn:Hn; cbn [mbind option_bind]; [|discriminate].
  destruct (mapM (shapeOf fuel h) (children n)) as [cs|] eqn:Hm;
    cbn [mbind option_bind]; [|discriminate].
  intros [= <-]. split; [|reflexivity].
  apply mapM_Some_Forall2 in Hm.
  apply repr_node with n; [exact Hn| |].
  - clear Hn. induction Hm as [|c t cs ts Hc _ IHm]; simpl; [reflexivity|].
    destruct (IH _ _ _ Hc) as [_ <-]. now rewrite IHm.
  - clear Hn. induction Hm as [|c t cs ts Hc _ IHm]; constructor; auto.
    now destruct (IH _ _ _ Hc).
Qed.

Lemma treeAt_isTree h a t : treeAt h a = Some t -> isTree h t /\ rootOf t = a.
Proof.
  unfold treeAt. destruct (shapeOf (length h) h a) as [t'|] eqn:E;
    cbn [mbind option_bind]; [|discriminate].
  destruct (bool_decide (NoDup (addrs t'))) eqn:Hnd; [|discriminate].
  intros [= <-]. apply bool_decide_eq_true in Hnd.
  destruct (shapeOf_repr _ _ _ _ E). repeat split; auto.
Qed.

End ShapeOf.

(** ** C3, C6, C10: the layout *)

(** C10.  On a tree, [calculateNodePositions] returns, and the store it
    returns has the same objects at the same addresses, each with the [id],
    [text], [level], [type], [children], [parent], [lineNumber],
    [originalText], [hasWikilink], [wikilinks], [color] and [collapsed] it had:
    only [x] and [y] are written. *)
Theorem layout_writes_coordinates_only (h : list Node) (t : ATree) :
  isTree h t ->
  exists h', calculateNodePositions h (rootOf t) = Some h' /\
    length h' = length h /\
    forall a n, h !! a = Some n ->
      exists n', h' !! a = Some n' /\
        id n' = id n /\ text n' = text n /\ level n' = level n /\ type n' = type n /\
        children n' = children n /\ parent n' = parent n /\
        lineNumber n' = lineNumber n /\ originalText n' = originalText n /\
        hasWikilink n' = hasWikilink n /\ wikilinks n' = wikilinks n /\
        color n' = color n /\ collapsed n' = collapsed n.
Proof.
  intros Ht. destruct (calculateNodePositions_spec h t Ht) as (h' & E & HF & _).
  exists h'. split; [exact E|]. split; [symmetry; eapply Forall2_length; exact HF|].
  intros a n Hn. destruct (frame_lookup _ _ _ _ HF Hn) as (n' & Hn' & Hs).
  exists n'. split; [exact Hn'|]. now apply sameButXY_fields.
Qed.

Lemma layout_writes_coordinates_only_witness :
  exists h', calculateNodePositions outlineStore 0 = Some h' /\
    length h' = length outlineStore /\
    forall a n, outlineStore !! a = Some n ->
      exists n', h' !! a = Some n' /\
        id n' = id n /\ text n' = text n /\ level n' = level n /\ type n' = type n /\
        children n' = children n /\ parent n' = parent n /\
        lineNumber n' = lineNumber n /\ originalText n' = originalText n /\
        hasWikilink n' = hasWikilink n /\ wikilinks n' = wikilinks n /\
        color n' = color n /\ collapsed n' = collapsed n.
Proof.
  apply (layout_writes_coordinates_only outlineStore outlineTree).
  exact (proj1 (treeAt_isTree outlineStore 0 outlineTree eq_refl)).
Defined.

(** C3, as the code has it.  On a tree, [calculateNodePositions] returns, and
    for every node [p] that is a branch of the centre or lies under one, [d]
    levels under the branch, any two children [A] before [B] of [p] keep
    apart: y(A) + H(A)/2 <= y(B) - H(B)/2, H being what
    [calculateSubtreeHeight] reserves for the child at depth [d + 1]. *)
Theorem stacked_siblings_do_not_overlap (h : list Node) (t : ATree) :
  isTree h t ->
  exists h', calculateNodePositions h (rootOf t) = Some h' /\
    forall center branches rest branch d p ps i j A B,
      kids t = ANode center branches :: rest ->
      branch ∈ branches -> subtreeAt branch d (ANode p ps) ->
      i < j -> ps !! i = Some A -> ps !! j = Some B ->
      exists yA yB HA HB,
        yAt h' (rootOf A) = Some yA /\ yAt h' (rootOf B) = Some yB /\
        calculateSubtreeHeight (length h') h' (rootOf A) (Z.of_nat d + 1) = Some HA /\
        calculateSubtreeHeight (length h') h' (rootOf B) (Z.of_nat d + 1) = Some HB /\
        (yA + inject_Z HA / 2 <= yB - inject_Z HB / 2)%Q.
Proof.
  intros Ht. destruct (calculateNodePositions_spec h t Ht) as (h' & E & HF & Hall).
  exists h'. split; [exact E|].
  intros center branches rest branch d p ps i j A B Hk Hb Hsub Hij HA HB.
  assert (Ht' : isTree h' t).
  { destruct Ht as [Hr Hnd]. split; [eapply frame_repr; eauto|exact Hnd]. }
  destruct t as [r cs]. simpl in Hk. subst cs.
  assert (Hp : isTree h' (ANode p ps)).
  { eapply subtreeAt_isTree; [exact Hsub|].
    eapply isTree_child; [exact Hb|].
    eapply isTree_child; [|exact Ht']. apply elem_of_cons. now left. }
  specialize (Hall center branches rest eq_refl). rewrite Forall_forall in Hall.
  pose proof (allStacked_subtree h' branch d _ Hsub 0%Z (Hall branch Hb)) as Hst.
  inversion Hst as [lvl' a' cs' top Hstk _]; subst.
  destruct (stacked_separates _ _ _ _ _ _ _ _ Hstk Hij HA HB) as (yA & yB & HyA & HyB & Hle).
  assert (Hheight : forall C, C ∈ ps ->
            calculateSubtreeHeight (length h') h' (rootOf C) (Z.of_nat d + 1)
            = Some (subtreeHeight h' C (0 + Z.of_nat d + 1)%Z)).
  { intros C HC. pose proof (isTree_child _ _ _ _ HC Hp) as HtC.
    rewrite Z.add_0_l. apply calculateSubtreeHeight_spec; [apply HtC|].
    now apply isTree_height. }
  exists yA, yB, (subtreeHeight h' A (0 + Z.of_nat d + 1)%Z),
    (subtreeHeight h' B (0 + Z.of_nat d + 1)%Z).
  split; [exact HyA|]. split; [exact HyB|].
  split; [apply Hheight; eapply list_elem_of_lookup_2; exact HA|].
  split; [apply Hheight; eapply list_elem_of_lookup_2; exact HB|].
  exact Hle.
Qed.

Lemma stacked_siblings_do_not_overlap_witness :
  exists h', calculateNodePositions nestedStore (rootOf nestedTree) = Some h' /\
    forall center branches rest branch d p ps i j A B,
      kids nestedTree = ANode center branches :: rest ->
      branch ∈ branches -> subtreeAt branch d (ANode p ps) ->
      i < j -> ps !! i = Some A -> ps !! j = Some B ->
      exists yA yB HA HB,
        yAt h' (rootOf A) = Some yA /\ yAt h' (rootOf B) = Some yB /\
        calculateSubtreeHeight (length h') h' (rootOf A) (Z.of_nat d + 1) = Some HA /\
        calculateSubtreeHeight (length h') h' (rootOf B) (Z.of_nat d + 1) = Some HB /\
        (yA + inject_Z HA / 2 <= yB - inject_Z HB / 2)%Q.
Proof.
  apply (stacked_siblings_do_not_overlap nestedStore nestedTree).
  exact (proj1 (treeAt_isTree nestedStore 0 nestedTree eq_refl)).
Defined.

Lemma leaf_height (h : list Node) a n fuel lvl :
  h !! a = Some n -> children n = [] ->
  calculateSubtreeHeight (S fuel) h a lvl = Some (slotHeight lvl).
Proof. intros Hn Hc. simpl. rewrite Hn. simpl. now rewrite Hc. Qed.

Lemma bands_collide (yA yB wA wB : Q) :
  (yA == yB -> 60 <= wA -> 60 <= wB -> ~ yA + wA / 2 <= yB - wB / 2)%Q.
Proof.
  intros He HA HB Hle. unfold Qdiv in *. change (/ 2)%Q with (1#2)%Q in *. lra.
Qed.

(** C3 as the specification states it fails for the children of the centre:
    with two branches, one goes to each side at the height of the centre, so
    the first is not above the second whatever depth the reserved heights are
    taken at. *)
Lemma main_branches_overlap :
  exists center,
    calculateNodePositions twoBranchStore 0 = Some twoBranchLaidOut /\
    twoBranchLaidOut !! 1 = Some center /\ children center = [2; 3] /\
    is_Some (yAt twoBranchLaidOut 1) /\
    forall lA lB HA HB yA yB,
      calculateSubtreeHeight (length twoBranchLaidOut) twoBranchLaidOut 2 lA = Some HA ->
      calculateSubtreeHeight (length twoBranchLaidOut) twoBranchLaidOut 3 lB = Some HB ->
      yAt twoBranchLaidOut 2 = Some yA -> yAt twoBranchLaidOut 3 = Some yB ->
      ~ (yA + inject_Z HA / 2 <= yB - inject_Z HB / 2)%Q.
Proof.
  eexists. split; [vm_compute; reflexivity|].
  split; [reflexivity|]. split; [reflexivity|]. split; [vm_compute; eauto|].
  intros lA lB HA HB yA yB EA EB HyA HyB.
  change (length twoBranchLaidOut) with 4 in EA, EB.
  destruct (twoBranchLaidOut !! 2) as [n2|] eqn:E2; [|discriminate].
  destruct (twoBranchLaidOut !! 3) as [n3|] eqn:E3; [|discriminate].
  rewrite (leaf_height twoBranchLaidOut 2 n2 3 lA E2) in EA
    by (vm_compute in E2; injection E2 as <-; reflexivity).
  rewrite (leaf_height twoBranchLaidOut 3 n3 3 lB E3) in EB
    by (vm_compute in E3; injection E3 as <-; reflexivity).
  injection EA as <-. injection EB as <-.
  vm_compute in HyA. vm_compute in HyB. injection HyA as <-. injection HyB as <-.
  apply bands_collide.
  - reflexivity.
  - change 60%Q with (inject_Z 60). rewrite <- Zle_Qle. apply slotHeight_pos.
  - change 60%Q with (inject_Z 60). rewrite <- Zle_Qle. apply slotHeight_pos.
Qed.

(** The half of C6 that holds: a collapsed node reserves one slot, whatever
    hangs under it. *)
Lemma collapsed_reserves_one_slot (h : list Node) a n fuel lvl :
  h !! a = Some n -> collapsed n = Some true ->
  calculateSubtreeHeight (S fuel) h a lvl = Some (slotHeight lvl).
Proof.
  intros Hn Hc. simpl. rewrite Hn. simpl. unfold isCollapsed. rewrite Hc. simpl.
  now rewrite orb_true_r.
Qed.

(** C6 at a collapsed node.  In [collapsedStore] the branch [B] (address 2)
    is collapsed and has the children at 3 and 4, which have no coordinates.
    [calculateSubtreeHeight] reserves one slot for [B], but the layout gives
    coordinates to both children: [arrangeHorizontalSubtree] does not look at
    [collapsed]. *)
Theorem collapsed_children_are_placed :
  (exists B, collapsedStore !! 2 = Some B /\ collapsed B = Some true /\
             children B = [3; 4]) /\
  yAt collapsedStore 3 = None /\ yAt collapsedStore 4 = None /\
  calculateSubtreeHeight (length collapsedStore) collapsedStore 2 0 = Some (slotHeight 0) /\
  calculateNodePositions collapsedStore 0 = Some collapsedLaidOut /\
  exists y3 y4,
    yAt collapsedLaidOut 3 = Some y3 /\ yAt collapsedLaidOut 4 = Some y4 /\
    (y3 == 355)%Q /\ (y4 == 445)%Q.
Proof.
  split; [eexists; repeat split|].
  split; [reflexivity|]. split; [reflexivity|]. split; [reflexivity|].
  split; [vm_compute; reflexivity|].
  eexists. eexists.
  split; [vm_compute; reflexivity|]. split; [vm_compute; reflexivity|].
  split; reflexivity.
Qed.

(** ** C5: the undo history *)

(** What [saveToHistory] does to the history and to its index. *)
Lemma saveToHistory_history v v' :
  saveToHistory v = Some v' ->
  mindmapData v' = mindmapData v /\ canvasData v' = canvasData v /\
  selectedNodeId v' = selectedNodeId v /\ currentFile v' = currentFile v /\
  (mindmapData v = None -> v' = v) /\
  (forall data, mindmapData v = Some data ->
     exists cleanState,
       let hist := take (Z.to_nat (historyIndex v + 1)) (history v) ++ [cleanState] in
       if 20 <? length hist
       then history v' = drop 1 hist /\ historyIndex v' = historyIndex v
       else history v' = hist /\ historyIndex v' = (historyIndex v + 1)%Z).
Proof.
  unfold saveToHistory. destruct (mindmapData v) as [data|] eqn:Ed.
  - destruct (createCleanCopy _ _ data) as [[h cleanState]|]; cbn [mbind option_bind];
      [|discriminate].
    destruct (20 <? length _) eqn:E; intros [= <-]; simpl; repeat split; auto;
      try discriminate; intros d [= <-]; exists cleanState; simpl; rewrite E;
      split; auto; lia.
  - intros [= <-]. repeat split; auto. intros d [=].
Qed.

(** The history never holds more than twenty snapshots. *)
Lemma history_bounded v v' :
  saveToHistory v = Some v' -> length (history v) <= 20 -> length (history v') <= 20.
Proof.
  intros E Hb. destruct (saveToHistory_history _ _ E) as (_ & _ & _ & _ & Hnone & Hsome).
  destruct (mindmapData v) as [data|] eqn:Ed.
  - destruct (Hsome data eq_refl) as [c Hc]. simpl in Hc.
    destruct (20 <? length _) eqn:E20; destruct Hc as [-> _].
    + rewrite length_drop, length_app, length_take. simpl. lia.
    + apply Nat.ltb_ge in E20. exact E20.
  - now rewrite (Hnone eq_refl).
Qed.

(** [undo] does nothing unless the index is above 0. *)
Lemma undo_at_bottom v : (historyIndex v <= 0)%Z -> undo v = Some v.
Proof.
  intros H. unfold undo. destruct (Z.ltb_spec 0 (historyIndex v)); [lia|reflexivity].
Qed.

(** C5 on twenty-five edits.  After them the history holds 20 snapshots and
    the index is 19.  The first [undo] goes back to the state with 23 children
    (two edits back, not one), the nineteenth to the state with 5, and the
    twentieth changes nothing: 19 earlier states can be reached, and the state
    before the last edit (24 children) is not one of them. *)
Theorem undo_recovers_nineteen_states :
  exists v25,
    afterEdits = Some v25 /\ (sessionStart ≫= edits 25) = Some v25 /\
    centreChildren v25 = Some 25 /\
    length (history v25) = 20 /\ historyIndex v25 = 19%Z /\
    (forall k, 1 <= k <= 19 ->
       exists u, undos k v25 = Some u /\ centreChildren u = Some (24 - k) /\
                 historyIndex u = (19 - Z.of_nat k)%Z) /\
    (exists u, undos 19 v25 = Some u /\ undo u = Some u).
Proof.
  destruct afterEdits as [v25|] eqn:E; [|discriminate].
  exists v25. split; [reflexivity|]. vm_compute in E. injection E as <-.
  split; [vm_compute; reflexivity|].
  split; [vm_compute; reflexivity|]. split; [reflexivity|]. split; [reflexivity|].
  split.
  - intros k Hk.
    assert (Hcases : k ∈ seq 1 19) by (apply elem_of_seq; lia).
    clear Hk. simpl in Hcases.
    repeat (apply elem_of_cons in Hcases; destruct Hcases as [->|Hcases];
            [eexists; split; [vm_compute; reflexivity|split; vm_compute; reflexivity]|]).
    now apply elem_of_nil in Hcases.
  - eexists. split; [vm_compute; reflexivity|]. vm_compute. reflexivity.
Qed.

(** ** Searching a tree by identifier *)

Section FindById.

Lemma firstWithId_app h ident l1 l2 :
  firstWithId h ident (l1 ++ l2)
  = match firstWithId h ident l1 with
    | Some a => Some a
    | None => firstWithId h ident l2
    end.
Proof.
  induction l1 as [|a l1 IH]; simpl; [reflexivity|].
  destruct (decide (idAt h a = ident)); [reflexivity|exact IH].
Qed.

Lemma firstWithId_some h ident l a :
  firstWithId h ident l = Some a -> a ∈ l /\ idAt h a = ident.
Proof.
  induction l as [|b l IH]; simpl; [discriminate|].
  destruct (decide (idAt h b = ident)) as [He|Hne].
  - intros [= <-]. split; [apply elem_of_cons; now left|exact He].
  - intros H. destruct (IH H). split; [apply elem_of_cons; now right|assumption].
Qed.

Lemma idAt_lookup (h : list Node) a n : h !! a = Some n -> idAt h a = id n.
Proof. unfold idAt. now intros ->. Qed.

(** On a shape of the store, [findNodeById] returns the first node, in
    the order of [addrs], that has the identifier. *)
Lemma findNodeById_spec h t :
  repr h t -> forall fuel ident, height t <= fuel ->
  findNodeById fuel h (rootOf t) ident = Some (firstWithId h ident (addrs t)).
Proof.
  induction t as [a cs IH] using ATree_ind'. intros Hr fuel ident Hf.
  apply repr_inv in Hr. destruct Hr as (n & Hn & Hc & Hcs).
  destruct fuel as [|fuel]; [simpl in Hf; lia|].
  simpl. rewrite Hn. cbn [mbind option_bind]. rewrite (idAt_lookup _ _ _ Hn).
  destruct (decide (id n = ident)) as [He|Hne]; [reflexivity|].
  rewrite Hc.
  assert (Hkh : Forall (fun k => height k <= fuel) cs).
  { eapply Forall_impl; [apply height_kids|]. intros k Hk. simpl in Hf, Hk. lia. }
  clear Hn Hc Hf. induction cs as [|c cs IHcs]; [reflexivity|].
  apply Forall_cons in IH, Hcs, Hkh.
  destruct IH as [IHc IHrest], Hcs as [Hrc Hrcs], Hkh as [Hhc Hhcs].
  simpl. rewrite (IHc Hrc fuel ident Hhc). cbn [mbind option_bind].
  rewrite firstWithId_app. destruct (firstWithId h ident (addrs c)); [reflexivity|].
  now apply IHcs.
Qed.

End FindById.

(** ** Snapshots *)

Section CleanCopy.

Lemma repr_app (h ext : list Node) t : repr h t -> repr (h ++ ext) t.
Proof.
  intros Hr. eapply repr_ext; [|exact Hr]. intros a Ha.
  rewrite lookup_app_l; [reflexivity|]. eapply repr_bound; eauto.
Qed.

Lemma Forall2_impl_elem {A B} (P Q : A -> B -> Prop) (l : list A) (k : list B) :
  Forall2 P l k -> (forall a b, a ∈ l -> b ∈ k -> P a b -> Q a b) -> Forall2 Q l k.
Proof.
  induction 1 as [|a b l k Hab _ IH]; intros Himp; constructor.
  - apply Himp; [apply elem_of_cons; now left|apply elem_of_cons; now left|exact Hab].
  - apply IH. intros a' b' Ha' Hb'. apply Himp; apply elem_of_cons; now right.
Qed.

Lemma elem_of_flat_map_addrs (cs : list ATree) a :
  a ∈ flat_map addrs cs <-> exists c, c ∈ cs /\ a ∈ addrs c.
Proof.
  rewrite list_elem_of_In, in_flat_map. split; intros (c & Hc & Ha); exists c;
    rewrite ?list_elem_of_In in *; auto.
Qed.

Lemma copied_app (h1 h2 e1 e2 : list Node) a a' :
  copied h1 h2 a a' -> copied (h1 ++ e1) (h2 ++ e2) a a'.
Proof.
  intros (n & n' & H1 & H2 & Hc). exists n, n'.
  split; [now apply lookup_app_l_Some|]. split; [now apply lookup_app_l_Some|exact Hc].
Qed.

Lemma alter_at_end {A} (f : A -> A) (l : list A) x r :
  alter f (length l) (l ++ x :: r) = l ++ f x :: r.
Proof.
  replace (length l) with (length l + 0) by lia. now rewrite alter_app_r.
Qed.

Lemma createCleanCopy_eq fuel h a :
  createCleanCopy (S fuel) h a
  = (node ← h !! a;
     '(h2, cs') ← copyChildren (createCleanCopy fuel) (h ++ [cleanOf node]) (children node);
     Some (alter (setChildren cs') (length h) h2, length h)).
Proof. reflexivity. Qed.

Lemma copyOf_clean n cs : copyOf n (setChildren cs (cleanOf n)).
Proof. split; reflexivity. Qed.

Lemma copyChildren_spec fuel (cs : list ATree) :
  Forall (copyOk fuel) cs -> Forall (fun c => height c <= fuel) cs ->
  forall h, Forall (repr h) cs ->
  exists ext ts',
    copyChildren (createCleanCopy fuel) h (map rootOf cs) = Some (h ++ ext, map rootOf ts') /\
    Forall (repr (h ++ ext)) ts' /\
    flat_map addrs ts' = seq (length h) (length (flat_map addrs cs)) /\
    length ext = length (flat_map addrs cs) /\
    Forall2 (copied h (h ++ ext)) (flat_map addrs cs) (flat_map addrs ts').
Proof.
  induction cs as [|c cs IH]; intros Hok Hh h Hr.
  - exists [], []. simpl. rewrite app_nil_r. repeat split; constructor.
  - apply Forall_cons in Hok, Hh, Hr.
    destruct Hok as [Hokc Hokcs], Hh as [Hhc Hhcs], Hr as [Hrc Hrcs].
    destruct (Hokc h Hrc Hhc) as (e1 & t1 & E1 & Hroot1 & Hr1 & Ha1 & Hl1 & Hc1).
    destruct (IH Hokcs Hhcs (h ++ e1)) as (e2 & ts & E2 & Hr2 & Ha2 & Hl2 & Hc2).
    { eapply Forall_impl; [exact Hrcs|]. intros t. apply repr_app. }
    exists (e1 ++ e2), (t1 :: ts). simpl.
    rewrite E1. cbn [mbind option_bind]. rewrite E2. cbn [mbind option_bind].
    rewrite app_assoc, Hroot1. split; [reflexivity|]. split; [|split; [|split]].
    + constructor; [now apply repr_app|exact Hr2].
    + rewrite Ha1, Ha2, !length_app, Hl1. now rewrite seq_app.
    + rewrite !length_app. lia.
    + apply Forall2_app.
      * eapply Forall2_impl; [exact Hc1|]. intros a a' H.
        rewrite <- (app_nil_r h) at 1. now apply copied_app.
      * eapply Forall2_impl_elem; [exact Hc2|]. intros a a' Ha _ (n & n' & H1 & H2 & Hc).
        exists n, n'. split; [|split; [exact H2|exact Hc]].
        apply elem_of_flat_map_addrs in Ha. destruct Ha as (k & Hk & Ha).
        rewrite Forall_forall in Hrcs. pose proof (repr_bound _ _ _ (Hrcs k Hk) Ha).
        now rewrite lookup_app_l in H1.
Qed.

Lemma copyOk_all fuel : forall t, copyOk fuel t.
Proof.
  induction fuel as [|fuel IH]; intros [a cs] h Hr Hh; [simpl in Hh; lia|].
  pose proof Hr as Hr'. apply repr_inv in Hr'. destruct Hr' as (n & Hn & Hc & Hcs).
  simpl rootOf. rewrite createCleanCopy_eq, Hn. cbn [mbind option_bind]. rewrite Hc.
  destruct (copyChildren_spec fuel cs) with (h := h ++ [cleanOf n])
    as (ext & ts & E & Hrts & Hats & Hlen & Hcop).
  { apply Forall_forall. intros c _. apply IH. }
  { eapply Forall_impl; [apply height_kids|]. intros k Hk. simpl in Hh, Hk. lia. }
  { eapply Forall_impl; [exact Hcs|]. intros t. apply repr_app. }
  rewrite E. cbn [mbind option_bind].
  rewrite <- app_assoc. simpl. rewrite alter_at_end.
  rewrite length_app in Hats. simpl in Hats. rewrite Nat.add_1_r in Hats.
  set (root' := setChildren (map rootOf ts) (cleanOf n)).
  assert (Hkeep : forall t', t' ∈ ts -> repr (h ++ root' :: ext) t').
  { intros t' Ht'. rewrite Forall_forall in Hrts. specialize (Hrts t' Ht').
    eapply repr_ext; [|exact Hrts]. intros b Hb.
    assert (Hb' : b ∈ flat_map addrs ts) by (apply elem_of_flat_map_addrs; eauto).
    rewrite Hats in Hb'. apply elem_of_seq in Hb'.
    rewrite <- !app_assoc. simpl.
    rewrite !lookup_app_r by lia.
    destruct (b - length h) as [|m] eqn:Em; [lia|reflexivity]. }
  exists (root' :: ext), (ANode (length h) ts).
  split; [reflexivity|]. split; [reflexivity|]. split; [|split; [|split]].
  - apply repr_node with root'.
    + rewrite lookup_app_r, Nat.sub_diag by lia. reflexivity.
    + reflexivity.
    + apply Forall_forall. exact Hkeep.
  - simpl. now rewrite Hats.
  - simpl. now rewrite Hlen.
  - simpl. constructor.
    + exists n, root'. split; [exact Hn|]. split; [|apply copyOf_clean].
      rewrite lookup_app_r, Nat.sub_diag by lia. reflexivity.
    + eapply Forall2_impl_elem; [exact Hcop|].
      intros b b' Hb Hb' (m & m' & H1 & H2 & Hcm).
      exists m, m'. split; [|split; [|exact Hcm]].
      * apply elem_of_flat_map_addrs in Hb. destruct Hb as (k & Hk & Hb).
        rewrite Forall_forall in Hcs. pose proof (repr_bound _ _ _ (Hcs k Hk) Hb).
        now rewrite lookup_app_l in H1.
      * rewrite Hats in Hb'. apply elem_of_seq in Hb'.
        rewrite <- app_assoc in H2. simpl in H2.
        rewrite lookup_app_r in H2 |- * by lia.
        destruct (b' - length h) as [|j] eqn:Ej; [lia|exact H2].
Qed.

End CleanCopy.

(** ** Restoring the parent references *)

Section Restore.

Lemma sameButParent_refl n : sameButParent n n.
Proof. reflexivity. Qed.

Lemma sameButParent_fields n n' :
  sameButParent n n' ->
  id n' = id n /\ children n' = children n /\ collapsed n' = collapsed n /\
  x n' = x n /\ y n' = y n /\ text n' = text n /\ type n' = type n /\ level n' = level n.
Proof.
  unfold sameButParent, setParent. destruct n, n'; simpl. intros [=]. subst. repeat split.
Qed.

Lemma Forall2_sameButParent_refl (h : list Node) : Forall2 sameButParent h h.
Proof.
  apply Forall2_same_length_lookup. split; [reflexivity|]. intros i n n' H1 H2. congruence.
Qed.

Lemma Forall2_sameButParent_trans (h1 h2 h3 : list Node) :
  Forall2 sameButParent h1 h2 -> Forall2 sameButParent h2 h3 -> Forall2 sameButParent h1 h3.
Proof.
  intros H12 H23. revert h3 H23. induction H12 as [|n1 n2 h1 h2 Hn _ IH]; intros h3 H23.
  - inversion H23. constructor.
  - inversion H23; subst. constructor; [unfold sameButParent in *; congruence|auto].
Qed.

Lemma Forall2_sameButParent_alter p a (h : list Node) :
  Forall2 sameButParent h (alter (setParent p) a h).
Proof.
  apply Forall2_same_length_lookup. split; [now rewrite length_alter|].
  intros i n n' Hn Hn'. destruct (decide (a = i)) as [->|Hne].
  - rewrite list_lookup_alter_eq, Hn in Hn'. simpl in Hn'. injection Hn' as <-. reflexivity.
  - rewrite list_lookup_alter_ne in Hn' by assumption. rewrite Hn in Hn'.
    injection Hn' as <-. reflexivity.
Qed.

Lemma reparent_lookup (h h' : list Node) a n :
  Forall2 sameButParent h h' -> h !! a = Some n ->
  exists n', h' !! a = Some n' /\ sameButParent n n'.
Proof.
  intros HF Hn. destruct (Forall2_lookup_l _ _ _ _ _ HF Hn) as (n' & ? & ?). eauto.
Qed.

Lemma reparent_repr (h h' : list Node) t : Forall2 sameButParent h h' -> repr h t -> repr h' t.
Proof.
  intros HF. apply repr_ext. intros a _.
  destruct (h !! a) as [n|] eqn:E.
  - destruct (reparent_lookup _ _ _ _ HF E) as (n' & -> & Hs). simpl.
    apply sameButParent_fields in Hs. f_equal. tauto.
  - apply lookup_ge_None in E. rewrite (Forall2_length _ _ _ HF) in E.
    apply lookup_ge_None in E. now rewrite E.
Qed.

Lemma parentOK_ext h h' t :
  (forall a, a ∈ addrs t -> h' !! a = h !! a) -> parentOK h t -> parentOK h' t.
Proof.
  induction t as [a cs IH] using ATree_ind'. intros Hext Hp.
  inversion Hp as [a' cs' Hk Hrec]; subst. constructor.
  - rewrite Forall_forall in Hk. apply Forall_forall. intros c Hc.
    unfold parentAt. rewrite Hext; [now apply Hk|].
    eapply addrs_child; [exact Hc|apply addrs_root].
  - rewrite Forall_forall in IH, Hrec. apply Forall_forall. intros c Hc.
    apply IH; auto. intros b Hb. apply Hext. eapply addrs_child; eauto.
Qed.

Lemma restoreNodeReferences_eq fuel h a :
  restoreNodeReferences (S fuel) h a
  = (node ← h !! a;
     foldl (fun acc child =>
              h' ← acc;
              restoreNodeReferences fuel (alter (setParent (Some a)) child h') child)
           (Some h) (children node)).
Proof. reflexivity. Qed.

Lemma restoreChildren_spec fuel a :
  restoreOk fuel ->
  forall cs h,
    Forall (repr h) cs -> NoDup (flat_map addrs cs) ->
    Forall (fun c => height c <= fuel) cs ->
    exists h',
      foldl (fun acc child =>
               h' ← acc;
               restoreNodeReferences fuel (alter (setParent (Some a)) child h') child)
            (Some h) (map rootOf cs) = Some h' /\
      Forall2 sameButParent h h' /\
      (forall b, b ∉ flat_map addrs cs -> h' !! b = h !! b) /\
      Forall (fun c => parentAt h' (rootOf c) = Some a) cs /\
      Forall (parentOK h') cs.
Proof.
  intros IH. induction cs as [|c cs IHcs]; intros h Hr Hnd Hh.
  - exists h. simpl. repeat split; auto using Forall2_sameButParent_refl.
  - apply Forall_cons in Hr, Hh. destruct Hr as [Hrc Hrcs], Hh as [Hhc Hhcs].
    apply NoDup_flat_map_cons in Hnd. destruct Hnd as (Hndc & Hndcs & Hdisj).
    set (h1 := alter (setParent (Some a)) (rootOf c) h).
    assert (HF1 : Forall2 sameButParent h h1) by apply Forall2_sameButParent_alter.
    destruct (repr_root _ _ Hrc) as (n & Hn & _).
    destruct (IH c h1) as (h2 & E & HF2 & Hfoot2 & Hp2); auto.
    { eapply reparent_repr; eauto. }
    destruct (IHcs h2) as (h' & E' & HF' & Hfoot' & Hpa' & Hp'); auto.
    { eapply Forall_impl; [exact Hrcs|]. intros t Ht.
      eapply reparent_repr; [exact HF2|]. eapply reparent_repr; eauto. }
    assert (Hagree : forall b, b ∈ addrs c -> h' !! b = h2 !! b).
    { intros b Hb. apply Hfoot'. now apply Hdisj. }
    exists h'. simpl. fold h1. rewrite E. split; [exact E'|].
    split; [|split; [|split]].
    + eapply Forall2_sameButParent_trans; [exact HF1|].
      eapply Forall2_sameButParent_trans; eauto.
    + intros b Hb. rewrite Hfoot', Hfoot2.
      * unfold h1. apply list_lookup_alter_ne. intros <-. apply Hb.
        apply elem_of_app. left. apply addrs_root.
      * intros Hin. apply Hb. apply elem_of_app. left. now apply kids_in_addrs.
      * intros Hin. apply Hb. apply elem_of_app. now right.
    + constructor; [|exact Hpa']. unfold parentAt.
      rewrite Hagree by apply addrs_root. rewrite Hfoot2.
      * unfold h1. rewrite list_lookup_alter_eq, Hn. reflexivity.
      * destruct c as [b ks]. now apply root_not_in_kids.
    + constructor; [|exact Hp']. eapply parentOK_ext; [|exact Hp2]. exact Hagree.
Qed.

Lemma restoreOk_all fuel : restoreOk fuel.
Proof.
  induction fuel as [|fuel IH]; intros [a cs] h Hr Hnd Hh; [simpl in Hh; lia|].
  pose proof Hr as Hr'. apply repr_inv in Hr'. destruct Hr' as (n & Hn & Hc & Hcs).
  simpl rootOf. rewrite restoreNodeReferences_eq, Hn. cbn [mbind option_bind]. rewrite Hc.
  destruct (restoreChildren_spec fuel a IH cs h) as (h' & E & HF & Hfoot & Hpa & Hp); auto.
  - simpl in Hnd. now apply NoDup_cons in Hnd.
  - eapply Forall_impl; [apply height_kids|]. intros k Hk. simpl in Hh, Hk. lia.
  - exists h'. split; [exact E|]. split; [exact HF|]. split; [exact Hfoot|].
    now constructor.
Qed.

End Restore.

(** ** Walking up the parent references *)

Section WalkUp.

Lemma pathDown_length_height t l s : pathDown t l s -> length l < height t.
Proof.
  induction 1 as [t|a cs c l s Hc _ IH].
  - destruct t; simpl; lia.
  - pose proof (height_child a cs c Hc). simpl in *. lia.
Qed.

Lemma pathDown_addrs t l s b : pathDown t l s -> b ∈ addrs s -> b ∈ addrs t.
Proof.
  induction 1 as [|a cs c l s Hc _ IH]; [auto|]. intros Hb. eapply addrs_child; eauto.
Qed.

Lemma pathDown_elem t l s b : pathDown t l s -> b ∈ l -> b ∈ flat_map addrs (kids t).
Proof.
  induction 1 as [|a cs c l s Hc Hp IH]; intros Hb; [now apply elem_of_nil in Hb|].
  simpl. apply elem_of_flat_map_addrs. exists c. split; [exact Hc|].
  apply elem_of_cons in Hb. destruct Hb as [->|Hb]; [apply addrs_root|].
  apply kids_in_addrs. auto.
Qed.

(** Every node of a shape is at the end of a path from the root. *)
Lemma pathDown_exists t b :
  b ∈ addrs t -> exists l s, pathDown t l s /\ rootOf s = b.
Proof.
  induction t as [a cs IH] using ATree_ind'. intros Hb.
  apply addrs_inv in Hb. destruct Hb as [->|(c & Hc & Hb)].
  - exists [], (ANode a cs). split; [constructor|reflexivity].
  - rewrite Forall_forall in IH. destruct (IH c Hc Hb) as (l & s & Hp & Hs).
    exists (rootOf c :: l), s. split; [now constructor|exact Hs].
Qed.

(** From the end of a path the walk climbs to the top of the path, as long
    as it does not meet the address it looks for. *)
Lemma walkUp_climb h anc t l s :
  pathDown t l s -> parentOK h t -> repr h t -> anc ∉ l ->
  forall k, walkUp (length l + k) h anc (Some (rootOf s)) = walkUp k h anc (Some (rootOf t)).
Proof.
  induction 1 as [t|a cs c l s Hc Hp IH]; intros Hok Hr Hanc k; [reflexivity|].
  inversion Hok as [a' cs' Hpar Hrec]; subst.
  apply repr_inv in Hr. destruct Hr as (n & Hn & _ & Hcs).
  rewrite Forall_forall in Hpar, Hrec, Hcs.
  simpl length. replace (S (length l) + k) with (length l + S k) by lia.
  rewrite IH; auto.
  - simpl. destruct (Nat.eqb_spec (rootOf c) anc) as [He|Hne].
    + exfalso. apply Hanc. rewrite <- He. apply elem_of_cons. now left.
    + specialize (Hpar c Hc). unfold parentAt in Hpar.
      destruct (h !! rootOf c) as [m|]; simpl in Hpar; [|discriminate].
      cbn [mbind option_bind]. now rewrite Hpar.
  - intros Hin. apply Hanc. apply elem_of_cons. now right.
Qed.

Lemma walkUp_found fuel h anc : walkUp fuel h anc (Some anc) = Some true.
Proof. destruct fuel; simpl; now rewrite Nat.eqb_refl. Qed.

End WalkUp.

(** ** Is the target under the node? *)

Section IsAncestor.

Lemma pathDown_repr h t l s : pathDown t l s -> repr h t -> repr h s.
Proof.
  induction 1 as [|a cs c l s Hc _ IH]; [auto|]. intros Hr. apply IH.
  apply repr_inv in Hr. destruct Hr as (_ & _ & _ & Hcs).
  rewrite Forall_forall in Hcs. auto.
Qed.

Lemma pathDown_NoDup t l s : pathDown t l s -> NoDup (addrs t) -> NoDup (addrs s).
Proof.
  induction 1 as [|a cs c l s Hc _ IH]; [auto|]. intros Hnd. apply IH.
  eapply NoDup_child; eauto.
Qed.

Lemma pathDown_parentOK h t l s : pathDown t l s -> parentOK h t -> parentOK h s.
Proof.
  induction 1 as [|a cs c l s Hc _ IH]; [auto|]. intros Hp. apply IH.
  inversion Hp as [a' cs' _ Hrec]; subst. rewrite Forall_forall in Hrec. auto.
Qed.

Lemma pathDown_isTree h t l s : pathDown t l s -> isTree h t -> isTree h s.
Proof. intros Hp [Hr Hnd]. split; [eapply pathDown_repr|eapply pathDown_NoDup]; eauto. Qed.

Lemma pathDown_app t l1 s1 l2 s2 :
  pathDown t l1 s1 -> pathDown s1 l2 s2 -> pathDown t (l1 ++ l2) s2.
Proof. induction 1 as [|a cs c l s Hc _ IH]; [auto|]. intros H. simpl. constructor; auto. Qed.

Lemma pathDown_last t l s : pathDown t l s -> l <> [] -> last l = Some (rootOf s).
Proof.
  induction 1 as [|a cs c l s Hc Hp IH]; [congruence|]. intros _.
  destruct l as [|b l].
  - inversion Hp; subst. reflexivity.
  - rewrite last_cons. rewrite IH by discriminate. reflexivity.
Qed.

Lemma pathDown_nil t s l : pathDown t l s -> l = [] -> s = t.
Proof. destruct 1; [auto|discriminate]. Qed.

Lemma isAncestor_walkUp h anc b :
  b <> anc -> is_Some (h !! b) ->
  isAncestor h anc b = walkUp (S (length h)) h anc (Some b).
Proof.
  intros Hne _. unfold isAncestor. simpl.
  destruct (Nat.eqb_spec b anc); [contradiction|reflexivity].
Qed.

(** The target lies under the node: the walk up from the target meets the
    node. *)
Lemma isAncestor_descendant h t l1 s1 l2 s2 :
  isTree h t -> parentOK h t ->
  pathDown t l1 s1 -> pathDown s1 l2 s2 -> l2 <> [] ->
  isAncestor h (rootOf s1) (rootOf s2) = Some true.
Proof.
  intros Ht Hok Hp1 Hp2 Hne.
  pose proof (pathDown_isTree _ _ _ _ Hp1 Ht) as [Hr1 Hnd1].
  pose proof (pathDown_parentOK _ _ _ _ Hp1 Hok) as Hok1.
  assert (Hnotin : rootOf s1 ∉ l2).
  { intros Hin. apply (pathDown_elem _ _ _ _ Hp2) in Hin.
    destruct s1 as [a cs]. now apply root_not_in_kids in Hnd1. }
  assert (Hb : rootOf s2 <> rootOf s1).
  { intros He. apply Hnotin. rewrite <- He. apply last_Some_elem_of.
    now apply (pathDown_last _ _ _ Hp2). }
  destruct (repr_root _ _ (pathDown_repr _ _ _ _ Hp2 Hr1)) as (n2 & Hn2 & _).
  rewrite isAncestor_walkUp by eauto.
  pose proof (pathDown_length_height _ _ _ Hp2) as Hlen.
  pose proof (isTree_height _ _ (conj Hr1 Hnd1)) as Hh.
  replace (S (length h)) with (length l2 + (S (length h) - length l2)) by lia.
  rewrite (walkUp_climb h (rootOf s1) s1 l2 s2); auto. apply walkUp_found.
Qed.

(** The target is in the tree and the node is not above it: the walk up from
    the target ends at the root without meeting the node. *)
Lemma isAncestor_elsewhere h t l s anc :
  isTree h t -> parentOK h t -> parentAt h (rootOf t) = None ->
  pathDown t l s -> anc ∉ l -> anc <> rootOf t -> rootOf s <> anc ->
  isAncestor h anc (rootOf s) = Some false.
Proof.
  intros Ht Hok Hroot Hp Hnotin Hne Hb.
  destruct Ht as [Hr Hnd].
  destruct (repr_root _ _ (pathDown_repr _ _ _ _ Hp Hr)) as (n2 & Hn2 & _).
  rewrite isAncestor_walkUp by eauto.
  pose proof (pathDown_length_height _ _ _ Hp) as Hlen.
  pose proof (isTree_height _ _ (conj Hr Hnd)) as Hh.
  replace (S (length h)) with (length l + S (length h - length l)) by lia.
  rewrite (walkUp_climb h anc t l s); auto.
  simpl. destruct (Nat.eqb_spec (rootOf t) anc); [congruence|].
  unfold parentAt in Hroot. destruct (h !! rootOf t) as [r|] eqn:Er.
  - simpl in Hroot. cbn [mbind option_bind]. rewrite Hroot. destruct (length h - length l); reflexivity.
  - destruct (repr_root _ _ Hr) as (? & ? & _). congruence.
Qed.

End IsAncestor.

(** ** Cutting a subtree out and putting one in *)

Section Surgery.

Lemma rootOf_prune c t : rootOf (prune c t) = rootOf t.
Proof. destruct t; reflexivity. Qed.

Lemma rootOf_graft p s t : rootOf (graft p s t) = rootOf t.
Proof. destruct t; reflexivity. Qed.

Lemma keepOthers_roots c (l : list ATree) :
  map rootOf (keepOthers (prune c) c l) = without c (map rootOf l).
Proof.
  induction l as [|k l IH]; [reflexivity|]. simpl.
  destruct (rootOf k =? c); simpl; [exact IH|]. now rewrite rootOf_prune, IH.
Qed.

Lemma keepOthers_elem c (l : list ATree) k' :
  k' ∈ keepOthers (prune c) c l -> exists k, k ∈ l /\ rootOf k <> c /\ k' = prune c k.
Proof.
  induction l as [|k l IH]; simpl; [intros H; now apply elem_of_nil in H|].
  destruct (Nat.eqb_spec (rootOf k) c) as [He|Hne].
  - intros H. destruct (IH H) as (k0 & ? & ? & ?). exists k0.
    split; [apply elem_of_cons; now right|auto].
  - intros H. apply elem_of_cons in H. destruct H as [->|H].
    + exists k. split; [apply elem_of_cons; now left|auto].
    + destruct (IH H) as (k0 & ? & ? & ?). exists k0.
      split; [apply elem_of_cons; now right|auto].
Qed.

Lemma without_notin c (cs : list nat) : c ∉ cs -> without c cs = cs.
Proof.
  induction cs as [|a cs IH]; [reflexivity|]. intros H. simpl.
  destruct (Nat.eqb_spec a c) as [->|Hne].
  - exfalso. apply H. apply elem_of_cons. now left.
  - simpl. f_equal. apply IH. intros Hin. apply H. apply elem_of_cons. now right.
Qed.

Lemma removeFirst_without c (cs : list nat) : NoDup cs -> removeFirst c cs = without c cs.
Proof.
  induction cs as [|a cs IH]; [reflexivity|]. intros Hnd.
  apply NoDup_cons in Hnd. destruct Hnd as [Ha Hnd]. simpl.
  destruct (Nat.eqb_spec a c) as [->|Hne]; simpl.
  - symmetry. now apply without_notin.
  - f_equal. now apply IH.
Qed.

(** The shape of the store once [c] is taken out of every list of
    children. *)
Lemma repr_prune h h' c t :
  repr h t ->
  (forall a n, a ∈ addrs t -> h !! a = Some n ->
     exists n', h' !! a = Some n' /\ children n' = without c (children n)) ->
  repr h' (prune c t).
Proof.
  induction t as [a cs IH] using ATree_ind'. intros Hr Hext.
  apply repr_inv in Hr. destruct Hr as (n & Hn & Hc & Hcs).
  destruct (Hext a n (addrs_root (ANode a cs)) Hn) as (n' & Hn' & Hc').
  simpl. apply repr_node with n'; [exact Hn'| |].
  - rewrite Hc', Hc. symmetry. apply keepOthers_roots.
  - apply Forall_forall. intros k' Hk'.
    destruct (keepOthers_elem _ _ _ Hk') as (k & Hk & _ & ->).
    rewrite Forall_forall in IH, Hcs. apply IH; auto.
    intros b m Hb. apply Hext. eapply addrs_child; eauto.
Qed.

(** The shape of the store once [s] is pushed under [p]. *)
Lemma repr_graft h h' p s t :
  repr h t -> repr h' s ->
  (forall a n, a ∈ addrs t -> h !! a = Some n ->
     exists n', h' !! a = Some n' /\
       children n' = if a =? p then children n ++ [rootOf s] else children n) ->
  repr h' (graft p s t).
Proof.
  induction t as [a cs IH] using ATree_ind'. intros Hr Hs Hext.
  apply repr_inv in Hr. destruct Hr as (n & Hn & Hc & Hcs).
  destruct (Hext a n (addrs_root (ANode a cs)) Hn) as (n' & Hn' & Hc').
  assert (Hkids : Forall (repr h') (map (graft p s) cs)).
  { apply Forall_forall. intros k' Hk'. apply list_elem_of_In, in_map_iff in Hk'.
    destruct Hk' as (k & <- & Hk). apply list_elem_of_In in Hk.
    rewrite Forall_forall in IH, Hcs. apply IH; auto.
    intros b m Hb. apply Hext. eapply addrs_child; eauto. }
  assert (Hroots : map rootOf (map (graft p s) cs) = map rootOf cs).
  { rewrite map_map. apply map_ext. intros k. apply rootOf_graft. }
  simpl. apply repr_node with n'; [exact Hn'| |].
  - rewrite Hc', Hc. destruct (a =? p).
    + rewrite map_app, Hroots. reflexivity.
    + now rewrite Hroots.
  - destruct (a =? p); [|exact Hkids]. apply Forall_app. split; [exact Hkids|].
    constructor; [exact Hs|constructor].
Qed.

Lemma graft_notin p s t : p ∉ addrs t -> graft p s t = t.
Proof.
  induction t as [a cs IH] using ATree_ind'. intros Hp. simpl.
  destruct (Nat.eqb_spec a p) as [->|Hne].
  { exfalso. apply Hp. apply (addrs_root (ANode p cs)). }
  f_equal. rewrite <- (map_id cs) at 2. apply map_ext_in. intros k Hk.
  apply list_elem_of_In in Hk. rewrite Forall_forall in IH. apply IH; auto.
  intros Hin. apply Hp. eapply addrs_child; eauto.
Qed.

Lemma flat_map_graft_notin p s (cs : list ATree) :
  p ∉ flat_map addrs cs -> map (graft p s) cs = cs.
Proof.
  intros Hp. rewrite <- (map_id cs) at 2. apply map_ext_in. intros k Hk.
  apply list_elem_of_In in Hk. apply graft_notin. intros Hin. apply Hp.
  apply elem_of_flat_map_addrs. eauto.
Qed.

(** The addresses after a graft: those of the tree and those of the graft. *)
Lemma addrs_graft p s t :
  NoDup (addrs t) -> p ∈ addrs t -> addrs (graft p s t) ≡ₚ addrs t ++ addrs s.
Proof.
  induction t as [a cs IH] using ATree_ind'. intros Hnd Hp.
  pose proof (root_not_in_kids _ _ Hnd) as Hroot.
  simpl in Hnd. apply NoDup_cons in Hnd. destruct Hnd as [_ Hnd].
  simpl. destruct (Nat.eqb_spec a p) as [->|Hne].
  - rewrite flat_map_graft_notin by assumption.
    rewrite flat_map_app. simpl. rewrite app_nil_r. reflexivity.
  - apply addrs_inv in Hp. destruct Hp as [->|(c & Hc & Hp)]; [congruence|].
    constructor. clear Hroot Hne.
    induction cs as [|k cs IHcs]; [now apply elem_of_nil in Hc|].
    apply Forall_cons in IH. destruct IH as [IHk IHrest].
    apply NoDup_flat_map_cons in Hnd. destruct Hnd as (Hndk & Hndcs & Hdisj).
    simpl. apply elem_of_cons in Hc. destruct Hc as [<-|Hc].
    + rewrite flat_map_graft_notin by (apply Hdisj; exact Hp).
      rewrite (IHk Hndk Hp). rewrite <- !app_assoc. f_equiv. apply Permutation_app_comm.
    + assert (Hpk : p ∉ addrs k).
      { intros Hin. apply (Hdisj p Hin). apply elem_of_flat_map_addrs. eauto. }
      rewrite (graft_notin p s k Hpk). rewrite <- app_assoc. f_equiv. now apply IHcs.
Qed.

Lemma prune_notin c t : c ∉ flat_map addrs (kids t) -> prune c t = t.
Proof.
  induction t as [a cs IH] using ATree_ind'. simpl. intros Hc. f_equal.
  induction cs as [|k cs IHcs]; [reflexivity|].
  apply Forall_cons in IH. destruct IH as [IHk IHrest]. simpl in Hc.
  simpl. destruct (Nat.eqb_spec (rootOf k) c) as [He|Hne].
  - exfalso. apply Hc. apply elem_of_app. left. rewrite <- He. apply addrs_root.
  - f_equal.
    + apply IHk. intros Hin. apply Hc. apply elem_of_app. left. now apply kids_in_addrs.
    + apply IHcs; [exact IHrest|]. intros Hin. apply Hc. apply elem_of_app. now right.
Qed.

Lemma keepOthers_notin c (cs : list ATree) :
  c ∉ flat_map addrs cs -> keepOthers (prune c) c cs = cs.
Proof.
  intros Hc. pose proof (prune_notin c (ANode 0 cs) Hc) as H. simpl in H. now injection H.
Qed.

Lemma keepOthers_app c (l1 l2 : list ATree) :
  keepOthers (prune c) c (l1 ++ l2)
  = keepOthers (prune c) c l1 ++ keepOthers (prune c) c l2.
Proof.
  induction l1 as [|k l1 IH]; [reflexivity|]. simpl.
  destruct (rootOf k =? c); [exact IH|]. simpl. now rewrite IH.
Qed.

Lemma NoDup_flat_map_split (l1 l2 : list ATree) k :
  NoDup (flat_map addrs (l1 ++ k :: l2)) ->
  NoDup (addrs k) /\
  (forall a, a ∈ addrs k -> (a ∉ flat_map addrs l1) /\ (a ∉ flat_map addrs l2)).
Proof.
  rewrite flat_map_app. simpl. intros H. apply NoDup_app in H.
  destruct H as (_ & Hd1 & H). apply NoDup_app in H. destruct H as (Hk & Hd2 & _).
  split; [exact Hk|]. intros a Ha. split; [|now apply Hd2].
  intros Hin. apply (Hd1 a Hin). apply elem_of_app. now left.
Qed.

(** The addresses before a cut: those that stay and those of the part cut
    out. *)
Lemma addrs_prune t l s :
  pathDown t l s -> l <> [] -> NoDup (addrs t) ->
  addrs t ≡ₚ addrs (prune (rootOf s) t) ++ addrs s.
Proof.
  induction 1 as [|a cs c l s Hc Hp IH]; [congruence|]. intros _ Hnd.
  simpl in Hnd. apply NoDup_cons in Hnd. destruct Hnd as [_ Hnd].
  apply list_elem_of_split in Hc. destruct Hc as (l1 & l2 & ->).
  destruct (NoDup_flat_map_split _ _ _ Hnd) as [Hndc Hdisj].
  assert (Hs : rootOf s ∈ addrs c) by (eapply pathDown_addrs; [exact Hp|apply addrs_root]).
  destruct (Hdisj _ Hs) as [Hs1 Hs2].
  simpl. constructor. rewrite keepOthers_app, keepOthers_notin by assumption.
  rewrite !flat_map_app. simpl.
  destruct l as [|b l].
  - inversion Hp; subst. rewrite Nat.eqb_refl. rewrite keepOthers_notin by assumption.
    rewrite <- app_assoc. f_equiv. apply Permutation_app_comm.
  - destruct (Nat.eqb_spec (rootOf c) (rootOf s)) as [He|Hne].
    + exfalso. assert (Hin : rootOf s ∈ flat_map addrs (kids c)).
      { eapply pathDown_elem; [exact Hp|]. apply last_Some_elem_of.
        apply (pathDown_last _ _ _ Hp). discriminate. }
      destruct c as [rc ks]. simpl in He, Hin. subst rc.
      now apply root_not_in_kids in Hndc.
    + simpl. rewrite keepOthers_notin by assumption.
      rewrite (IH ltac:(discriminate) Hndc) at 1.
      rewrite <- !app_assoc. f_equiv. f_equiv. apply Permutation_app_comm.
Qed.

Lemma parentOK_prune h c t : parentOK h t -> parentOK h (prune c t).
Proof.
  induction t as [a cs IH] using ATree_ind'. intros Hp.
  inversion Hp as [a' cs' Hk Hrec]; subst. simpl.
  rewrite Forall_forall in IH, Hk, Hrec. constructor; apply Forall_forall; intros k' Hk';
    destruct (keepOthers_elem _ _ _ Hk') as (k & Hin & _ & ->).
  - rewrite rootOf_prune. auto.
  - auto.
Qed.

Lemma parentOK_graft h p s t :
  parentOK h t -> parentOK h s -> parentAt h (rootOf s) = Some p ->
  parentOK h (graft p s t).
Proof.
  induction t as [a cs IH] using ATree_ind'. intros Hp Hs Hps.
  inversion Hp as [a' cs' Hk Hrec]; subst. simpl.
  rewrite Forall_forall in IH, Hk, Hrec.
  assert (H1 : Forall (fun c => parentAt h (rootOf c) = Some a) (map (graft p s) cs)).
  { apply Forall_forall. intros k' Hk'. apply list_elem_of_In, in_map_iff in Hk'.
    destruct Hk' as (k & <- & Hin). apply list_elem_of_In in Hin.
    rewrite rootOf_graft. auto. }
  assert (H2 : Forall (parentOK h) (map (graft p s) cs)).
  { apply Forall_forall. intros k' Hk'. apply list_elem_of_In, in_map_iff in Hk'.
    destruct Hk' as (k & <- & Hin). apply list_elem_of_In in Hin. auto. }
  destruct (Nat.eqb_spec a p) as [->|Hne]; constructor; auto.
  - apply Forall_app. split; [exact H1|]. constructor; [exact Hps|constructor].
  - apply Forall_app. split; [exact H2|]. constructor; [exact Hs|constructor].
Qed.

End Surgery.

(** ** One parent for each node *)

Section OneParent.

Lemma NoDup_flat_map_same (cs : list ATree) k k' a :
  NoDup (flat_map addrs cs) -> k ∈ cs -> k' ∈ cs -> a ∈ addrs k -> a ∈ addrs k' -> k = k'.
Proof.
  induction cs as [|c cs IH]; intros Hnd Hk Hk' Ha Ha'; [now apply elem_of_nil in Hk|].
  apply NoDup_flat_map_cons in Hnd. destruct Hnd as (_ & Hnd & Hdisj).
  apply elem_of_cons in Hk, Hk'. destruct Hk as [->|Hk], Hk' as [->|Hk']; auto.
  - exfalso. apply (Hdisj a Ha). apply elem_of_flat_map_addrs. eauto.
  - exfalso. apply (Hdisj a Ha'). apply elem_of_flat_map_addrs. eauto.
Qed.

Lemma NoDup_roots (cs : list ATree) : NoDup (flat_map addrs cs) -> NoDup (map rootOf cs).
Proof.
  induction cs as [|c cs IH]; intros Hnd; [constructor|].
  apply NoDup_flat_map_cons in Hnd. destruct Hnd as (_ & Hnd & Hdisj).
  simpl. apply NoDup_cons. split; [|auto].
  intros Hin. apply list_elem_of_In, in_map_iff in Hin. destruct Hin as (k & He & Hk).
  apply list_elem_of_In in Hk. apply (Hdisj (rootOf c) (addrs_root c)).
  apply elem_of_flat_map_addrs. exists k. split; [exact Hk|]. rewrite <- He. apply addrs_root.
Qed.

(** The node just above the end of a path. *)
Lemma pathDown_above t l s :
  pathDown t l s -> l <> [] ->
  exists l' sq, pathDown t l' sq /\ s ∈ kids sq /\ rootOf sq ∈ rootOf t :: l.
Proof.
  induction 1 as [|a cs c l s Hc Hp IH]; [congruence|]. intros _.
  destruct l as [|b l].
  - inversion Hp; subst. exists [], (ANode a cs). split; [constructor|].
    split; [exact Hc|]. apply elem_of_cons. now left.
  - destruct (IH ltac:(discriminate)) as (l' & sq & Hq & Hin & Hon).
    exists (rootOf c :: l'), sq. split; [now constructor|]. split; [exact Hin|].
    apply elem_of_cons. right. exact Hon.
Qed.

Lemma parentOK_kid h sq s : parentOK h sq -> s ∈ kids sq -> parentAt h (rootOf s) = Some (rootOf sq).
Proof.
  intros Hp Hs. inversion Hp as [a cs Hk _]; subst. simpl in *.
  rewrite Forall_forall in Hk. auto.
Qed.

(** The children of a node of a shape lie strictly under the root of the
    shape. *)
Lemma children_under h t a n c :
  repr h t -> a ∈ addrs t -> h !! a = Some n -> c ∈ children n ->
  c ∈ flat_map addrs (kids t).
Proof.
  induction t as [r cs IH] using ATree_ind'. intros Hr Ha Hn Hc.
  apply repr_inv in Hr. destruct Hr as (m & Hm & Hcm & Hcs). simpl.
  apply addrs_inv in Ha. destruct Ha as [->|(k & Hk & Ha)].
  - rewrite Hm in Hn. injection Hn as <-. rewrite Hcm in Hc.
    apply list_elem_of_In, in_map_iff in Hc. destruct Hc as (k & <- & Hk).
    apply list_elem_of_In in Hk. apply elem_of_flat_map_addrs. exists k.
    split; [exact Hk|apply addrs_root].
  - rewrite Forall_forall in IH, Hcs. apply elem_of_flat_map_addrs. exists k.
    split; [exact Hk|]. apply kids_in_addrs. eapply IH; eauto.
Qed.

(** In a tree a node is the child of one node only. *)
Lemma child_unique h t a b na nb c :
  isTree h t -> a ∈ addrs t -> b ∈ addrs t ->
  h !! a = Some na -> h !! b = Some nb ->
  c ∈ children na -> c ∈ children nb -> a = b.
Proof.
  induction t as [r cs IH] using ATree_ind'. intros [Hr Hnd] Ha Hb Hna Hnb Hca Hcb.
  pose proof Hr as Hr'. apply repr_inv in Hr'. destruct Hr' as (m & Hm & Hcm & Hcs).
  pose proof (root_not_in_kids _ _ Hnd) as Hroot.
  assert (Hndk : NoDup (flat_map addrs cs)) by (simpl in Hnd; now apply NoDup_cons in Hnd).
  rewrite Forall_forall in IH, Hcs.
  assert (Hrootkid : forall d nd k, d ∈ addrs k -> k ∈ cs -> h !! d = Some nd ->
                       c ∈ children nd -> c ∈ children m -> False).
  { intros d nd k Hd Hk Hnd' Hcd Hcm'.
    pose proof (children_under h k d nd c (Hcs k Hk) Hd Hnd' Hcd) as Hunder.
    rewrite Hcm in Hcm'. apply list_elem_of_In, in_map_iff in Hcm'.
    destruct Hcm' as (k' & He & Hk'). apply list_elem_of_In in Hk'.
    assert (k' = k).
    { apply (NoDup_flat_map_same cs k' k c); auto.
      - rewrite <- He. apply addrs_root.
      - now apply kids_in_addrs. }
    subst k'. pose proof (NoDup_child r cs k Hk Hnd) as Hndk'.
    destruct k as [rk ks]. simpl in He, Hunder. subst rk.
    now apply root_not_in_kids in Hndk'. }
  apply addrs_inv in Ha, Hb.
  destruct Ha as [->|(ka & Hka & Ha)], Hb as [->|(kb & Hkb & Hb)]; auto.
  - exfalso. rewrite Hm in Hna. injection Hna as <-. eauto.
  - exfalso. rewrite Hm in Hnb. injection Hnb as <-. eauto.
  - assert (ka = kb).
    { apply (NoDup_flat_map_same cs ka kb c); auto; apply kids_in_addrs.
      - eapply (children_under h ka a na); eauto.
      - eapply (children_under h kb b nb); eauto. }
    subst kb. eapply IH; eauto. split; [auto|]. eapply NoDup_child; eauto.
Qed.

(** A node that lies in a subtree has the root of the subtree on its path
    from the root. *)
Lemma pathDown_through t l1 s1 lp sp :
  NoDup (addrs t) -> pathDown t l1 s1 -> pathDown t lp sp ->
  rootOf sp ∈ addrs s1 -> rootOf s1 ∈ rootOf t :: lp.
Proof.
  intros Hnd Hp1. revert lp sp Hnd. induction Hp1 as [t|a cs c l s1 Hc Hp1 IH];
    intros lp sp Hnd Hp Hin.
  - apply elem_of_cons. now left.
  - pose proof (root_not_in_kids _ _ Hnd) as Hroot.
    assert (Hndk : NoDup (flat_map addrs cs)) by (simpl in Hnd; now apply NoDup_cons in Hnd).
    assert (Hinc : rootOf sp ∈ addrs c) by (eapply pathDown_addrs; eauto).
    inversion Hp as [|a' cs' c' l' s' Hc' Hp']; subst.
    + exfalso. apply Hroot. simpl. apply elem_of_flat_map_addrs. eauto.
    + assert (c' = c).
      { apply (NoDup_flat_map_same cs c' c (rootOf sp)); auto.
        eapply pathDown_addrs; [exact Hp'|apply addrs_root]. }
      subst c'. apply elem_of_cons. right.
      apply (IH l' sp); auto. eapply NoDup_child; eauto.
Qed.

End OneParent.

(** ** Moving a subtree *)

Section Move.

Lemma sameButLinks_fields n n' :
  sameButLinks n n' ->
  id n' = id n /\ text n' = text n /\ level n' = level n /\ type n' = type n /\
  x n' = x n /\ y n' = y n /\ collapsed n' = collapsed n /\
  hasWikilink n' = hasWikilink n /\ wikilinks n' = wikilinks n.
Proof.
  unfold sameButLinks, setChildren, setParent. destruct n, n'; simpl.
  intros [=]. subst. repeat split.
Qed.

Lemma lookup_alter_if (f : Node -> Node) (l : list Node) i j :
  alter f i l !! j = (if j =? i then f else (fun n => n)) <$> l !! j.
Proof.
  destruct (Nat.eqb_spec j i) as [->|Hne].
  - apply list_lookup_alter_eq.
  - rewrite list_lookup_alter_ne by congruence. now destruct (l !! j).
Qed.

(** What the three updates leave in the store. *)
Lemma moved_lookup q c p (h : list Node) a n :
  h !! a = Some n ->
  exists n', moved q c p h !! a = Some n' /\ sameButLinks n n' /\
    parent n' = (if a =? c then Some p else parent n) /\
    children n' = (let cs1 := if a =? q then removeFirst c (children n) else children n in
                   if a =? p then cs1 ++ [c] else cs1).
Proof.
  intros Hn. unfold moved, pushChild, detach.
  rewrite !lookup_alter_if, Hn.
  destruct (a =? c), (a =? q), (a =? p); simpl;
    eexists; (split; [reflexivity|]); repeat split.
Qed.

Lemma moved_length q c p (h : list Node) : length (moved q c p h) = length h.
Proof. unfold moved, pushChild, detach. now rewrite !length_alter. Qed.

Lemma moved_other q c p (h : list Node) a :
  a <> q -> a <> c -> a <> p -> moved q c p h !! a = h !! a.
Proof.
  intros Hq Hc Hp. unfold moved, pushChild, detach.
  now rewrite !list_lookup_alter_ne by congruence.
Qed.

Lemma parentOK_keeps h h' t :
  (forall a, a ∈ flat_map addrs (kids t) -> parentAt h' a = parentAt h a) ->
  parentOK h t -> parentOK h' t.
Proof.
  induction t as [a cs IH] using ATree_ind'. intros Hext Hp.
  inversion Hp as [a' cs' Hk Hrec]; subst. simpl in Hext. constructor.
  - rewrite Forall_forall in Hk. apply Forall_forall. intros c Hc.
    rewrite Hext; [now apply Hk|].
    apply elem_of_flat_map_addrs. exists c. split; [exact Hc|apply addrs_root].
  - rewrite Forall_forall in IH, Hrec. apply Forall_forall. intros c Hc.
    apply IH; auto. intros b Hb. apply Hext.
    apply elem_of_flat_map_addrs. exists c. split; [exact Hc|now apply kids_in_addrs].
Qed.

Lemma idAt_moved q c p h a : idAt (moved q c p h) a = idAt h a.
Proof.
  unfold idAt. destruct (h !! a) as [n|] eqn:E.
  - destruct (moved_lookup q c p h a n E) as (n' & -> & Hs & _). simpl.
    apply sameButLinks_fields in Hs. tauto.
  - apply lookup_ge_None in E. rewrite <- (moved_length q c p) in E.
    apply lookup_ge_None in E. now rewrite E.
Qed.

Lemma parentAt_moved q c p h a : a <> c -> parentAt (moved q c p h) a = parentAt h a.
Proof.
  intros Hc. unfold parentAt. destruct (h !! a) as [n|] eqn:E.
  - destruct (moved_lookup q c p h a n E) as (n' & -> & _ & Hp & _). simpl.
    destruct (Nat.eqb_spec a c); [contradiction|exact Hp].
  - apply lookup_ge_None in E. rewrite <- (moved_length q c p) in E.
    apply lookup_ge_None in E. now rewrite E.
Qed.

Lemma ids_ext h h' t : (forall a, idAt h' a = idAt h a) -> ids h' t = ids h t.
Proof. intros H. unfold ids. apply map_ext. exact H. Qed.

(** The tree after a move that the guard lets through. *)
Lemma move_tree h t l1 s1 lp sp :
  isTree h t -> parentOK h t -> parentAt h (rootOf t) = None ->
  pathDown t l1 s1 -> pathDown t lp sp -> rootOf s1 ∉ rootOf t :: lp ->
  exists q,
    parentAt h (rootOf s1) = Some q /\
    let h' := moved q (rootOf s1) (rootOf sp) h in
    let t' := graft (rootOf sp) s1 (prune (rootOf s1) t) in
    isTree h' t' /\ parentOK h' t' /\ parentAt h' (rootOf t') = None /\
    addrs t' ≡ₚ addrs t /\
    (forall a, a ∉ addrs t -> h' !! a = h !! a).
Proof.
  intros [Hr Hnd] Hok Hroot Hp1 Hpp Hnot.
  set (c := rootOf s1) in *. set (p := rootOf sp) in *.
  assert (Hl1 : l1 <> []).
  { intros ->. inversion Hp1; subst. apply Hnot. apply elem_of_cons. now left. }
  assert (Hcroot : c <> rootOf t).
  { intros He. apply Hnot. rewrite He. apply elem_of_cons. now left. }
  destruct (pathDown_above _ _ _ Hp1 Hl1) as (lq & sq & Hpq & Hkid & _).
  set (q := rootOf sq).
  assert (Hparent : parentAt h c = Some q).
  { apply parentOK_kid; [|exact Hkid]. eapply pathDown_parentOK; eauto. }
  exists q. split; [exact Hparent|]. intros h' t'.
  pose proof (pathDown_isTree h _ _ _ Hpq (conj Hr Hnd)) as [Hrq Hndq].
  pose proof (pathDown_isTree h _ _ _ Hp1 (conj Hr Hnd)) as [Hr1 Hnd1].
  destruct (repr_root _ _ Hrq) as (qn & Hqn & Hqc).
  assert (Hqin : q ∈ addrs t) by (eapply pathDown_addrs; [exact Hpq|apply addrs_root]).
  assert (Hcq : c ∈ children qn).
  { rewrite Hqc. apply list_elem_of_In, in_map, list_elem_of_In. exact Hkid. }
  assert (Hndc : NoDup (children qn)).
  { rewrite Hqc. apply NoDup_roots. destruct sq as [rq ks]. simpl in *.
    now apply NoDup_cons in Hndq. }
  assert (Hq1 : q ∉ addrs s1).
  { intros Hin. destruct sq as [rq ks]. apply (root_not_in_kids _ _ Hndq).
    apply elem_of_flat_map_addrs. eauto. }
  assert (Hp1' : p ∉ addrs s1).
  { intros Hin. apply Hnot. eapply pathDown_through; eauto. }
  assert (Hpin : p ∈ addrs t) by (eapply pathDown_addrs; [exact Hpp|apply addrs_root]).
  assert (Hpc : p <> c).
  { intros He. apply Hp1'. rewrite He. apply addrs_root. }
  pose proof (addrs_prune _ _ _ Hp1 Hl1 Hnd) as Hperm. fold c in Hperm.
  assert (Hndpr : NoDup (addrs (prune c t) ++ addrs s1)) by now rewrite <- Hperm.
  apply NoDup_app in Hndpr. destruct Hndpr as (Hndp & Hdisj & _).
  assert (Hpprune : p ∈ addrs (prune c t)).
  { rewrite Hperm in Hpin. apply elem_of_app in Hpin. tauto. }
  assert (Hcprune : c ∉ addrs (prune c t)).
  { intros Hin. apply (Hdisj c Hin). apply addrs_root. }
  (* the shape after the cut, in the store after the move but for the push *)
  set (h2 := alter (setParent (Some p)) c (detach q c h)).
  assert (Hh2 : forall a n, h !! a = Some n ->
            exists n', h2 !! a = Some n' /\
              children n' = if a =? q then removeFirst c (children n) else children n).
  { intros a n Hn. unfold h2, detach. rewrite !lookup_alter_if, Hn.
    destruct (a =? q), (a =? c); simpl; eexists; split; reflexivity. }
  assert (Hrp2 : repr h2 (prune c t)).
  { apply (repr_prune h); [exact Hr|]. intros a n Ha Hn.
    destruct (Hh2 a n Hn) as (n' & Hn' & Hc'). exists n'. split; [exact Hn'|].
    rewrite Hc'. destruct (Nat.eqb_spec a q) as [->|Hq].
    - assert (n = qn) by (unfold q in *; congruence). subst n.
      now apply removeFirst_without.
    - symmetry. apply without_notin. intros Hin. apply Hq.
      eapply (child_unique h t a q n qn c); eauto. split; auto. }
  assert (Hrs2 : repr h2 s1).
  { eapply repr_ext; [|exact Hr1]. intros a Ha.
    destruct (h !! a) as [n|] eqn:En.
    - destruct (Hh2 a n En) as (n' & -> & Hc'). simpl. rewrite Hc'.
      destruct (Nat.eqb_spec a q) as [->|]; [contradiction|reflexivity].
    - apply lookup_ge_None in En. pose proof (repr_bound _ _ _ Hr1 Ha). lia. }
  assert (Hpush : forall a n, h2 !! a = Some n ->
            exists n', h' !! a = Some n' /\
              children n' = if a =? p then children n ++ [c] else children n).
  { intros a n Hn. unfold h', moved. fold h2. unfold pushChild.
    rewrite lookup_alter_if, Hn.
    destruct (a =? p); simpl; eexists; split; reflexivity. }
  assert (Hrs' : repr h' s1).
  { eapply repr_ext; [|exact Hrs2]. intros a Ha.
    destruct (h2 !! a) as [n|] eqn:En.
    - destruct (Hpush a n En) as (n' & -> & Hc'). simpl. rewrite Hc'.
      destruct (Nat.eqb_spec a p) as [->|]; [contradiction|reflexivity].
    - apply lookup_ge_None in En. pose proof (repr_bound _ _ _ Hrs2 Ha). lia. }
  assert (Hperm' : addrs t' ≡ₚ addrs t).
  { unfold t'. rewrite addrs_graft by assumption. now rewrite Hperm. }
  split; [split|].
  - apply (repr_graft h2); auto.
  - now rewrite Hperm'.
  - split; [|split; [|split]].
    + apply parentOK_graft.
      * eapply parentOK_keeps; [|apply parentOK_prune; exact Hok].
        intros a Ha. apply parentAt_moved. intros ->.
        apply Hcprune. now apply kids_in_addrs.
      * eapply parentOK_keeps; [|eapply pathDown_parentOK; eauto].
        intros a Ha. apply parentAt_moved. intros ->.
        destruct s1 as [r1 k1]. now apply (root_not_in_kids _ _ Hnd1).
      * destruct (repr_root _ _ Hr1) as (cn & Hcn & _).
        destruct (moved_lookup q c p h c cn Hcn) as (cn' & Hcn' & _ & Hpar & _).
        rewrite Nat.eqb_refl in Hpar.
        change (parentAt (moved q c p h) c = Some p). unfold parentAt.
        rewrite Hcn'. exact Hpar.
    + unfold t'. rewrite rootOf_graft, rootOf_prune.
      unfold h'. rewrite parentAt_moved by congruence. exact Hroot.
    + exact Hperm'.
    + intros a Ha. apply moved_other; intros ->; auto.
      apply Ha. eapply pathDown_addrs; [exact Hp1|apply addrs_root].
Qed.

End Move.

(** ** C4: the guard of [moveNodeToParent] *)

Section MoveGuard.

Lemma parentOKb_spec h t : parentOKb h t = true -> parentOK h t.
Proof.
  induction t as [a cs IH] using ATree_ind'. simpl. intros H.
  apply andb_true_iff in H. destruct H as [H1 H2].
  rewrite forallb_forall in H1, H2. rewrite Forall_forall in IH.
  constructor; apply Forall_forall; intros c Hc.
  - apply list_elem_of_In in Hc. specialize (H1 c Hc). now apply bool_decide_eq_true in H1.
  - apply IH; [exact Hc|]. apply H2. now apply list_elem_of_In.
Qed.

Lemma shownTree_shows v t : shownTree v = Some t -> shows v t.
Proof.
  unfold shownTree. destruct (mindmapData v) as [data|] eqn:Ed; cbn [mbind option_bind];
    [|discriminate].
  destruct (treeAt (store v) data) as [t'|] eqn:Et; cbn [mbind option_bind]; [|discriminate].
  destruct (bool_decide (canvasData v = Some data) && parentOKb (store v) t'
            && bool_decide (parentAt (store v) data = None)) eqn:Eb; [|discriminate].
  intros [= <-]. apply andb_true_iff in Eb. destruct Eb as [Eb E3].
  apply andb_true_iff in Eb. destruct Eb as [E1 E2].
  apply bool_decide_eq_true in E1, E3. apply parentOKb_spec in E2.
  destruct (treeAt_isTree _ _ _ Et) as [Htree Hroot].
  unfold shows. rewrite Hroot. auto.
Qed.

Lemma frame_parentAt (h h' : list Node) a :
  Forall2 sameButXY h h' -> parentAt h' a = parentAt h a.
Proof.
  intros HF. unfold parentAt. destruct (h !! a) as [n|] eqn:E.
  - destruct (frame_lookup _ _ _ _ HF E) as (n' & -> & Hs). simpl.
    apply sameButXY_fields in Hs. tauto.
  - apply lookup_ge_None in E. rewrite (Forall2_length _ _ _ HF) in E.
    apply lookup_ge_None in E. now rewrite E.
Qed.

Lemma frame_idAt (h h' : list Node) a :
  Forall2 sameButXY h h' -> idAt h' a = idAt h a.
Proof.
  intros HF. unfold idAt. destruct (h !! a) as [n|] eqn:E.
  - destruct (frame_lookup _ _ _ _ HF E) as (n' & -> & Hs). simpl.
    apply sameButXY_fields in Hs. tauto.
  - apply lookup_ge_None in E. rewrite (Forall2_length _ _ _ HF) in E.
    apply lookup_ge_None in E. now rewrite E.
Qed.

Lemma frame_parentOK (h h' : list Node) t :
  Forall2 sameButXY h h' -> parentOK h t -> parentOK h' t.
Proof. intros HF. apply parentOK_keeps. intros a _. now apply frame_parentAt. Qed.

Lemma frame_isTree (h h' : list Node) t :
  Forall2 sameButXY h h' -> isTree h t -> isTree h' t.
Proof. intros HF [Hr Hnd]. split; [eapply frame_repr; eauto|exact Hnd]. Qed.

(** Laying out and rendering a view whose store holds a tree. *)
Lemma recalculateAndRender_spec v t :
  mindmapData v = Some (rootOf t) -> isTree (store v) t ->
  exists h', calculateNodePositions (store v) (rootOf t) = Some h' /\
    Forall2 sameButXY (store v) h' /\
    recalculateAndRender v = Some (renderMindmap (rootOf t) (withStore h' v)).
Proof.
  intros Hd Ht. destruct (calculateNodePositions_spec _ _ Ht) as (h' & E & HF & _).
  exists h'. split; [exact E|]. split; [exact HF|].
  unfold recalculateAndRender. rewrite Hd, E. reflexivity.
Qed.

Lemma pathDown_target_differs t (s1 : ATree) lp sp :
  pathDown t lp sp -> rootOf s1 ∉ rootOf t :: lp -> rootOf sp <> rootOf s1.
Proof.
  intros Hp Hnot He. apply Hnot. rewrite <- He. destruct lp as [|b lp].
  - inversion Hp; subst. apply elem_of_cons. now left.
  - apply elem_of_cons. right. apply last_Some_elem_of.
    apply (pathDown_last _ _ _ Hp). discriminate.
Qed.

(** The two answers of [moveNodeToParent] in a view that shows a tree. *)
Lemma moveNodeToParent_rejects v t l1 s1 l2 s2 :
  shows v t -> pathDown t l1 s1 -> pathDown s1 l2 s2 ->
  moveNodeToParent (rootOf s1) (rootOf s2) v = Some v.
Proof.
  intros (Hd & Hcd & Ht & Hok & Hroot) Hp1 Hp2. unfold moveNodeToParent. rewrite Hcd.
  destruct l2 as [|b l2].
  - inversion Hp2; subst. now rewrite Nat.eqb_refl.
  - destruct (rootOf s1 =? rootOf s2); [reflexivity|].
    rewrite (isAncestor_descendant _ t l1 s1 (b :: l2) s2) by (auto; discriminate).
    reflexivity.
Qed.

Lemma moveNodeToParent_moves v t l1 s1 lp sp :
  shows v t -> pathDown t l1 s1 -> pathDown t lp sp -> rootOf s1 ∉ rootOf t :: lp ->
  exists q h',
    parentAt (store v) (rootOf s1) = Some q /\
    let h3 := moved q (rootOf s1) (rootOf sp) (store v) in
    let t' := graft (rootOf sp) s1 (prune (rootOf s1) t) in
    moveNodeToParent (rootOf s1) (rootOf sp) v
    = Some (renderMindmap (rootOf t) (withStore h' v)) /\
    Forall2 sameButXY h3 h' /\
    isTree h3 t' /\ parentOK h3 t' /\ parentAt h3 (rootOf t) = None /\
    rootOf t' = rootOf t /\ addrs t' ≡ₚ addrs t /\
    (forall a, a ∉ addrs t -> h3 !! a = store v !! a).
Proof.
  intros (Hd & Hcd & Ht & Hok & Hroot) Hp1 Hpp Hnot.
  destruct (move_tree _ _ _ _ _ _ Ht Hok Hroot Hp1 Hpp Hnot)
    as (q & Hq & Ht' & Hok' & Hroot' & Hperm & Hout).
  set (c := rootOf s1) in *. set (p := rootOf sp) in *.
  set (h3 := moved q c p (store v)) in *.
  set (t' := graft p s1 (prune c t)) in *.
  assert (Hrt : rootOf t' = rootOf t).
  { unfold t'. now rewrite rootOf_graft, rootOf_prune. }
  assert (Hpc : p <> c) by (eapply pathDown_target_differs; eauto).
  destruct (recalculateAndRender_spec (withStore h3 v) t') as (h4 & E4 & HF & Erender).
  { simpl. now rewrite Hrt. }
  { exact Ht'. }
  exists q, h4. split; [exact Hq|]. cbv zeta.
  split; [|split; [exact HF|split; [exact Ht'|split; [exact Hok'|]]]].
  - unfold moveNodeToParent. rewrite Hcd.
    destruct (Nat.eqb_spec c p) as [He|_]; [congruence|].
    assert (Hanc : isAncestor (store v) c p = Some false).
    { apply (isAncestor_elsewhere _ t lp sp c Ht Hok Hroot Hpp).
      - intros Hin. apply Hnot. apply elem_of_cons. now right.
      - intros He. apply Hnot. apply elem_of_cons. now left.
      - exact Hpc. }
    rewrite Hanc. cbn [mbind option_bind]. unfold parentAt in Hq.
    destruct (store v !! c) as [cn|] eqn:Ecn; [|discriminate]. simpl in Hq.
    cbn [mbind option_bind]. rewrite Hq. rewrite <- Hrt. exact Erender.
  - rewrite <- Hrt. auto.
Qed.

(** C4.  In a view that shows a tree, [moveNodeToParent] on a node and a
    target that is the node itself or lies under it returns the view as it
    was.  On a node and a target of the tree such that the node is not on the
    way from the root to the target (the target is neither the node nor under
    it), it returns a view in which the node is removed from the children
    of its former parent, is the last child of the target, and has the target as
    parent; no other child list nor parent changes, and the view shows the
    tree with the subtree moved. *)
Theorem move_rejects_own_subtree (v : View) (t : ATree) :
  shows v t ->
  (forall l1 s1 l2 s2,
     pathDown t l1 s1 -> pathDown s1 l2 s2 ->
     moveNodeToParent (rootOf s1) (rootOf s2) v = Some v) /\
  (forall l1 s1 lp sp,
     pathDown t l1 s1 -> pathDown t lp sp -> rootOf s1 ∉ rootOf t :: lp ->
     exists q v',
       parentAt (store v) (rootOf s1) = Some q /\
       moveNodeToParent (rootOf s1) (rootOf sp) v = Some v' /\
       length (store v') = length (store v) /\
       (forall a n, store v !! a = Some n ->
          exists n', store v' !! a = Some n' /\
            parent n' = (if a =? rootOf s1 then Some (rootOf sp) else parent n) /\
            children n' =
              (let cs1 := if a =? q then removeFirst (rootOf s1) (children n)
                          else children n in
               if a =? rootOf sp then cs1 ++ [rootOf s1] else cs1)) /\
       shows v' (graft (rootOf sp) s1 (prune (rootOf s1) t))).
Proof.
  intros Hshows. split.
  - intros l1 s1 l2 s2. now apply moveNodeToParent_rejects.
  - intros l1 s1 lp sp Hp1 Hpp Hnot.
    destruct (moveNodeToParent_moves v t l1 s1 lp sp Hshows Hp1 Hpp Hnot)
      as (q & h4 & Hq & Hmove & HF & Ht' & Hok' & Hroot' & Hrt & _ & _).
    destruct Hshows as (Hd & Hcd & _).
    exists q, (renderMindmap (rootOf t) (withStore h4 v)).
    split; [exact Hq|]. split; [exact Hmove|]. split; [|split].
    + simpl. rewrite <- (Forall2_length _ _ _ HF). apply moved_length.
    + intros a n Hn.
      destruct (moved_lookup q (rootOf s1) (rootOf sp) _ a n Hn) as (n3 & Hn3 & _ & Hp3 & Hc3).
      destruct (frame_lookup _ _ _ _ HF Hn3) as (n4 & Hn4 & Hs).
      apply sameButXY_fields in Hs. exists n4. simpl. split; [exact Hn4|].
      split; [|]; [transitivity (parent n3)|transitivity (children n3)]; tauto.
    + unfold shows. simpl. rewrite Hrt. split; [exact Hd|]. split; [reflexivity|].
      split; [eapply frame_isTree; eauto|]. split; [eapply frame_parentOK; eauto|].
      now rewrite (frame_parentAt _ _ _ HF).
Qed.

End MoveGuard.

Lemma move_rejects_own_subtree_witness :
  (forall l1 s1 l2 s2,
     pathDown outlineShown l1 s1 -> pathDown s1 l2 s2 ->
     moveNodeToParent (rootOf s1) (rootOf s2) outlineView = Some outlineView) /\
  (forall l1 s1 lp sp,
     pathDown outlineShown l1 s1 -> pathDown outlineShown lp sp ->
     rootOf s1 ∉ rootOf outlineShown :: lp ->
     exists q v',
       parentAt (store outlineView) (rootOf s1) = Some q /\
       moveNodeToParent (rootOf s1) (rootOf sp) outlineView = Some v' /\
       length (store v') = length (store outlineView) /\
       (forall a n, store outlineView !! a = Some n ->
          exists n', store v' !! a = Some n' /\
            parent n' = (if a =? rootOf s1 then Some (rootOf sp) else parent n) /\
            children n' =
              (let cs1 := if a =? q then removeFirst (rootOf s1) (children n)
                          else children n in
               if a =? rootOf sp then cs1 ++ [rootOf s1] else cs1)) /\
       shows v' (graft (rootOf sp) s1 (prune (rootOf s1) outlineShown))).
Proof.
  apply (move_rejects_own_subtree outlineView outlineShown).
  apply shownTree_shows. reflexivity.
Defined.

(** ** A new leaf under a node of a tree *)

Section Attach.

Lemma attach_at (h : list Node) p node b :
  pushChild p (length h) (h ++ [node]) !! b
  = (if b =? p then fun n => setChildren (children n ++ [length h]) n else fun n => n)
      <$> (h ++ [node]) !! b.
Proof. unfold pushChild. apply lookup_alter_if. Qed.

Lemma attach_parentAt (h : list Node) p node b :
  b < length h -> parentAt (pushChild p (length h) (h ++ [node])) b = parentAt h b.
Proof.
  intros Hb. unfold parentAt. rewrite attach_at, lookup_app_l by assumption.
  destruct (h !! b); simpl; [|reflexivity]. now destruct (b =? p).
Qed.

Lemma attach_idAt (h : list Node) p node b :
  b < length h -> idAt (pushChild p (length h) (h ++ [node])) b = idAt h b.
Proof.
  intros Hb. unfold idAt. rewrite attach_at, lookup_app_l by assumption.
  destruct (h !! b); simpl; [|reflexivity]. now destruct (b =? p).
Qed.

Lemma attach_children (h : list Node) p node b :
  b < length h -> b <> p ->
  children <$> pushChild p (length h) (h ++ [node]) !! b = children <$> h !! b.
Proof.
  intros Hb Hne. rewrite attach_at, lookup_app_l by assumption.
  destruct (Nat.eqb_spec b p); [contradiction|]. now destruct (h !! b).
Qed.

(** A tree that does not hold [p] is left as it is. *)
Lemma attach_repr_other (h : list Node) p node s :
  repr h s -> p ∉ addrs s -> repr (pushChild p (length h) (h ++ [node])) s.
Proof.
  intros Hr Hp. eapply repr_ext; [|exact Hr]. intros b Hb.
  apply attach_children; [eapply repr_bound; eauto|]. intros ->. contradiction.
Qed.

Lemma attach_tree (h : list Node) t p node :
  isTree h t -> parentOK h t -> p ∈ addrs t ->
  children node = [] -> parent node = Some p ->
  let a := length h in
  let h' := pushChild p a (h ++ [node]) in
  let t' := graft p (ANode a []) t in
  isTree h' t' /\ parentOK h' t' /\ addrs t' ≡ₚ addrs t ++ [a] /\
  ids h' t' ≡ₚ ids h t ++ [id node].
Proof.
  intros [Hr Hnd] Hok Hp Hcn Hpn a h' t'.
  assert (Hpl : p < length h) by (eapply repr_bound; eauto).
  assert (Hnew : h' !! a = Some node) by (apply attach_new; exact Hpl).
  assert (Hperm : addrs t' ≡ₚ addrs t ++ [a]).
  { unfold t'. rewrite addrs_graft by assumption. reflexivity. }
  assert (Hfresh : a ∉ addrs t).
  { intros Hin. pose proof (repr_bound _ _ _ Hr Hin). unfold a in *. lia. }
  split; [split|split; [|split]].
  - apply (repr_graft h); [exact Hr| |].
    + apply repr_node with node; [exact Hnew|exact Hcn|constructor].
    + intros b n Hb Hn. pose proof (lookup_lt_Some _ _ _ Hn) as Hbl.
      unfold h', a. rewrite attach_at, lookup_app_l, Hn by assumption. simpl.
      destruct (b =? p); eexists; split; reflexivity.
  - rewrite Hperm. apply NoDup_app. split; [exact Hnd|]. split; [|apply NoDup_singleton].
    intros b Hb Hin. apply list_elem_of_singleton in Hin. subst b. contradiction.
  - apply parentOK_graft.
    + eapply parentOK_keeps; [|exact Hok]. intros b Hb.
      unfold h', a. apply attach_parentAt. eapply repr_bound; [exact Hr|]. now apply kids_in_addrs.
    + constructor; constructor.
    + simpl. unfold parentAt. rewrite Hnew. exact Hpn.
  - exact Hperm.
  - unfold ids. rewrite Hperm, map_app. simpl.
    replace (idAt h' a) with (id node) by (unfold idAt; now rewrite Hnew).
    apply Permutation_app_tail. erewrite map_ext_in; [reflexivity|].
    intros b Hb. apply list_elem_of_In in Hb. unfold h', a. apply attach_idAt.
    eapply repr_bound; eauto.
Qed.

End Attach.

(** ** Identifiers *)

Section Identifiers.

Lemma lit_inj s1 s2 : lit s1 = lit s2 -> s1 = s2.
Proof.
  revert s2. induction s1 as [|a s1 IH]; intros [|b s2]; simpl; try discriminate; auto.
  intros [= Hab Hs]. f_equal; [|auto].
  rewrite <- (Ascii.ascii_N_embedding a), <- (Ascii.ascii_N_embedding b). now rewrite Hab.
Qed.

Lemma numToString_inj n m : numToString n = numToString m -> n = m.
Proof.
  unfold numToString. intros H. apply lit_inj in H.
  assert (Hd : Z.to_int n = Z.to_int m).
  { apply (f_equal NilEmpty.int_of_string) in H. rewrite !NilEmpty.isi in H. congruence. }
  rewrite <- (DecimalZ.of_to n), <- (DecimalZ.of_to m). now rewrite Hd.
Qed.

Lemma nodeId_inj n m : nodeId n = nodeId m -> n = m.
Proof. unfold nodeId. intros H. apply app_inv_head in H. now apply numToString_inj. Qed.

Lemma nodeId_not_root n : nodeId n <> lit "root".
Proof. unfold nodeId. simpl. discriminate. Qed.

Lemma map_id_alter (f : Node -> Node) p (h : list Node) :
  (forall n, id (f n) = id n) -> map id (alter f p h) = map id h.
Proof.
  intros Hf. apply list_eq. intros i. change (map id) with (fmap (M:=list) id).
  rewrite !list_lookup_fmap, lookup_alter_if.
  destruct (h !! i); simpl; [|reflexivity]. destruct (i =? p); [now rewrite Hf|reflexivity].
Qed.

(** Objects with different identifiers: so have the nodes of any shape. *)
Lemma NoDup_ids (h : list Node) t :
  NoDup (map id h) -> repr h t -> NoDup (addrs t) -> NoDup (ids h t).
Proof.
  intros Hid Hr Hnd. unfold ids. change (map (idAt h)) with (fmap (M:=list) (idAt h)).
  apply NoDup_fmap_2_strong; [|exact Hnd].
  intros a b Ha Hb He.
  pose proof (repr_bound _ _ _ Hr Ha) as Hal. pose proof (repr_bound _ _ _ Hr Hb) as Hbl.
  destruct (lookup_lt_is_Some_2 h a Hal) as [na Hna].
  destruct (lookup_lt_is_Some_2 h b Hbl) as [nb Hnb].
  rewrite (idAt_lookup _ _ _ Hna), (idAt_lookup _ _ _ Hnb) in He.
  change (map id) with (fmap (M:=list) id) in Hid.
  eapply (proj1 (NoDup_alt _) Hid a b (id na)); rewrite list_lookup_fmap.
  - now rewrite Hna.
  - rewrite Hnb. simpl. now rewrite He.
Qed.

End Identifiers.

(** ** The tree that [parseMarkdown] builds *)

Section ParseTree.

Lemma parseTree_init : parseTree (mkParseState [rootNode] [0] 1) (ANode 0 []).
Proof.
  unfold parseTree. simpl. split; [reflexivity|]. split.
  { split; [|apply NoDup_singleton]. apply repr_node with rootNode; [reflexivity|reflexivity|constructor]. }
  split; [constructor; constructor|]. split; [reflexivity|].
  split; [constructor; [apply elem_of_cons; now left|constructor]|].
  split; [lia|]. exists []. split; [reflexivity|]. split; constructor.
Qed.

Lemma findParentNode_in h stack lvl p : findParentNode h stack lvl = Some p -> p ∈ stack.
Proof.
  unfold findParentNode. destruct (scanStack h (rev stack) lvl) as [a|] eqn:E.
  - intros [= <-]. destruct (scanStack_some _ _ _ _ E) as (above & below & He & _).
    apply elem_of_rev. rewrite He. apply elem_of_app. right. apply elem_of_cons. now left.
  - destruct stack; simpl; [discriminate|]. intros [= <-]. apply elem_of_cons. now left.
Qed.

Lemma parseTree_step st t i line st' :
  parseTree st t -> parseStep st i line = Some st' -> exists t', parseTree st' t'.
Proof.
  intros (Hroot & Ht & Hok & Hpar & Hstack & Hid1 & ks & Hks & Hbound & Hnd) Hstep.
  destruct (parseStep_cases _ _ _ _ Hstep) as [(Hh & Hs & Hc)|(node & p & Hline & Hfind & Hh & Hs & Hc)].
  - exists t. unfold parseTree. rewrite Hh, Hs. repeat (split; [assumption|]).
    split; [lia|]. exists ks. split; [exact Hks|]. split; [|exact Hnd].
    eapply Forall_impl; [exact Hbound|]. simpl. intros k Hk. lia.
  - set (h := ps_heap st) in *. set (a := length h) in *.
    destruct (parseLine_fresh _ _ _ _ Hline) as (Hidn & Hcn & _).
    assert (Hp : p ∈ addrs t).
    { rewrite Forall_forall in Hstack. apply Hstack. eapply findParentNode_in; eauto. }
    destruct (attach_tree h t p (setParent (Some p) node) Ht Hok Hp)
      as (Ht' & Hok' & Hperm & _); [exact Hcn|reflexivity|].
    fold a in Ht', Hok', Hperm. unfold attached in Hh. fold a in Hh. rewrite <- Hh in Ht', Hok'.
    exists (graft p (ANode a []) t). unfold parseTree.
    split; [now rewrite rootOf_graft|]. split; [exact Ht'|]. split; [exact Hok'|].
    assert (H0 : 0 < length h).
    { destruct Ht as [Hr _]. eapply repr_bound; [exact Hr|]. rewrite <- Hroot. apply addrs_root. }
    split; [rewrite Hh; unfold a; rewrite attach_parentAt by exact H0; exact Hpar|].
    split.
    { rewrite Hs. unfold updateNodeStack. apply Forall_forall. intros b Hb.
      rewrite Hperm. apply elem_of_app. apply elem_of_app in Hb. destruct Hb as [Hb|Hb].
      - left. apply (proj1 (elem_of_rev _ _)) in Hb. apply popStack_incl in Hb.
        apply (proj1 (elem_of_rev _ _)) in Hb.
        rewrite Forall_forall in Hstack. auto.
      - right. exact Hb. }
    split; [lia|]. exists (ks ++ [ps_currentId st]).
    split; [|split].
    + rewrite Hh. unfold pushChild. rewrite map_id_alter by reflexivity.
      rewrite !map_app. simpl. fold h. rewrite Hks. simpl. now rewrite Hidn.
    + apply Forall_app. split.
      * eapply Forall_impl; [exact Hbound|]. simpl. intros k Hk. lia.
      * constructor; [lia|constructor].
    + apply NoDup_app. split; [exact Hnd|]. split; [|apply NoDup_singleton].
      intros k Hk Hin. apply list_elem_of_singleton in Hin. subst k.
      rewrite Forall_forall in Hbound. specialize (Hbound _ Hk). lia.
Qed.

Lemma parseLines_tree lines : forall st t i st',
  parseTree st t -> parseLines st i lines = Some st' -> exists t', parseTree st' t'.
Proof.
  induction lines as [|line rest IH]; intros st t i st' Hinv; simpl.
  - intros [= <-]. eauto.
  - destruct (parseStep st i line) as [st1|] eqn:E; cbn [mbind option_bind]; [|discriminate].
    destruct (parseTree_step _ _ _ _ _ Hinv E) as (t1 & Hinv1). eauto.
Qed.

(** What [parseMarkdown] returns is a tree under address 0, whose nodes point
    back to their parents and have different identifiers. *)
Lemma parseMarkdown_tree content h :
  parseMarkdown content = Some h ->
  exists t, rootOf t = 0 /\ isTree h t /\ parentOK h t /\ parentAt h 0 = None /\
    NoDup (map id h).
Proof.
  unfold parseMarkdown.
  destruct (parseLines _ 0 (split c_newline content)) as [st|] eqn:E; [|discriminate].
  simpl. intros [= <-].
  destruct (parseLines_tree _ _ _ _ _ parseTree_init E)
    as (t & Hroot & Ht & Hok & Hpar & _ & _ & ks & Hks & _ & Hnd).
  exists t. repeat (split; [assumption|]). rewrite Hks. apply NoDup_cons. split.
  - intros Hin. apply list_elem_of_In, in_map_iff in Hin. destruct Hin as (k & Hk & _).
    now apply nodeId_not_root in Hk.
  - change (map nodeId) with (fmap (M:=list) nodeId).
    apply NoDup_fmap_2_strong; [|exact Hnd]. intros x y _ _. apply nodeId_inj.
Qed.

End ParseTree.

(** ** The trees that a view keeps *)

Section Kept.

Lemma goodTree_ext (fresh : Prop) h h' s :
  (forall a, a ∈ addrs s ->
     children <$> h' !! a = children <$> h !! a /\ idAt h' a = idAt h a) ->
  parentAt h' (rootOf s) = None ->
  goodTree fresh h s -> goodTree fresh h' s.
Proof.
  intros Hext Hpar (Hr & _ & Hid). split; [|split; [exact Hpar|]].
  - eapply repr_ext; [|exact Hr]. intros a Ha. now apply Hext.
  - intros Hf. specialize (Hid Hf). unfold ids in *. erewrite map_ext_in; [exact Hid|].
    intros a Ha. apply list_elem_of_In in Ha. now apply Hext.
Qed.

Lemma goodTree_same (fresh : Prop) h h' s :
  (forall a, a ∈ addrs s -> h' !! a = h !! a) -> goodTree fresh h s -> goodTree fresh h' s.
Proof.
  intros Hext Hg. pose proof Hg as (_ & Hpar & _). eapply goodTree_ext; [| |exact Hg].
  - intros a Ha. unfold idAt. now rewrite (Hext a Ha).
  - unfold parentAt. rewrite Hext by apply addrs_root. exact Hpar.
Qed.

Lemma goodTree_frame (fresh : Prop) h h' s : Forall2 sameButXY h h' -> goodTree fresh h s -> goodTree fresh h' s.
Proof.
  intros HF (Hr & Hpar & Hid). split; [eapply frame_repr; eauto|]. split.
  - now rewrite (frame_parentAt _ _ _ HF).
  - intros Hf. erewrite ids_ext; [exact (Hid Hf)|]. intros a. now apply frame_idAt.
Qed.

Lemma stored_frame (fresh : Prop) h h' hist all :
  Forall2 sameButXY h h' -> stored fresh h hist all -> stored fresh h' hist all.
Proof.
  intros HF (Hg & Hnd & Hh). split; [|split; assumption].
  eapply Forall_impl; [exact Hg|]. intros s. now apply goodTree_frame.
Qed.

Lemma stored_perm (fresh : Prop) h hist all all' :
  all ≡ₚ all' -> stored fresh h hist all -> stored fresh h hist all'.
Proof.
  intros Hp (Hg & Hnd & Hh). split; [|split].
  - now rewrite <- Hp.
  - now rewrite <- (Permutation_flat_map addrs Hp).
  - eapply Forall_impl; [exact Hh|]. simpl. intros r Hr.
    eapply elem_of_Permutation_proper; [|exact Hr].
    symmetry. now apply Permutation_map.
Qed.

Lemma stored_elem (fresh : Prop) h hist all s a :
  stored fresh h hist all -> s ∈ all -> a ∈ addrs s -> a < length h.
Proof.
  intros (Hg & _) Hs Ha. rewrite Forall_forall in Hg.
  destruct (Hg s Hs) as (Hr & _). eapply repr_bound; eauto.
Qed.

(** Two trees of the list with an address in common are the same entry. *)
Lemma stored_apart (fresh : Prop) h hist cur snaps s a :
  stored fresh h hist (cur :: snaps) -> s ∈ snaps -> a ∈ addrs cur -> a ∉ addrs s.
Proof.
  intros (_ & Hnd & _) Hs Ha Hin. simpl in Hnd. apply NoDup_app in Hnd.
  destruct Hnd as (_ & Hdisj & _). apply (Hdisj a Ha).
  apply elem_of_flat_map_addrs. eauto.
Qed.

Lemma shows_frame v v' t :
  shows v t -> Forall2 sameButXY (store v) (store v') ->
  mindmapData v' = mindmapData v -> canvasData v' = mindmapData v -> shows v' t.
Proof.
  intros (Hd & Hcd & Ht & Hok & Hroot) HF Hd' Hcd'. unfold shows.
  rewrite Hd', Hcd', Hd. split; [reflexivity|]. split; [reflexivity|].
  split; [eapply frame_isTree; eauto|]. split; [eapply frame_parentOK; eauto|].
  now rewrite (frame_parentAt _ _ _ HF).
Qed.

Lemma ids_copied (h1 h2 : list Node) l l' :
  Forall2 (copied h1 h2) l l' -> map (idAt h2) l' = map (idAt h1) l.
Proof.
  induction 1 as [|a a' l l' (n & n' & Hn & Hn' & Hpar & Hc) _ IH]; [reflexivity|].
  simpl. rewrite IH. f_equal. rewrite (idAt_lookup _ _ _ Hn), (idAt_lookup _ _ _ Hn').
  apply (f_equal id) in Hc. destruct n, n'. exact Hc.
Qed.

(** [saveToHistory] in a view that shows a tree: the snapshot is a copy of
    the tree in new objects, and the last entry of the history. *)
Lemma saveToHistory_runs v t :
  shows v t ->
  exists ext t' v1,
    saveToHistory v = Some v1 /\ store v1 = store v ++ ext /\
    length ext = length (addrs t) /\
    mindmapData v1 = mindmapData v /\ canvasData v1 = canvasData v /\
    selectedNodeId v1 = selectedNodeId v /\ currentFile v1 = currentFile v /\
    rootOf t' = length (store v) /\ repr (store v ++ ext) t' /\
    parentAt (store v ++ ext) (rootOf t') = None /\
    addrs t' = seq (length (store v)) (length (addrs t)) /\
    ids (store v ++ ext) t' = ids (store v) t /\
    Forall (fun r => r ∈ history v \/ r = rootOf t') (history v1).
Proof.
  intros (Hd & Hcd & Ht & Hok & Hroot).
  destruct (copyOk_all (length (store v)) t (store v) (proj1 Ht) (isTree_height _ _ Ht))
    as (ext & t' & E & Hrt' & Hr' & Ha' & Hlen & Hcop).
  assert (Hids : ids (store v ++ ext) t' = ids (store v) t) by (now apply ids_copied).
  assert (Hpar : parentAt (store v ++ ext) (rootOf t') = None).
  { destruct t as [r cs], t' as [r' cs']. simpl in *.
    apply Forall2_cons_1 in Hcop. destruct Hcop as [(n & n' & _ & Hn' & Hpar & _) _].
    unfold parentAt. now rewrite Hn'. }
  unfold saveToHistory. rewrite Hd, E. cbn [mbind option_bind]. rewrite <- Hrt'.
  set (hist := take _ (history v) ++ [rootOf t']).
  assert (Hhist : Forall (fun r => r ∈ history v \/ r = rootOf t') hist).
  { apply Forall_app. split; [|constructor; [now right|constructor]].
    apply Forall_forall. intros r Hr. left.
    rewrite <- (take_drop (Z.to_nat (historyIndex v + 1)) (history v)).
    apply elem_of_app. now left. }
  exists ext, t'.
  destruct (20 <? length hist); eexists; (split; [reflexivity|]); simpl;
    repeat (split; [first [reflexivity|assumption|rewrite Hrt'; assumption]|]).
  - apply Forall_forall. intros r Hr. rewrite Forall_forall in Hhist. apply Hhist.
    rewrite <- (take_drop 1 hist). apply elem_of_app. now right.
  - exact Hhist.
Qed.

(** The kept trees after [saveToHistory]: the snapshot is one more. *)
Lemma saveToHistory_stored (fresh : Prop) v cur snaps :
  shows v cur -> stored fresh (store v) (history v) (cur :: snaps) ->
  exists t' v1,
    saveToHistory v = Some v1 /\ shows v1 cur /\
    stored fresh (store v1) (history v1) (cur :: t' :: snaps) /\
    (exists ext, store v1 = store v ++ ext) /\
    selectedNodeId v1 = selectedNodeId v /\ currentFile v1 = currentFile v.
Proof.
  intros Hshows Hst.
  destruct (saveToHistory_runs v cur Hshows)
    as (ext & t' & v1 & E & Hs1 & Hlen & Hd1 & Hcd1 & Hsel1 & Hcf1 & Hrt' & Hr' & Hpar' &
        Ha' & Hids' & Hh1).
  exists t', v1. split; [exact E|].
  assert (Hold : forall s a, s ∈ cur :: snaps -> a ∈ addrs s ->
            (store v ++ ext) !! a = store v !! a).
  { intros s a Hs Ha. apply lookup_app_l. eapply stored_elem; eauto. }
  destruct Hshows as (Hd & Hcd & Ht & Hok & Hroot).
  destruct Hst as (Hg & Hnd & Hh).
  split; [|split; [|split; [eauto|split; assumption]]].
  - unfold shows. rewrite Hd1, Hcd1, Hs1. split; [exact Hd|]. split; [exact Hcd|].
    split; [split; [apply repr_app; apply Ht|apply Ht]|].
    split.
    + eapply parentOK_ext; [|exact Hok]. intros a Ha. eapply Hold; [|exact Ha].
      apply elem_of_cons. now left.
    + unfold parentAt. rewrite (Hold cur); [exact Hroot|apply elem_of_cons; now left|apply addrs_root].
  - rewrite Hs1. assert (Hgc : goodTree fresh (store v ++ ext) cur).
    { apply Forall_cons in Hg. destruct Hg as [Hgc _].
      eapply goodTree_same; [|exact Hgc]. intros a Ha. eapply Hold; [|exact Ha].
      apply elem_of_cons. now left. }
    split; [|split].
    + constructor; [exact Hgc|]. constructor.
      * split; [exact Hr'|]. split; [exact Hpar'|]. rewrite Hids'.
        apply Forall_cons in Hg. destruct Hg as [(_ & _ & Hid) _]. exact Hid.
      * apply Forall_cons in Hg. destruct Hg as [_ Hg].
        apply Forall_forall. intros s Hs. rewrite Forall_forall in Hg.
        eapply goodTree_same; [|apply Hg; exact Hs]. intros a Ha.
        eapply Hold; [|exact Ha]. apply elem_of_cons. now right.
    + assert (Hp : cur :: t' :: snaps ≡ₚ t' :: cur :: snaps) by apply Permutation_swap.
      rewrite (Permutation_flat_map addrs Hp). simpl.
      apply NoDup_app. split; [rewrite Ha'; apply NoDup_seq|]. split; [|exact Hnd].
      intros a Ha Hin. rewrite Ha' in Ha. apply elem_of_seq in Ha.
      change (a ∈ flat_map addrs (cur :: snaps)) in Hin.
      apply elem_of_flat_map_addrs in Hin. destruct Hin as (s & Hs & Has).
      assert (a < length (store v)); [|lia].
      eapply (stored_elem fresh (store v) (history v) (cur :: snaps)); eauto.
      split; [exact Hg|split; assumption].
    + apply Forall_forall. intros r Hr. rewrite Forall_forall in Hh1, Hh.
      destruct (Hh1 r Hr) as [Hin| ->].
      * specialize (Hh r Hin). simpl in Hh. simpl.
        apply elem_of_cons in Hh. destruct Hh as [->|Hh].
        -- apply elem_of_cons. now left.
        -- apply elem_of_cons. right. apply elem_of_cons. now right.
      * simpl. apply elem_of_cons. right. apply elem_of_cons. now left.
Qed.

End Kept.

(** ** Adding a child *)

Section AddChild.

Lemma shows_app v v1 ext t :
  shows v t -> store v1 = store v ++ ext ->
  mindmapData v1 = mindmapData v -> canvasData v1 = canvasData v -> shows v1 t.
Proof.
  intros (Hd & Hcd & Ht & Hok & Hroot) Hs Hd1 Hcd1. unfold shows.
  rewrite Hd1, Hcd1, Hs. split; [exact Hd|]. split; [exact Hcd|].
  assert (Hold : forall a, a ∈ addrs t -> (store v ++ ext) !! a = store v !! a).
  { intros a Ha. apply lookup_app_l. eapply repr_bound; [apply Ht|exact Ha]. }
  split; [split; [apply repr_app; apply Ht|apply Ht]|].
  split; [eapply parentOK_ext; [|exact Hok]; exact Hold|].
  unfold parentAt. rewrite Hold by apply addrs_root. exact Hroot.
Qed.

Lemma firstWithId_none h ident l : firstWithId h ident l = None -> ident ∉ map (idAt h) l.
Proof.
  induction l as [|a l IH]; simpl; [intros _; apply not_elem_of_nil|].
  destruct (decide (idAt h a = ident)) as [He|Hne]; [discriminate|].
  intros H Hin. apply elem_of_cons in Hin. destruct Hin as [Hin|Hin]; [congruence|].
  now apply IH.
Qed.

(** The selected node is a node of the tree that the view shows. *)
Lemma getSelectedNode_in v t p :
  shows v t -> getSelectedNode v = Some (Some p) ->
  p ∈ addrs t /\ exists pn, store v !! p = Some pn.
Proof.
  intros (_ & Hcd & Ht & _) Hsel. unfold getSelectedNode in Hsel. rewrite Hcd in Hsel.
  destruct (selectedNodeId v) as [[|c s]|]; try discriminate.
  rewrite (findNodeById_spec _ _ (proj1 Ht)) in Hsel by (now apply isTree_height).
  injection Hsel as Hsel. apply firstWithId_some in Hsel. destruct Hsel as [Hin _].
  split; [exact Hin|]. apply lookup_lt_is_Some_2. eapply repr_bound; [apply Ht|exact Hin].
Qed.

Lemma ids_app (h ext : list Node) t : repr h t -> ids (h ++ ext) t = ids h t.
Proof.
  intros Hr. unfold ids. apply map_ext_in. intros a Ha. apply list_elem_of_In in Ha.
  unfold idAt. rewrite lookup_app_l; [reflexivity|]. eapply repr_bound; eauto.
Qed.

(** [addChildToSelectedNode] in a view that shows a tree, a node of which is
    selected. *)
Lemma addChild_runs now v t p :
  shows v t -> getSelectedNode v = Some (Some p) ->
  exists pn ext v1 h',
    store v !! p = Some pn /\ p ∈ addrs t /\
    saveToHistory v = Some v1 /\ store v1 = store v ++ ext /\
    length ext = length (addrs t) /\
    let a := length (store v1) in
    let h2 := pushChild p a (store v1 ++ [newChild p pn now]) in
    let t2 := graft p (ANode a []) t in
    Forall2 sameButXY h2 h' /\
    addChildToSelectedNode now v
    = Some (selectNode (nodeId now) (renderMindmap (rootOf t) (withStore h' v1))) /\
    isTree h2 t2 /\ parentOK h2 t2 /\ parentAt h2 (rootOf t) = None /\
    addrs t2 ≡ₚ addrs t ++ [a] /\
    ids h2 t2 ≡ₚ ids (store v) t ++ [nodeId now].
Proof.
  intros Hshows Hsel.
  destruct (getSelectedNode_in _ _ _ Hshows Hsel) as (Hp & pn & Hpn).
  destruct (saveToHistory_runs v t Hshows)
    as (ext & t' & v1 & E & Hs1 & Hlen & Hd1 & Hcd1 & _).
  pose proof (shows_app _ _ _ _ Hshows Hs1 Hd1 Hcd1) as (Hd & _ & Ht1 & Hok1 & Hroot1).
  assert (Hpn1 : store v1 !! p = Some pn).
  { rewrite Hs1. apply lookup_app_l_Some. exact Hpn. }
  destruct (attach_tree (store v1) t p (newChild p pn now) Ht1 Hok1 Hp eq_refl eq_refl)
    as (Ht2 & Hok2 & Hperm & Hids).
  set (a := length (store v1)) in *.
  set (h2 := pushChild p a (store v1 ++ [newChild p pn now])) in *.
  set (t2 := graft p (ANode a []) t) in *.
  assert (Hrt : rootOf t2 = rootOf t) by apply rootOf_graft.
  destruct (calculateNodePositions_spec h2 t2 Ht2) as (h' & El & HF & _).
  exists pn, ext, v1, h'. split; [exact Hpn|]. split; [exact Hp|]. split; [exact E|].
  split; [exact Hs1|]. split; [exact Hlen|]. cbv zeta. fold a h2 t2.
  split; [exact HF|]. split; [|split; [exact Ht2|split; [exact Hok2|split; [|split]]]].
  - unfold addChildToSelectedNode. rewrite Hsel. rewrite Hd1 in Hd. rewrite Hd, E.
    cbn [mbind option_bind]. rewrite Hpn1. cbn [mbind option_bind].
    fold a h2. rewrite <- Hrt, El. reflexivity.
  - unfold h2, a. rewrite attach_parentAt; [exact Hroot1|].
    eapply repr_bound; [apply Ht1|apply addrs_root].
  - exact Hperm.
  - rewrite Hids. rewrite Hs1. rewrite ids_app; [reflexivity|].
    destruct Hshows as (_ & _ & Ht & _). apply Ht.
Qed.

Lemma newChild_type p pn now :
  type (newChild p pn now)
  = if bool_decide (type pn = listItem) || (6 <=? level pn) then listItem else header.
Proof.
  unfold newChild. cbn [type].
  destruct (Nat.ltb_spec (level pn) 6), (Nat.leb_spec 6 (level pn)); try lia;
    destruct (type pn); reflexivity.
Qed.

(** C7.  In a view that shows a tree, with the node at [p] selected,
    [addChildToSelectedNode] returns a view that shows the tree with one more
    node, a leaf that is the last child of [p]: a new object whose level is
    that of [p] plus one, that is a list item if [p] is a list item or at level
    6 or more, a header otherwise, and whose parent is [p].  The children of
    [p] are those it had, in order, and the new node; every other object that
    was there is as it was, up to its coordinates. *)
Theorem add_child_appends_one_leaf (now : Z) (v : View) (t : ATree) (p : nat) :
  shows v t -> getSelectedNode v = Some (Some p) ->
  exists pn v' a n pn',
    store v !! p = Some pn /\
    addChildToSelectedNode now v = Some v' /\
    length (store v) <= a /\
    shows v' (graft p (ANode a []) t) /\
    addrs (graft p (ANode a []) t) ≡ₚ addrs t ++ [a] /\
    store v' !! a = Some n /\
    level n = level pn + 1 /\
    type n = (if bool_decide (type pn = listItem) || (6 <=? level pn)
              then listItem else header) /\
    parent n = Some p /\ children n = [] /\
    store v' !! p = Some pn' /\ children pn' = children pn ++ [a] /\
    parent pn' = parent pn /\ level pn' = level pn /\ type pn' = type pn /\
    (forall b m, b <> p -> store v !! b = Some m ->
       exists m', store v' !! b = Some m' /\ sameButXY m m').
Proof.
  intros Hshows Hsel.
  destruct (addChild_runs now v t p Hshows Hsel)
    as (pn & ext & v1 & h' & Hpn & Hp & E & Hs1 & Hlen & HF & Hadd & Ht2 & Hok2 & Hroot2 &
        Hperm & _).
  set (a := length (store v1)) in *.
  set (h2 := pushChild p a (store v1 ++ [newChild p pn now])) in *.
  assert (Hpl : p < length (store v1)).
  { rewrite Hs1, length_app. apply lookup_lt_Some in Hpn. lia. }
  assert (Hold : forall b m, store v !! b = Some m ->
            h2 !! b = Some (if b =? p then setChildren (children m ++ [a]) m else m)).
  { intros b m Hm. pose proof (lookup_lt_Some _ _ _ Hm) as Hb.
    unfold h2, a. rewrite attach_at, lookup_app_l by (rewrite Hs1, length_app; lia).
    rewrite Hs1, lookup_app_l, Hm by assumption. simpl. now destruct (b =? p). }
  assert (Hnew : h2 !! a = Some (newChild p pn now)) by (apply attach_new; exact Hpl).
  destruct (frame_lookup _ _ _ _ HF Hnew) as (n & Hn & Hsn).
  pose proof (Hold p pn Hpn) as Hp2. rewrite Nat.eqb_refl in Hp2.
  destruct (frame_lookup _ _ _ _ HF Hp2) as (pn' & Hpn' & Hsp).
  apply sameButXY_fields in Hsn. apply sameButXY_fields in Hsp.
  destruct Hsn as (_ & _ & Hnl & Hnt & Hnc & Hnp & _).
  destruct Hsp as (_ & _ & Hpl' & Hpt & Hpc & Hpp & _).
  destruct Hshows as (Hd & _).
  exists pn, (selectNode (nodeId now) (renderMindmap (rootOf t) (withStore h' v1))), a, n, pn'.
  split; [exact Hpn|]. split; [exact Hadd|].
  split; [unfold a; rewrite Hs1, length_app; lia|].
  split.
  { unfold shows. simpl. rewrite rootOf_graft.
    destruct (saveToHistory_history _ _ E) as (Hd1 & _). rewrite Hd1.
    split; [exact Hd|]. split; [reflexivity|].
    split; [eapply frame_isTree; eauto|]. split; [eapply frame_parentOK; eauto|].
    now rewrite (frame_parentAt _ _ _ HF). }
  split; [exact Hperm|]. simpl. split; [exact Hn|].
  split; [exact Hnl|]. split; [rewrite Hnt; apply newChild_type|].
  split; [exact Hnp|]. split; [exact Hnc|]. split; [exact Hpn'|]. split; [exact Hpc|].
  split; [exact Hpp|]. split; [exact Hpl'|]. split; [exact Hpt|].
  intros b m Hb Hm. specialize (Hold b m Hm).
  destruct (Nat.eqb_spec b p); [contradiction|].
  destruct (frame_lookup _ _ _ _ HF Hold) as (m' & Hm' & Hs). eauto.
Qed.

Lemma add_child_appends_one_leaf_witness :
  exists pn v' a n pn',
    store selectedView !! 2 = Some pn /\
    addChildToSelectedNode 1700000000000 selectedView = Some v' /\
    length (store selectedView) <= a /\
    shows v' (graft 2 (ANode a []) outlineShown) /\
    addrs (graft 2 (ANode a []) outlineShown) ≡ₚ addrs outlineShown ++ [a] /\
    store v' !! a = Some n /\
    level n = level pn + 1 /\
    type n = (if bool_decide (type pn = listItem) || (6 <=? level pn)
              then listItem else header) /\
    parent n = Some 2 /\ children n = [] /\
    store v' !! 2 = Some pn' /\ children pn' = children pn ++ [a] /\
    parent pn' = parent pn /\ level pn' = level pn /\ type pn' = type pn /\
    (forall b m, b <> 2 -> store selectedView !! b = Some m ->
       exists m', store v' !! b = Some m' /\ sameButXY m m').
Proof.
  apply (add_child_appends_one_leaf 1700000000000 selectedView outlineShown 2).
  - apply shownTree_shows. reflexivity.
  - vm_compute. reflexivity.
Defined.

End AddChild.

(** ** The kept trees along a session *)

Section Session.

Lemma stored_replace (fresh : Prop) h h' hist cur cur' rest :
  stored fresh h hist (cur :: rest) ->
  goodTree fresh h' cur' -> NoDup (addrs cur') -> rootOf cur' = rootOf cur ->
  (forall s, s ∈ rest -> goodTree fresh h' s) ->
  (forall a, a ∈ addrs cur' -> a ∈ addrs cur \/ (forall s, s ∈ rest -> a ∉ addrs s)) ->
  stored fresh h' hist (cur' :: rest).
Proof.
  intros (Hg & Hnd & Hh) Hg' Hnd' Hroot Hrest Hsub. split; [|split].
  - constructor; [exact Hg'|]. now apply Forall_forall.
  - simpl in *. apply NoDup_app in Hnd. destruct Hnd as (_ & Hdisj & Hndr).
    apply NoDup_app. split; [exact Hnd'|]. split; [|exact Hndr].
    intros a Ha Hin. destruct (Hsub a Ha) as [Hc|Hout].
    + now apply (Hdisj a Hc).
    + apply elem_of_flat_map_addrs in Hin. destruct Hin as (s & Hs & Has).
      now apply (Hout s Hs).
  - simpl in *. now rewrite Hroot.
Qed.

Lemma kept_select (fresh : Prop) ident v : kept fresh v -> kept fresh (selectNode ident v).
Proof. intros (cur & snaps & Hs & Hst). exists cur, snaps. split; assumption. Qed.

Lemma freshId_notin now v t : freshId now v -> shows v t -> nodeId now ∉ ids (store v) t.
Proof.
  intros (data & Hcd' & Hfind) (_ & Hcd & Ht & _). rewrite Hcd in Hcd'. injection Hcd' as <-.
  rewrite (findNodeById_spec _ _ (proj1 Ht)) in Hfind by (now apply isTree_height).
  injection Hfind as Hfind. now apply firstWithId_none.
Qed.

Lemma kept_add (fresh : Prop) now v v' :
  kept fresh v -> (fresh -> freshId now v) -> addChildToSelectedNode now v = Some v' ->
  kept fresh v'.
Proof.
  intros (cur & snaps & Hshows & Hst) Hfresh Hadd.
  destruct (getSelectedNode v) as [[p|]|] eqn:Hsel.
  2:{ unfold addChildToSelectedNode in Hadd. rewrite Hsel in Hadd. simpl in Hadd.
      injection Hadd as <-. exists cur, snaps. split; assumption. }
  2:{ unfold addChildToSelectedNode in Hadd. rewrite Hsel in Hadd. discriminate. }
  destruct (addChild_runs now v cur p Hshows Hsel)
    as (pn & ext & v1 & h' & Hpn & Hp & E & Hs1 & Hlen & HF & Hadd' & Ht2 & Hok2 & Hroot2 &
        Hperm & Hids).
  rewrite Hadd' in Hadd. injection Hadd as <-.
  destruct (saveToHistory_stored fresh v cur snaps Hshows Hst)
    as (t' & v1' & E' & Hshows1 & Hst1 & _).
  rewrite E in E'. injection E' as <-.
  set (a := length (store v1)) in *.
  set (h2 := pushChild p a (store v1 ++ [newChild p pn now])) in *.
  set (cur2 := graft p (ANode a []) cur) in *.
  assert (Hrt : rootOf cur2 = rootOf cur) by apply rootOf_graft.
  destruct (saveToHistory_history _ _ E) as (Hd1 & _).
  destruct Hshows as (Hd & Hshows).
  exists cur2, (t' :: snaps). split.
  - unfold shows. simpl. rewrite Hrt, Hd1. split; [exact Hd|]. split; [reflexivity|].
    split; [eapply frame_isTree; eauto|]. split; [eapply frame_parentOK; eauto|].
    now rewrite (frame_parentAt _ _ _ HF).
  - simpl. apply (stored_frame fresh h2); [exact HF|].
    apply (stored_replace fresh (store v1) h2 _ cur); [exact Hst1| | | | |].
    + split; [apply Ht2|]. split; [now rewrite Hrt|]. intros Hf.
      rewrite Hids. apply NoDup_app. split.
      * destruct Hst as (Hg & _). apply Forall_cons in Hg. now apply Hg.
      * split; [|apply NoDup_singleton]. intros i Hi Hin.
        apply list_elem_of_singleton in Hin. subst i.
        apply (freshId_notin now v cur (Hfresh Hf)); [|exact Hi].
        split; [exact Hd|exact Hshows].
    + apply Ht2.
    + exact Hrt.
    + intros s Hs.
      assert (Hps : p ∉ addrs s) by (eapply stored_apart; [exact Hst1|exact Hs|exact Hp]).
      destruct Hst1 as (Hg1 & _). apply Forall_cons in Hg1.
      destruct Hg1 as [_ Hg1]. rewrite Forall_forall in Hg1. specialize (Hg1 s Hs).
      pose proof Hg1 as (Hrs & Hpars & _).
      eapply goodTree_ext; [| |exact Hg1].
      * intros b Hb. pose proof (repr_bound _ _ _ Hrs Hb) as Hbl. split.
        -- apply attach_children; [exact Hbl|]. intros ->. contradiction.
        -- now apply attach_idAt.
      * unfold h2, a. rewrite attach_parentAt; [exact Hpars|].
        eapply repr_bound; [exact Hrs|apply addrs_root].
    + intros b Hb. rewrite Hperm in Hb. apply elem_of_app in Hb. destruct Hb as [Hb|Hb].
      * now left.
      * right. apply list_elem_of_singleton in Hb. subst b. intros s Hs Hin.
        assert (a < length (store v1)); [|unfold a in *; lia].
        eapply (stored_elem fresh _ _ _ s); [exact Hst1| |exact Hin].
        apply elem_of_cons. now right.
Qed.

(** *** Deleting *)

Lemma detach_lookup q s (h : list Node) a :
  detach q s h !! a
  = (if a =? q then fun n => setChildren (removeFirst s (children n)) n else fun n => n)
      <$> h !! a.
Proof. unfold detach. apply lookup_alter_if. Qed.

Lemma detach_idAt q s h a : idAt (detach q s h) a = idAt h a.
Proof.
  unfold idAt. rewrite detach_lookup. destruct (h !! a); simpl; [|reflexivity].
  now destruct (a =? q).
Qed.

Lemma detach_parentAt q s h a : parentAt (detach q s h) a = parentAt h a.
Proof.
  unfold parentAt. rewrite detach_lookup. destruct (h !! a); simpl; [|reflexivity].
  now destruct (a =? q).
Qed.

Lemma detach_other q s (h : list Node) a : a <> q -> detach q s h !! a = h !! a.
Proof.
  intros Hne. rewrite detach_lookup. destruct (Nat.eqb_spec a q); [contradiction|].
  now destruct (h !! a).
Qed.

(** The tree after the subtree of a node that has a parent is cut off. *)
Lemma cut_tree h t s q :
  isTree h t -> parentOK h t -> parentAt h (rootOf t) = None ->
  s ∈ addrs t -> parentAt h s = Some q ->
  let h' := detach q s h in
  let t' := prune s t in
  isTree h' t' /\ parentOK h' t' /\ q ∈ addrs t /\
  (forall a, a ∈ addrs t' -> a ∈ addrs t) /\
  (NoDup (ids h t) -> NoDup (ids h' t')).
Proof.
  intros [Hr Hnd] Hok Hroot Hs Hq h' t'.
  destruct (pathDown_exists _ _ Hs) as (l1 & s1 & Hp1 & Hs1).
  assert (Hl1 : l1 <> []).
  { intros ->. inversion Hp1; subst. congruence. }
  destruct (pathDown_above _ _ _ Hp1 Hl1) as (lq & sq & Hpq & Hkid & _).
  assert (Hparent : parentAt h s = Some (rootOf sq)).
  { rewrite <- Hs1. apply parentOK_kid; [|exact Hkid]. eapply pathDown_parentOK; eauto. }
  assert (Hqe : q = rootOf sq) by congruence.
  pose proof (pathDown_isTree h _ _ _ Hpq (conj Hr Hnd)) as [Hrq Hndq].
  destruct (repr_root _ _ Hrq) as (qn & Hqn & Hqc). rewrite <- Hqe in Hqn.
  assert (Hqin : q ∈ addrs t).
  { rewrite Hqe. eapply pathDown_addrs; [exact Hpq|apply addrs_root]. }
  assert (Hcq : s ∈ children qn).
  { rewrite Hqc, <- Hs1. apply list_elem_of_In, in_map, list_elem_of_In. exact Hkid. }
  assert (Hndc : NoDup (children qn)).
  { rewrite Hqc. apply NoDup_roots. destruct sq as [rq ks]. simpl in *.
    now apply NoDup_cons in Hndq. }
  pose proof (addrs_prune _ _ _ Hp1 Hl1 Hnd) as Hperm. rewrite Hs1 in Hperm. fold t' in Hperm.
  assert (Hnd' : NoDup (addrs t' ++ addrs s1)) by now rewrite <- Hperm.
  split; [split|split; [|split; [exact Hqin|split]]].
  - apply (repr_prune h); [exact Hr|]. intros a n Ha Hn.
    unfold h'. rewrite detach_lookup, Hn. simpl.
    destruct (Nat.eqb_spec a q) as [->|Hne]; eexists; (split; [reflexivity|]); simpl.
    + assert (n = qn) by congruence. subst n. now apply removeFirst_without.
    + symmetry. apply without_notin. intros Hin. apply Hne.
      eapply (child_unique h t a q n qn s); eauto. split; auto.
  - apply NoDup_app in Hnd'. apply Hnd'.
  - eapply parentOK_keeps; [|apply parentOK_prune; exact Hok].
    intros a _. apply detach_parentAt.
  - intros a Ha. rewrite Hperm. apply elem_of_app. now left.
  - intros Hid. unfold ids in *. rewrite Hperm, map_app in Hid.
    apply NoDup_app in Hid. destruct Hid as (Hid & _).
    erewrite map_ext; [exact Hid|]. intros a. apply detach_idAt.
Qed.

Lemma kept_delete (fresh : Prop) v v' : kept fresh v -> deleteSelectedNode v = Some v' -> kept fresh v'.
Proof.
  intros Hkept Hdel. pose proof Hkept as (cur & snaps & Hshows & Hst).
  unfold deleteSelectedNode in Hdel.
  destruct (currentFile v); [|injection Hdel as <-; exact Hkept].
  pose proof Hshows as (Hd & _). rewrite Hd in Hdel.
  destruct (getSelectedNode v) as [[s|]|] eqn:Hsel; cbn [mbind option_bind] in Hdel;
    [|injection Hdel as <-; exact Hkept|discriminate].
  destruct (getSelectedNode_in _ _ _ Hshows Hsel) as (Hs & sn & Hsn).
  rewrite Hsn in Hdel. cbn [mbind option_bind] in Hdel.
  destruct (parent sn) as [q|] eqn:Hq; [|injection Hdel as <-; exact Hkept].
  destruct (saveToHistory_stored fresh v cur snaps Hshows Hst)
    as (t' & v1 & E & Hshows1 & Hst1 & (ext & Hs1) & _).
  rewrite E in Hdel. cbn [mbind option_bind] in Hdel.
  destruct (calculateNodePositions (detach q s (store v1)) (rootOf cur)) as [h'|] eqn:El;
    cbn [mbind option_bind] in Hdel; [|discriminate].
  assert (Hk2 : kept fresh (renderMindmap (rootOf cur) (withStore h' v1))).
  { pose proof (calculateNodePositions_frame _ _ _ El) as HF.
    pose proof Hshows1 as (Hd1 & Hcd1 & Ht1 & Hok1 & Hroot1).
    assert (Hq1 : parentAt (store v1) s = Some q).
    { unfold parentAt. rewrite Hs1, (lookup_app_l_Some _ _ _ _ Hsn). exact Hq. }
    destruct (cut_tree (store v1) cur s q Ht1 Hok1 Hroot1 Hs Hq1)
      as (Ht2 & Hok2 & Hqin & Hsub & Hids).
    set (h2 := detach q s (store v1)) in *. set (cur2 := prune s cur) in *.
    assert (Hrt : rootOf cur2 = rootOf cur) by apply rootOf_prune.
    exists cur2, (t' :: snaps). split.
    - unfold shows. simpl. rewrite Hrt. split; [exact Hd1|]. split; [reflexivity|].
      split; [eapply frame_isTree; eauto|]. split; [eapply frame_parentOK; eauto|].
      rewrite (frame_parentAt _ _ _ HF). unfold h2. now rewrite detach_parentAt.
    - simpl. apply (stored_frame fresh h2); [exact HF|].
      apply (stored_replace fresh (store v1) h2 _ cur); [exact Hst1| | | | |].
      + split; [apply Ht2|]. split.
        * rewrite Hrt. unfold h2. now rewrite detach_parentAt.
        * intros Hf. apply Hids. destruct Hst1 as (Hg1 & _). apply Forall_cons in Hg1.
          now apply Hg1.
      + apply Ht2.
      + exact Hrt.
      + intros u Hu.
        assert (Hqu : q ∉ addrs u) by (eapply stored_apart; [exact Hst1|exact Hu|exact Hqin]).
        destruct Hst1 as (Hg1 & _). apply Forall_cons in Hg1.
        destruct Hg1 as [_ Hg1]. rewrite Forall_forall in Hg1.
        eapply goodTree_same; [|apply Hg1; exact Hu].
        intros a Ha. apply detach_other. intros ->. contradiction.
      + intros a Ha. left. now apply Hsub. }
  destruct (h' !! q) as [pnode|]; cbn [mbind option_bind] in Hdel; [|discriminate].
  destruct (decide (id pnode = lit "root")).
  - destruct (h' !! rootOf cur) as [root|]; cbn [mbind option_bind] in Hdel; [|discriminate].
    destruct (children root) as [|centerNode rest].
    + injection Hdel as <-. exact Hk2.
    + destruct (h' !! centerNode) as [cnode|]; cbn [mbind option_bind] in Hdel;
        [|discriminate].
      injection Hdel as <-. now apply kept_select.
  - injection Hdel as <-. now apply kept_select.
Qed.

(** *** Moving *)

Lemma repr_unique h t : repr h t -> forall t', repr h t' -> rootOf t' = rootOf t -> t' = t.
Proof.
  induction t as [a cs IH] using ATree_ind'. intros Hr [a' cs'] Hr' Hroot.
  simpl in Hroot. subst a'.
  apply repr_inv in Hr. destruct Hr as (n & Hn & Hc & Hcs).
  apply repr_inv in Hr'. destruct Hr' as (n' & Hn' & Hc' & Hcs').
  assert (n' = n) by congruence. subst n'. rewrite Hc in Hc'. clear Hn Hn' Hc.
  f_equal. revert cs' Hc' Hcs'. induction cs as [|c cs IHcs]; intros [|c' cs'] Hc' Hcs';
    try discriminate; [reflexivity|].
  simpl in Hc'. injection Hc' as Hc1 Hc2.
  apply Forall_cons in IH. destruct IH as [IHc IHrest].
  apply Forall_cons in Hcs. destruct Hcs as [Hrc Hrcs].
  apply Forall_cons in Hcs'. destruct Hcs' as [Hrc' Hrcs'].
  f_equal; [apply IHc; auto|apply IHcs; auto].
Qed.

Lemma shows_unique v t t' : shows v t -> shows v t' -> t' = t.
Proof.
  intros (Hd & _ & Ht & _) (Hd' & _ & Ht' & _).
  apply (repr_unique (store v)); [apply Ht|apply Ht'|congruence].
Qed.

Lemma pathDown_split t l s c :
  pathDown t l s -> c ∈ rootOf t :: l ->
  exists l1 s1 l2, pathDown t l1 s1 /\ rootOf s1 = c /\ pathDown s1 l2 s.
Proof.
  induction 1 as [t|a cs k l s Hk Hp IH]; intros Hc.
  - apply list_elem_of_singleton in Hc. subst c.
    exists [], t, []. split; [constructor|]. split; [reflexivity|constructor].
  - apply elem_of_cons in Hc. destruct Hc as [->|Hc].
    + exists [], (ANode a cs), (rootOf k :: l).
      split; [constructor|]. split; [reflexivity|now constructor].
    + destruct (IH Hc) as (l1 & s1 & l2 & H1 & H2 & H3).
      exists (rootOf k :: l1), s1, l2. split; [now constructor|]. split; assumption.
Qed.

Lemma kept_move (fresh : Prop) v t c p v' :
  kept fresh v -> shows v t -> c ∈ addrs t -> p ∈ addrs t ->
  moveNodeToParent c p v = Some v' -> kept fresh v'.
Proof.
  intros Hkept Hshows Hc Hp Hmove. pose proof Hkept as (cur & snaps & Hshows' & Hst).
  assert (cur = t) by (eapply shows_unique; eauto). subst cur. clear Hshows'.
  destruct (pathDown_exists _ _ Hc) as (l1 & s1 & Hp1 & Hs1).
  destruct (pathDown_exists _ _ Hp) as (lp & sp & Hpp & Hsp). subst c p.
  destruct (decide (rootOf s1 ∈ rootOf t :: lp)) as [Hon|Hoff].
  - destruct (pathDown_split _ _ _ _ Hpp Hon) as (l1' & s1' & l2 & H1 & H2 & H3).
    rewrite <- H2 in Hmove.
    rewrite (moveNodeToParent_rejects v t l1' s1' l2 sp Hshows H1 H3) in Hmove.
    injection Hmove as <-. exact Hkept.
  - destruct (moveNodeToParent_moves v t l1 s1 lp sp Hshows Hp1 Hpp Hoff)
      as (q & h' & Hq & Hmove' & HF & Ht' & Hok' & Hroot' & Hrt & Hperm & Hout).
    rewrite Hmove' in Hmove. injection Hmove as <-.
    set (h3 := moved q (rootOf s1) (rootOf sp) (store v)) in *.
    set (t' := graft (rootOf sp) s1 (prune (rootOf s1) t)) in *.
    destruct Hshows as (Hd & Hcd & Ht & _).
    exists t', snaps. split.
    + unfold shows. simpl. rewrite Hrt. split; [exact Hd|]. split; [reflexivity|].
      split; [eapply frame_isTree; eauto|]. split; [eapply frame_parentOK; eauto|].
      now rewrite (frame_parentAt _ _ _ HF).
    + simpl. apply (stored_frame fresh h3); [exact HF|].
      apply (stored_replace fresh (store v) h3 _ t); [exact Hst| | | | |].
      * split; [apply Ht'|]. split; [now rewrite Hrt|].
        unfold ids. rewrite Hperm. erewrite map_ext; [|intros a; apply idAt_moved].
        destruct Hst as (Hg & _). apply Forall_cons in Hg. apply Hg.
      * apply Ht'.
      * exact Hrt.
      * intros u Hu. pose proof Hst as (Hg & _). apply Forall_cons in Hg.
        destruct Hg as [_ Hg]. rewrite Forall_forall in Hg.
        eapply goodTree_same; [|apply Hg; exact Hu].
        intros a Ha. apply Hout. intros Hin.
        now apply (stored_apart fresh _ _ _ _ u a Hst Hu Hin).
      * intros a Ha. left. now rewrite <- Hperm.
Qed.

(** *** Undoing *)

Lemma kept_undo (fresh : Prop) v v' : kept fresh v -> undo v = Some v' -> kept fresh v'.
Proof.
  intros Hkept Hundo. pose proof Hkept as (cur & snaps & Hshows & Hst).
  unfold undo in Hundo. destruct (0 <? historyIndex v)%Z; [|injection Hundo as <-; exact Hkept].
  destruct (history v !! Z.to_nat (historyIndex v - 1)) as [r|] eqn:Er;
    cbn [mbind option_bind] in Hundo; [|discriminate].
  destruct (restoreNodeReferences (length (store v)) (store v) r) as [h1|] eqn:E1;
    cbn [mbind option_bind] in Hundo; [|discriminate].
  unfold recalculateAndRender in Hundo. simpl in Hundo.
  destruct (calculateNodePositions h1 r) as [h'|] eqn:El;
    cbn [mbind option_bind] in Hundo; [|discriminate].
  injection Hundo as <-.
  pose proof (calculateNodePositions_frame _ _ _ El) as HF.
  pose proof Hst as (Hg & Hnd & Hh).
  assert (Hr : r ∈ map rootOf (cur :: snaps)).
  { rewrite Forall_forall in Hh. apply Hh. eapply list_elem_of_lookup_2; eauto. }
  apply list_elem_of_In, in_map_iff in Hr. destruct Hr as (s & Hsr & Hs).
  apply list_elem_of_In, elem_of_Permutation in Hs. destruct Hs as (rest & Hperm).
  pose proof (stored_perm fresh _ _ _ _ Hperm Hst) as Hst'.
  destruct Hst' as (Hg' & Hnd' & Hh').
  apply Forall_cons in Hg'. destruct Hg' as [(Hrs & Hpars & Hids) Hgrest].
  assert (Hnds : NoDup (addrs s)).
  { simpl in Hnd'. apply NoDup_app in Hnd'. apply Hnd'. }
  destruct (restoreOk_all (length (store v)) s (store v) Hrs Hnds)
    as (h1' & E1' & HFp & Hfoot & Hok1).
  { apply isTree_height. split; assumption. }
  rewrite Hsr, E1 in E1'. injection E1' as <-.
  assert (Hidp : forall a, idAt h1 a = idAt (store v) a).
  { intros a. unfold idAt. destruct (store v !! a) as [n|] eqn:En.
    - destruct (reparent_lookup _ _ _ _ HFp En) as (n' & -> & Hsame). simpl.
      apply sameButParent_fields in Hsame. tauto.
    - apply lookup_ge_None in En. rewrite (Forall2_length _ _ _ HFp) in En.
      apply lookup_ge_None in En. now rewrite En. }
  assert (Hgp : forall u, goodTree fresh (store v) u -> rootOf u ∉ flat_map addrs (kids s) ->
            goodTree fresh h1 u).
  { intros u (Hru & Hparu & Hidu) Hout. split; [eapply reparent_repr; eauto|]. split.
    - unfold parentAt. rewrite Hfoot by exact Hout. exact Hparu.
    - erewrite ids_ext; [exact Hidu|]. exact Hidp. }
  assert (Hgs : goodTree fresh h1 s).
  { apply Hgp; [split; [|split]; assumption|]. destruct s as [rs ks].
    now apply root_not_in_kids. }
  exists s, rest. subst r. split.
  - unfold shows. simpl. split; [reflexivity|]. split; [reflexivity|].
    split; [split; [eapply frame_repr; [exact HF|apply Hgs]|exact Hnds]|].
    split; [eapply frame_parentOK; eauto|].
    rewrite (frame_parentAt _ _ _ HF). apply Hgs.
  - simpl. apply (stored_frame fresh h1); [exact HF|]. split; [|split; assumption].
    constructor; [exact Hgs|]. apply Forall_forall. intros u Hu.
    rewrite Forall_forall in Hgrest. apply Hgp; [now apply Hgrest|].
    intros Hin. simpl in Hnd'. apply NoDup_app in Hnd'. destruct Hnd' as (_ & Hdisj & _).
    apply (Hdisj (rootOf u)); [now apply kids_in_addrs|].
    apply elem_of_flat_map_addrs. exists u. split; [exact Hu|apply addrs_root].
Qed.

(** *** Loading *)

Lemma defaultStructure_tree fileName :
  let h := defaultStructure fileName in
  let t := ANode 0 [ANode 1 []] in
  isTree h t /\ parentOK h t /\ parentAt h 0 = None /\ NoDup (ids h t).
Proof.
  simpl. split; [split|split; [|split]].
  - apply repr_node with (mkNode (lit "root") rootText 0 header [1] None None None (-1) []
                            false [] None None); [reflexivity|reflexivity|].
    constructor; [|constructor].
    eapply repr_node; [reflexivity|reflexivity|constructor].
  - simpl. apply NoDup_cons. split; [|apply NoDup_singleton].
    intros Hin. apply list_elem_of_singleton in Hin. discriminate.
  - constructor; [constructor; [reflexivity|constructor]|].
    constructor; [constructor; constructor|constructor].
  - reflexivity.
  - unfold ids. simpl. apply NoDup_cons. split; [|apply NoDup_singleton].
    intros Hin. apply list_elem_of_singleton in Hin. discriminate.
Qed.

Lemma kept_load (fresh : Prop) content fileName v : loadFile content fileName = Some v -> kept fresh v.
Proof.
  unfold loadFile. destruct (parseMarkdown content) as [parsed|] eqn:Ep;
    cbn [mbind option_bind]; [|discriminate].
  destruct (parsed !! 0) as [root|]; cbn [mbind option_bind]; [|discriminate].
  match goal with |- context [calculateNodePositions ?x 0] => set (h := x) end.
  destruct (calculateNodePositions h 0) as [h'|] eqn:El; cbn [mbind option_bind];
    [|discriminate].
  intros Hrender.
  enough (Hk : kept fresh (mkView h' true (Some 0) [] (-1) (Some 0) None)).
  { unfold renderView in Hrender. cbn in Hrender.
    destruct (h' !! 0) as [root'|]; cbn in Hrender; [|discriminate].
    destruct (children root') as [|centerNode rest]; [now injection Hrender as <-|].
    destruct (h' !! centerNode) as [cnode|]; cbn in Hrender; [|discriminate].
    injection Hrender as <-. now apply (kept_select fresh (id cnode)) in Hk. }
  pose proof (calculateNodePositions_frame _ _ _ El) as HF.
  assert (Htree : exists t, rootOf t = 0 /\ isTree h t /\ parentOK h t /\
            parentAt h 0 = None /\ NoDup (ids h t)).
  { unfold h. match goal with |- context [if ?b then _ else _] => destruct b end.
    - exists (ANode 0 [ANode 1 []]). split; [reflexivity|]. apply defaultStructure_tree.
    - destruct (parseMarkdown_tree _ _ Ep) as (t & Hroot & Ht & Hok & Hpar & Hid).
      exists t. repeat (split; [assumption|]). apply NoDup_ids; [exact Hid|apply Ht..]. }
  destruct Htree as (t & Hroot & Ht & Hok & Hpar & Hid).
  exists t, []. split.
  - unfold shows. simpl. rewrite Hroot. split; [reflexivity|]. split; [reflexivity|].
    split; [eapply frame_isTree; eauto|]. split; [eapply frame_parentOK; eauto|].
    now rewrite (frame_parentAt _ _ _ HF).
  - simpl. apply (stored_frame fresh h); [exact HF|]. split; [|split].
    + constructor; [|constructor]. split; [apply Ht|]. split; [now rewrite Hroot|].
      intros _. exact Hid.
    + simpl. rewrite app_nil_r. apply Ht.
    + constructor.
Qed.

End Session.

(** ** Sessions *)

Section Sessions.

(** Whatever the clock reads, the view goes on showing a tree of its
    store. *)
Lemma kept_step v v' : kept False v -> step v v' -> kept False v'.
Proof.
  intros Hk Hstep.
  destruct Hstep as [ident v|now v v' Ha|v v' Hd|c p t v v' Hs Hc Hp Hm|v v' Hu].
  - now apply kept_select.
  - refine (kept_add False now v v' Hk _ Ha). intros [].
  - exact (kept_delete False v v' Hk Hd).
  - exact (kept_move False v t c p v' Hk Hs Hc Hp Hm).
  - exact (kept_undo False v v' Hk Hu).
Qed.

Lemma kept_reachable content fileName v : reachable content fileName v -> kept False v.
Proof.
  induction 1 as [v Hl|v v' _ IH Hs]; [eapply kept_load; eauto|eapply kept_step; eauto].
Qed.

(** With fresh clock readings the identifiers stay different too. *)
Lemma kept_freshStep v v' : kept True v -> freshStep v v' -> kept True v'.
Proof.
  intros Hk Hstep.
  destruct Hstep as [ident v|now v v' Hf Ha|v v' Hd|c p t v v' Hs Hc Hp Hm|v v' Hu].
  - now apply kept_select.
  - refine (kept_add True now v v' Hk _ Ha). intros _. exact Hf.
  - exact (kept_delete True v v' Hk Hd).
  - exact (kept_move True v t c p v' Hk Hs Hc Hp Hm).
  - exact (kept_undo True v v' Hk Hu).
Qed.

Lemma kept_freshlyReachable content fileName v :
  freshlyReachable content fileName v -> kept True v.
Proof.
  induction 1 as [v Hl|v v' _ IH Hs]; [eapply kept_load; eauto|eapply kept_freshStep; eauto].
Qed.

Lemma freshStep_step v v' : freshStep v v' -> step v v'.
Proof.
  intros [ident w|now w w' _ Ha|w w' Hd|c p t w w' Hs Hc Hp Hm|w w' Hu].
  - apply step_select.
  - exact (step_add now w w' Ha).
  - exact (step_delete w w' Hd).
  - exact (step_move c p t w w' Hs Hc Hp Hm).
  - exact (step_undo w w' Hu).
Qed.

Lemma freshlyReachable_reachable content fileName v :
  freshlyReachable content fileName v -> reachable content fileName v.
Proof.
  induction 1 as [v Hl|v v' _ IH Hs].
  - now apply reach_load.
  - eapply reach_step; [exact IH|now apply freshStep_step].
Qed.

End Sessions.


(** ** Lines written and read back *)

Section Lines.

Lemma split_no_sep sep (p : list N) : sep ∉ p -> split sep p = [p].
Proof.
  induction p as [|c p IH]; intros Hs; [reflexivity|]. simpl.
  destruct (N.eqb_spec c sep) as [->|Hne].
  - exfalso. apply Hs. apply elem_of_cons. now left.
  - rewrite IH; [reflexivity|]. intros Hin. apply Hs. apply elem_of_cons. now right.
Qed.

Lemma split_app_sep sep (p s : list N) :
  sep ∉ p -> split sep (p ++ sep :: s) = p :: split sep s.
Proof.
  induction p as [|c p IH]; intros Hs; simpl.
  - now rewrite N.eqb_refl.
  - destruct (N.eqb_spec c sep) as [->|Hne].
    + exfalso. apply Hs. apply elem_of_cons. now left.
    + rewrite IH; [reflexivity|]. intros Hin. apply Hs. apply elem_of_cons. now right.
Qed.

Lemma split_join sep (ls : list (list N)) :
  ls <> [] -> Forall (fun l => sep ∉ l) ls -> split sep (join sep ls) = ls.
Proof.
  induction ls as [|l ls IH]; [congruence|]. intros _ Hall.
  apply Forall_cons in Hall. destruct Hall as [Hl Hls].
  destruct ls as [|l2 ls]; [now apply split_no_sep|].
  change (join sep (l :: l2 :: ls)) with (l ++ sep :: join sep (l2 :: ls)).
  rewrite split_app_sep by exact Hl. f_equal. apply IH; [discriminate|exact Hls].
Qed.

Lemma nodeLine_plain n :
  plainNode n = true -> nodeLine n = Return (itemLine (type n) (level n) (text n)).
Proof.
  unfold plainNode, nodeLine, lineText, itemLine. intros H.
  apply andb_true_iff in H. destruct H as [_ H]. apply negb_true_iff in H. rewrite H.
  destruct (type n); simpl; [reflexivity|].
  replace (Z.to_nat (Z.max 0 (Z.of_nat (level n) - 7))) with (level n - 7) by lia.
  reflexivity.
Qed.

Lemma trim_id (s : list N) :
  stops isWhiteSpace s -> stops isWhiteSpace (rev s) -> trim s = s.
Proof.
  intros H1 H2. unfold trim. rewrite (dropWhile_stops _ s H1), (dropWhile_stops _ _ H2).
  apply rev_involutive.
Qed.

Lemma goodText_inv k t :
  goodText k t = true ->
  t <> [] /\ stops isWhiteSpace t /\ allb notLineTerminator t /\
  (k = header -> stops isWhiteSpace (rev t)).
Proof.
  unfold goodText. intros H. apply andb_true_iff in H. destruct H as [H H3].
  apply andb_true_iff in H. destruct H as [H1 H2].
  destruct t as [|c t]; [discriminate|]. apply negb_true_iff in H1.
  split; [discriminate|]. split; [exact H1|]. split.
  - unfold allb. apply Forall_forall. intros d Hd. rewrite forallb_forall in H2.
    apply H2. now apply list_elem_of_In.
  - intros ->. apply negb_true_iff in H3.
    rewrite (app_removelast_last 0%N (l := c :: t)) at 1 by discriminate.
    rewrite rev_app_distr. simpl. exact H3.
Qed.

Lemma indentWidth_tabs n : indentWidth (replicate n c_tab) = 4 * n.
Proof. induction n as [|n IH]; [reflexivity|]. simpl replicate. cbn [indentWidth]. rewrite IH. simpl. lia. Qed.

Lemma allb_replicate_tab n : allb isWhiteSpace (replicate n c_tab).
Proof. induction n; simpl; constructor; auto. Qed.

Lemma notLineTerminator_newline (t : list N) : allb notLineTerminator t -> c_newline ∉ t.
Proof.
  intros H Hin. unfold allb in H. rewrite Forall_forall in H.
  specialize (H _ Hin). discriminate.
Qed.

Lemma not_in_replicate (c d : N) n : c <> d -> c ∉ replicate n d.
Proof. intros Hne Hin. apply elem_of_replicate in Hin. destruct Hin as [-> _]. congruence. Qed.

(** [parseLine] reads the line of a good item back. *)
Lemma parseLine_item k l t i idn :
  goodLevel k l = true -> goodText k t = true ->
  trim (itemLine k l t) <> [] /\ (c_newline ∉ itemLine k l t) /\
  exists node,
    parseLine (itemLine k l t) i idn = Some node /\
    type node = k /\ level node = l /\ text node = t /\ children node = [].
Proof.
  intros Hl Ht. destruct (goodText_inv _ _ Ht) as (Hne & Hstop & Hall & Hlast).
  pose proof (notLineTerminator_newline _ Hall) as Hnl.
  destruct k; unfold goodLevel in Hl; unfold itemLine.
  - apply andb_true_iff in Hl. destruct Hl as [H1 H6].
    apply Nat.leb_le in H1, H6. specialize (Hlast eq_refl).
    assert (Htrim : trim (replicate l c_hash ++ c_space :: t) = replicate l c_hash ++ c_space :: t).
    { apply trim_id.
      - destruct l; [lia|]. reflexivity.
      - rewrite rev_app_distr. simpl. rewrite <- app_assoc.
        destruct (rev t) as [|c r] eqn:Er; [|exact Hlast].
        apply (f_equal (@rev N)) in Er. rewrite rev_involutive in Er. contradiction. }
    assert (E : Regex.exec headerRegex (trim (replicate l c_hash ++ c_space :: t))
                = Some ([replicate l c_hash; t], [])).
    { rewrite Htrim. apply (headerRegex_exact l [c_space] t); auto;
        first [discriminate|repeat constructor]. }
    split; [|split].
    + rewrite Htrim. destruct l; [lia|]. discriminate.
    + intros Hin. apply elem_of_app in Hin. destruct Hin as [Hin|Hin].
      * now apply not_in_replicate in Hin.
      * apply elem_of_cons in Hin. destruct Hin as [Hin|Hin]; [discriminate|contradiction].
    + eexists. split; [apply parseLine_header; exact E|]. repeat split; reflexivity.
  - apply Nat.leb_le in Hl.
    destruct (trim_starts_with (replicate (l - 7) c_tab) c_dash (c_space :: t))
      as [r Hr]; [apply allb_replicate_tab|reflexivity|].
    split; [|split].
    + rewrite Hr. discriminate.
    + intros Hin. apply elem_of_app in Hin. destruct Hin as [Hin|Hin].
      * now apply not_in_replicate in Hin.
      * apply elem_of_cons in Hin. destruct Hin as [Hin|Hin]; [discriminate|].
        apply elem_of_cons in Hin. destruct Hin as [Hin|Hin]; [discriminate|contradiction].
    + eexists. split.
      * apply parseLine_list.
        -- rewrite Hr. apply headerRegex_not_hash. discriminate.
        -- apply (listRegex_exact (replicate (l - 7) c_tab) [c_space] t);
             first [assumption|apply allb_replicate_tab|discriminate|repeat constructor].
      * cbn [type level text children]. rewrite indentWidth_tabs.
        replace (4 * (l - 7)) with ((l - 7) * 4) by lia. rewrite Nat.div_mul by lia.
        repeat split; try reflexivity. lia.
Qed.

End Lines.

(** ** Reading the lines of an outline *)

Section Builds.

Lemma OTree_ind' (P : OTree -> Prop) :
  (forall k l t subs, Forall P subs -> P (ONode k l t subs)) -> forall f, P f.
Proof.
  intros Hnode. fix IH 1. intros [k l t subs]. apply Hnode.
  induction subs as [|s subs IHs]; constructor; [apply IH|exact IHs].
Qed.

Lemma pushChildren_nil p h : pushChildren p [] h = h.
Proof.
  unfold pushChildren. apply list_alter_id. intros [] . unfold setChildren. simpl.
  now rewrite app_nil_r.
Qed.

Lemma length_pushChildren p rs h : length (pushChildren p rs h) = length h.
Proof. apply length_alter. Qed.

Lemma pushChildren_lookup p rs (h : list Node) a :
  pushChildren p rs h !! a
  = (if a =? p then fun n => setChildren (children n ++ rs) n else fun n => n) <$> h !! a.
Proof. apply lookup_alter_if. Qed.

Lemma pushChildren_app p r1 r2 (h e1 e2 : list Node) :
  p < length h ->
  pushChildren p r2 (pushChildren p r1 h ++ e1) ++ e2
  = pushChildren p (r1 ++ r2) h ++ (e1 ++ e2).
Proof.
  intros Hp. unfold pushChildren at 1.
  rewrite alter_app_l by (rewrite length_pushChildren; exact Hp).
  rewrite <- app_assoc. f_equal. apply list_eq. intros a.
  rewrite lookup_alter_if, !pushChildren_lookup.
  destruct (h !! a) as [n|]; simpl; [|reflexivity].
  destruct (a =? p); [|reflexivity]. destruct n. unfold setChildren. simpl.
  now rewrite app_assoc.
Qed.

Lemma pushChildren_under p a rs (h : list Node) nd ext :
  p < length h -> a = length h ->
  pushChildren a rs (pushChild p a (h ++ [nd])) ++ ext
  = pushChildren p [a] h ++ setChildren (children nd ++ rs) nd :: ext.
Proof.
  intros Hp ->. unfold pushChild. rewrite alter_app_l by exact Hp.
  set (g := fun n => setChildren (children n ++ [length h]) n).
  assert (Hl : length (alter g p h) = length h) by apply length_alter.
  change (pushChildren p [length h] h) with (alter g p h).
  unfold pushChildren. rewrite <- Hl. rewrite alter_at_end. rewrite <- app_assoc. reflexivity.
Qed.

Lemma levelAt_built p rs (h ext : list Node) a :
  a < length h -> levelAt (pushChildren p rs h ++ ext) a = levelAt h a.
Proof.
  intros Ha. rewrite levelAt_app_l by (rewrite length_pushChildren; exact Ha).
  apply levelAt_alter. reflexivity.
Qed.

Lemma built_lookup_new p rs (h ext : list Node) a :
  length h <= a -> (pushChildren p rs h ++ ext) !! a = ext !! (a - length h).
Proof.
  intros Ha. rewrite lookup_app_r by (rewrite length_pushChildren; exact Ha).
  now rewrite length_pushChildren.
Qed.

Lemma content_ext h h' t :
  (forall a, a ∈ addrs t -> h' !! a = h !! a) -> content h' t = content h t.
Proof.
  induction t as [a cs IH] using ATree_ind'. intros Hext. simpl.
  unfold typeAt, levelAt, textAt. rewrite (Hext a) by apply (addrs_root (ANode a cs)).
  f_equal. apply map_ext_in. intros c Hc. apply list_elem_of_In in Hc.
  rewrite Forall_forall in IH. apply IH; [exact Hc|].
  intros b Hb. apply Hext. eapply addrs_child; eauto.
Qed.

Lemma repr_same h h' t : (forall a, a ∈ addrs t -> h' !! a = h !! a) -> repr h t -> repr h' t.
Proof. intros Hext. apply repr_ext. intros a Ha. now rewrite Hext. Qed.

Lemma parseLines_app l1 : forall st i l2,
  parseLines st i (l1 ++ l2)
  = (st1 ← parseLines st i l1; parseLines st1 (i + length l1) l2).
Proof.
  induction l1 as [|l l1 IH]; intros st i l2; simpl.
  - now rewrite Nat.add_0_r.
  - destruct (parseStep st i l) as [st1|]; cbn [mbind option_bind]; [|reflexivity].
    rewrite IH. now replace (S i + length l1) with (i + S (length l1)) by lia.
Qed.

Lemma wellLevelled_inv k l t subs :
  wellLevelled (ONode k l t subs) = true ->
  goodLevel k l = true /\ goodText k t = true /\
  Forall (fun s => l < olevel s) subs /\
  descending (map olevel subs) = true /\
  Forall (fun s => wellLevelled s = true) subs.
Proof.
  simpl. intros H. repeat (apply andb_true_iff in H; destruct H as [H ?]).
  split; [assumption|]. split; [assumption|]. split; [|split; [assumption|]].
  - apply Forall_forall. intros s Hs. apply Nat.ltb_lt.
    match goal with Hf : forallb (fun s => l <? olevel s) subs = true |- _ =>
      rewrite forallb_forall in Hf; apply Hf end. now apply list_elem_of_In.
  - apply Forall_forall. intros s Hs.
    match goal with Hf : forallb wellLevelled subs = true |- _ =>
      rewrite forallb_forall in Hf; apply Hf end. now apply list_elem_of_In.
Qed.

Lemma descending_cons a l :
  descending (a :: l) = true ->
  descending l = true /\ match l with b :: _ => b <= a | [] => True end.
Proof.
  destruct l as [|b l]; [auto|]. cbn [descending]. intros H.
  apply andb_true_iff in H. destruct H as [H1 H2]. apply Nat.leb_le in H1. auto.
Qed.

Lemma builds_nil : builds [].
Proof.
  intros H S0 p J i idn Hp HJ _ _ _ _. exists [], [], J, idn. cbv zeta. simpl.
  rewrite app_nil_r, pushChildren_nil. split; [reflexivity|].
  split; [constructor|]. split; [reflexivity|]. split; [constructor|].
  split; [constructor|]. split; [exact HJ|reflexivity].
Qed.

Lemma levelAt_push (h : list Node) p nd a :
  levelAt (pushChild p (length h) (h ++ [nd])) a
  = if a =? length h then level nd else levelAt h a.
Proof.
  rewrite levelAt_pushChild. destruct (Nat.eqb_spec a (length h)) as [->|Hne].
  - apply levelAt_app_new.
  - unfold levelAt. destruct (decide (a < length h)) as [Hlt|Hge].
    + now rewrite lookup_app_l.
    + rewrite !(proj2 (lookup_ge_None _ _)); [reflexivity|lia|].
      rewrite length_app. simpl. lia.
Qed.

(** One round of the loop on the line of a good item. *)
Lemma parseStep_item H S0 p J i idn k l t :
  goodLevel k l = true -> goodText k t = true ->
  p < length H -> Forall (fun a => a < length H) J ->
  levelAt H p < l -> Forall (fun a => l <= levelAt H a) J ->
  exists nd,
    parseStep (mkParseState H (S0 ++ p :: J) idn) i (itemLine k l t)
    = Some (mkParseState (pushChild p (length H) (H ++ [nd]))
              ((S0 ++ [p]) ++ [length H]) (idn + 1)) /\
    type nd = k /\ level nd = l /\ text nd = t /\ children nd = [].
Proof.
  intros Hgl Hgt Hp HJ Hlp HlJ.
  destruct (parseLine_item k l t i idn Hgl Hgt)
    as (Htrim & _ & node & Hline & Hty & Hlv & Htx & Hch).
  exists (setParent (Some p) node). split; [|repeat split; assumption].
  unfold parseStep. destruct (trim (itemLine k l t)) as [|c r]; [contradiction|].
  cbn [ps_currentId ps_heap ps_nodeStack]. rewrite Hline, Hlv.
  rewrite findParentNode_nearest by assumption. cbn [mbind option_bind].
  f_equal. f_equal.
  replace (S0 ++ p :: J) with ((S0 ++ [p]) ++ J) by (now rewrite <- app_assoc).
  apply updateNodeStack_pops.
  - apply Forall_forall. intros b Hb. rewrite Forall_forall in HJ, HlJ.
    rewrite !levelAt_push, Nat.eqb_refl.
    destruct (Nat.eqb_spec b (length H)) as [->|_]; [specialize (HJ _ Hb); lia|].
    simpl. rewrite Hlv. now apply HlJ.
  - rewrite last_snoc. rewrite !levelAt_push, Nat.eqb_refl.
    destruct (Nat.eqb_spec p (length H)); [lia|]. simpl. now rewrite Hlv.
Qed.

Lemma builds_tree k l t subs : builds subs -> builds [ONode k l t subs].
Proof.
  intros IH H S0 p J i idn Hp HJ Hlev Hjunk _ Hwell.
  apply Forall_cons in Hlev. destruct Hlev as [Hlp _]. simpl in Hlp, Hjunk.
  apply Forall_cons in Hwell. destruct Hwell as [Hwell _].
  destruct (wellLevelled_inv _ _ _ _ Hwell) as (Hgl & Hgt & Hdeep & Hdesc & Hsubs).
  destruct (parseStep_item H S0 p J i idn k l t Hgl Hgt Hp HJ Hlp Hjunk)
    as (nd & Estep & Hty & Hlv & Htx & Hch).
  set (a := length H) in *. set (H1 := pushChild p a (H ++ [nd])) in *.
  assert (Hl1 : length H1 = S a) by apply attach_length.
  destruct (IH H1 (S0 ++ [p]) a [] (S i) (idn + 1)%Z) as (ext & ts & J' & idn' & IHres).
  { lia. }
  { constructor. }
  { eapply Forall_impl; [exact Hdeep|]. intros s Hs. simpl.
    unfold H1, a. rewrite levelAt_push, Nat.eqb_refl. now rewrite Hlv. }
  { destruct subs; constructor. }
  { exact Hdesc. }
  { exact Hsubs. }
  cbv zeta in IHres. destruct IHres as (Eparse & Hrepr & Hcont & Hbound & Hnd & HJ' & Hlast).
  set (rs := map rootOf ts) in *.
  set (H2 := pushChildren a rs H1 ++ ext) in *.
  assert (HH2 : H2 = pushChildren p [a] H ++ setChildren (children nd ++ rs) nd :: ext).
  { unfold H2, H1. now apply pushChildren_under. }
  assert (Hl2 : S a <= length H2).
  { unfold H2. rewrite length_app, length_pushChildren. lia. }
  assert (Ha2 : H2 !! a = Some (setChildren rs nd)).
  { rewrite HH2, built_lookup_new by (unfold a; lia). unfold a.
    rewrite Nat.sub_diag. simpl. now rewrite Hch. }
  exists (setChildren (children nd ++ rs) nd :: ext), [ANode a ts], (a :: J'), idn'.
  cbv zeta. change (map rootOf [ANode a ts]) with [a]. rewrite <- HH2.
  split; [|split; [|split; [|split; [|split; [|split]]]]].
  - simpl. rewrite app_nil_r. rewrite Estep. cbn [mbind option_bind].
    rewrite Eparse. f_equal. f_equal. now rewrite <- app_assoc.
  - constructor; [|constructor]. apply repr_node with (setChildren rs nd); auto.
  - simpl. f_equal. unfold typeAt, levelAt, textAt. rewrite Ha2. simpl.
    rewrite Hty, Hlv, Htx, Hcont. reflexivity.
  - simpl. rewrite app_nil_r. constructor; [unfold a in *; lia|].
    eapply Forall_impl; [exact Hbound|]. simpl. intros b Hb. fold H2 in Hb.
    rewrite Hl1 in Hb. unfold a in *. lia.
  - simpl. rewrite app_nil_r. apply NoDup_cons. split; [|exact Hnd].
    intros Hin. rewrite Forall_forall in Hbound. specialize (Hbound _ Hin).
    rewrite Hl1 in Hbound. lia.
  - constructor; [lia|exact HJ'].
  - simpl. constructor.
    + unfold levelAt. rewrite Ha2. simpl. lia.
    + destruct (last subs) as [f|] eqn:El.
      * eapply Forall_impl; [exact Hlast|]. simpl. intros b Hb.
        assert (l < olevel f); [|lia].
        rewrite Forall_forall in Hdeep. apply Hdeep. now apply last_Some_elem_of.
      * subst J'. constructor.
Qed.

Lemma built_lookup_old p rs (h ext : list Node) a :
  a < length h -> a <> p -> (pushChildren p rs h ++ ext) !! a = h !! a.
Proof.
  intros Ha Hne. rewrite lookup_app_l by (rewrite length_pushChildren; exact Ha).
  rewrite pushChildren_lookup. destruct (Nat.eqb_spec a p); [contradiction|].
  now destruct (h !! a).
Qed.

Lemma builds_cons f fs : builds [f] -> builds fs -> builds (f :: fs).
Proof.
  intros B1 B2 H S0 p J i idn Hp HJ Hlev Hjunk Hdesc Hwell.
  apply Forall_cons in Hlev. destruct Hlev as [Hlf Hlfs].
  apply Forall_cons in Hwell. destruct Hwell as [Hwf Hwfs].
  simpl map in Hdesc. apply descending_cons in Hdesc. destruct Hdesc as [Hdfs Hhead].
  destruct (B1 H S0 p J i idn Hp HJ) as (ext1 & ts1 & J1 & idn1 & R1).
  { constructor; [exact Hlf|constructor]. }
  { exact Hjunk. }
  { reflexivity. }
  { constructor; [exact Hwf|constructor]. }
  cbv zeta in R1. destruct R1 as (E1 & Hr1 & Hc1 & Hb1 & Hnd1 & HJ1 & Hlast1).
  simpl in Hlast1, E1. rewrite app_nil_r in E1.
  set (H1 := pushChildren p (map rootOf ts1) H ++ ext1) in *.
  assert (Hlen1 : length H <= length H1).
  { unfold H1. rewrite length_app, length_pushChildren. lia. }
  destruct (B2 H1 S0 p J1 (i + length (olines f)) idn1) as (ext2 & ts2 & J2 & idn2 & R2).
  { lia. }
  { exact HJ1. }
  { eapply Forall_impl; [exact Hlfs|]. simpl. intros g Hg.
    unfold H1. now rewrite levelAt_built. }
  { destruct fs as [|g fs]; [exact I|]. simpl in Hhead.
    eapply Forall_impl; [exact Hlast1|]. simpl. intros b Hb. lia. }
  { exact Hdfs. }
  { exact Hwfs. }
  cbv zeta in R2. destruct R2 as (E2 & Hr2 & Hc2 & Hb2 & Hnd2 & HJ2 & Hlast2).
  set (H2 := pushChildren p (map rootOf ts2) H1 ++ ext2) in *.
  assert (HH2 : H2 = pushChildren p (map rootOf (ts1 ++ ts2)) H ++ (ext1 ++ ext2)).
  { unfold H2, H1. rewrite map_app. now apply pushChildren_app. }
  assert (Hlen2 : length H1 <= length H2).
  { unfold H2. rewrite length_app, length_pushChildren. lia. }
  assert (Hold : forall a, a ∈ flat_map addrs ts1 -> H2 !! a = H1 !! a).
  { intros a Ha. rewrite Forall_forall in Hb1. specialize (Hb1 _ Ha).
    unfold H2. apply built_lookup_old; lia. }
  exists (ext1 ++ ext2), (ts1 ++ ts2), J2, idn2. cbv zeta. rewrite <- HH2.
  split; [|split; [|split; [|split; [|split; [|split]]]]].
  - simpl. rewrite parseLines_app, E1. cbn [mbind option_bind]. exact E2.
  - apply Forall_app. split; [|exact Hr2].
    apply Forall_forall. intros c Hc. rewrite Forall_forall in Hr1.
    eapply repr_same; [|apply Hr1; exact Hc]. intros a Ha. apply Hold.
    apply elem_of_flat_map_addrs. eauto.
  - rewrite map_app, Hc2. change (f :: fs) with ([f] ++ fs). f_equal.
    rewrite <- Hc1. apply map_ext_in. intros c Hc. apply list_elem_of_In in Hc.
    apply content_ext. intros a Ha. apply Hold. apply elem_of_flat_map_addrs. eauto.
  - rewrite flat_map_app. apply Forall_app. split.
    + eapply Forall_impl; [exact Hb1|]. simpl. intros a Ha. lia.
    + eapply Forall_impl; [exact Hb2|]. simpl. intros a Ha. lia.
  - rewrite flat_map_app. apply NoDup_app. split; [exact Hnd1|]. split; [|exact Hnd2].
    intros a Ha1 Ha2. rewrite Forall_forall in Hb1, Hb2.
    specialize (Hb1 _ Ha1). specialize (Hb2 _ Ha2). lia.
  - exact HJ2.
  - rewrite last_cons. destruct (last fs) as [g|]; [exact Hlast2|]. subst J2.
    apply Forall_forall. intros b Hb. rewrite Forall_forall in Hlast1, HJ1.
    unfold H2. rewrite levelAt_built by (now apply HJ1). now apply Hlast1.
Qed.

Lemma builds_all : forall fs, builds fs.
Proof.
  assert (Htree : forall f, builds [f]).
  { induction f as [k l t subs IH] using OTree_ind'. apply builds_tree.
    induction IH as [|s subs Hs _ IHsubs]; [apply builds_nil|now apply builds_cons]. }
  induction fs as [|f fs IH]; [apply builds_nil|apply builds_cons; auto].
Qed.

End Builds.

(** ** The round trip *)

Section RoundTrip.

Lemma forEach_traverse h fuel (cs : list ATree) :
  Forall (fun c => forall fuel lines, height c <= fuel ->
            traverse fuel h (rootOf c) lines = Return (lines ++ olines (content h c))) cs ->
  Forall (fun c => height c <= fuel) cs ->
  forall lines,
    forEachR (traverse fuel h) (map rootOf cs) lines
    = Return (lines ++ flat_map olines (map (content h) cs)).
Proof.
  induction 1 as [|c cs Hc _ IH]; intros Hh lines; simpl.
  - now rewrite app_nil_r.
  - apply Forall_cons in Hh. destruct Hh as [Hhc Hhcs].
    rewrite (Hc fuel lines Hhc). simpl. rewrite IH by exact Hhcs. now rewrite <- app_assoc.
Qed.

Lemma traverse_eq fuel h a lines :
  traverse (S fuel) h a lines
  = match h !! a with
    | None => NoResult
    | Some node =>
        if decide (id node = lit "root") then
          forEachR (traverse fuel h) (children node) lines
        else
          rbind (nodeLine node) (fun l =>
            forEachR (traverse fuel h) (children node) (lines ++ [l]))
    end.
Proof. reflexivity. Qed.

(** [traverse] on a subtree of plain nodes writes its lines. *)
Lemma traverse_spec h t :
  repr h t -> Forall (fun a => from_option plainNode false (h !! a) = true) (addrs t) ->
  forall fuel lines, height t <= fuel ->
    traverse fuel h (rootOf t) lines = Return (lines ++ olines (content h t)).
Proof.
  induction t as [a cs IH] using ATree_ind'. intros Hr Hplain fuel lines Hf.
  apply repr_inv in Hr. destruct Hr as (n & Hn & Hc & Hcs).
  destruct fuel as [|fuel]; [simpl in Hf; lia|].
  simpl addrs in Hplain. apply Forall_cons in Hplain. destruct Hplain as [Hpn Hpcs].
  rewrite Hn in Hpn. simpl in Hpn.
  simpl rootOf. rewrite traverse_eq, Hn.
  pose proof Hpn as Hid. unfold plainNode in Hid. apply andb_true_iff in Hid.
  destruct Hid as [Hid _]. apply negb_true_iff, bool_decide_eq_false in Hid.
  destruct (decide (id n = lit "root")) as [He|_]; [contradiction|].
  rewrite (nodeLine_plain n Hpn). cbn [rbind]. rewrite Hc.
  rewrite forEach_traverse.
  - cbn [content olines]. unfold typeAt, levelAt, textAt. rewrite Hn. cbn [from_option].
    rewrite <- app_assoc. reflexivity.
  - rewrite Forall_forall in IH. rewrite Forall_forall in Hcs. rewrite Forall_forall in Hpcs.
    apply Forall_forall. intros c Hcin.
    apply IH; auto. apply Forall_forall. intros b Hb. apply Hpcs.
    apply elem_of_flat_map_addrs. eauto.
  - eapply Forall_impl; [apply height_kids|]. intros k Hk. simpl in Hf, Hk. lia.
Qed.

Lemma tidy_inv h t :
  tidy h t = true ->
  idAt h (rootOf t) = lit "root" /\ typeAt h (rootOf t) = header /\
  levelAt h (rootOf t) = 0 /\ textAt h (rootOf t) = rootText /\
  Forall (fun a => from_option plainNode false (h !! a) = true) (flat_map addrs (kids t)) /\
  descending (map olevel (map (content h) (kids t))) = true /\
  Forall (fun f => wellLevelled f = true) (map (content h) (kids t)).
Proof.
  unfold tidy. intros H. repeat (apply andb_true_iff in H; destruct H as [H ?]).
  apply bool_decide_eq_true in H.
  repeat match goal with
         | Hb : bool_decide _ = true |- _ => apply bool_decide_eq_true in Hb
         | Hb : (_ =? _) = true |- _ => apply Nat.eqb_eq in Hb
         end.
  repeat (split; [assumption|]). split; [|split; [assumption|]].
  - apply Forall_forall. intros a Ha.
    match goal with Hf : forallb _ (flat_map addrs (kids t)) = true |- _ =>
      rewrite forallb_forall in Hf; apply Hf end. now apply list_elem_of_In.
  - apply Forall_forall. intros f Hf.
    match goal with Hw : forallb wellLevelled _ = true |- _ =>
      rewrite forallb_forall in Hw; apply Hw end. now apply list_elem_of_In.
Qed.

(** [generateMarkdown] on a tidy tree joins the lines of its outline. *)
Lemma generateMarkdown_tidy h t :
  isTree h t -> tidy h t = true ->
  generateMarkdown h (rootOf t)
  = Return (join c_newline (flat_map olines (map (content h) (kids t)))).
Proof.
  intros Ht Htidy. pose proof (isTree_height _ _ Ht) as Hh. destruct Ht as [Hr Hnd].
  destruct (tidy_inv _ _ Htidy) as (Hid & _ & _ & _ & Hplain & _).
  destruct t as [r cs]. cbn [rootOf kids height addrs] in *.
  apply repr_inv in Hr. destruct Hr as (n & Hn & Hc & Hcs).
  unfold generateMarkdown. destruct (length h) as [|fuel]; [lia|].
  rewrite traverse_eq, Hn. rewrite (idAt_lookup _ _ _ Hn) in Hid.
  destruct (decide (id n = lit "root")) as [_|Hne]; [|contradiction].
  rewrite Hc, forEach_traverse; [reflexivity| |].
  - rewrite Forall_forall in Hcs. rewrite Forall_forall in Hplain.
    apply Forall_forall. intros c Hcin.
    apply traverse_spec; [auto|]. apply Forall_forall. intros b Hb. apply Hplain.
    apply elem_of_flat_map_addrs. eauto.
  - eapply Forall_impl; [apply (height_kids cs)|]. intros k Hk. simpl in Hk. lia.
Qed.

Lemma olines_no_newline f :
  wellLevelled f = true -> Forall (fun l => c_newline ∉ l) (olines f).
Proof.
  induction f as [k l t subs IH] using OTree_ind'. intros Hw.
  destruct (wellLevelled_inv _ _ _ _ Hw) as (Hgl & Hgt & _ & _ & Hsubs).
  simpl. constructor; [apply (parseLine_item k l t 0 0 Hgl Hgt)|].
  apply Forall_forall. intros x Hx. apply list_elem_of_In, in_flat_map in Hx.
  destruct Hx as (s & Hs & Hx). apply list_elem_of_In in Hs, Hx.
  rewrite Forall_forall in IH, Hsubs. specialize (IH s Hs (Hsubs s Hs)).
  rewrite Forall_forall in IH. now apply IH.
Qed.

Lemma parseLines_split st i (ls : list (list N)) :
  Forall (fun l => c_newline ∉ l) ls ->
  parseLines st i (split c_newline (join c_newline ls)) = parseLines st i ls.
Proof.
  intros Hall. destruct ls as [|l ls]; [reflexivity|].
  rewrite split_join; [reflexivity|discriminate|exact Hall].
Qed.

Lemma wellLevelled_pos f : wellLevelled f = true -> 0 < olevel f.
Proof.
  destruct f as [k l t subs]. intros Hw.
  destruct (wellLevelled_inv _ _ _ _ Hw) as (Hgl & _). simpl.
  destruct k; unfold goodLevel in Hgl.
  - apply andb_true_iff in Hgl. destruct Hgl as [H1 _]. apply Nat.leb_le in H1. lia.
  - apply Nat.leb_le in Hgl. lia.
Qed.

(** X24.  The round trip of tidy trees.  If the root of a tree is as
    [parseMarkdown] makes it, no other node has the identifier of the root
    or recorded links,
    headers have levels 1 to 6 and list items levels from 7, every text is
    without line terminator, not empty, without white space in front nor, for
    a header, at the end, every child is at a deeper level than its parent
    and no child is at a deeper level than the child before it, then
    [generateMarkdown] returns a text, [parseMarkdown] returns a tree on that
    text, and the two trees say the same: same shape, and the same kind, text
    and level at corresponding nodes. *)
Theorem tidy_trees_round_trip (h : list Node) (t : ATree) :
  isTree h t -> tidy h t = true ->
  exists text h1 t1,
    generateMarkdown h (rootOf t) = Return text /\
    parseMarkdown text = Some h1 /\
    rootOf t1 = 0 /\ isTree h1 t1 /\
    content h1 t1 = content h t.
Proof.
  intros Ht Htidy.
  destruct (tidy_inv _ _ Htidy) as (Hid & Hty & Hlv & Htx & Hplain & Hdesc & Hwell).
  set (fs := map (content h) (kids t)) in *.
  destruct (builds_all fs [rootNode] [] 0 [] 0 1%Z) as (ext & ts & J' & idn' & R).
  { simpl. lia. }
  { constructor. }
  { eapply Forall_impl; [exact Hwell|]. intros f Hf. apply wellLevelled_pos in Hf.
    exact Hf. }
  { destruct fs; constructor. }
  { exact Hdesc. }
  { exact Hwell. }
  cbv zeta in R. destruct R as (E & Hr & Hc & Hb & Hnd & _ & _).
  set (H' := pushChildren 0 (map rootOf ts) [rootNode] ++ ext) in *.
  exists (join c_newline (flat_map olines fs)), H', (ANode 0 ts).
  split; [now apply generateMarkdown_tidy|]. split; [|split; [reflexivity|split]].
  - unfold parseMarkdown. rewrite parseLines_split.
    + change [0] with ([] ++ 0 :: @nil nat). rewrite E. reflexivity.
    + apply Forall_forall. intros l Hl. apply list_elem_of_In, in_flat_map in Hl.
      destruct Hl as (f & Hf & Hl). apply list_elem_of_In in Hf, Hl.
      rewrite Forall_forall in Hwell. pose proof (olines_no_newline f (Hwell f Hf)) as Hn.
      rewrite Forall_forall in Hn. now apply Hn.
  - split.
    + apply repr_node with (setChildren (map rootOf ts) rootNode);
        [reflexivity|reflexivity|exact Hr].
    + simpl. apply NoDup_cons. split; [|exact Hnd].
      intros Hin. rewrite Forall_forall in Hb. specialize (Hb _ Hin). simpl in Hb. lia.
  - destruct t as [r cs]. simpl in Hty, Hlv, Htx. cbn [content]. rewrite Hc, Hty, Hlv, Htx.
    reflexivity.
Qed.

Lemma tidy_trees_round_trip_witness :
  exists text h1 t1,
    generateMarkdown outlineStore (rootOf outlineTree) = Return text /\
    parseMarkdown text = Some h1 /\
    rootOf t1 = 0 /\ isTree h1 t1 /\
    content h1 t1 = content outlineStore outlineTree.
Proof.
  apply (tidy_trees_round_trip outlineStore outlineTree).
  - exact (proj1 (treeAt_isTree outlineStore 0 outlineTree eq_refl)).
  - vm_compute. reflexivity.
Defined.

(** A tree that dragging makes is not tidy, and not restored: the last
    header of the outline under the header before it, both at level 2.  The
    text written is that of the outline before the move, and parsing it puts
    the two headers side by side. *)
Lemma moved_outline_is_not_restored :
  moveNodeToParent 6 5 outlineView = Some movedView /\
  shows movedView movedTree /\
  generateMarkdown (store movedView) (rootOf movedTree) = Return outlineText /\
  parseMarkdown outlineText = Some outlineStore /\
  forall t1, isTree outlineStore t1 -> rootOf t1 = 0 ->
    forget (content outlineStore t1) <> forget (content (store movedView) movedTree).
Proof.
  split; [vm_compute; reflexivity|]. split; [apply shownTree_shows; vm_compute; reflexivity|].
  split; [vm_compute; reflexivity|]. split; [vm_compute; reflexivity|].
  intros t1 [Hr _] Hroot.
  assert (t1 = outlineTree).
  { apply (repr_unique outlineStore outlineTree); [|exact Hr|exact Hroot].
    apply (treeAt_isTree outlineStore 0 outlineTree eq_refl). }
  subst t1. vm_compute. discriminate.
Qed.

End RoundTrip.

(** ** The order of the nodes that [parseMarkdown] makes *)

Section ParseOrder.

Lemma spine_cons a cs :
  spine (ANode a cs) = a :: match last cs with Some c => spine c | None => [] end.
Proof.
  simpl. f_equal. induction cs as [|c cs IH]; [reflexivity|].
  destruct cs as [|d cs]; [reflexivity|]. rewrite last_cons_cons. exact IH.
Qed.

Lemma spine_in_addrs t a : a ∈ spine t -> a ∈ addrs t.
Proof.
  induction t as [r cs IH] using ATree_ind'. rewrite spine_cons. intros Ha.
  apply elem_of_cons in Ha. destruct Ha as [->|Ha]; [apply (addrs_root (ANode r cs))|].
  destruct (last cs) as [c|] eqn:El; [|now apply elem_of_nil in Ha].
  apply last_Some_elem_of in El. rewrite Forall_forall in IH.
  eapply addrs_child; [exact El|]. now apply IH.
Qed.

(** A leaf under a node of the spine comes last, and ends the spine. *)
Lemma graft_spine t : forall p a s1 s2,
  NoDup (addrs t) -> spine t = s1 ++ p :: s2 ->
  addrs (graft p (ANode a []) t) = addrs t ++ [a] /\
  spine (graft p (ANode a []) t) = s1 ++ [p; a].
Proof.
  induction t as [r cs IH] using ATree_ind'. intros p a s1 s2 Hnd Hsp.
  pose proof (root_not_in_kids _ _ Hnd) as Hroot.
  rewrite spine_cons in Hsp. destruct s1 as [|r' s1]; simpl in Hsp.
  - injection Hsp as -> _. simpl. rewrite Nat.eqb_refl.
    rewrite flat_map_graft_notin by exact Hroot. split.
    + rewrite flat_map_app. simpl. rewrite ?app_nil_r. reflexivity.
    + change (spine (ANode p (cs ++ [ANode a []])) = [p; a]).
      rewrite spine_cons, last_snoc. reflexivity.
  - injection Hsp as <- Hsp.
    destruct (last cs) as [c|] eqn:El; [|now destruct s1].
    apply last_Some in El. destruct El as (init & ->).
    assert (Hndk : NoDup (flat_map addrs (init ++ [c]))).
    { simpl in Hnd. now apply NoDup_cons in Hnd. }
    destruct (NoDup_flat_map_split _ _ _ Hndk) as [Hndc Hdisj].
    assert (Hpc : p ∈ addrs c).
    { apply spine_in_addrs. rewrite Hsp. apply elem_of_app. right. apply elem_of_cons. now left. }
    assert (Hrp : r <> p).
    { intros ->. apply Hroot. apply elem_of_flat_map_addrs. exists c.
      split; [apply elem_of_app; right; apply elem_of_cons; now left|exact Hpc]. }
    apply Forall_app in IH. destruct IH as [_ IHc]. apply Forall_cons in IHc.
    destruct IHc as [IHc _]. destruct (IHc p a s1 s2 Hndc Hsp) as [Ha Hs].
    simpl graft. destruct (Nat.eqb_spec r p) as [|_]; [contradiction|].
    rewrite map_app. simpl map.
    rewrite flat_map_graft_notin by (apply (Hdisj p Hpc)). split.
    + simpl. rewrite !flat_map_app. simpl. rewrite ?app_nil_r, Ha.
      now rewrite ?app_assoc.
    + change (spine (ANode r (init ++ [graft p (ANode a []) c])) = r :: s1 ++ [p; a]).
      rewrite spine_cons, last_snoc. now rewrite Hs.
Qed.

Lemma sublist_upto (p : nat) (k s : list nat) :
  sublist k s -> NoDup s ->
  forall k1 k2 s1 s2, k = k1 ++ p :: k2 -> s = s1 ++ p :: s2 -> sublist k1 s1.
Proof.
  induction 1 as [|x k s Hks IH|x k s Hks IH]; intros Hnd k1 k2 s1 s2 Hk Hs.
  - now destruct k1.
  - apply NoDup_cons in Hnd. destruct Hnd as [Hx Hnd].
    destruct k1 as [|y k1]; simpl in Hk; injection Hk as Hxy Hk.
    + destruct s1 as [|z s1]; [constructor|]. simpl in Hs. injection Hs as Hxz Hs.
      exfalso. apply Hx. rewrite Hxy, Hs. apply elem_of_app. right. apply elem_of_cons. now left.
    + destruct s1 as [|z s1]; simpl in Hs; injection Hs as Hxz Hs.
      * exfalso. apply Hx. rewrite Hxz. eapply elem_of_sublist; [|exact Hks].
        rewrite Hk. apply elem_of_app. right. apply elem_of_cons. now left.
      * rewrite <- Hxy, <- Hxz. apply sublist_skip. eapply IH; eauto.
  - apply NoDup_cons in Hnd. destruct Hnd as [Hx Hnd].
    destruct s1 as [|z s1]; simpl in Hs; injection Hs as Hxz Hs.
    + exfalso. apply Hx. rewrite Hxz. eapply elem_of_sublist; [|exact Hks].
      rewrite Hk. apply elem_of_app. right. apply elem_of_cons. now left.
    + rewrite <- Hxz. apply sublist_cons. eapply IH; eauto.
Qed.

Lemma spine_NoDup t : NoDup (addrs t) -> NoDup (spine t).
Proof.
  induction t as [r cs IH] using ATree_ind'. intros Hnd. rewrite spine_cons.
  pose proof (root_not_in_kids _ _ Hnd) as Hroot.
  destruct (last cs) as [c|] eqn:El; [|apply NoDup_singleton].
  apply last_Some in El. destruct El as (init & ->).
  assert (Hndk : NoDup (flat_map addrs (init ++ [c]))).
  { simpl in Hnd. now apply NoDup_cons in Hnd. }
  destruct (NoDup_flat_map_split _ _ _ Hndk) as [Hndc _].
  apply Forall_app in IH. destruct IH as [_ IHc]. apply Forall_cons in IHc.
  destruct IHc as [IHc _]. apply NoDup_cons. split; [|auto].
  intros Hin. apply Hroot. apply elem_of_flat_map_addrs. exists c.
  split; [apply elem_of_app; right; apply elem_of_cons; now left|now apply spine_in_addrs].
Qed.

Lemma parseOrder_init : parseOrder (mkParseState [rootNode] [0] 1) (ANode 0 []).
Proof.
  split; [reflexivity|]. split; [|split; [|split; [reflexivity|]]].
  - split; [|apply NoDup_singleton].
    apply repr_node with rootNode; [reflexivity|reflexivity|constructor].
  - constructor; constructor.
  - simpl. apply sublist_skip. constructor.
Qed.

Lemma parseOrder_step st t i line st' :
  ParseInv st -> parseOrder st t -> parseStep st i line = Some st' ->
  exists t', parseOrder st' t'.
Proof.
  intros Hinv (Hroot & Ht & Hok & Haddrs & Hsub) Hstep.
  destruct (parseStep_cases _ _ _ _ Hstep)
    as [(Hh & Hs & _)|(node & p & Hline & Hfind & Hh & Hs & _)].
  { exists t. unfold parseOrder. rewrite Hh, Hs. auto. }
  set (h := ps_heap st) in *. set (a := length h) in *.
  destruct (parseLine_level _ _ _ _ Hline) as [Hl1 _].
  destruct (parseLine_fresh _ _ _ _ Hline) as (_ & Hcn & _).
  destruct (findParentNode_last st (level node) Hinv Hl1) as (p' & Hfind' & Hlast).
  fold h in Hfind'. rewrite Hfind in Hfind'. injection Hfind' as <-.
  pose proof (pi_scan _ Hinv (level node)) as Hscan. fold h in Hscan. fold h in Hlast.
  unfold a in Hlast. rewrite Hlast in Hscan.
  destruct (scanStack_some _ _ _ _ Hscan) as (above & below & Hrev & Habove & Hplev).
  assert (Hstack : ps_nodeStack st = rev below ++ p :: rev above).
  { rewrite <- (rev_involutive (ps_nodeStack st)), Hrev, rev_app_distr. simpl.
    now rewrite <- app_assoc. }
  assert (Hpsp : p ∈ spine t).
  { eapply elem_of_sublist; [|exact Hsub]. rewrite Hstack.
    apply elem_of_app. right. apply elem_of_cons. now left. }
  apply list_elem_of_split in Hpsp. destruct Hpsp as (s1 & s2 & Hsp).
  destruct (graft_spine t p a s1 s2 (proj2 Ht) Hsp) as [Ha' Hs'].
  assert (Hp : p ∈ addrs t).
  { apply spine_in_addrs. rewrite Hsp. apply elem_of_app. right. apply elem_of_cons. now left. }
  assert (Hpl : p < length h) by (eapply repr_bound; [apply Ht|exact Hp]).
  destruct (attach_tree h t p (setParent (Some p) node) Ht Hok Hp Hcn eq_refl)
    as (Ht' & Hok' & _).
  pose proof Hh as Hh0.
  fold a in Ht', Hok'. unfold attached in Hh. fold a in Hh. rewrite <- Hh in Ht', Hok'.
  assert (Hla : levelAt (ps_heap st') a = level node).
  { rewrite Hh0. apply levelAt_attached_new. }
  assert (Hlo : forall b, b < length h -> levelAt (ps_heap st') b = levelAt h b).
  { intros b Hb. rewrite Hh0. now apply levelAt_attached. }
  exists (graft p (ANode a []) t). split; [now rewrite rootOf_graft|].
  split; [exact Ht'|]. split; [exact Hok'|]. split.
  - rewrite Ha', Haddrs, Hh. unfold a. rewrite attach_length, seq_S. reflexivity.
  - rewrite Hs', Hs, Hstack.
    replace (rev below ++ p :: rev above) with ((rev below ++ [p]) ++ rev above)
      by (now rewrite <- app_assoc).
    rewrite updateNodeStack_pops.
    + rewrite <- app_assoc. simpl. apply sublist_app; [|apply sublist_skip, sublist_skip; constructor].
      eapply (sublist_upto p); [exact Hsub|apply spine_NoDup; apply Ht|exact Hstack|exact Hsp].
    + apply Forall_forall. intros b Hb. rewrite Hla.
      assert (Hbs : b ∈ ps_nodeStack st).
      { rewrite Hstack. apply elem_of_app. right. apply elem_of_cons. now right. }
      pose proof (pi_bound _ Hinv) as Hbound. rewrite Forall_forall in Hbound.
      rewrite Hlo by (now apply Hbound).
      apply (proj1 (elem_of_rev _ _)) in Hb. rewrite Forall_forall in Habove. now apply Habove.
    + rewrite last_snoc, Hla, Hlo by exact Hpl. exact Hplev.
Qed.

Lemma parseLines_order lines : forall st t i st',
  ParseInv st -> parseOrder st t -> parseLines st i lines = Some st' ->
  exists t', parseOrder st' t'.
Proof.
  induction lines as [|line rest IH]; intros st t i st' Hinv Hord; simpl.
  - intros [= <-]. eauto.
  - destruct (parseStep st i line) as [st1|] eqn:E; cbn [mbind option_bind]; [|discriminate].
    destruct (parseOrder_step _ _ _ _ _ Hinv Hord E) as (t1 & Hord1).
    apply (IH st1 t1); [eapply ParseInv_step; eauto|exact Hord1].
Qed.

(** The nodes of the tree that [parseMarkdown] returns are, in the order
    of [traverse], the objects in the order of their creation. *)
Lemma parseMarkdown_order content h :
  parseMarkdown content = Some h ->
  exists t, rootOf t = 0 /\ isTree h t /\ parentOK h t /\ addrs t = seq 0 (length h).
Proof.
  unfold parseMarkdown.
  destruct (parseLines _ 0 (split c_newline content)) as [st|] eqn:E; [|discriminate].
  simpl. intros [= <-].
  destruct (parseLines_order _ _ _ _ _ ParseInv_init parseOrder_init E)
    as (t & Hroot & Ht & Hok & Ha & _).
  eauto.
Qed.

End ParseOrder.

(** ** What the nodes of a parsed document hold *)

Section ParsedNodes.

(** [parseLine] looks at its line only to decide whether there is a node,
    and what its kind, level, text and links are. *)
Lemma parseLine_cases line :
  (forall i k, parseLine line i k = None) \/
  (exists ty lvl txt links col, forall i k,
     parseLine line i k
     = Some (mkNode (nodeId k) txt lvl ty [] None None None (Z.of_nat i) line
               (0 <? length links) links col None)).
Proof.
  unfold parseLine.
  destruct (Regex.exec headerRegex (trim line)) as [[[|m1 [|m2 [|m3 caps]]] rest]|];
    try (right; do 5 eexists; intros i k; reflexivity);
    destruct (Regex.exec listRegex line) as [[[|n1 [|n2 [|n3 caps']]] rest']|];
    try (right; do 5 eexists; intros i k; reflexivity);
    left; intros i k; reflexivity.
Qed.

Lemma parseLine_blank line i k : trim line = [] -> parseLine line i k = None.
Proof.
  intros Hb. destruct (parseLine line i k) as [n|] eqn:E; [|reflexivity]. exfalso.
  destruct (parseLine_sound _ _ _ _ E) as [[_ H]|[_ H]].
  - rewrite Hb in H. destruct H as (ws & txt & Hs & Hl & _).
    destruct (level n); [lia|discriminate].
  - destruct H as (indent & ws & txt & Hs & Hind & _).
    destruct (trim_starts_with indent c_dash (ws ++ txt) Hind eq_refl) as [r Hr].
    rewrite <- Hs, Hb in Hr. discriminate.
Qed.

Lemma map_alter_same {B} (pr : Node -> B) (g : Node -> Node) p (h : list Node) :
  (forall n, pr (g n) = pr n) -> map pr (alter g p h) = map pr h.
Proof.
  intros Hg. apply list_eq. intros i. change (map pr) with (fmap (M:=list) pr).
  rewrite !list_lookup_fmap, lookup_alter_if.
  destruct (h !! i); simpl; [|reflexivity]. destruct (i =? p); [now rewrite Hg|reflexivity].
Qed.

(** What is read off the nodes, line after line. *)
Lemma parseLines_map {B} (pr : Node -> B) (src : nat -> list N -> option B) :
  (forall cs n, pr (setChildren cs n) = pr n) ->
  (forall p n, pr (setParent p n) = pr n) ->
  (forall line i, trim line = [] -> src i line = None) ->
  (forall line i k, pr <$> parseLine line i k = src i line) ->
  forall lines st i st',
    parseLines st i lines = Some st' ->
    map pr (ps_heap st')
    = map pr (ps_heap st) ++ omap (fun '(j, l) => src j l) (zip (seq i (length lines)) lines).
Proof.
  intros Hc Hp Hblank Hsrc. induction lines as [|line rest IH]; intros st i st'; simpl.
  - intros [= <-]. now rewrite app_nil_r.
  - destruct (parseStep st i line) as [st1|] eqn:E; cbn [mbind option_bind]; [|discriminate].
    intros Hrest. rewrite (IH _ _ _ Hrest). unfold parseStep in E.
    destruct (trim line) as [|c r] eqn:Et.
    + injection E as <-. rewrite (Hblank line i Et). reflexivity.
    + rewrite <- (Hsrc line i (ps_currentId st)).
      destruct (parseLine line i (ps_currentId st)) as [node|].
      * destruct (findParentNode _ _ _) as [q|]; cbn [mbind option_bind] in E; [|discriminate].
        injection E as <-. simpl. unfold pushChild.
        rewrite map_alter_same by (intros n; apply Hc).
        rewrite map_app. simpl. rewrite Hp, <- app_assoc. reflexivity.
      * injection E as <-. reflexivity.
Qed.

End ParsedNodes.

(** ** Parsing, then writing *)

Section ParseThenWrite.

(** X1.  Whatever the text, [parseMarkdown] returns (it does not raise), and
    what it returns is a tree under the root object: every object it created
    is a node of the tree, once, the order of [traverse] is the order of
    creation, every node but the root refers to its parent, and no two
    objects have the same identifier. *)
Theorem parse_returns_tree_in_line_order (content : list N) :
  exists h t,
    parseMarkdown content = Some h /\
    rootOf t = 0 /\ isTree h t /\ parentOK h t /\ parentAt h 0 = None /\
    addrs t = seq 0 (length h) /\ NoDup (map id h).
Proof.
  destruct (parseMarkdown_total content) as [h E]. exists h.
  destruct (parseMarkdown_order _ _ E) as (t & Hroot & Ht & Hok & Ha).
  destruct (parseMarkdown_tree _ _ E) as (_ & _ & _ & _ & Hpar & Hid).
  exists t. auto 10.
Qed.

Lemma omap_zip_seq {B} (src : list N -> option B) (lines : list (list N)) : forall i,
  omap (fun '(j, l) => src l) (zip (seq i (length lines)) lines) = omap src lines.
Proof.
  induction lines as [|l lines IH]; intros i; [reflexivity|].
  simpl. rewrite IH. reflexivity.
Qed.

Lemma parseMarkdown_map {B} (pr : Node -> B) (src : nat -> list N -> option B) content h :
  (forall cs n, pr (setChildren cs n) = pr n) ->
  (forall p n, pr (setParent p n) = pr n) ->
  (forall line i, trim line = [] -> src i line = None) ->
  (forall line i k, pr <$> parseLine line i k = src i line) ->
  parseMarkdown content = Some h ->
  map pr (drop 1 h)
  = omap (fun '(j, l) => src j l)
      (zip (seq 0 (length (split c_newline content))) (split c_newline content)).
Proof.
  intros Hc Hp Hb Hs. unfold parseMarkdown.
  destruct (parseLines _ 0 (split c_newline content)) as [st|] eqn:E; [|discriminate].
  simpl. intros [= <-].
  change (map pr) with (fmap (M:=list) pr). rewrite fmap_drop.
  change (fmap (M:=list) pr) with (map pr).
  rewrite (parseLines_map pr src Hc Hp Hb Hs _ _ _ _ E). reflexivity.
Qed.

(** X2.  The nodes that [parseMarkdown] makes are, in the order of their
    creation, those of the lines for which [parseLine] returns a node: each
    holds the number of its line and the line as it was read. *)
Theorem parsed_nodes_keep_their_lines (content : list N) :
  exists h,
    parseMarkdown content = Some h /\
    map (fun n => (lineNumber n, originalText n)) (drop 1 h)
    = omap (fun '(i, line) =>
              match parseLine line i 0 with
              | Some _ => Some (Z.of_nat i, line)
              | None => None
              end)
        (zip (seq 0 (length (split c_newline content))) (split c_newline content)).
Proof.
  destruct (parseMarkdown_total content) as [h E]. exists h. split; [exact E|].
  apply (parseMarkdown_map (fun n => (lineNumber n, originalText n))
           (fun i line => match parseLine line i 0 with
                          | Some _ => Some (Z.of_nat i, line)
                          | None => None
                          end)); [| | | |exact E].
  - intros cs []. reflexivity.
  - intros p []. reflexivity.
  - intros line i Hb. now rewrite parseLine_blank.
  - intros line i k. destruct (parseLine_cases line) as [Hn|(ty & lvl & txt & links & col & Hs)].
    + now rewrite !Hn.
    + now rewrite !Hs.
Qed.

Lemma olines_addrs h t :
  olines (content h t)
  = map (fun a => itemLine (typeAt h a) (levelAt h a) (textAt h a)) (addrs t).
Proof.
  induction t as [a cs IH] using ATree_ind'. simpl. f_equal.
  induction IH as [|c cs Hc _ IHcs]; [reflexivity|].
  simpl. rewrite map_app, Hc, IHcs. reflexivity.
Qed.

Lemma flat_map_olines_addrs h (cs : list ATree) :
  flat_map olines (map (content h) cs)
  = map (fun a => itemLine (typeAt h a) (levelAt h a) (textAt h a)) (flat_map addrs cs).
Proof.
  induction cs as [|c cs IH]; [reflexivity|].
  simpl. rewrite map_app, olines_addrs, IH. reflexivity.
Qed.

(** [generateMarkdown] on a tree of plain nodes under a root named
    ['root']. *)
Lemma generateMarkdown_plain h t :
  isTree h t -> idAt h (rootOf t) = lit "root" ->
  Forall (fun a => from_option plainNode false (h !! a) = true) (flat_map addrs (kids t)) ->
  generateMarkdown h (rootOf t)
  = Return (join c_newline
      (map (fun a => itemLine (typeAt h a) (levelAt h a) (textAt h a))
         (flat_map addrs (kids t)))).
Proof.
  intros Ht Hid Hplain. pose proof (isTree_height _ _ Ht) as Hh. destruct Ht as [Hr Hnd].
  destruct t as [r cs]. cbn [rootOf kids height addrs] in *.
  apply repr_inv in Hr. destruct Hr as (n & Hn & Hc & Hcs).
  unfold generateMarkdown. destruct (length h) as [|fuel]; [lia|].
  rewrite traverse_eq, Hn. rewrite (idAt_lookup _ _ _ Hn) in Hid.
  destruct (decide (id n = lit "root")) as [_|Hne]; [|contradiction].
  rewrite Hc, forEach_traverse; [now rewrite flat_map_olines_addrs| |].
  - rewrite Forall_forall in Hcs. rewrite Forall_forall in Hplain.
    apply Forall_forall. intros c Hcin.
    apply traverse_spec; [auto|]. apply Forall_forall. intros b Hb. apply Hplain.
    apply elem_of_flat_map_addrs. eauto.
  - eapply Forall_impl; [apply (height_kids cs)|]. intros k Hk. simpl in Hk. lia.
Qed.

Lemma parseMarkdown_ids content h :
  parseMarkdown content = Some h ->
  exists ks, map id h = lit "root" :: map nodeId ks.
Proof.
  intros E.
  destruct (parseMarkdown_inv (fun st => exists t, parseTree st t) content h) as (st & <- & t & Ht).
  - exists (ANode 0 []). apply parseTree_init.
  - intros st i line st' [t Ht] Hs. eapply parseTree_step; eauto.
  - exact E.
  - destruct Ht as (_ & _ & _ & _ & _ & _ & ks & Hks & _). eauto.
Qed.

Lemma nodeLine_nolinks n :
  wikilinks n = [] -> nodeLine n = Return (itemLine (type n) (level n) (text n)).
Proof.
  intros Hw. unfold nodeLine, lineText, itemLine. rewrite Hw. simpl length.
  rewrite andb_false_r. destruct (type n); simpl; [reflexivity|].
  replace (Z.to_nat (Z.max 0 (Z.of_nat (level n) - 7))) with (level n - 7) by lia.
  reflexivity.
Qed.

Lemma omap_ext_in {A B} (f g : A -> option B) (l : list A) :
  (forall a, a ∈ l -> f a = g a) -> omap f l = omap g l.
Proof.
  induction l as [|a l IH]; intros H; [reflexivity|].
  assert (IH' : omap f l = omap g l).
  { apply IH. intros b Hb. apply H. apply elem_of_cons. now right. }
  simpl. rewrite (H a) by (apply elem_of_cons; now left).
  destruct (g a); [f_equal|]; exact IH'.
Qed.

Lemma elem_of_omap_1 {A B} (f : A -> option B) (l : list A) b :
  b ∈ omap f l -> exists a, a ∈ l /\ f a = Some b.
Proof. intros H. apply list_elem_of_omap in H. exact H. Qed.

(** X3.  If no line of the text gives a node with links, [generateMarkdown]
    on what [parseMarkdown] returns gives the text made of the lines that
    [parseLine] makes nodes of, in order, each as [generateMarkdown] writes
    its node; the other lines are not in it. *)
Theorem parse_then_generate_keeps_recognised_lines (content : list N) :
  (forall line n, line ∈ split c_newline content ->
     parseLine line 0 0 = Some n -> wikilinks n = []) ->
  exists h,
    parseMarkdown content = Some h /\
    generateMarkdown h 0
    = Return (join c_newline (omap canonicalLine (split c_newline content))).
Proof.
  intros Hnolinks. destruct (parseMarkdown_total content) as [h E]. exists h.
  split; [exact E|].
  destruct (parseMarkdown_order _ _ E) as (t & Hroot & Ht & _ & Haddrs).
  destruct (parseMarkdown_ids _ _ E) as (ks & Hks).
  set (lines := split c_newline content) in *.
  set (pr := fun n : Node => itemLine (type n) (level n) (text n)).
  assert (Hlines : map pr (drop 1 h) = omap canonicalLine lines).
  { rewrite (parseMarkdown_map pr (fun _ line => pr <$> parseLine line 0 0) content h);
      [| | | | |exact E].
    - fold lines. rewrite (omap_zip_seq (fun line => pr <$> parseLine line 0 0)).
      apply omap_ext_in. intros line Hline. unfold canonicalLine.
      destruct (parseLine line 0 0) as [n|] eqn:En; [|reflexivity]. simpl.
      now rewrite (nodeLine_nolinks n (Hnolinks line n Hline En)).
    - intros cs []. reflexivity.
    - intros p []. reflexivity.
    - intros line i Hb. now rewrite parseLine_blank.
    - intros line i k.
      destruct (parseLine_cases line) as [Hn|(ty & lvl & txt & links & col & Hs)].
      + now rewrite !Hn.
      + now rewrite !Hs. }
  assert (Hwl : forall n, n ∈ drop 1 h -> wikilinks n = []).
  { intros n Hn. apply (list_elem_of_fmap_2 wikilinks) in Hn.
    change (fmap (M:=list) wikilinks) with (map wikilinks) in Hn.
    rewrite (parseMarkdown_map wikilinks (fun _ line => wikilinks <$> parseLine line 0 0)
               content h) in Hn; [| | | | |exact E].
    - fold lines in Hn. rewrite (omap_zip_seq (fun line => wikilinks <$> parseLine line 0 0)) in Hn.
      apply elem_of_omap_1 in Hn. destruct Hn as (line & Hline & Hn).
      destruct (parseLine line 0 0) as [m|] eqn:Em; [|discriminate].
      simpl in Hn. injection Hn as <-. eauto.
    - intros cs []. reflexivity.
    - intros p []. reflexivity.
    - intros line i Hb. now rewrite parseLine_blank.
    - intros line i k.
      destruct (parseLine_cases line) as [Hn'|(ty & lvl & txt & links & col & Hs)].
      + now rewrite !Hn'.
      + now rewrite !Hs. }
  destruct t as [r cs]. simpl in Hroot. subst r.
  assert (Hkids : flat_map addrs cs = seq 1 (length h - 1)).
  { simpl in Haddrs. destruct (length h) as [|n]; [discriminate|].
    simpl in Haddrs. injection Haddrs as Ha. rewrite Ha. f_equal. lia. }
  assert (Hnode : forall a, a ∈ seq 1 (length h - 1) ->
            exists n, h !! a = Some n /\ n ∈ drop 1 h /\ id n <> lit "root").
  { intros a Ha. apply elem_of_seq in Ha.
    destruct (lookup_lt_is_Some_2 h a) as [n Hn]; [lia|]. exists n. split; [exact Hn|].
    split.
    - apply list_elem_of_lookup. exists (a - 1). rewrite lookup_drop.
      now replace (1 + (a - 1)) with a by lia.
    - assert (Hi : map id h !! a = Some (id n)).
      { change (map id) with (fmap (M:=list) id). now rewrite list_lookup_fmap, Hn. }
      rewrite Hks in Hi. destruct a as [|a]; [lia|]. simpl in Hi.
      change (map nodeId) with (fmap (M:=list) nodeId) in Hi.
      rewrite list_lookup_fmap in Hi. destruct (ks !! a) as [k|]; [|discriminate].
      simpl in Hi. injection Hi as <-. apply nodeId_not_root. }
  change 0 with (rootOf (ANode 0 cs)) at 1.
  rewrite generateMarkdown_plain.
  - cbn [kids]. rewrite Hkids, <- Hlines. f_equal. f_equal.
    apply list_eq. intros j.
    change (map ?f ?l) with (fmap (M:=list) f l). rewrite !list_lookup_fmap, lookup_drop.
    destruct (decide (j < length h - 1)) as [Hj|Hj].
    + rewrite lookup_seq_lt by exact Hj. simpl.
      destruct (lookup_lt_is_Some_2 h (S j)) as [n Hn]; [lia|].
      unfold typeAt, levelAt, textAt. rewrite Hn. reflexivity.
    + rewrite lookup_seq_ge by lia. rewrite (proj2 (lookup_ge_None h (1 + j))); [reflexivity|lia].
  - exact Ht.
  - simpl. unfold idAt.
    assert (Hi : map id h !! 0 = Some (lit "root")) by (now rewrite Hks).
    change (map id) with (fmap (M:=list) id) in Hi. rewrite list_lookup_fmap in Hi.
    destruct (h !! 0); [|discriminate]. simpl in *. congruence.
  - cbn [kids]. rewrite Hkids. apply Forall_forall. intros a Ha.
    destruct (Hnode a Ha) as (n & Hn & Hin & Hid). rewrite Hn. simpl.
    unfold plainNode. rewrite (Hwl n Hin). simpl length. rewrite andb_false_r. simpl.
    rewrite bool_decide_eq_false_2 by exact Hid. reflexivity.
Qed.

Lemma linkFree_spec content :
  linkFree content = true ->
  forall line n, line ∈ split c_newline content ->
    parseLine line 0 0 = Some n -> wikilinks n = [].
Proof.
  unfold linkFree. intros H line n Hin E. rewrite forallb_forall in H.
  specialize (H line (proj1 (list_elem_of_In _ _) Hin)). rewrite E in H.
  apply Nat.eqb_eq in H. now destruct (wikilinks n).
Qed.

Lemma parse_then_generate_keeps_recognised_lines_witness :
  exists h,
    parseMarkdown proseText = Some h /\
    generateMarkdown h 0
    = Return (join c_newline (omap canonicalLine (split c_newline proseText))).
Proof.
  apply (parse_then_generate_keeps_recognised_lines proseText).
  apply linkFree_spec. vm_compute. reflexivity.
Defined.

End ParseThenWrite.

(** ** Links *)

Section Links.
Import Regex.

Lemma forEachR_defined {A S} (f : A -> S -> result S) cs :
  Forall (fun c => forall s, f c s <> NoResult) cs -> forall s, forEachR f cs s <> NoResult.
Proof.
  induction 1 as [|c cs Hc _ IH]; intros s; simpl; [discriminate|].
  specialize (Hc s). destruct (f c s); simpl; [apply IH|discriminate|congruence].
Qed.

Lemma forEachR_throws {A S} (f : A -> S -> result S) cs c :
  Forall (fun c => forall s, f c s <> NoResult) cs -> c ∈ cs -> (forall s, f c s = Throw) ->
  forall s, forEachR f cs s = Throw.
Proof.
  intros Hd Hin Ht. induction cs as [|c0 cs IH]; intros s; [inversion Hin|]. simpl.
  apply Forall_cons in Hd as [Hc Hd].
  apply elem_of_cons in Hin as [<-|Hin]. { now rewrite Ht. }
  specialize (Hc s). destruct (f c0 s); simpl; [now apply IH|reflexivity|congruence].
Qed.

Lemma nodeLine_defined n : nodeLine n <> NoResult.
Proof.
  unfold nodeLine, lineText.
  destruct (type n), (hasWikilink n && (0 <? length (wikilinks n))); simpl; discriminate.
Qed.

Lemma nodeLine_linked n :
  hasWikilink n = true -> wikilinks n <> [] -> nodeLine n = Throw.
Proof.
  intros H1 H2. unfold nodeLine, lineText. rewrite H1.
  destruct (wikilinks n); [congruence|]. simpl. now destruct (type n).
Qed.

Lemma traverse_defined h t :
  repr h t -> forall fuel lines, height t <= fuel ->
  traverse fuel h (rootOf t) lines <> NoResult.
Proof.
  induction t as [a cs IH] using ATree_ind'. intros Hr fuel lines Hfuel.
  apply repr_inv in Hr as (n & Hn & Hcs & Hrs).
  destruct fuel as [|fuel]; [simpl in Hfuel; lia|].
  cbn [rootOf]. rewrite traverse_eq, Hn, Hcs.
  assert (Hkids : Forall (fun c => forall s, traverse fuel h c s <> NoResult) (map rootOf cs)).
  { apply Forall_forall. intros r Hr. apply list_elem_of_In, in_map_iff in Hr as (c & <- & Hc).
    apply list_elem_of_In in Hc. rewrite Forall_forall in IH. rewrite Forall_forall in Hrs.
    intros s. apply IH; auto. pose proof (height_child a cs c Hc). lia. }
  destruct (decide (id n = lit "root")).
  - now apply forEachR_defined.
  - pose proof (nodeLine_defined n). destruct (nodeLine n); simpl; try congruence.
    now apply forEachR_defined.
Qed.

(** The first node whose line cannot be written ends the traversal. *)
Lemma traverse_throws h t b n :
  repr h t -> b ∈ addrs t -> h !! b = Some n ->
  id n <> lit "root" -> hasWikilink n = true -> wikilinks n <> [] ->
  forall fuel lines, height t <= fuel -> traverse fuel h (rootOf t) lines = Throw.
Proof.
  intros Hr Hb Hn Hid Hw Hl. revert Hr Hb.
  induction t as [a cs IH] using ATree_ind'. intros Hr Hb fuel lines Hfuel.
  pose proof Hr as Hr0.
  apply repr_inv in Hr as (na & Hna & Hcs & Hrs).
  destruct fuel as [|fuel]; [simpl in Hfuel; lia|].
  cbn [rootOf]. rewrite traverse_eq, Hna, Hcs.
  rewrite Forall_forall in IH. rewrite Forall_forall in Hrs.
  assert (Hkids : Forall (fun c => forall s, traverse fuel h c s <> NoResult) (map rootOf cs)).
  { apply Forall_forall. intros r Hr. apply list_elem_of_In, in_map_iff in Hr as (c & <- & Hc).
    apply list_elem_of_In in Hc.
    intros s. apply traverse_defined; auto. pose proof (height_child a cs c Hc). lia. }
  apply addrs_inv in Hb as [->|(c & Hc & Hbc)].
  - assert (na = n) by congruence. subst na.
    destruct (decide (id n = lit "root")); [contradiction|].
    now rewrite (nodeLine_linked n Hw Hl).
  - assert (Hc' : rootOf c ∈ map rootOf cs).
    { apply list_elem_of_In, in_map, list_elem_of_In, Hc. }
    assert (Hthrow : forall s, traverse fuel h (rootOf c) s = Throw).
    { intros s. apply IH; auto. pose proof (height_child a cs c Hc). lia. }
    destruct (decide (id na = lit "root")).
    + now apply forEachR_throws with (c := rootOf c).
    + pose proof (nodeLine_defined na). destruct (nodeLine na); simpl; try congruence.
      now apply forEachR_throws with (c := rootOf c).
Qed.

Lemma generateMarkdown_throws h t b n :
  isTree h t -> b ∈ addrs t -> h !! b = Some n ->
  id n <> lit "root" -> hasWikilink n = true -> wikilinks n <> [] ->
  generateMarkdown h (rootOf t) = Throw.
Proof.
  intros Ht Hb Hn Hid Hw Hl. unfold generateMarkdown.
  rewrite (traverse_throws h t b n); auto; [apply Ht|].
  now apply isTree_height.
Qed.

(** X4.  [saveToFile] raises, and writes nothing, when some node of the
    displayed tree other than one named [root] has links recorded:
    [generateMarkdown] raises at the first such node. *)
Theorem save_raises_on_recorded_links (v : View) (t : ATree) (b : nat) (n : Node) :
  currentFile v = true -> mindmapData v = Some (rootOf t) -> isTree (store v) t ->
  b ∈ addrs t -> store v !! b = Some n ->
  id n <> lit "root" -> hasWikilink n = true -> wikilinks n <> [] ->
  generateMarkdown (store v) (rootOf t) = Throw /\ saveToFile v = Throw.
Proof.
  intros Hf Hd Ht Hb Hn Hid Hw Hl.
  pose proof (generateMarkdown_throws _ _ _ _ Ht Hb Hn Hid Hw Hl) as E.
  split; [exact E|]. unfold saveToFile. now rewrite Hf, Hd, E.
Qed.

Lemma save_raises_on_recorded_links_witness :
  generateMarkdown (store linkedView) 0 = Throw /\ saveToFile linkedView = Throw.
Proof.
  apply (save_raises_on_recorded_links linkedView (ANode 0 [ANode 1 []]) 1
           (default rootNode (store linkedView !! 1))).
  - reflexivity.
  - reflexivity.
  - apply (shownTree_shows linkedView (ANode 0 [ANode 1 []])). vm_compute. reflexivity.
  - apply list_elem_of_In. simpl. auto.
  - reflexivity.
  - vm_compute. discriminate.
  - reflexivity.
  - vm_compute. discriminate.
Defined.

Lemma search_eq r s :
  search r s = match exec r s with
               | Some m => Some m
               | None => match s with [] => None | _ :: s' => search r s' end
               end.
Proof. destruct s; reflexivity. Qed.

Lemma search_sound r s m :
  search r s = Some m -> exists pre s', s = pre ++ s' /\ exec r s' = Some m.
Proof.
  induction s as [|c s IH]; rewrite search_eq; destruct (exec r _) as [m'|] eqn:E.
  - intros [= <-]. now exists [], [].
  - discriminate.
  - intros [= <-]. now exists [], (c :: s).
  - intros H. destruct (IH H) as (pre & s' & -> & E'). now exists (c :: pre), s'.
Qed.

Lemma search_complete r pre s' m :
  exec r s' = Some m -> is_Some (search r (pre ++ s')).
Proof.
  intros E. induction pre as [|c pre IH]; simpl app; rewrite search_eq.
  - rewrite E. eauto.
  - destruct (exec r (c :: pre ++ s')); eauto.
Qed.

Lemma search_skip r pre s' :
  (forall c rest, c ∈ pre -> exec r (c :: rest) = None) ->
  search r (pre ++ s') = search r s'.
Proof.
  induction pre as [|c pre IH]; intros H; [reflexivity|].
  simpl app. rewrite search_eq, (H c (pre ++ s')) by (apply elem_of_cons; now left).
  apply IH. intros d rest Hd. apply H. apply elem_of_cons. now right.
Qed.

Lemma notChar_allb (c : N) (l : list N) :
  allb (cls_match (NotChar c)) l <-> c ∉ l.
Proof.
  unfold allb. rewrite Forall_forall. simpl. split.
  - intros H Hin. specialize (H c Hin). rewrite N.eqb_refl in H. discriminate.
  - intros H d Hd. destruct (N.eqb_spec d c) as [->|]; [contradiction|reflexivity].
Qed.

Lemma wikilink_exec_sound s caps rest :
  exec wikilinkRegex s = Some (caps, rest) ->
  exists b, s = lit "[[" ++ b ++ lit "]]" ++ rest /\ caps = [b] /\ b <> [] /\ c_rbracket ∉ b.
Proof.
  unfold wikilinkRegex. destruct s as [|d1 [|d2 s2]]; cbn [exec]; try discriminate.
  { destruct (d1 =? c_lbracket)%N; discriminate. }
  destruct (N.eqb_spec d1 c_lbracket) as [->|]; [|discriminate].
  destruct (N.eqb_spec d2 c_lbracket) as [->|]; [|discriminate].
  intros H. apply backtrack_sound in H as (m & Hm & Hc).
  pose proof (run_take _ _ _ _ (proj2 Hm)) as Hall. apply notChar_allb in Hall.
  destruct (drop m s2) as [|e1 [|e2 r]] eqn:Ed; try discriminate.
  { destruct (e1 =? c_rbracket)%N; discriminate. }
  destruct (N.eqb_spec e1 c_rbracket) as [->|]; [|discriminate].
  destruct (N.eqb_spec e2 c_rbracket) as [->|]; [|discriminate].
  injection Hc as <- <-. exists (take m s2). split; [|split; [reflexivity|split; [|exact Hall]]].
  - cbn [lit app]. do 2 f_equal. rewrite <- (take_drop m s2) at 1. now rewrite Ed.
  - intros E. assert (Hlen : length (take m s2) = 0) by now rewrite E.
    rewrite length_take in Hlen.
    assert (length (drop m s2) = S (S (length r))) by now rewrite Ed.
    rewrite length_drop in *. lia.
Qed.

Lemma wikilink_exec_complete b post :
  b <> [] -> c_rbracket ∉ b ->
  exec wikilinkRegex (lit "[[" ++ b ++ lit "]]" ++ post) = Some ([b], post).
Proof.
  intros Hb Hno. unfold wikilinkRegex.
  change (lit "[[") with [c_lbracket; c_lbracket].
  change (lit "]]") with [c_rbracket; c_rbracket].
  cbn [app exec]. rewrite ?N.eqb_refl.
  rewrite run_unbounded; [|now apply notChar_allb|reflexivity].
  apply backtrack_first.
  - destruct b; [congruence|simpl; lia].
  - rewrite take_app_length, drop_app_length. reflexivity.
Qed.

Lemma wikilink_exec_other (c : N) rest :
  c <> c_lbracket -> exec wikilinkRegex (c :: rest) = None.
Proof.
  intros Hc. unfold wikilinkRegex. cbn [exec].
  destruct (N.eqb_spec c c_lbracket); [contradiction|reflexivity].
Qed.

Lemma search_link s : is_Some (search wikilinkRegex s) <-> hasLink s.
Proof.
  split.
  - intros [[caps rest] E]. apply search_sound in E as (pre & s' & -> & E).
    apply wikilink_exec_sound in E as (b & -> & _ & Hb & Hno). now exists pre, b, rest.
  - intros (pre & b & post & -> & Hb & Hno).
    eapply search_complete, wikilink_exec_complete; eauto.
Qed.

Lemma classic_hasLink s : hasLink s \/ ~ hasLink s.
Proof.
  destruct (search wikilinkRegex s) as [m|] eqn:E.
  - left. apply search_link. eauto.
  - right. intros H. apply search_link in H as [m H]. congruence.
Qed.

Lemma search_link_caps s caps rest :
  search wikilinkRegex s = Some (caps, rest) ->
  exists b, caps = [b] /\ 5 + length rest <= length s.
Proof.
  intros E. apply search_sound in E as (pre & s' & -> & E).
  apply wikilink_exec_sound in E as (b & -> & -> & Hb & _). exists b. split; [reflexivity|].
  rewrite !length_app. cbn [lit length]. destruct b; [congruence|]. simpl. lia.
Qed.

(** The loop stops by itself: more rounds than characters change nothing. *)
Lemma wikilinkLoop_rounds r : forall s, length s <= r ->
  wikilinkLoop r s = wikilinkLoop (length s) s.
Proof.
  induction r as [r IH] using lt_wf_ind. intros s Hs.
  destruct r as [|r].
  { assert (length s = 0) as -> by lia. reflexivity. }
  destruct s as [|c s].
  { simpl. destruct (search wikilinkRegex []) as [[caps rest]|] eqn:E; [|reflexivity].
    apply search_link_caps in E as (b & _ & Hlen). simpl in Hlen. lia. }
  cbn [wikilinkLoop length].
  destruct (search wikilinkRegex (c :: s)) as [[caps rest]|] eqn:E; [|reflexivity].
  destruct (search_link_caps _ _ _ E) as (b & -> & Hlen). simpl in Hlen, Hs.
  f_equal. rewrite (IH r) by lia. symmetry. apply IH; lia.
Qed.

Lemma wikilinkLoop_none s : ~ hasLink s -> wikilinkLoop (length s) s = [].
Proof.
  intros Hno. destruct (length s); [reflexivity|]. simpl.
  destruct (search wikilinkRegex s) as [m|] eqn:E; [|reflexivity].
  exfalso. apply Hno, search_link. eauto.
Qed.

Lemma wikilinkLoop_first pre b post :
  c_lbracket ∉ pre -> b <> [] -> c_rbracket ∉ b ->
  let s := pre ++ lit "[[" ++ b ++ lit "]]" ++ post in
  wikilinkLoop (length s) s
  = trim (hd [] (split c_pipe b)) :: wikilinkLoop (length post) post.
Proof.
  intros Hpre Hb Hno s.
  assert (E : search wikilinkRegex s = Some ([b], post)).
  { unfold s. rewrite search_skip.
    - rewrite search_eq. now rewrite wikilink_exec_complete.
    - intros c rest Hc. apply wikilink_exec_other. intros ->. contradiction. }
  assert (Hlen : exists r, length s = S r /\ length post <= r).
  { exists (length s - 1). unfold s. rewrite !length_app. cbn [lit length]. lia. }
  destruct Hlen as (r & -> & Hlen). cbn [wikilinkLoop]. rewrite E. f_equal.
  now apply wikilinkLoop_rounds.
Qed.

Lemma parseLine_links line i k n :
  parseLine line i k = Some n ->
  wikilinks n = snd (extractWikilinks (text n)) /\
  hasWikilink n = (0 <? length (wikilinks n)).
Proof.
  unfold parseLine.
  destruct (exec headerRegex (trim line)) as [[[|m1 [|m2 [|m3 caps]]] rest]|];
    try (intros [= <-]; split; reflexivity);
    destruct (exec listRegex line) as [[[|n1 [|n2 [|n3 caps']]] rest']|];
    try (intros [= <-]; split; reflexivity); discriminate.
Qed.

(** X5.  [extractWikilinks] leaves the text as it is.  It records no link
    for a text without [[[b]]]; for a text whose first [[] opens a link
    [[[b]]], it records what stands before the first [|] of [b], trimmed,
    and then the links of what follows the link. *)
Theorem extractWikilinks_reads_links_left_to_right (pre b post : list N) :
  c_lbracket ∉ pre -> b <> [] -> c_rbracket ∉ b ->
  extractWikilinks pre = (pre, []) /\
  extractWikilinks (pre ++ lit "[[" ++ b ++ lit "]]" ++ post)
  = (pre ++ lit "[[" ++ b ++ lit "]]" ++ post,
     trim (hd [] (split c_pipe b)) :: snd (extractWikilinks post)).
Proof.
  intros Hpre Hb Hno. unfold extractWikilinks. split; f_equal.
  - apply wikilinkLoop_none. intros (p & b' & q & -> & _).
    apply Hpre. apply elem_of_app. right. cbn [lit app]. apply elem_of_cons. now left.
  - now apply wikilinkLoop_first.
Qed.

Lemma extractWikilinks_reads_links_left_to_right_witness :
  extractWikilinks (lit "see ") = (lit "see ", []) /\
  extractWikilinks (lit "see " ++ lit "[[" ++ lit " Target |alias" ++ lit "]]" ++ lit " and [[B]]")
  = (lit "see " ++ lit "[[" ++ lit " Target |alias" ++ lit "]]" ++ lit " and [[B]]",
     trim (hd [] (split c_pipe (lit " Target |alias")))
       :: snd (extractWikilinks (lit " and [[B]]"))).
Proof.
  apply (extractWikilinks_reads_links_left_to_right
           (lit "see ") (lit " Target |alias") (lit " and [[B]]")).
  - vm_compute. intros H. apply list_elem_of_In in H. simpl in H. intuition discriminate.
  - discriminate.
  - vm_compute. intros H. apply list_elem_of_In in H. simpl in H. intuition discriminate.
Defined.

Lemma parseLine_link_iff line i k n :
  parseLine line i k = Some n ->
  (hasWikilink n = true <-> hasLink (text n)) /\
  (wikilinks n <> [] <-> hasLink (text n)).
Proof.
  intros E. destruct (parseLine_links _ _ _ _ E) as [Hl Hh].
  assert (Hiff : wikilinks n <> [] <-> hasLink (text n)).
  { rewrite Hl. unfold extractWikilinks. cbn [snd]. split.
    - intros Hne. destruct (classic_hasLink (text n)) as [|Hno]; [assumption|].
      now rewrite wikilinkLoop_none in Hne.
    - intros Hlink Hnil. apply search_link in Hlink as [[caps rest] Es].
      destruct (search_link_caps _ _ _ Es) as (b & -> & Hlen).
      destruct (length (text n)) eqn:El; [lia|]. simpl in Hnil. rewrite Es in Hnil.
      discriminate. }
  split; [|exact Hiff]. rewrite Hh, <- Hiff.
  destruct (wikilinks n); split; intros H; try reflexivity; try discriminate.
  now contradiction H.
Qed.

(** X6.  A node that [parseLine] makes is marked as having links, and has
    links recorded, exactly when its text holds [[[b]]] for a [b] that is
    not empty and has no []]. *)
Theorem parseLine_marks_links (line : list N) (i : nat) (k : Z) (n : Node) :
  parseLine line i k = Some n ->
  (hasWikilink n = true <-> hasLink (text n)) /\
  (wikilinks n <> [] <-> hasLink (text n)).
Proof. apply parseLine_link_iff. Qed.

Lemma parseLine_marks_links_witness :
  (hasWikilink (default rootNode (parseLine linkedText 0 1)) = true
   <-> hasLink (text (default rootNode (parseLine linkedText 0 1)))) /\
  (wikilinks (default rootNode (parseLine linkedText 0 1)) <> []
   <-> hasLink (text (default rootNode (parseLine linkedText 0 1)))).
Proof.
  apply (parseLine_marks_links linkedText 0 1). vm_compute. reflexivity.
Defined.

End Links.

(** ** Loading a file *)

Section LoadFile.

Lemma dropWhile_head {A} (p : A -> bool) (l : list A) c r :
  dropWhile p l = c :: r -> p c = false.
Proof.
  induction l as [|a l IH]; simpl; [discriminate|].
  destruct (p a) eqn:E; [exact IH|]. now intros [= <- _].
Qed.

Lemma dropWhile_nil {A} (p : A -> bool) (l : list A) : dropWhile p l = [] -> allb p l.
Proof.
  induction l as [|a l IH]; simpl; [intros _; constructor|].
  destruct (p a) eqn:E; [|discriminate]. intros H. apply Forall_cons. split; [exact E|exact (IH H)].
Qed.

Lemma trim_nil s : trim s = [] -> allb isWhiteSpace s.
Proof.
  unfold trim. intros H. apply (f_equal (@rev N)) in H. rewrite rev_involutive in H.
  simpl in H. pose proof (dropWhile_nil _ _ H) as Hall.
  destruct (dropWhile isWhiteSpace s) as [|c r] eqn:E; [now apply dropWhile_nil|].
  exfalso. pose proof (dropWhile_head _ _ _ _ E) as Hc.
  unfold allb in Hall. rewrite Forall_forall in Hall.
  rewrite (Hall c) in Hc; [discriminate|].
  apply list_elem_of_In, in_rev. rewrite rev_involutive. now left.
Qed.

Lemma allb_trim_nil s : allb isWhiteSpace s -> trim s = [].
Proof.
  intros H. unfold trim. rewrite <- (app_nil_r s), dropWhile_allb by exact H. reflexivity.
Qed.

Lemma split_elem sep s : forall line c, line ∈ split sep s -> c ∈ line -> c ∈ s.
Proof.
  induction s as [|c0 s IH]; intros line c Hl Hc; simpl in Hl.
  - apply list_elem_of_singleton in Hl. now subst.
  - destruct (c0 =? sep)%N.
    + apply elem_of_cons in Hl as [->|Hl]; [inversion Hc|].
      apply elem_of_cons. right. eapply IH; eauto.
    + destruct (split sep s) as [|p ps] eqn:E.
      * apply list_elem_of_singleton in Hl. subst. apply list_elem_of_singleton in Hc.
        subst. apply elem_of_cons. now left.
      * apply elem_of_cons in Hl as [->|Hl].
        -- apply elem_of_cons in Hc as [->|Hc]; apply elem_of_cons; [now left|right].
           apply (IH p); [apply elem_of_cons; now left|exact Hc].
        -- apply elem_of_cons. right. apply (IH line); [apply elem_of_cons; now right|exact Hc].
Qed.

Lemma blank_content content line :
  trim content = [] -> line ∈ split c_newline content -> trim line = [].
Proof.
  intros Hb Hl. apply allb_trim_nil. apply trim_nil in Hb.
  unfold allb in *. rewrite Forall_forall in *. intros c Hc. apply Hb.
  eapply split_elem; eauto.
Qed.

Lemma parseLine_some_any line i k i' k' :
  is_Some (parseLine line i k) -> is_Some (parseLine line i' k').
Proof.
  destruct (parseLine_cases line) as [Hn|(ty & lvl & txt & links & col & Hs)].
  - rewrite Hn. now intros [? [=]].
  - rewrite Hs. eauto.
Qed.

Lemma hasOutline_true content :
  hasOutline content = true <->
  exists line, line ∈ split c_newline content /\ is_Some (parseLine line 0 0).
Proof.
  unfold hasOutline. rewrite existsb_exists. split.
  - intros (line & Hin & H). exists line. split; [now apply list_elem_of_In|].
    destruct (parseLine line 0 0); [eauto|discriminate].
  - intros (line & Hin & [n H]). exists line. split; [now apply list_elem_of_In|].
    now rewrite H.
Qed.

(** The store of a parsed text has one object for the root and one for each
    line that is a header or a list item. *)
Lemma parsed_count content h :
  parseMarkdown content = Some h ->
  length h = S (length (List.filter
                          (fun line => match parseLine line 0 0 with
                                       | Some _ => true | None => false end)
                          (split c_newline content))).
Proof.
  intros E.
  pose proof (parseMarkdown_map (fun _ => tt)
                (fun _ line => (fun _ => tt) <$> parseLine line 0 0) content h) as Hm.
  cbv beta in Hm. rewrite omap_zip_seq in Hm.
  assert (Hlen : length (drop 1 h)
                 = length (omap (fun l => (fun _ : Node => tt) <$> parseLine l 0 0)
                             (split c_newline content))).
  { rewrite <- Hm; [now rewrite length_map|reflexivity|reflexivity| | |exact E].
    - intros line i Hb. now rewrite parseLine_blank.
    - intros line i k. destruct (parseLine_cases line) as [Hn|(ty & lvl & txt & links & col & Hs)].
      + now rewrite !Hn.
      + now rewrite !Hs. }
  destruct (parseMarkdown_order _ _ E) as (t & Hroot & Ht & _ & Ha).
  assert (0 < length h).
  { destruct t as [a cs]. simpl in Hroot. subst a.
    destruct Ht as [Hr _]. apply repr_inv in Hr as (n & Hn & _).
    apply lookup_lt_Some in Hn. exact Hn. }
  rewrite length_drop in Hlen.
  assert (Hf : forall l : list (list N),
            length (omap (fun l => (fun _ : Node => tt) <$> parseLine l 0 0) l)
            = length (List.filter (fun line => match parseLine line 0 0 with
                                               | Some _ => true | None => false end) l)).
  { induction l as [|a l IH]; [reflexivity|]. simpl.
    destruct (parseLine a 0 0); simpl; now rewrite <- IH. }
  rewrite Hf in Hlen. lia.
Qed.

Lemma filter_nil_existsb {A} (p : A -> bool) (l : list A) :
  List.filter p l = [] <-> existsb p l = false.
Proof.
  induction l as [|a l IH]; simpl; [tauto|].
  destruct (p a); simpl; [split; discriminate|exact IH].
Qed.

(** What [loadFile] gives: the parsed tree when some line is a header or a
    list item, the default structure otherwise, with the coordinates of
    the layout; the first child of the root is selected. *)
Lemma loadFile_cases content fileName :
  exists parsed v,
    parseMarkdown content = Some parsed /\
    loadFile content fileName = Some v /\
    currentFile v = true /\ mindmapData v = Some 0 /\ canvasData v = Some 0 /\
    history v = [] /\ historyIndex v = (-1)%Z /\
    (exists root centre,
       store v !! 0 = Some root /\ head (children root) = Some 1 /\
       store v !! 1 = Some centre /\ selectedNodeId v = Some (id centre)) /\
    Forall2 sameButXY
      (if hasOutline content then parsed else defaultStructure fileName) (store v).
Proof.
  destruct (parseMarkdown_total content) as [parsed E]. exists parsed.
  destruct (parseMarkdown_order _ _ E) as (t & Hroot & Ht & Hok & Ha).
  destruct t as [a cs]. simpl in Hroot. subst a.
  destruct (repr_root _ _ (proj1 Ht)) as (root & Hr & Hcs). cbn [rootOf kids] in Hr, Hcs.
  pose proof (parsed_count _ _ E) as Hcount.
  assert (Hcond : (length (children root) =? 0) || bool_decide (trim content = [])
                  = negb (hasOutline content)).
  { destruct (hasOutline content) eqn:Ho; simpl.
    - apply orb_false_intro.
      + apply Nat.eqb_neq. rewrite Hcs, length_map. intros Hz.
        destruct cs; [|discriminate]. simpl in Ha.
        assert (Hl : length parsed = 1).
        { apply (f_equal (@length nat)) in Ha. rewrite length_seq in Ha. simpl in Ha. lia. }
        rewrite Hl in Hcount. injection Hcount as Hcount. symmetry in Hcount.
        apply length_zero_iff_nil, filter_nil_existsb in Hcount.
        unfold hasOutline in Ho. congruence.
      + apply bool_decide_eq_false. intros Hb.
        apply hasOutline_true in Ho as (line & Hin & [n Hn]).
        rewrite parseLine_blank in Hn; [discriminate|]. eapply blank_content; eauto.
    - apply orb_true_iff. left. apply Nat.eqb_eq. rewrite Hcs, length_map.
      unfold hasOutline in Ho. apply filter_nil_existsb in Ho. rewrite Ho in Hcount.
      simpl in Hcount. destruct cs as [|[c ccs] cs]; [reflexivity|].
      apply (f_equal (@length nat)) in Ha. rewrite length_seq, Hcount in Ha.
      simpl in Ha. lia. }
  unfold loadFile. rewrite E. cbn [mbind option_bind]. rewrite Hr. cbn [mbind option_bind].
  rewrite Hcond.
  assert (Htree : exists c cs',
            rootOf c = 1 /\
            isTree (if hasOutline content then parsed else defaultStructure fileName)
              (ANode 0 (c :: cs'))).
  { destruct (hasOutline content).
    - simpl in Hcond. apply orb_false_elim in Hcond as [Hlen _].
      apply Nat.eqb_neq in Hlen. rewrite Hcs, length_map in Hlen.
      destruct cs as [|[rc ccs] cs']; [now contradiction Hlen|].
      exists (ANode rc ccs), cs'. split; [|exact Ht]. simpl in Ha.
      destruct (length parsed) as [|[|n]]; simpl in Ha; try discriminate.
      now injection Ha as ->.
    - exists (ANode 1 []), []. split; [reflexivity|apply defaultStructure_tree]. }
  destruct Htree as (c & cs' & Hc & Ht').
  destruct (calculateNodePositions_spec _ _ Ht') as (h' & El & HF & _).
  cbn [rootOf] in El.
  pose proof (frame_isTree _ _ _ HF Ht') as Ht2.
  destruct (repr_root _ _ (proj1 Ht2)) as (root' & Hr' & Hcs'). cbn [rootOf kids map] in Hr', Hcs'.
  rewrite Hc in Hcs'.
  assert (Hin : 1 ∈ addrs (ANode 0 (c :: cs'))).
  { simpl. apply elem_of_cons. right. apply elem_of_app. left. rewrite <- Hc.
    apply addrs_root. }
  destruct (lookup_lt_is_Some_2 h' 1 (repr_bound _ _ _ (proj1 Ht2) Hin)) as [centre Hcentre].
  assert (Hrun : renderView (mkView h' true (Some 0) [] (-1) None None)
                 = Some (mkView h' true (Some 0) [] (-1) (Some 0) (Some (id centre)))).
  { unfold renderView. cbn [mindmapData renderMindmap store]. rewrite Hr'.
    cbn [mbind option_bind]. rewrite Hcs', Hcentre. reflexivity. }
  destruct (hasOutline content); cbn [negb]; rewrite El; cbn [mbind option_bind];
    rewrite Hrun; eexists; repeat (split; [reflexivity|]);
    (split; [|exact HF]); exists root', centre; cbn [store selectedNodeId];
    rewrite Hcs'; repeat (split; [assumption || reflexivity|]); reflexivity.
Qed.

(** X7.  [loadFile] always gives a view.  When some line of the file is a
    header or a list item, the view holds what [parseMarkdown] returns; when
    none is, it holds the default structure, a root with one node named
    after the file.  In both cases the layout has set coordinates and
    nothing else, the history is empty, and once the timer of [renderView]
    has run the first child of the root is selected. *)
Theorem loadFile_shows_outline_or_default (content fileName : list N) :
  exists parsed v,
    parseMarkdown content = Some parsed /\
    loadFile content fileName = Some v /\
    currentFile v = true /\ mindmapData v = Some 0 /\ canvasData v = Some 0 /\
    history v = [] /\ historyIndex v = (-1)%Z /\
    (exists root centre,
       store v !! 0 = Some root /\ head (children root) = Some 1 /\
       store v !! 1 = Some centre /\ selectedNodeId v = Some (id centre)) /\
    Forall2 sameButXY
      (if hasOutline content then parsed else defaultStructure fileName) (store v).
Proof. apply loadFile_cases. Qed.

(** X8.  A file with a link in a header or in a list item can be loaded but
    not saved: [saveToFile] on the view that [loadFile] gives raises. *)
Theorem load_then_save_raises_on_links (content fileName line : list N) (n : Node) :
  line ∈ split c_newline content -> parseLine line 0 0 = Some n -> hasLink (text n) ->
  exists v, loadFile content fileName = Some v /\ saveToFile v = Throw.
Proof.
  intros Hin Hn Hlink.
  destruct (loadFile_cases content fileName)
    as (parsed & v & E & El & Hf & Hd & _ & _ & _ & _ & HF).
  exists v. split; [exact El|].
  assert (Ho : hasOutline content = true).
  { apply hasOutline_true. exists line. split; [exact Hin|eauto]. }
  rewrite Ho in HF.
  destruct (parseMarkdown_order _ _ E) as (t & Hroot & Ht & Hok & Ha).
  pose proof (parseMarkdown_map (fun m => (hasWikilink m, wikilinks m))
                (fun _ l => (fun m => (hasWikilink m, wikilinks m)) <$> parseLine l 0 0)
                content parsed) as Hm.
  cbv beta in Hm. rewrite omap_zip_seq in Hm.
  assert (Hmem : (hasWikilink n, wikilinks n)
                 ∈ map (fun m => (hasWikilink m, wikilinks m)) (drop 1 parsed)).
  { rewrite Hm; [|reflexivity|reflexivity| | |exact E].
    - apply list_elem_of_omap. exists line. split; [exact Hin|]. now rewrite Hn.
    - intros l i Hb. now rewrite parseLine_blank.
    - intros l i k. destruct (parseLine_cases l) as [Hnone|(ty & lvl & txt & links & col & Hs)].
      + now rewrite !Hnone.
      + now rewrite !Hs. }
  apply list_elem_of_In, in_map_iff in Hmem as (m & Hm' & Hmin).
  injection Hm' as Hw Hl.
  apply list_elem_of_In, list_elem_of_lookup in Hmin as [j Hj].
  rewrite lookup_drop in Hj.
  destruct (parseLine_link_iff _ _ _ _ Hn) as [Hi1 Hi2].
  destruct (frame_lookup _ _ _ _ HF Hj) as (m' & Hj' & Hsame).
  destruct (sameButXY_fields _ _ Hsame) as (Hid & _ & _ & _ & _ & _ & _ & _ & Hw' & Hl' & _).
  destruct (parseMarkdown_ids _ _ E) as (ks & Hids).
  assert (Hidm : id m <> lit "root").
  { assert (Hk : (map id parsed) !! (1 + j) = Some (id m)).
    { change (map id) with (fmap (M:=list) id). now rewrite list_lookup_fmap, Hj. }
    rewrite Hids in Hk. simpl in Hk.
    change (map nodeId) with (fmap (M:=list) nodeId) in Hk.
    rewrite list_lookup_fmap in Hk. destruct (ks !! j); [|discriminate].
    injection Hk as <-. apply nodeId_not_root. }
  unfold saveToFile. rewrite Hf, Hd. rewrite <- Hroot.
  rewrite (generateMarkdown_throws (store v) t (1 + j) m').
  - reflexivity.
  - eapply frame_isTree; eauto.
  - rewrite Ha. apply elem_of_seq. apply lookup_lt_Some in Hj. lia.
  - exact Hj'.
  - now rewrite Hid.
  - rewrite Hw', Hw. now apply Hi1.
  - rewrite Hl', Hl. now apply Hi2.
Qed.

Lemma load_then_save_raises_on_links_witness :
  exists v, loadFile linkedText (lit "note") = Some v /\ saveToFile v = Throw.
Proof.
  apply (load_then_save_raises_on_links linkedText (lit "note") linkedText
           (default rootNode (parseLine linkedText 0 0))).
  - vm_compute. apply list_elem_of_In. simpl. auto.
  - vm_compute. reflexivity.
  - exists (lit "see "), (lit "Target|alias"), []. split; [reflexivity|]. split; [discriminate|].
    vm_compute. intros H. apply list_elem_of_In in H. simpl in H. intuition discriminate.
Defined.

End LoadFile.

(** ** Looking nodes up on the canvas *)

Section CanvasLookup.

Lemma forEachO_app {S0} (f : nat -> list S0 -> option (list S0)) (g : ATree -> list S0)
    (cs : list ATree) :
  Forall (fun c => forall nodes, f (rootOf c) nodes = Some (nodes ++ g c)) cs ->
  forall nodes, forEachO f (map rootOf cs) nodes = Some (nodes ++ flat_map g cs).
Proof.
  induction 1 as [|c cs Hc _ IH]; intros nodes; simpl.
  - now rewrite app_nil_r.
  - rewrite Hc. cbn [mbind option_bind]. rewrite IH. now rewrite app_assoc.
Qed.

Lemma filter_flat_map {A B} (p : B -> bool) (g : A -> list B) (l : list A) :
  List.filter p (flat_map g l) = flat_map (fun a => List.filter p (g a)) l.
Proof.
  induction l as [|a l IH]; [reflexivity|]. simpl. now rewrite List.filter_app, IH.
Qed.

Lemma getAllNodes_traverse_spec h t :
  repr h t -> forall fuel nodes, height t <= fuel ->
  getAllNodes_traverse fuel h (rootOf t) nodes
  = Some (nodes ++ List.filter (notRoot h) (addrs t)).
Proof.
  induction t as [a cs IH] using ATree_ind'. intros Hr fuel nodes Hfuel.
  apply repr_inv in Hr as (n & Hn & Hcs & Hrs).
  destruct fuel as [|fuel]; [simpl in Hfuel; lia|].
  cbn [rootOf getAllNodes_traverse]. rewrite Hn. cbn [mbind option_bind]. rewrite Hcs.
  rewrite (forEachO_app _ (fun c => List.filter (notRoot h) (addrs c))).
  - cbn [addrs List.filter]. rewrite filter_flat_map. unfold notRoot at 2.
    rewrite (idAt_lookup _ _ _ Hn).
    destruct (decide (id n = lit "root")) as [E|E].
    + rewrite bool_decide_eq_true_2 by exact E. reflexivity.
    + rewrite bool_decide_eq_false_2 by exact E. cbn [negb]. now rewrite <- app_assoc.
  - rewrite Forall_forall in IH. rewrite Forall_forall in Hrs.
    apply Forall_forall. intros c Hc nodes'. apply IH; auto.
    pose proof (height_child a cs c Hc). lia.
Qed.

Lemma getAllNodes_preorder h t :
  isTree h t -> getAllNodes h (rootOf t) = Some (List.filter (notRoot h) (addrs t)).
Proof.
  intros Ht. unfold getAllNodes.
  rewrite (getAllNodes_traverse_spec h t); [reflexivity|apply Ht|now apply isTree_height].
Qed.

(** X9.  On a tree, [getAllNodes] returns the nodes that are not named
    [root], each once, a node before its children and the children in
    their order. *)
Theorem getAllNodes_lists_tree_in_order (h : list Node) (t : ATree) :
  isTree h t ->
  exists nodes,
    getAllNodes h (rootOf t) = Some nodes /\
    nodes = List.filter (notRoot h) (addrs t) /\ NoDup nodes /\
    (forall a, a ∈ nodes <-> a ∈ addrs t /\ idAt h a <> lit "root").
Proof.
  intros Ht. exists (List.filter (notRoot h) (addrs t)).
  split; [now apply getAllNodes_preorder|]. split; [reflexivity|]. split.
  - apply NoDup_ListNoDup, List.NoDup_filter, NoDup_ListNoDup, Ht.
  - intros a. rewrite list_elem_of_In, filter_In, <- list_elem_of_In. unfold notRoot.
    rewrite negb_true_iff, bool_decide_eq_false. reflexivity.
Qed.

Lemma getAllNodes_lists_tree_in_order_witness :
  exists nodes,
    getAllNodes (store outlineView) (rootOf outlineShown) = Some nodes /\
    nodes = List.filter (notRoot (store outlineView)) (addrs outlineShown) /\ NoDup nodes /\
    (forall a, a ∈ nodes <->
       a ∈ addrs outlineShown /\ idAt (store outlineView) a <> lit "root").
Proof.
  apply (getAllNodes_lists_tree_in_order (store outlineView) outlineShown).
  apply (shownTree_shows outlineView outlineShown). reflexivity.
Defined.

Lemma falsy_covers h px py a n :
  h !! a = Some n -> falsy (x n) || falsy (y n) = true -> ~ covers h px py a.
Proof.
  intros Hn Hf (n' & nx & ny & Hn' & Hx & Hy & Hx0 & Hy0 & _).
  assert (n' = n) by congruence. subst n'. rewrite Hx, Hy in Hf. simpl in Hf.
  apply orb_true_iff in Hf as [Hf|Hf]; apply Qeq_bool_iff in Hf; contradiction.
Qed.

Lemma findNodeAtPosition_loop_spec h px py ex l :
  Forall (fun a => is_Some (h !! a)) l ->
  exists r,
    findNodeAtPosition_loop h px py ex l = Some r /\
    match r with
    | Some a =>
        exists before after,
          l = before ++ a :: after /\ a <> ex /\ covers h px py a /\
          Forall (fun b => b = ex \/ ~ covers h px py b) before
    | None => Forall (fun b => b = ex \/ ~ covers h px py b) l
    end.
Proof.
  induction 1 as [|a l [n Hn] _ IH].
  - exists None. split; [reflexivity|constructor].
  - cbn [findNodeAtPosition_loop]. rewrite Hn. cbn [mbind option_bind].
    assert (Hskip : (a = ex \/ ~ covers h px py a) ->
              exists r, findNodeAtPosition_loop h px py ex l = Some r /\
                match r with
                | Some a0 =>
                    exists before after,
                      a :: l = before ++ a0 :: after /\ a0 <> ex /\ covers h px py a0 /\
                      Forall (fun b => b = ex \/ ~ covers h px py b) before
                | None => Forall (fun b => b = ex \/ ~ covers h px py b) (a :: l)
                end).
    { intros Ha. destruct IH as (r & Hr & Hspec). exists r. split; [exact Hr|].
      destruct r as [a0|].
      - destruct Hspec as (before & after & -> & Hne & Hcov & Hbefore).
        exists (a :: before), after. split; [reflexivity|]. split; [exact Hne|].
        split; [exact Hcov|]. now constructor.
      - now constructor. }
    destruct ((a =? ex) || falsy (x n) || falsy (y n)) eqn:Hcond.
    + apply Hskip. apply orb_true_iff in Hcond as [Hcond|Hcond].
      * apply orb_true_iff in Hcond as [Hcond|Hcond].
        -- left. now apply Nat.eqb_eq.
        -- right. apply (falsy_covers h px py a n Hn). now rewrite Hcond.
      * right. apply (falsy_covers h px py a n Hn). rewrite Hcond. apply orb_true_r.
    + apply orb_false_iff in Hcond as [Hcond Hy]. apply orb_false_iff in Hcond as [Hex Hx].
      apply Nat.eqb_neq in Hex.
      destruct (x n) as [nx|] eqn:Ex; [|discriminate]. destruct (y n) as [ny|] eqn:Ey; [|discriminate].
      simpl in Hx, Hy.
      destruct (Qle_bool nx px && Qle_bool px (nx + 100) && Qle_bool ny py
                && Qle_bool py (ny + 50)) eqn:Hbox.
      * exists (Some a). split; [reflexivity|]. exists [], l. split; [reflexivity|].
        split; [exact Hex|]. split; [|constructor].
        apply andb_true_iff in Hbox as [Hbox H4]. apply andb_true_iff in Hbox as [Hbox H3].
        apply andb_true_iff in Hbox as [H1 H2].
        exists n, nx, ny. repeat split; try assumption; try (now apply Qle_bool_iff).
        -- intros E. apply Qeq_bool_iff in E. congruence.
        -- intros E. apply Qeq_bool_iff in E. congruence.
      * apply Hskip. right. intros (n' & nx' & ny' & Hn' & Hx' & Hy' & _ & _ & H1 & H2 & H3 & H4).
        assert (n' = n) by congruence. subst n'.
        assert (nx' = nx) by congruence. assert (ny' = ny) by congruence. subst nx' ny'.
        apply Qle_bool_iff in H1, H2, H3, H4. rewrite H1, H2, H3, H4 in Hbox. discriminate.
Qed.

Lemma filter_split {A} (p : A -> bool) (L : list A) : forall before a after,
  List.filter p L = before ++ a :: after ->
  exists b c, L = b ++ a :: c /\ List.filter p b = before /\ p a = true.
Proof.
  induction L as [|x0 L IH]; intros before a after; simpl.
  - destruct before; discriminate.
  - destruct (p x0) eqn:E.
    + destruct before as [|b0 before]; simpl.
      * intros [= -> Hrest]. exists [], L. split; [reflexivity|]. split; [reflexivity|exact E].
      * intros [= -> Hrest]. destruct (IH _ _ _ Hrest) as (b & c & -> & Hb & Ha).
        exists (b0 :: b), c. split; [reflexivity|]. split; [|exact Ha]. simpl. now rewrite E, Hb.
    + intros Hrest. destruct (IH _ _ _ Hrest) as (b & c & -> & Hb & Ha).
      exists (x0 :: b), c. split; [reflexivity|]. split; [|exact Ha]. simpl. now rewrite E.
Qed.

(** X10.  On a canvas that holds a tree, [findNodeAtPosition] returns the
    first node, in the order of [getAllNodes], that is not the excluded
    node, is not named [root], has coordinates that are not 0 and has the
    point in its box; it returns [null] when there is no such node.  So a
    node with a coordinate 0 or without coordinates is never found. *)
Theorem findNodeAtPosition_returns_first_hit (px py : Q) (ex : nat) (v : View) (t : ATree) :
  canvasData v = Some (rootOf t) -> isTree (store v) t ->
  exists r,
    findNodeAtPosition px py ex v = Some r /\
    match r with
    | Some a =>
        exists before after,
          addrs t = before ++ a :: after /\
          a <> ex /\ idAt (store v) a <> lit "root" /\ covers (store v) px py a /\
          Forall (fun b => b = ex \/ idAt (store v) b = lit "root" \/
                           ~ covers (store v) px py b) before
    | None =>
        Forall (fun b => b = ex \/ idAt (store v) b = lit "root" \/
                         ~ covers (store v) px py b) (addrs t)
    end.
Proof.
  intros Hc Ht. unfold findNodeAtPosition. rewrite Hc, (getAllNodes_preorder _ _ Ht).
  cbn [mbind option_bind].
  set (h := store v). set (L := addrs t).
  assert (Hall : Forall (fun a => is_Some (h !! a)) (List.filter (notRoot h) L)).
  { apply Forall_forall. intros a Ha. apply list_elem_of_In, filter_In in Ha as [Ha _].
    apply list_elem_of_In in Ha. apply lookup_lt_is_Some. eapply repr_bound; [apply Ht|exact Ha]. }
  destruct (findNodeAtPosition_loop_spec h px py ex _ Hall) as (r & Hr & Hspec).
  exists r. split; [exact Hr|].
  assert (Hlift : forall l, Forall (fun b => b = ex \/ ~ covers h px py b)
                              (List.filter (notRoot h) l) ->
            Forall (fun b => b = ex \/ idAt h b = lit "root" \/ ~ covers h px py b) l).
  { intros l Hl. rewrite Forall_forall in Hl. apply Forall_forall. intros b Hb.
    destruct (notRoot h b) eqn:Eb.
    - destruct (Hl b) as [?|?]; [|now left|now right; right].
      apply list_elem_of_In, filter_In. split; [now apply list_elem_of_In|exact Eb].
    - right; left. unfold notRoot in Eb. apply negb_false_iff in Eb.
      now apply bool_decide_eq_true in Eb. }
  destruct r as [a|]; [|now apply Hlift].
  destruct Hspec as (before & after & Hsplit & Hne & Hcov & Hbefore).
  destruct (filter_split _ _ _ _ _ Hsplit) as (b & c & HL & Hb & Ha).
  exists b, c. split; [exact HL|]. split; [exact Hne|]. split.
  - unfold notRoot in Ha. apply negb_true_iff in Ha. now apply bool_decide_eq_false in Ha.
  - split; [exact Hcov|]. apply Hlift. now rewrite Hb.
Qed.

Lemma findNodeAtPosition_returns_first_hit_witness :
  exists r,
    findNodeAtPosition 950 360 5 outlineView = Some r /\
    match r with
    | Some a =>
        exists before after,
          addrs outlineShown = before ++ a :: after /\
          a <> 5 /\ idAt (store outlineView) a <> lit "root" /\
          covers (store outlineView) 950 360 a /\
          Forall (fun b => b = 5 \/ idAt (store outlineView) b = lit "root" \/
                           ~ covers (store outlineView) 950 360 b) before
    | None =>
        Forall (fun b => b = 5 \/ idAt (store outlineView) b = lit "root" \/
                         ~ covers (store outlineView) 950 360 b) (addrs outlineShown)
    end.
Proof.
  apply (findNodeAtPosition_returns_first_hit 950 360 5 outlineView outlineShown).
  - reflexivity.
  - apply (shownTree_shows outlineView outlineShown). reflexivity.
Defined.

Lemma NoDup_map_inj {A B} (f : A -> B) (l : list A) a b :
  NoDup (map f l) -> a ∈ l -> b ∈ l -> f a = f b -> a = b.
Proof.
  induction l as [|c l IH]; intros Hnd Ha Hb E; [inversion Ha|].
  simpl in Hnd. apply NoDup_cons in Hnd as [Hc Hnd].
  apply elem_of_cons in Ha as [->|Ha]; apply elem_of_cons in Hb as [->|Hb]; auto.
  - exfalso. apply Hc. rewrite E. apply list_elem_of_In, in_map, list_elem_of_In, Hb.
  - exfalso. apply Hc. rewrite <- E. apply list_elem_of_In, in_map, list_elem_of_In, Ha.
Qed.

(** X11.  On a canvas that holds a tree whose nodes have different
    identifiers, [getSelectedNode] after [selectNode] returns the node of
    the tree that has the identifier, and [null] when the identifier is
    empty or no node of the tree has it. *)
Theorem selected_node_is_node_with_id (ident : list N) (v : View) (t : ATree) :
  canvasData v = Some (rootOf t) -> isTree (store v) t -> NoDup (ids (store v) t) ->
  exists r,
    getSelectedNode (selectNode ident v) = Some r /\
    forall a, r = Some a <-> ident <> [] /\ a ∈ addrs t /\ idAt (store v) a = ident.
Proof.
  intros Hc Ht Hnd. unfold getSelectedNode, selectNode. cbn [selectedNodeId canvasData store].
  rewrite Hc. destruct ident as [|c s].
  - exists None. split; [reflexivity|]. intros a. split; [discriminate|].
    intros [H _]. congruence.
  - rewrite (findNodeById_spec _ t); [|apply Ht|now apply isTree_height].
    eexists. split; [reflexivity|]. intros a. split.
    + intros H. apply firstWithId_some in H as [Ha Hid]. split; [discriminate|]. now split.
    + intros (_ & Ha & Hid).
      destruct (firstWithId (store v) (c :: s) (addrs t)) as [a'|] eqn:E.
      * f_equal. apply firstWithId_some in E as [Ha' Hid'].
        apply (NoDup_map_inj (idAt (store v)) (addrs t)); auto. congruence.
      * exfalso. apply firstWithId_none in E. apply E. rewrite <- Hid.
        apply list_elem_of_In, in_map, list_elem_of_In, Ha.
Qed.

Lemma selected_node_is_node_with_id_witness :
  exists r,
    getSelectedNode (selectNode (lit "node-2") outlineView) = Some r /\
    forall a, r = Some a <->
      lit "node-2" <> [] /\ a ∈ addrs outlineShown /\
      idAt (store outlineView) a = lit "node-2".
Proof.
  apply (selected_node_is_node_with_id (lit "node-2") outlineView outlineShown).
  - reflexivity.
  - apply (shownTree_shows outlineView outlineShown). reflexivity.
  - apply (bool_decide_unpack (NoDup (ids (store outlineView) outlineShown))).
    vm_compute. exact I.
Defined.

End CanvasLookup.

(** ** Which nodes [isAncestor] finds above a node *)

Section Ancestors.

Lemma pathDown_snoc t l s :
  pathDown t l s -> l <> [] ->
  exists l' sq, l = l' ++ [rootOf s] /\ pathDown t l' sq /\ s ∈ kids sq.
Proof.
  induction 1 as [t|a cs c l s Hc Hp IH]; intros Hne; [congruence|].
  destruct l as [|b l].
  - inversion Hp; subst. exists [], (ANode a cs). split; [reflexivity|].
    split; [constructor|exact Hc].
  - destruct IH as (l' & sq & Hl & Hp' & Hk); [discriminate|].
    exists (rootOf c :: l'), sq. split; [now rewrite Hl|]. split; [|exact Hk].
    now constructor.
Qed.

(** The walk up from a node of the tree meets the nodes on the way down
    from the root to it, and no other. *)
Lemma walkUp_path h t l s anc :
  isTree h t -> parentOK h t -> parentAt h (rootOf t) = None ->
  pathDown t l s ->
  walkUp (length h) h anc (Some (rootOf s)) = Some (bool_decide (anc ∈ rootOf t :: l)).
Proof.
  intros Ht Hok Hroot Hp. pose proof Ht as [Hr Hnd].
  destruct (decide (anc ∈ rootOf t :: l)) as [Hin|Hnotin].
  - rewrite bool_decide_eq_true_2 by exact Hin.
    destruct (pathDown_split _ _ _ _ Hp Hin) as (l1 & s1 & l2 & Hp1 & <- & Hp2).
    pose proof (pathDown_isTree _ _ _ _ Hp1 Ht) as [Hr1 Hnd1].
    pose proof (pathDown_parentOK _ _ _ _ Hp1 Hok) as Hok1.
    assert (Hnot2 : rootOf s1 ∉ l2).
    { intros Hin2. apply (pathDown_elem _ _ _ _ Hp2) in Hin2.
      destruct s1 as [a cs]. now apply root_not_in_kids in Hnd1. }
    pose proof (pathDown_length_height _ _ _ Hp2) as Hlen.
    pose proof (isTree_height _ _ (conj Hr1 Hnd1)) as Hh.
    replace (length h) with (length l2 + (length h - length l2)) by lia.
    rewrite (walkUp_climb h (rootOf s1) s1 l2 s); auto. apply walkUp_found.
  - rewrite bool_decide_eq_false_2 by exact Hnotin.
    pose proof (pathDown_length_height _ _ _ Hp) as Hlen.
    pose proof (isTree_height _ _ Ht) as Hh.
    replace (length h) with (length l + S (length h - length l - 1)) by lia.
    rewrite (walkUp_climb h anc t l s); auto.
    + simpl. destruct (Nat.eqb_spec (rootOf t) anc) as [E|_].
      { exfalso. apply Hnotin. rewrite E. apply elem_of_cons. now left. }
      unfold parentAt in Hroot. destruct (repr_root _ _ Hr) as (r & Er & _).
      rewrite Er in Hroot |- *. simpl in Hroot. cbn [mbind option_bind]. rewrite Hroot.
      destruct (length h - length l - 1); reflexivity.
    + intros Hin. apply Hnotin. apply elem_of_cons. now right.
Qed.

(** X12.  In a tree whose nodes refer to their parents, [isAncestor] on a
    node and a target of the tree returns, and returns [true] exactly when
    the node is on the way from the root down to the parent of the target:
    a node is not an ancestor of itself, and nothing is an ancestor of the
    root. *)
Theorem isAncestor_finds_nodes_on_the_way_down (h : list Node) (t : ATree)
    (l : list nat) (s : ATree) (anc : nat) :
  isTree h t -> parentOK h t -> parentAt h (rootOf t) = None ->
  pathDown t l s ->
  isAncestor h anc (rootOf s)
  = Some (bool_decide (anc ∈ removelast (rootOf t :: l))).
Proof.
  intros Ht Hok Hroot Hp.
  destruct (repr_root _ _ (pathDown_repr _ _ _ _ Hp (proj1 Ht))) as (n & Hn & _).
  unfold isAncestor. rewrite Hn. cbn [mbind option_bind].
  destruct (decide (l = [])) as [->|Hne].
  - apply pathDown_nil in Hp; [|reflexivity]. subst s.
    unfold parentAt in Hroot. rewrite Hn in Hroot. simpl in Hroot. rewrite Hroot.
    destruct (length h); reflexivity.
  - destruct (pathDown_snoc _ _ _ Hp Hne) as (l' & sq & -> & Hp' & Hk).
    change (rootOf t :: l' ++ [rootOf s]) with ((rootOf t :: l') ++ [rootOf s]).
    rewrite removelast_last.
    pose proof (parentOK_kid h sq s (pathDown_parentOK _ _ _ _ Hp' Hok) Hk) as Hpar.
    unfold parentAt in Hpar. rewrite Hn in Hpar. simpl in Hpar. rewrite Hpar.
    now apply walkUp_path.
Qed.

Lemma isAncestor_finds_nodes_on_the_way_down_witness :
  isAncestor (store outlineView) 2 (rootOf (ANode 4 []))
  = Some (bool_decide (2 ∈ removelast (rootOf outlineShown :: [1; 2; 3; 4]))).
Proof.
  apply (isAncestor_finds_nodes_on_the_way_down (store outlineView) outlineShown
           [1; 2; 3; 4] (ANode 4 []) 2).
  - apply (shownTree_shows outlineView outlineShown). reflexivity.
  - apply (shownTree_shows outlineView outlineShown). reflexivity.
  - reflexivity.
  - apply (pathDown_child 0 _ (ANode 1 [ANode 2 [ANode 3 [ANode 4 []]]; ANode 5 []; ANode 6 []]));
      [apply list_elem_of_In; simpl; auto|].
    apply (pathDown_child 1 _ (ANode 2 [ANode 3 [ANode 4 []]]));
      [apply list_elem_of_In; simpl; auto|].
    apply (pathDown_child 2 _ (ANode 3 [ANode 4 []])); [apply list_elem_of_In; simpl; auto|].
    apply (pathDown_child 3 _ (ANode 4 [])); [apply list_elem_of_In; simpl; auto|].
    apply pathDown_here.
Defined.

End Ancestors.

(** ** The history *)

Section History.

(** The history has room for 20 snapshots and the index points at one of
    them, or is -1. *)
Lemma saveToHistory_index v v' :
  saveToHistory v = Some v' ->
  length (history v) <= 20 -> (-1 <= historyIndex v < Z.of_nat (length (history v)))%Z ->
  length (history v') <= 20 /\
  (-1 <= historyIndex v' < Z.of_nat (length (history v')))%Z /\
  (historyIndex v <= historyIndex v' <= historyIndex v + 1)%Z /\
  (mindmapData v <> None -> (0 <= historyIndex v')%Z).
Proof.
  intros E Hlen Hidx.
  destruct (saveToHistory_history _ _ E) as (_ & _ & _ & _ & Hnone & Hsome).
  destruct (mindmapData v) as [data|].
  - destruct (Hsome data eq_refl) as (c & Hc). cbv zeta in Hc.
    assert (Hl : length (take (Z.to_nat (historyIndex v + 1)) (history v) ++ [c])
                 = Z.to_nat (historyIndex v + 2)).
    { rewrite length_app, length_take. simpl. lia. }
    rewrite Hl in Hc.
    destruct (20 <? Z.to_nat (historyIndex v + 2)) eqn:E20; destruct Hc as [Hh Hi];
      rewrite Hh, Hi, ?length_drop, Hl.
    + apply Nat.ltb_lt in E20. repeat split; try lia.
    + apply Nat.ltb_ge in E20. repeat split; try lia.
  - rewrite (Hnone eq_refl). repeat split; try lia. congruence.
Qed.

Lemma recalculateAndRender_history v v' :
  recalculateAndRender v = Some v' ->
  history v' = history v /\ historyIndex v' = historyIndex v.
Proof.
  unfold recalculateAndRender. destruct (mindmapData v) as [data|].
  - destruct (calculateNodePositions (store v) data); cbn [mbind option_bind];
      [|discriminate]. now intros [= <-].
  - now intros [= <-].
Qed.

(** What an action does to the history: nothing, or what [saveToHistory]
    does, or one step back for [undo]. *)
Lemma addChild_history now v v' :
  addChildToSelectedNode now v = Some v' ->
  (history v' = history v /\ historyIndex v' = historyIndex v) \/
  (exists v1, saveToHistory v = Some v1 /\ mindmapData v <> None /\
     history v' = history v1 /\ historyIndex v' = historyIndex v1).
Proof.
  unfold addChildToSelectedNode.
  destruct (getSelectedNode v) as [[p|]|]; cbn [mbind option_bind];
    [|intros [= <-]; now left|discriminate].
  destruct (mindmapData v) as [data|] eqn:Ed; [|intros [= <-]; now left].
  destruct (saveToHistory v) as [v1|] eqn:E; cbn [mbind option_bind]; [|discriminate].
  destruct (store v1 !! p); cbn [mbind option_bind]; [|discriminate].
  destruct (calculateNodePositions _ data); cbn [mbind option_bind]; [|discriminate].
  intros [= <-]. right. exists v1. split; [reflexivity|]. split; [discriminate|]. split; reflexivity.
Qed.

Lemma delete_history v v' :
  deleteSelectedNode v = Some v' ->
  (history v' = history v /\ historyIndex v' = historyIndex v) \/
  (exists v1, saveToHistory v = Some v1 /\ mindmapData v <> None /\
     history v' = history v1 /\ historyIndex v' = historyIndex v1).
Proof.
  unfold deleteSelectedNode.
  destruct (currentFile v); [|intros [= <-]; now left].
  destruct (mindmapData v) as [data|] eqn:Ed; [|intros [= <-]; now left].
  destruct (getSelectedNode v) as [[s|]|]; cbn [mbind option_bind];
    [|intros [= <-]; now left|discriminate].
  destruct (store v !! s) as [sn|]; cbn [mbind option_bind]; [|discriminate].
  destruct (parent sn) as [q|]; [|intros [= <-]; now left].
  destruct (saveToHistory v) as [v1|] eqn:E; cbn [mbind option_bind]; [|discriminate].
  destruct (calculateNodePositions _ data) as [h'|]; cbn [mbind option_bind]; [|discriminate].
  destruct (h' !! q) as [pnode|]; cbn [mbind option_bind]; [|discriminate].
  intros Hres. right. exists v1. split; [reflexivity|]. split; [discriminate|].
  destruct (decide (id pnode = lit "root")).
  - destruct (h' !! data) as [root|]; cbn [mbind option_bind] in Hres; [|discriminate].
    destruct (children root) as [|centerNode rest].
    + now injection Hres as <-.
    + destruct (h' !! centerNode); cbn [mbind option_bind] in Hres; [|discriminate].
      now injection Hres as <-.
  - now injection Hres as <-.
Qed.

Lemma move_history c p v v' :
  moveNodeToParent c p v = Some v' ->
  history v' = history v /\ historyIndex v' = historyIndex v.
Proof.
  unfold moveNodeToParent. destruct (canvasData v); [|now intros [= <-]].
  destruct (c =? p); [now intros [= <-]|].
  destruct (isAncestor (store v) c p) as [[|]|]; cbn [mbind option_bind];
    [now intros [= <-]| |discriminate].
  destruct (store v !! c); cbn [mbind option_bind]; [|discriminate].
  intros H. apply recalculateAndRender_history in H. exact H.
Qed.

Lemma undo_history v v' :
  undo v = Some v' ->
  history v' = history v /\
  (historyIndex v' = historyIndex v \/
   (0 < historyIndex v)%Z /\ historyIndex v' = (historyIndex v - 1)%Z).
Proof.
  unfold undo. destruct (0 <? historyIndex v)%Z eqn:E0; [|intros [= <-]; auto].
  apply Z.ltb_lt in E0.
  destruct (history v !! _); cbn [mbind option_bind]; [|discriminate].
  destruct (restoreNodeReferences _ _ _); cbn [mbind option_bind]; [|discriminate].
  intros H. apply recalculateAndRender_history in H. simpl in H. destruct H as [-> ->]. auto.
Qed.

Lemma step_index v v' :
  step v v' ->
  length (history v) <= 20 -> (-1 <= historyIndex v < Z.of_nat (length (history v)))%Z ->
  length (history v') <= 20 /\ (-1 <= historyIndex v' < Z.of_nat (length (history v')))%Z.
Proof.
  intros Hstep Hlen Hidx.
  destruct Hstep as [ident v|now v v' Ha|v v' Hd|c p t v v' Hs Hc Hp Hm|v v' Hu].
  - now split.
  - destruct (addChild_history _ _ _ Ha) as [[-> ->]|(v1 & E & _ & -> & ->)]; [now split|].
    destruct (saveToHistory_index _ _ E Hlen Hidx) as (? & ? & _). now split.
  - destruct (delete_history _ _ Hd) as [[-> ->]|(v1 & E & _ & -> & ->)]; [now split|].
    destruct (saveToHistory_index _ _ E Hlen Hidx) as (? & ? & _). now split.
  - destruct (move_history _ _ _ _ Hm) as [-> ->]. now split.
  - destruct (undo_history _ _ Hu) as [-> [->|[? ->]]]; split; auto; lia.
Qed.

Lemma reachable_index content fileName v :
  reachable content fileName v ->
  length (history v) <= 20 /\ (-1 <= historyIndex v < Z.of_nat (length (history v)))%Z.
Proof.
  induction 1 as [v Hload|v v' _ IH Hstep].
  - destruct (loadFile_cases content fileName) as (parsed & v0 & _ & El & _ & _ & _ & Hh & Hi & _).
    assert (v0 = v) by congruence. subst v0. rewrite Hh, Hi. simpl. lia.
  - destruct IH as [Hlen Hidx]. now apply (step_index v v').
Qed.

(** X13.  In every view reached from the one that [loadFile] makes, by
    selecting, adding children at any reading of the clock, deleting,
    dragging nodes of the displayed tree and undoing, the history holds at
    most 20 snapshots, and the index is -1 or the place of one of them. *)
Theorem history_index_stays_in_bounds (content fileName : list N) (v : View) :
  reachable content fileName v ->
  length (history v) <= 20 /\ (-1 <= historyIndex v < Z.of_nat (length (history v)))%Z.
Proof. apply reachable_index. Qed.

Lemma history_index_stays_in_bounds_witness :
  length (history addedView) <= 20 /\
  (-1 <= historyIndex addedView < Z.of_nat (length (history addedView)))%Z.
Proof.
  apply (history_index_stays_in_bounds outlineText (lit "note")).
  apply (reach_step _ _ selectedView).
  - apply (reach_step _ _ outlineView).
    + apply reach_load. vm_compute. reflexivity.
    + apply step_select.
  - apply (step_add 1700000000000). vm_compute. reflexivity.
Defined.

(** X14.  The first change after [loadFile] cannot be undone: after one
    [addChildToSelectedNode] or one [deleteSelectedNode] on the view that
    [loadFile] makes, whatever node is selected, [undo] returns the view as
    it is. *)
Theorem first_change_cannot_be_undone (content fileName ident : list N) (now : Z)
    (v v' : View) :
  loadFile content fileName = Some v ->
  addChildToSelectedNode now (selectNode ident v) = Some v' \/
  deleteSelectedNode (selectNode ident v) = Some v' ->
  undo v' = Some v'.
Proof.
  intros Hload Hchange. apply undo_at_bottom.
  destruct (loadFile_cases content fileName) as (parsed & v0 & _ & El & _ & _ & _ & Hh & Hi & _).
  assert (v0 = v) by congruence. subst v0.
  assert (Hstart : forall v1, saveToHistory (selectNode ident v) = Some v1 ->
            (historyIndex v1 <= 0)%Z).
  { intros v1 E. destruct (saveToHistory_index _ _ E) as (_ & _ & H & _); simpl;
      rewrite ?Hh, ?Hi; simpl; try lia. simpl in H. lia. }
  destruct Hchange as [Ha|Hd].
  - destruct (addChild_history _ _ _ Ha) as [[_ ->]|(v1 & E & _ & _ & ->)];
      [simpl; lia|now apply Hstart].
  - destruct (delete_history _ _ Hd) as [[_ ->]|(v1 & E & _ & _ & ->)];
      [simpl; lia|now apply Hstart].
Qed.

Lemma first_change_cannot_be_undone_witness : undo addedView = Some addedView.
Proof.
  apply (first_change_cannot_be_undone outlineText (lit "note") (lit "node-2")
           1700000000000 outlineView addedView).
  - vm_compute. reflexivity.
  - left. vm_compute. reflexivity.
Defined.

End History.

(** ** Other edits of the view *)

Section OtherEdits.

(** X15.  [addNode] on a view that shows a tree with a node selected adds a
    new leaf as last child of the selected node, as
    [addChildToSelectedNode] does, but takes no snapshot and leaves no node
    selected: a second [addNode] does nothing. *)
Theorem addNode_takes_no_snapshot (now now' : Z) (v : View) (t : ATree) (p : nat) :
  shows v t -> currentFile v = true -> getSelectedNode v = Some (Some p) ->
  exists pn v' n,
    store v !! p = Some pn /\ addNode now v = Some v' /\
    shows v' (graft p (ANode (length (store v)) []) t) /\
    store v' !! length (store v) = Some n /\ sameButXY (newChild p pn now) n /\
    (forall b m, b <> p -> store v !! b = Some m ->
       exists m', store v' !! b = Some m' /\ sameButXY m m') /\
    history v' = history v /\ historyIndex v' = historyIndex v /\
    selectedNodeId v' = None /\ addNode now' v' = Some v'.
Proof.
  intros Hshows Hf Hsel.
  destruct (getSelectedNode_in _ _ _ Hshows Hsel) as (Hp & pn & Hpn).
  pose proof Hshows as (Hd & Hcd & Ht & Hok & Hroot).
  destruct (attach_tree (store v) t p (newChild p pn now) Ht Hok Hp eq_refl eq_refl)
    as (Ht2 & Hok2 & Hperm & Hids).
  set (a := length (store v)) in *.
  set (h2 := pushChild p a (store v ++ [newChild p pn now])) in *.
  set (t2 := graft p (ANode a []) t) in *.
  assert (Hrt : rootOf t2 = rootOf t) by apply rootOf_graft.
  destruct (calculateNodePositions_spec h2 t2 Ht2) as (h' & El & HF & _).
  assert (Hrun : addNode now v = Some (renderMindmap (rootOf t) (withStore h' v))).
  { unfold addNode. rewrite Hf, Hd, Hsel. cbn [mbind option_bind]. rewrite Hpn.
    cbn [mbind option_bind]. fold a h2. rewrite <- Hrt, El. reflexivity. }
  assert (Ha : h2 !! a = Some (newChild p pn now)).
  { unfold h2, a. rewrite attach_at.
    destruct (Nat.eqb_spec (length (store v)) p) as [E|_].
    - apply lookup_lt_Some in Hpn. lia.
    - rewrite lookup_app_r, Nat.sub_diag by lia. reflexivity. }
  destruct (frame_lookup _ _ _ _ HF Ha) as (n & Hn & Hsame).
  exists pn, (renderMindmap (rootOf t) (withStore h' v)), n.
  split; [exact Hpn|]. split; [exact Hrun|]. split; [|split; [exact Hn|split; [exact Hsame|]]].
  - unfold shows. cbn [mindmapData canvasData store renderMindmap withStore]. rewrite Hrt.
    split; [exact Hd|]. split; [reflexivity|]. split; [eapply frame_isTree; eauto|].
    split; [eapply frame_parentOK; eauto|]. rewrite (frame_parentAt _ _ _ HF).
    unfold h2, a. rewrite attach_parentAt; [exact Hroot|].
    eapply repr_bound; [apply Ht|apply addrs_root].
  - split; [|split; [reflexivity|split; [reflexivity|split; [reflexivity|]]]].
    + intros b m Hb Hm. apply (frame_lookup _ _ _ _ HF). unfold h2, a. rewrite attach_at.
      destruct (Nat.eqb_spec b p); [contradiction|].
      rewrite (lookup_app_l_Some _ _ _ _ Hm). reflexivity.
    + unfold addNode. cbn [currentFile mindmapData renderMindmap withStore]. rewrite Hf, Hd.
      reflexivity.
Qed.

Lemma addNode_takes_no_snapshot_witness :
  exists pn v' n,
    store selectedView !! 2 = Some pn /\ addNode 1700000000000 selectedView = Some v' /\
    shows v' (graft 2 (ANode (length (store selectedView)) []) outlineShown) /\
    store v' !! length (store selectedView) = Some n /\
    sameButXY (newChild 2 pn 1700000000000) n /\
    (forall b m, b <> 2 -> store selectedView !! b = Some m ->
       exists m', store v' !! b = Some m' /\ sameButXY m m') /\
    history v' = history selectedView /\ historyIndex v' = historyIndex selectedView /\
    selectedNodeId v' = None /\ addNode 1700000000001 v' = Some v'.
Proof.
  apply (addNode_takes_no_snapshot 1700000000000 1700000000001 selectedView outlineShown 2).
  - apply shownTree_shows. reflexivity.
  - reflexivity.
  - vm_compute. reflexivity.
Defined.

Lemma repr_children h h' t :
  (forall a n, h !! a = Some n -> exists n', h' !! a = Some n' /\ children n' = children n) ->
  repr h t -> repr h' t.
Proof.
  intros H Hr. eapply repr_ext; [|exact Hr]. intros a Ha.
  pose proof (repr_bound _ _ _ Hr Ha) as Hlt. apply lookup_lt_is_Some in Hlt as [n Hn].
  destruct (H a n Hn) as (n' & Hn' & Hc). rewrite Hn, Hn'. simpl. now rewrite Hc.
Qed.

(** X16.  [toggleNodeCollapse] does nothing on a node without children.
    On another node of the displayed tree it flips [collapsed] on that node
    and runs the layout: the tree, the identifiers, texts, levels and
    references stay as they are, no snapshot is taken, and no node is
    selected afterwards. *)
Theorem toggle_flips_collapsed_only (v : View) (t : ATree) (a : nat) :
  shows v t -> a ∈ addrs t ->
  exists n v',
    store v !! a = Some n /\ toggleNodeCollapse a v = Some v' /\
    (children n = [] -> v' = v) /\
    (children n <> [] ->
       shows v' t /\ selectedNodeId v' = None /\
       history v' = history v /\ historyIndex v' = historyIndex v /\
       forall b m, store v !! b = Some m ->
         exists m', store v' !! b = Some m' /\
           sameButXY (if b =? a then setCollapsed (Some (negb (isCollapsed m))) m else m) m').
Proof.
  intros Hshows Ha. pose proof Hshows as (Hd & Hcd & Ht & Hok & Hroot).
  pose proof (repr_bound _ _ _ (proj1 Ht) Ha) as Hlt.
  apply lookup_lt_is_Some in Hlt as [n Hn].
  unfold toggleNodeCollapse. rewrite Hn. cbn [mbind option_bind].
  destruct (children n) as [|c0 cs0] eqn:Hc.
  { exists n, v. split; [reflexivity|]. split; [reflexivity|]. split; [reflexivity|congruence]. }
  set (h1 := alter (fun m => setCollapsed (Some (negb (isCollapsed m))) m) a (store v)).
  assert (Hlook : forall b m, store v !! b = Some m ->
            h1 !! b = Some (if b =? a then setCollapsed (Some (negb (isCollapsed m))) m else m)).
  { intros b m Hm. unfold h1. rewrite lookup_alter_if, Hm. now destruct (b =? a). }
  assert (Ht1 : isTree h1 t).
  { split; [|apply Ht]. eapply repr_children; [|apply Ht]. intros b m Hm.
    rewrite (Hlook b m Hm). eexists. split; [reflexivity|]. now destruct (b =? a). }
  assert (Hpar : forall b, parentAt h1 b = parentAt (store v) b).
  { intros b. unfold parentAt. destruct (store v !! b) as [m|] eqn:Hm.
    - rewrite (Hlook b m Hm). simpl. now destruct (b =? a).
    - unfold h1. rewrite lookup_alter_if, Hm. reflexivity. }
  destruct (recalculateAndRender_spec (withStore h1 v) t) as (h' & El & HF & Hrun);
    [exact Hd|exact Ht1|].
  cbn [store withStore] in El, HF.
  exists n, (renderMindmap (rootOf t) (withStore h' v)).
  split; [reflexivity|]. split.
  { rewrite Hrun. reflexivity. }
  split; [intros E; congruence|]. intros _.
  split; [|split; [reflexivity|split; [reflexivity|split; [reflexivity|]]]].
  - unfold shows. cbn [mindmapData canvasData store renderMindmap withStore].
    split; [exact Hd|]. split; [reflexivity|]. split; [eapply frame_isTree; eauto|].
    split.
    + eapply frame_parentOK; [exact HF|]. eapply parentOK_keeps; [|exact Hok].
      intros b _. apply Hpar.
    + now rewrite (frame_parentAt _ _ _ HF), Hpar.
  - intros b m Hm. apply (frame_lookup _ _ _ _ HF). now apply Hlook.
Qed.

Lemma toggle_flips_collapsed_only_witness :
  exists n v',
    store outlineView !! 2 = Some n /\ toggleNodeCollapse 2 outlineView = Some v' /\
    (children n = [] -> v' = outlineView) /\
    (children n <> [] ->
       shows v' outlineShown /\ selectedNodeId v' = None /\
       history v' = history outlineView /\ historyIndex v' = historyIndex outlineView /\
       forall b m, store outlineView !! b = Some m ->
         exists m', store v' !! b = Some m' /\
           sameButXY (if b =? 2 then setCollapsed (Some (negb (isCollapsed m))) m else m) m').
Proof.
  apply (toggle_flips_collapsed_only outlineView outlineShown 2).
  - apply shownTree_shows. reflexivity.
  - apply list_elem_of_In. simpl. auto.
Defined.

End OtherEdits.

(** ** Deleting the selected node *)

Section Delete.

(** X17.  [deleteSelectedNode] on a view of a file that shows a tree with a
    node selected: the root is not deleted.  Any other node is removed from
    the children of its parent after a snapshot is taken; the tree loses
    the subtree of the node and nothing else, the other nodes change in
    their coordinates only, and the parent is selected afterwards, or the
    first child of the root when the parent is named [root]. *)
Theorem delete_removes_selected_subtree (v : View) (t : ATree) (c : nat) :
  shows v t -> currentFile v = true -> getSelectedNode v = Some (Some c) ->
  (c = rootOf t -> deleteSelectedNode v = Some v) /\
  (c <> rootOf t ->
   exists q l s v1 v',
     parentAt (store v) c = Some q /\ pathDown t l s /\ rootOf s = c /\
     saveToHistory v = Some v1 /\ deleteSelectedNode v = Some v' /\
     shows v' (prune c t) /\ addrs t ≡ₚ addrs (prune c t) ++ addrs s /\
     history v' = history v1 /\ historyIndex v' = historyIndex v1 /\
     (forall a n, store v !! a = Some n ->
        exists n', store v' !! a = Some n' /\
          sameButXY (if a =? q then setChildren (removeFirst c (children n)) n else n) n') /\
     selectedNodeId v'
     = (if decide (idAt (store v) q = lit "root")
        then idAt (store v') <$> head (map rootOf (kids (prune c t)))
        else Some (idAt (store v) q))).
Proof.
  intros Hshows Hf Hsel.
  destruct (getSelectedNode_in _ _ _ Hshows Hsel) as (Hc & sn & Hsn).
  pose proof Hshows as (Hd & Hcd & Ht & Hok & Hroot).
  split.
  - intros ->. unfold deleteSelectedNode. rewrite Hf, Hd, Hsel. cbn [mbind option_bind].
    rewrite Hsn. cbn [mbind option_bind]. unfold parentAt in Hroot. rewrite Hsn in Hroot.
    simpl in Hroot. now rewrite Hroot.
  - intros Hne.
    destruct (pathDown_exists t c Hc) as (l & s & Hp & Hs).
    assert (Hl : l <> []).
    { intros ->. apply pathDown_nil in Hp; [|reflexivity]. subst s. congruence. }
    destruct (pathDown_snoc _ _ _ Hp Hl) as (l' & sq & _ & Hp' & Hk).
    pose proof (parentOK_kid (store v) sq s (pathDown_parentOK _ _ _ _ Hp' Hok) Hk) as Hq.
    rewrite Hs in Hq. set (q := rootOf sq) in *.
    assert (Hqsn : parent sn = Some q).
    { unfold parentAt in Hq. rewrite Hsn in Hq. exact Hq. }
    destruct (saveToHistory_runs v t Hshows)
      as (ext & t' & v1 & E & Hs1 & Hlen & Hd1 & Hcd1 & _).
    pose proof (shows_app _ _ _ _ Hshows Hs1 Hd1 Hcd1) as (_ & _ & Ht1 & Hok1 & Hroot1).
    assert (Hq1 : parentAt (store v1) c = Some q).
    { unfold parentAt. rewrite Hs1, (lookup_app_l_Some _ _ _ _ Hsn). exact Hqsn. }
    destruct (cut_tree (store v1) t c q Ht1 Hok1 Hroot1 Hc Hq1)
      as (Ht2 & Hok2 & Hqin & Hsub & _).
    set (h2 := detach q c (store v1)) in *. set (t2 := prune c t) in *.
    assert (Hrt : rootOf t2 = rootOf t) by apply rootOf_prune.
    destruct (calculateNodePositions_spec h2 t2 Ht2) as (h' & El & HF & _).
    rewrite Hrt in El.
    set (v2 := renderMindmap (rootOf t) (withStore h' v1)).
    assert (Hshows2 : forall ident, shows (selectNode ident v2) t2 /\ shows v2 t2).
    { intros ident. assert (Hs2 : shows v2 t2).
      { unfold shows. cbn [mindmapData canvasData store v2 renderMindmap withStore].
        rewrite Hrt. split; [now rewrite Hd1|]. split; [reflexivity|].
        split; [eapply frame_isTree; eauto|]. split; [eapply frame_parentOK; eauto|].
        rewrite (frame_parentAt _ _ _ HF). unfold h2. now rewrite detach_parentAt. }
      split; [exact Hs2|exact Hs2]. }
    assert (Hold : forall a n, store v !! a = Some n ->
              exists n', h' !! a = Some n' /\
                sameButXY (if a =? q then setChildren (removeFirst c (children n)) n else n) n').
    { intros a n Hn. apply (frame_lookup _ _ _ _ HF). unfold h2. rewrite detach_lookup, Hs1.
      rewrite (lookup_app_l_Some _ _ _ _ Hn). simpl. now destruct (a =? q). }
    assert (Hid : forall a, a < length (store v) -> idAt h' a = idAt (store v) a).
    { intros a Ha. rewrite (frame_idAt _ _ _ HF). unfold h2. rewrite detach_idAt.
      unfold idAt. rewrite Hs1, lookup_app_l by exact Ha. reflexivity. }
    assert (Hqlt : q < length (store v)).
    { eapply repr_bound; [apply Ht|exact Hqin]. }
    destruct (lookup_lt_is_Some_2 _ _ Hqlt) as [qn Hqn].
    destruct (Hold q qn Hqn) as (pnode & Hpnode & _).
    assert (Hidq : id pnode = idAt (store v) q).
    { rewrite <- (Hid q Hqlt). unfold idAt. now rewrite Hpnode. }
    destruct (repr_root h' t2) as (root & Hrootn & Hkids).
    { eapply frame_repr; [exact HF|apply Ht2]. }
    rewrite Hrt in Hrootn.
    assert (Hrun : deleteSelectedNode v
              = Some (match (if decide (idAt (store v) q = lit "root")
                             then idAt h' <$> head (map rootOf (kids t2))
                             else Some (idAt (store v) q)) with
                      | Some ident => selectNode ident v2
                      | None => v2
                      end)).
    { unfold deleteSelectedNode. rewrite Hf, Hd, Hsel. cbn [mbind option_bind].
      rewrite Hsn. cbn [mbind option_bind]. rewrite Hqsn, E. cbn [mbind option_bind].
      fold h2. rewrite El. cbn [mbind option_bind]. rewrite Hpnode. cbn [mbind option_bind].
      rewrite Hidq. destruct (decide (idAt (store v) q = lit "root")); [|reflexivity].
      rewrite Hrootn. cbn [mbind option_bind]. rewrite Hkids.
      destruct (map rootOf (kids t2)) as [|centerNode rest] eqn:Ek; [reflexivity|].
      assert (Hcn : centerNode < length h').
      { eapply (repr_bound h' t2); [eapply frame_repr; [exact HF|apply Ht2]|].
        apply kids_in_addrs. apply elem_of_flat_map_addrs.
        destruct (kids t2) as [|k ks] eqn:Ekk; [discriminate|]. injection Ek as <- _.
        exists k. split; [apply elem_of_cons; now left|apply addrs_root]. }
      destruct (lookup_lt_is_Some_2 _ _ Hcn) as [cnode Hcnode].
      rewrite Hcnode. cbn [mbind option_bind head fmap option_fmap option_map].
      unfold idAt at 1. rewrite Hcnode. reflexivity. }
    exists q, l, s, v1.
    eexists. split; [exact Hq|]. split; [exact Hp|]. split; [exact Hs|]. split; [exact E|].
    split; [exact Hrun|].
    assert (Hperm : addrs t ≡ₚ addrs t2 ++ addrs s).
    { unfold t2. rewrite <- Hs. apply (addrs_prune t l s Hp Hl). apply Ht. }
    destruct (if decide (idAt (store v) q = lit "root")
              then idAt h' <$> head (map rootOf (kids t2))
              else Some (idAt (store v) q)) as [ident|] eqn:Eident.
    + split; [apply (Hshows2 ident)|]. split; [exact Hperm|].
      split; [reflexivity|]. split; [reflexivity|]. split; [exact Hold|].
      cbn [selectedNodeId selectNode store v2 renderMindmap withStore].
      now rewrite Eident.
    + split; [apply (Hshows2 [])|]. split; [exact Hperm|].
      split; [reflexivity|]. split; [reflexivity|]. split; [exact Hold|].
      cbn [selectedNodeId store v2 renderMindmap withStore]. now rewrite Eident.
Qed.

Lemma delete_removes_selected_subtree_witness :
  (2 = rootOf outlineShown -> deleteSelectedNode selectedView = Some selectedView) /\
  (2 <> rootOf outlineShown ->
   exists q l s v1 v',
     parentAt (store selectedView) 2 = Some q /\ pathDown outlineShown l s /\ rootOf s = 2 /\
     saveToHistory selectedView = Some v1 /\ deleteSelectedNode selectedView = Some v' /\
     shows v' (prune 2 outlineShown) /\
     addrs outlineShown ≡ₚ addrs (prune 2 outlineShown) ++ addrs s /\
     history v' = history v1 /\ historyIndex v' = historyIndex v1 /\
     (forall a n, store selectedView !! a = Some n ->
        exists n', store v' !! a = Some n' /\
          sameButXY (if a =? q then setChildren (removeFirst 2 (children n)) n else n) n') /\
     selectedNodeId v'
     = (if decide (idAt (store selectedView) q = lit "root")
        then idAt (store v') <$> head (map rootOf (kids (prune 2 outlineShown)))
        else Some (idAt (store selectedView) q))).
Proof.
  apply (delete_removes_selected_subtree selectedView outlineShown 2).
  - apply shownTree_shows. reflexivity.
  - reflexivity.
  - vm_compute. reflexivity.
Defined.

End Delete.

(** ** Where the layout puts the nodes *)

Section Columns.

Lemma columns_ext h h' dir t :
  (forall a, a ∈ addrs t -> h' !! a = h !! a) ->
  forall lvl, columns h dir lvl t -> columns h' dir lvl t.
Proof.
  induction t as [a cs IH] using ATree_ind'. intros Hagree lvl Hc.
  inversion Hc as [lvl' a' cs' px Hpx Hkids Hrec]; subst.
  rewrite Forall_forall in IH, Hkids, Hrec.
  apply columns_node with px.
  - unfold xAt in *. rewrite Hagree; [exact Hpx|apply (addrs_root (ANode a cs))].
  - apply Forall_forall. intros c Hin. unfold xAt in *.
    rewrite Hagree; [now apply Hkids|]. eapply addrs_child; [exact Hin|apply addrs_root].
  - apply Forall_forall. intros c Hin. apply IH; auto.
    intros b Hb. apply Hagree. eapply addrs_child; eauto.
Qed.

Lemma place_then_columns fuel c h dir lvl vx vy h2 :
  columnsOk fuel -> isTree h c -> height c <= fuel ->
  arrangeHorizontalSubtree fuel (place (rootOf c) vx vy h) (rootOf c) dir lvl = Some h2 ->
  xAt h2 (rootOf c) = Some vx /\ yAt h2 (rootOf c) = Some vy /\
  columns h2 dir lvl c /\ Forall2 sameButXY h h2 /\
  (forall a, a ∉ addrs c -> h2 !! a = h !! a).
Proof.
  intros IH Ht Hh E.
  destruct (place_then_arrange fuel c h dir lvl vx vy (arrangeOk_all fuel) Ht Hh)
    as (n & h2' & Hn & E' & HF & Hfoot & Hroot & _).
  rewrite E in E'. injection E' as <-.
  split; [unfold xAt; now rewrite Hroot|]. split; [unfold yAt; now rewrite Hroot|].
  split; [|split; [exact HF|exact Hfoot]].
  apply (IH c (place (rootOf c) vx vy h) dir lvl h2); auto.
  - destruct Ht as [Hr Hnd]. split; [|exact Hnd].
    eapply frame_repr; [apply Forall2_sameButXY_place|exact Hr].
  - unfold xAt. rewrite (place_lookup_eq _ _ _ _ _ Hn). simpl. eauto.
Qed.

Lemma placeChildren_columns fuel dir lvl baseX (g : ATree -> Z) :
  columnsOk fuel ->
  forall cs h top h',
    Forall (repr h) cs -> NoDup (flat_map addrs cs) ->
    Forall (fun c => height c <= fuel) cs ->
    placeChildren
      (fun h' child => arrangeHorizontalSubtree fuel h' child dir (lvl + 1)%Z) baseX h
      (zip (map rootOf cs) (map g cs)) top = Some h' ->
    Forall (fun c => xAt h' (rootOf c) = Some baseX) cs /\
    Forall (columns h' dir (lvl + 1)%Z) cs /\
    (forall a, a ∉ flat_map addrs cs -> h' !! a = h !! a).
Proof.
  intros IH. induction cs as [|c cs IHcs]; intros h top h' Hr Hnd Hh E.
  - simpl in E. injection E as <-. repeat split; auto.
  - apply Forall_cons in Hr as [Hrc Hrcs]. apply Forall_cons in Hh as [Hhc Hhcs].
    apply NoDup_flat_map_cons in Hnd as (Hndc & Hndcs & Hdisj).
    simpl in E.
    destruct (arrangeHorizontalSubtree fuel _ (rootOf c) dir (lvl + 1)%Z) as [h2|] eqn:E2;
      cbn [mbind option_bind] in E; [|discriminate].
    destruct (place_then_columns fuel c h dir (lvl + 1)%Z _ _ h2 IH (conj Hrc Hndc) Hhc E2)
      as (Hx & _ & Hcol & HF & Hfoot).
    destruct (IHcs h2 (top + inject_Z (g c))%Q h') as (Hxs & Hcols & Hfoot'); auto.
    { eapply Forall_impl; [exact Hrcs|]. intros t. now apply frame_repr. }
    assert (Hagree : forall a, a ∈ addrs c -> h' !! a = h2 !! a).
    { intros a Ha. apply Hfoot'. now apply Hdisj. }
    split; [|split].
    + constructor; [|exact Hxs]. unfold xAt in *. rewrite Hagree; [exact Hx|apply addrs_root].
    + constructor; [|exact Hcols]. eapply columns_ext; [exact Hagree|exact Hcol].
    + intros a Ha. rewrite Hfoot', Hfoot; [reflexivity| |].
      * intros Hin. apply Ha. apply elem_of_app. now left.
      * intros Hin. apply Ha. apply elem_of_app. now right.
Qed.

Lemma columnsOk_all fuel : columnsOk fuel.
Proof.
  induction fuel as [|fuel IH]; intros [a cs] h dir lvl h' [Hr Hnd] Hh [px Hpx] E.
  { simpl in Hh. lia. }
  pose proof Hr as Hr'. apply repr_inv in Hr' as (n & Hn & Hc & Hcs).
  simpl rootOf in *. rewrite arrangeHorizontalSubtree_eq, Hn in E.
  cbn [mbind option_bind] in E.
  unfold xAt in Hpx. rewrite Hn in Hpx. simpl in Hpx.
  destruct cs as [|c cs].
  { rewrite Hc in E. simpl in E. injection E as <-.
    apply columns_node with px; [unfold xAt; now rewrite Hn|constructor|constructor]. }
  rewrite Hc in E. change (map rootOf (c :: cs)) with (rootOf c :: map rootOf cs) in E.
  cbv beta iota in E. change (rootOf c :: map rootOf cs) with (map rootOf (c :: cs)) in E.
  rewrite Hpx in E. cbn [mbind option_bind] in E.
  destruct (y n) as [py|]; cbn [mbind option_bind] in E; [|discriminate].
  assert (Hkh : Forall (fun k => height k <= fuel) (c :: cs)).
  { eapply Forall_impl; [apply height_kids|]. intros k Hk. simpl in Hh, Hk. lia. }
  rewrite (mapM_map_Some _ rootOf (fun k => subtreeHeight h k (lvl + 1)%Z)) in E.
  2:{ rewrite Forall_forall in Hcs, Hkh. apply Forall_forall. intros k Hk.
      apply calculateSubtreeHeight_spec; auto. }
  cbn [mbind option_bind] in E.
  apply NoDup_cons in Hnd as [Hroot Hndk].
  destruct (placeChildren_columns fuel dir lvl _ _ IH (c :: cs) h _ h' Hcs Hndk Hkh E)
    as (Hxs & Hcols & Hfoot).
  apply columns_node with px; [|exact Hxs|exact Hcols].
  unfold xAt. rewrite Hfoot by exact Hroot. now rewrite Hn.
Qed.

Lemma placeBranches_columns fuel dir vx cy count :
  forall bs h i h',
    Forall (repr h) bs -> NoDup (flat_map addrs bs) ->
    Forall (fun b => height b <= fuel) bs ->
    placeBranches fuel dir vx cy count h (map rootOf bs) i = Some h' ->
    (forall j b, bs !! j = Some b ->
       xAt h' (rootOf b) = Some vx /\
       yAt h' (rootOf b)
       = Some (cy + (inject_Z (Z.of_nat (i + j)) - (inject_Z (Z.of_nat count) - 1) / 2) * 100)%Q /\
       columns h' dir 0 b) /\
    Forall2 sameButXY h h' /\
    (forall a, a ∉ flat_map addrs bs -> h' !! a = h !! a).
Proof.
  induction bs as [|b bs IH]; intros h i h' Hr Hnd Hh E.
  - simpl in E. injection E as <-. split; [intros j b [=]|].
    split; [apply Forall2_sameButXY_refl|auto].
  - apply Forall_cons in Hr as [Hrb Hrbs]. apply Forall_cons in Hh as [Hhb Hhbs].
    apply NoDup_flat_map_cons in Hnd as (Hndb & Hndbs & Hdisj).
    simpl in E.
    destruct (arrangeHorizontalSubtree fuel _ (rootOf b) dir 0) as [h2|] eqn:E2;
      cbn [mbind option_bind] in E; [|discriminate].
    destruct (place_then_columns fuel b h dir 0 _ _ h2 (columnsOk_all fuel)
                (conj Hrb Hndb) Hhb E2) as (Hx & Hy & Hcol & HF & Hfoot).
    destruct (IH h2 (S i) h') as (Hrest & HF' & Hfoot'); auto.
    { eapply Forall_impl; [exact Hrbs|]. intros t. now apply frame_repr. }
    assert (Hagree : forall a, a ∈ addrs b -> h' !! a = h2 !! a).
    { intros a Ha. apply Hfoot'. now apply Hdisj. }
    split; [|split].
    + intros [|j] b' Hb'.
      * simpl in Hb'. injection Hb' as <-. rewrite Nat.add_0_r.
        unfold xAt, yAt in *. rewrite Hagree by apply addrs_root.
        split; [exact Hx|]. split; [exact Hy|].
        eapply columns_ext; [exact Hagree|exact Hcol].
      * simpl in Hb'. replace (i + S j) with (S i + j) by lia. now apply Hrest.
    + eapply Forall2_sameButXY_trans; eauto.
    + intros a Ha. rewrite Hfoot', Hfoot; [reflexivity| |].
      * intros Hin. apply Ha. apply elem_of_app. now left.
      * intros Hin. apply Ha. apply elem_of_app. now right.
Qed.

(** X18.  On a tree whose root has children, [calculateNodePositions]
    returns, puts the first child of the root at (600, 400) and changes no
    object outside the subtree of that child: the root and the other
    children of the root, with what is under them, keep the coordinates
    they had.  The first half of the children of the centre, rounded up,
    stand at [x] 900 and the others at 300, 100 apart in [y] around 400, and
    under them every child stands one column further from the centre than
    its parent. *)
Theorem layout_places_centre_subtree_in_columns (h : list Node) (t : ATree)
    (c : nat) (bs rest : list ATree) :
  isTree h t -> kids t = ANode c bs :: rest ->
  exists h',
    calculateNodePositions h (rootOf t) = Some h' /\
    xAt h' c = Some 600%Q /\ yAt h' c = Some 400%Q /\
    (forall a, a ∉ addrs (ANode c bs) -> h' !! a = h !! a) /\
    let rightCount := (length bs + 1) / 2 in
    forall j b, bs !! j = Some b ->
      if j <? rightCount then
        xAt h' (rootOf b) = Some (600 + 300)%Q /\
        yAt h' (rootOf b)
        = Some (400 + (inject_Z (Z.of_nat j)
                       - (inject_Z (Z.of_nat rightCount) - 1) / 2) * 100)%Q /\
        columns h' dirRight 0 b
      else
        xAt h' (rootOf b) = Some (600 - 300)%Q /\
        yAt h' (rootOf b)
        = Some (400 + (inject_Z (Z.of_nat (j - rightCount))
                       - (inject_Z (Z.of_nat (length bs - rightCount)) - 1) / 2) * 100)%Q /\
        columns h' dirLeft 0 b.
Proof.
  intros Ht Hk. pose proof (isTree_height _ _ Ht) as Hh. destruct Ht as [Hr Hnd].
  destruct t as [r cs]. simpl in Hk. subst cs.
  apply repr_inv in Hr as (n & Hn & Hc & Hcs).
  apply Forall_cons in Hcs as [Hrc _].
  assert (Hndc : NoDup (addrs (ANode c bs))).
  { eapply (NoDup_child r (ANode c bs :: rest)); [|exact Hnd]. apply elem_of_cons. now left. }
  assert (Hhc : height (ANode c bs) <= S (length h)).
  { pose proof (height_child r (ANode c bs :: rest) (ANode c bs)) as Hlt.
    assert (Hin : ANode c bs ∈ ANode c bs :: rest) by (apply elem_of_cons; now left).
    specialize (Hlt Hin). lia. }
  simpl rootOf. unfold calculateNodePositions. rewrite Hn. cbn [mbind option_bind].
  rewrite Hc. simpl map. cbv beta iota.
  set (h1 := place c 600 400 h).
  assert (HF1 : Forall2 sameButXY h h1) by apply Forall2_sameButXY_place.
  pose proof (frame_repr _ _ _ HF1 Hrc) as Hrc1.
  apply repr_inv in Hrc1 as (cn & Hcn & Hcc & Hbs).
  assert (Hcn1 : exists cn0, h !! c = Some cn0 /\ cn = setXY (Some 600%Q) (Some 400%Q) cn0).
  { apply repr_inv in Hrc as (cn0 & Hcn0 & _). exists cn0. split; [exact Hcn0|].
    unfold h1 in Hcn. rewrite (place_lookup_eq _ _ _ _ _ Hcn0) in Hcn. congruence. }
  destruct Hcn1 as (cn0 & Hcn0 & ->).
  assert (Hkh : Forall (fun k => height k <= length h) bs).
  { eapply Forall_impl; [apply height_kids|]. intros k Hkk. simpl in Hhc, Hkk. lia. }
  apply root_not_in_kids in Hndc as Hroot. simpl in Hndc. apply NoDup_cons in Hndc as [_ Hndb].
  unfold arrangeHorizontalTree. rewrite Hcn. cbn [mbind option_bind].
  destruct bs as [|b0 bs'] eqn:Ebs.
  { rewrite Hcc. simpl. exists h1. split; [reflexivity|].
    split; [unfold xAt; now rewrite Hcn|]. split; [unfold yAt; now rewrite Hcn|].
    split; [|intros j b [=]].
    intros a Ha. apply place_lookup_ne. intros <-. apply Ha. apply elem_of_cons. now left. }
  rewrite <- Ebs in *. rewrite Hcc.
  assert (Hne : map rootOf bs <> []) by (rewrite Ebs; discriminate).
  destruct (map rootOf bs) as [|r0 rs] eqn:Em; [congruence|]. rewrite <- Em. clear Hne.
  rewrite length_map. set (rc := (length bs + 1) / 2).
  rewrite (flat_map_take_drop bs rc) in Hndb.
  apply NoDup_app in Hndb as (Hnd1 & Hdisj & Hnd2).
  destruct (Forall_take_drop _ _ rc Hbs) as [Hbs1 Hbs2].
  destruct (Forall_take_drop _ _ rc Hkh) as [Hkh1 Hkh2].
  rewrite map_take, map_drop.
  destruct (placeBranches_spec (length h) dirRight (600 + 300)%Q 400 rc (take rc bs) h1 0)
    as (h2 & E1 & HF2 & _ & _); auto.
  rewrite E1. cbn [mbind option_bind].
  destruct (placeBranches_columns _ _ _ _ _ _ _ _ _ Hbs1 Hnd1 Hkh1 E1) as (Hright & _ & Hfoot1).
  destruct (placeBranches_spec (length h) dirLeft (600 - 300)%Q 400 (length bs - rc)
              (drop rc bs) h2 0) as (h3 & E2 & HF3 & _ & _); auto.
  { eapply Forall_impl; [exact Hbs2|]. intros k. now apply frame_repr. }
  assert (Hbs2' : Forall (repr h2) (drop rc bs)).
  { eapply Forall_impl; [exact Hbs2|]. intros k. now apply frame_repr. }
  destruct (placeBranches_columns _ _ _ _ _ _ _ _ _ Hbs2' Hnd2 Hkh2 E2) as (Hleft & _ & Hfoot2).
  assert (Hout : forall a, a ∉ flat_map addrs bs -> h3 !! a = h1 !! a).
  { intros a Ha. rewrite (flat_map_take_drop bs rc) in Ha.
    rewrite Hfoot2, Hfoot1; [reflexivity| |].
    - intros Hin. apply Ha. apply elem_of_app. now left.
    - intros Hin. apply Ha. apply elem_of_app. now right. }
  exists h3. split; [exact E2|].
  split; [unfold xAt; rewrite Hout by exact Hroot; now rewrite Hcn|].
  split; [unfold yAt; rewrite Hout by exact Hroot; now rewrite Hcn|].
  split.
  - intros a Ha. rewrite Hout.
    + apply place_lookup_ne. intros <-. apply Ha. apply elem_of_cons. now left.
    + intros Hin. apply Ha. apply elem_of_cons. now right.
  - cbv zeta. fold rc. intros j b Hb.
    assert (Hrcle : rc <= length bs).
    { assert (0 < length bs) by (rewrite Ebs; simpl; lia).
      unfold rc. apply Nat.Div0.div_le_upper_bound. lia. }
    destruct (Nat.ltb_spec j rc) as [Hlt|Hge].
    + assert (Hb1 : take rc bs !! j = Some b) by (rewrite lookup_take_lt by lia; exact Hb).
      destruct (Hright j b Hb1) as (Hx & Hy & Hcol).
      assert (Hagree : forall a, a ∈ addrs b -> h3 !! a = h2 !! a).
      { intros a Ha. apply Hfoot2. apply Hdisj.
        apply elem_of_flat_map_addrs. exists b. split; [|exact Ha].
        eapply list_elem_of_lookup_2; exact Hb1. }
      unfold xAt, yAt in *. rewrite Hagree by apply addrs_root.
      split; [exact Hx|]. split; [exact Hy|].
      eapply columns_ext; [exact Hagree|exact Hcol].
    + assert (Hb2 : drop rc bs !! (j - rc) = Some b).
      { rewrite lookup_drop. replace (rc + (j - rc)) with j by lia. exact Hb. }
      destruct (Hleft (j - rc) b Hb2) as (Hx & Hy & Hcol).
      split; [exact Hx|]. split; [exact Hy|exact Hcol].
Qed.

Lemma layout_places_centre_subtree_in_columns_witness :
  exists h',
    calculateNodePositions (store twoTopView) (rootOf twoTopShown) = Some h' /\
    xAt h' 1 = Some 600%Q /\ yAt h' 1 = Some 400%Q /\
    (forall a, a ∉ addrs (ANode 1 [ANode 2 []; ANode 3 []; ANode 4 []]) ->
       h' !! a = store twoTopView !! a) /\
    let rightCount := (length [ANode 2 []; ANode 3 []; ANode 4 []] + 1) / 2 in
    forall j b, [ANode 2 []; ANode 3 []; ANode 4 []] !! j = Some b ->
      if j <? rightCount then
        xAt h' (rootOf b) = Some (600 + 300)%Q /\
        yAt h' (rootOf b)
        = Some (400 + (inject_Z (Z.of_nat j)
                       - (inject_Z (Z.of_nat rightCount) - 1) / 2) * 100)%Q /\
        columns h' dirRight 0 b
      else
        xAt h' (rootOf b) = Some (600 - 300)%Q /\
        yAt h' (rootOf b)
        = Some (400 + (inject_Z (Z.of_nat (j - rightCount))
                       - (inject_Z (Z.of_nat (length [ANode 2 []; ANode 3 []; ANode 4 []]
                                              - rightCount)) - 1) / 2) * 100)%Q /\
        columns h' dirLeft 0 b.
Proof.
  apply (layout_places_centre_subtree_in_columns (store twoTopView) twoTopShown 1
           [ANode 2 []; ANode 3 []; ANode 4 []] [ANode 5 [ANode 6 []]]).
  - apply (shownTree_shows twoTopView twoTopShown). reflexivity.
  - reflexivity.
Defined.

End Columns.

(** ** Snapshots are copies *)

Section Snapshots.

Lemma renumber_eq base a cs :
  renumber base (ANode a cs) = ANode base (renumberList (S base) cs).
Proof. reflexivity. Qed.

Lemma rootOf_renumber base t : rootOf (renumber base t) = base.
Proof. destruct t. now rewrite renumber_eq. Qed.

Lemma map_rootOf_renumberList (cs : list ATree) : forall b,
  length (renumberList b cs) = length cs.
Proof. induction cs as [|c cs IH]; intros b; simpl; [reflexivity|]. now rewrite IH. Qed.

Lemma addrs_renumber t : forall base,
  addrs (renumber base t) = seq base (length (addrs t)).
Proof.
  induction t as [a cs IH] using ATree_ind'. intros base. rewrite renumber_eq. simpl.
  f_equal. generalize (S base). induction cs as [|c cs IHcs]; intros b; [reflexivity|].
  apply Forall_cons in IH as [IHc IHrest]. simpl.
  rewrite IHc, (IHcs IHrest), length_app, seq_app. reflexivity.
Qed.

Lemma addrs_renumberList (cs : list ATree) : forall b,
  flat_map addrs (renumberList b cs) = seq b (length (flat_map addrs cs)).
Proof.
  induction cs as [|c cs IH]; intros b; [reflexivity|]. simpl.
  rewrite addrs_renumber, IH, length_app, seq_app. reflexivity.
Qed.

Lemma copyChildren_shape fuel (cs : list ATree) :
  Forall (copyShape fuel) cs -> Forall (fun c => height c <= fuel) cs ->
  forall h, Forall (repr h) cs ->
  exists ext,
    copyChildren (createCleanCopy fuel) h (map rootOf cs)
    = Some (h ++ ext, map rootOf (renumberList (length h) cs)) /\
    length ext = length (flat_map addrs cs) /\
    Forall (repr (h ++ ext)) (renumberList (length h) cs) /\
    map (content (h ++ ext)) (renumberList (length h) cs) = map (content h) cs.
Proof.
  induction cs as [|c cs IH]; intros Hok Hh h Hr.
  - exists []. simpl. rewrite app_nil_r. repeat split; constructor.
  - apply Forall_cons in Hok, Hh, Hr.
    destruct Hok as [Hokc Hokcs], Hh as [Hhc Hhcs], Hr as [Hrc Hrcs].
    destruct (Hokc h Hrc Hhc) as (e1 & E1 & Hl1 & Hr1 & Hc1).
    destruct (IH Hokcs Hhcs (h ++ e1)) as (e2 & E2 & Hl2 & Hr2 & Hc2).
    { eapply Forall_impl; [exact Hrcs|]. intros t. apply repr_app. }
    assert (Hlen1 : length (h ++ e1) = length h + length (addrs c))
      by (rewrite length_app; lia).
    rewrite Hlen1 in E2, Hr2, Hc2.
    exists (e1 ++ e2). simpl.
    rewrite E1. cbn [mbind option_bind]. rewrite E2. cbn [mbind option_bind].
    rewrite app_assoc, rootOf_renumber. split; [reflexivity|]. split; [|split].
    + rewrite !length_app. lia.
    + constructor; [now apply repr_app|exact Hr2].
    + f_equal.
      * rewrite <- Hc1. apply content_ext. intros a Ha.
        pose proof (repr_bound _ _ _ Hr1 Ha) as Hlt. now rewrite lookup_app_l.
      * rewrite Hc2. apply map_ext_in. intros k Hk. apply content_ext. intros a Ha.
        rewrite Forall_forall in Hrcs. apply list_elem_of_In in Hk.
        pose proof (repr_bound _ _ _ (Hrcs k Hk) Ha) as Hlt.
        now rewrite lookup_app_l.
Qed.

Lemma copyShape_all fuel : forall t, copyShape fuel t.
Proof.
  induction fuel as [|fuel IH]; intros [a cs] h Hr Hh; [simpl in Hh; lia|].
  pose proof Hr as Hr'. apply repr_inv in Hr'. destruct Hr' as (n & Hn & Hc & Hcs).
  simpl rootOf. rewrite createCleanCopy_eq, Hn. cbn [mbind option_bind]. rewrite Hc.
  destruct (copyChildren_shape fuel cs) with (h := h ++ [cleanOf n])
    as (ext & E & Hlen & Hrts & Hcont).
  { apply Forall_forall. intros c _. apply IH. }
  { eapply Forall_impl; [apply height_kids|]. intros k Hk. simpl in Hh, Hk. lia. }
  { eapply Forall_impl; [exact Hcs|]. intros t. apply repr_app. }
  rewrite E. cbn [mbind option_bind].
  rewrite length_app in E, Hrts, Hcont |- *. simpl length in *.
  rewrite Nat.add_1_r in *.
  rewrite <- app_assoc. cbn [app]. rewrite alter_at_end.
  set (ts := renumberList (S (length h)) cs) in *.
  set (root' := setChildren (map rootOf ts) (cleanOf n)).
  assert (Hats : flat_map addrs ts = seq (S (length h)) (length (flat_map addrs cs))).
  { apply addrs_renumberList. }
  assert (Hsame : forall b, b ∈ flat_map addrs ts ->
            (h ++ root' :: ext) !! b = ((h ++ [cleanOf n]) ++ ext) !! b).
  { intros b Hb. rewrite Hats in Hb. apply elem_of_seq in Hb.
    rewrite <- !app_assoc. simpl. rewrite !lookup_app_r by lia.
    destruct (b - length h) as [|m] eqn:Em; [lia|reflexivity]. }
  exists (root' :: ext). split; [reflexivity|]. split; [simpl; now rewrite Hlen|].
  rewrite renumber_eq. fold ts. split.
  - apply repr_node with root'.
    + rewrite lookup_app_r, Nat.sub_diag by lia. reflexivity.
    + reflexivity.
    + apply Forall_forall. intros t' Ht'. rewrite Forall_forall in Hrts.
      eapply repr_ext; [|apply Hrts; exact Ht']. intros b Hb.
      rewrite Hsame; [reflexivity|]. apply elem_of_flat_map_addrs. eauto.
  - cbn [content]. f_equal.
    + unfold typeAt. rewrite lookup_app_r, Nat.sub_diag, Hn by lia. reflexivity.
    + unfold levelAt. rewrite lookup_app_r, Nat.sub_diag, Hn by lia. reflexivity.
    + unfold textAt. rewrite lookup_app_r, Nat.sub_diag, Hn by lia. reflexivity.
    + transitivity (map (content ((h ++ [cleanOf n]) ++ ext)) ts).
      * apply map_ext_in. intros t' Ht'. apply content_ext. intros b Hb. apply Hsame.
        apply elem_of_flat_map_addrs. exists t'. split; [now apply list_elem_of_In|exact Hb].
      * rewrite Hcont. apply map_ext_in. intros k Hk. apply content_ext. intros b Hb.
        rewrite Forall_forall in Hcs. apply list_elem_of_In in Hk.
        pose proof (repr_bound _ _ _ (Hcs k Hk) Hb) as Hlt.
        now rewrite lookup_app_l.
Qed.

(** What [saveToHistory] does on a view that shows a tree. *)
Lemma saveToHistory_copy v t :
  shows v t ->
  exists ext,
    let t' := renumber (length (store v)) t in
    let hist := take (Z.to_nat (historyIndex v + 1)) (history v) ++ [length (store v)] in
    saveToHistory v
    = Some (if 20 <? length hist
            then mkView (store v ++ ext) (currentFile v) (mindmapData v) (drop 1 hist)
                   (historyIndex v + 1 - 1)%Z (canvasData v) (selectedNodeId v)
            else mkView (store v ++ ext) (currentFile v) (mindmapData v) hist
                   (historyIndex v + 1)%Z (canvasData v) (selectedNodeId v)) /\
    length ext = length (addrs t) /\
    repr (store v ++ ext) t' /\
    content (store v ++ ext) t' = content (store v) t /\
    Forall2 (copied (store v) (store v ++ ext)) (addrs t) (addrs t').
Proof.
  intros (Hd & _ & Ht & _).
  destruct (copyShape_all (length (store v)) t (store v)) as (ext & E & Hlen & Hr & Hc).
  { apply Ht. } { now apply isTree_height. }
  destruct (copyOk_all (length (store v)) t (store v)) as (ext' & t' & E' & _ & _ & Ha & _ & Hcop).
  { apply Ht. } { now apply isTree_height. }
  rewrite E in E'. injection E' as Hext. apply app_inv_head in Hext. subst ext'.
  exists ext. cbv zeta. split; [|split; [exact Hlen|split; [exact Hr|split; [exact Hc|]]]].
  - unfold saveToHistory. rewrite Hd, E. cbn [mbind option_bind].
    now destruct (20 <? _).
  - now rewrite addrs_renumber, <- Ha.
Qed.

(** X19.  The snapshot that [saveToHistory] takes of a displayed tree is a
    copy in new objects: no object that was there is changed, the history
    ends with the root of the copy, the copy has the shape of the tree,
    with its objects made in the order of the traversal, and each object of
    it has the fields of the one it copies, but for the children, which are
    the copies, and the parent, which it does not have. *)
Theorem snapshot_is_a_copy_in_new_objects (v : View) (t : ATree) :
  shows v t ->
  exists v1 ext,
    saveToHistory v = Some v1 /\ store v1 = store v ++ ext /\
    length ext = length (addrs t) /\ shows v1 t /\
    let t' := renumber (length (store v)) t in
    last (history v1) = Some (rootOf t') /\
    repr (store v1) t' /\
    addrs t' = seq (length (store v)) (length (addrs t)) /\
    content (store v1) t' = content (store v) t /\
    Forall2 (copied (store v) (store v1)) (addrs t) (addrs t').
Proof.
  intros Hshows. destruct (saveToHistory_copy v t Hshows) as (ext & E & Hlen & Hr & Hc & Hcop).
  cbv zeta in E.
  eexists. exists ext. split; [exact E|].
  assert (Hst : forall b (v1 v2 : View), store v1 = store v ++ ext -> store v2 = store v ++ ext ->
            store (if b : bool then v1 else v2) = store v ++ ext).
  { intros [|]; auto. }
  rewrite Hst by reflexivity. split; [reflexivity|]. split; [exact Hlen|].
  split.
  - apply (shows_app v _ ext t Hshows).
    + now apply Hst.
    + now destruct (20 <? _).
    + now destruct (20 <? _).
  - cbv zeta. rewrite rootOf_renumber. split; [|split; [exact Hr|split; [|split; [exact Hc|exact Hcop]]]].
    + destruct (20 <? _) eqn:E20; cbn [history].
      * apply Nat.ltb_lt in E20. rewrite length_app in E20. simpl in E20.
        destruct (take (Z.to_nat (historyIndex v + 1)) (history v)) as [|r0 rs] eqn:Et;
          [simpl in E20; lia|].
        simpl. apply last_snoc.
      * apply last_snoc.
    + apply addrs_renumber.
Qed.

Lemma snapshot_is_a_copy_in_new_objects_witness :
  exists v1 ext,
    saveToHistory outlineView = Some v1 /\ store v1 = store outlineView ++ ext /\
    length ext = length (addrs outlineShown) /\ shows v1 outlineShown /\
    let t' := renumber (length (store outlineView)) outlineShown in
    last (history v1) = Some (rootOf t') /\
    repr (store v1) t' /\
    addrs t' = seq (length (store outlineView)) (length (addrs outlineShown)) /\
    content (store v1) t' = content (store outlineView) outlineShown /\
    Forall2 (copied (store outlineView) (store v1)) (addrs outlineShown) (addrs t').
Proof.
  apply (snapshot_is_a_copy_in_new_objects outlineView outlineShown).
  apply shownTree_shows. reflexivity.
Defined.

End Snapshots.

(** ** A change made after [undo] *)

Section AfterUndo.

Lemma alter_fixed (f : Node -> Node) (l : list Node) i a :
  l !! i = Some a -> f a = a -> alter f i l = l.
Proof.
  intros Hl Hf. apply list_eq. intros j. rewrite lookup_alter_if.
  destruct (Nat.eqb_spec j i) as [->|_].
  - rewrite Hl. simpl. now rewrite Hf.
  - now destruct (l !! j).
Qed.

Lemma setParent_same n a : parent n = Some a -> setParent (Some a) n = n.
Proof. destruct n. simpl. now intros ->. Qed.

(** On a tree whose nodes refer to their parents, [restoreNodeReferences]
    changes nothing. *)
Lemma restore_keeps fuel : forall t h,
  repr h t -> parentOK h t -> height t <= fuel ->
  restoreNodeReferences fuel h (rootOf t) = Some h.
Proof.
  induction fuel as [|fuel IH]; intros [a cs] h Hr Hok Hh; [simpl in Hh; lia|].
  apply repr_inv in Hr as (n & Hn & Hc & Hcs).
  inversion Hok as [a' cs' Hpar Hrec]; subst.
  simpl rootOf. rewrite restoreNodeReferences_eq, Hn. cbn [mbind option_bind]. rewrite Hc.
  assert (Hkh : Forall (fun k => height k <= fuel) cs).
  { eapply Forall_impl; [apply height_kids|]. intros k Hk. simpl in Hh, Hk. lia. }
  clear Hc Hn Hh. induction cs as [|c cs IHcs]; [reflexivity|].
  apply Forall_cons in Hcs as [Hrc Hrcs]. apply Forall_cons in Hpar as [Hpc Hpcs].
  apply Forall_cons in Hrec as [Hokc Hokcs]. apply Forall_cons in Hkh as [Hhc Hhcs].
  simpl. unfold parentAt in Hpc.
  destruct (h !! rootOf c) as [m|] eqn:Hm; [|discriminate]. simpl in Hpc.
  rewrite (alter_fixed _ _ _ m Hm (setParent_same _ _ Hpc)).
  rewrite (IH c h Hrc Hokc Hhc). apply IHcs; auto.
  constructor; auto.
Qed.

Lemma undo_runs v v1 :
  (0 < historyIndex v)%Z -> undo v = Some v1 ->
  exists r,
    history v !! Z.to_nat (historyIndex v - 1) = Some r /\
    mindmapData v1 = Some r /\ history v1 = history v /\
    historyIndex v1 = (historyIndex v - 1)%Z.
Proof.
  intros Hpos. unfold undo. apply Z.ltb_lt in Hpos. rewrite Hpos.
  destruct (history v !! _) as [r|]; cbn [mbind option_bind]; [|discriminate].
  destruct (restoreNodeReferences _ _ r) as [h1|]; cbn [mbind option_bind]; [|discriminate].
  unfold recalculateAndRender. cbn [mindmapData store].
  destruct (calculateNodePositions h1 r); cbn [mbind option_bind]; [|discriminate].
  intros [= <-]. exists r. repeat split; reflexivity.
Qed.

(** X20.  A change made right after an [undo] is not undone by the next
    [undo].  In a view reached from the one that [loadFile] makes, by
    selecting, adding children at any reading of the clock, deleting,
    dragging and undoing, after an [undo] that goes back one snapshot and an [addChildToSelectedNode] that
    adds a node, [undo] goes back one place in the history and shows the
    same objects again, the added node among them: the tree that [undo]
    displayed is the snapshot itself, and the addition was made to it. *)
Theorem change_after_undo_is_not_undone (content fileName ident : list N) (now : Z)
    (v v1 v2 : View) (p : nat) :
  reachable content fileName v -> (0 < historyIndex v)%Z -> undo v = Some v1 ->
  getSelectedNode (selectNode ident v1) = Some (Some p) ->
  addChildToSelectedNode now (selectNode ident v1) = Some v2 ->
  exists t1 v3,
    shows v1 t1 /\
    shows v2 (graft p (ANode (length (store v1) + length (addrs t1)) []) t1) /\
    (0 < historyIndex v2)%Z /\ undo v2 = Some v3 /\
    historyIndex v3 = (historyIndex v2 - 1)%Z /\
    mindmapData v3 = mindmapData v2 /\ Forall2 sameButXY (store v2) (store v3) /\
    shows v3 (graft p (ANode (length (store v1) + length (addrs t1)) []) t1).
Proof.
  intros Hreach Hpos Hundo Hsel Hadd.
  destruct (reachable_index _ _ _ Hreach) as [Hlen Hidx].
  pose proof (kept_undo False _ _ (kept_reachable _ _ _ Hreach) Hundo) as (t1 & snaps & Hshows1 & _).
  destruct (undo_runs _ _ Hpos Hundo) as (r & Hr & Hd1 & Hh1 & Hi1).
  assert (Hroot1 : rootOf t1 = r).
  { destruct Hshows1 as (Hd & _). congruence. }
  assert (Hshows1' : shows (selectNode ident v1) t1) by exact Hshows1.
  destruct (addChild_runs now _ t1 p Hshows1' Hsel)
    as (pn & ext & v1s & h' & Hpn & Hp & E & Hs1 & Hlext & HF & Hrun & Ht2 & Hok2 & Hpar2 & _).
  cbv zeta in HF, Hrun, Ht2, Hok2, Hpar2.
  rewrite Hadd in Hrun. injection Hrun as ->.
  assert (Ha : length (store v1s) = length (store v1) + length (addrs t1)).
  { rewrite Hs1, length_app, Hlext. reflexivity. }
  rewrite Ha in *.
  set (t2 := graft p (ANode (length (store v1) + length (addrs t1)) []) t1) in *.
  assert (Hrt : rootOf t2 = r) by (unfold t2; now rewrite rootOf_graft).
  destruct (saveToHistory_history _ _ E) as (Hd1s & Hcd1s & _ & _ & _ & Hsome).
  cbn [mindmapData canvasData selectNode] in Hd1s, Hcd1s.
  destruct (Hsome r) as (c & Hc); [exact Hd1|]. cbv zeta in Hc.
  cbn [history historyIndex selectNode] in Hc. rewrite Hh1, Hi1 in Hc.
  replace (historyIndex v - 1 + 1)%Z with (historyIndex v) in Hc by lia.
  assert (Hl : length (take (Z.to_nat (historyIndex v)) (history v) ++ [c])
               = S (Z.to_nat (historyIndex v))).
  { rewrite length_app, length_take. simpl. lia. }
  rewrite Hl in Hc.
  destruct (20 <? S (Z.to_nat (historyIndex v))) eqn:E20.
  { apply Nat.ltb_lt in E20. lia. }
  destruct Hc as [Hh1s Hi1s].
  assert (Hshows2 : forall w, mindmapData w = Some r -> canvasData w = Some r ->
            Forall2 sameButXY h' (store w) -> shows w t2).
  { intros w Hdw Hcw HF'. unfold shows. rewrite Hrt.
    split; [exact Hdw|]. split; [exact Hcw|].
    split; [eapply frame_isTree; [exact HF'|eapply frame_isTree; eauto]|].
    split; [eapply frame_parentOK; [exact HF'|eapply frame_parentOK; eauto]|].
    rewrite (frame_parentAt _ _ _ HF'), (frame_parentAt _ _ _ HF). now rewrite <- Hroot1. }
  assert (Hrestore : restoreNodeReferences (length h') h' r = Some h').
  { rewrite <- Hrt. apply restore_keeps.
    - eapply frame_repr; [exact HF|apply Ht2].
    - eapply frame_parentOK; eauto.
    - apply isTree_height. eapply frame_isTree; eauto. }
  destruct (calculateNodePositions_spec h' t2) as (h'' & El & HF' & _).
  { eapply frame_isTree; eauto. }
  rewrite Hrt in El.
  exists t1. eexists. split; [exact Hshows1|]. split; [|split; [|split]].
  - apply Hshows2.
    + cbn [mindmapData selectNode renderMindmap withStore]. now rewrite Hd1s.
    + cbn [canvasData selectNode renderMindmap withStore]. now rewrite Hroot1.
    + apply Forall2_sameButXY_refl.
  - cbn [historyIndex selectNode renderMindmap withStore]. lia.
  - unfold undo. cbn [historyIndex history store mindmapData selectNode renderMindmap withStore
                      currentFile canvasData selectedNodeId].
    rewrite Hi1s. apply Z.ltb_lt in Hpos. rewrite Hpos. rewrite Hh1s.
    rewrite lookup_app_l by (rewrite length_take; lia).
    rewrite lookup_take_lt by lia. rewrite Hr. cbn [mbind option_bind].
    rewrite Hrestore. cbn [mbind option_bind].
    unfold recalculateAndRender. cbn [mindmapData store]. rewrite El.
    cbn [mbind option_bind]. reflexivity.
  - cbn [historyIndex mindmapData store selectNode renderMindmap withStore].
    split; [now rewrite Hi1s|]. split; [now rewrite Hd1s|].
    split; [exact HF'|]. apply Hshows2; [reflexivity|reflexivity|exact HF'].
Qed.

Lemma change_after_undo_is_not_undone_witness :
  exists t1 v3,
    shows undoneView t1 /\
    shows redoneView (graft 9 (ANode (length (store undoneView) + length (addrs t1)) []) t1) /\
    (0 < historyIndex redoneView)%Z /\ undo redoneView = Some v3 /\
    historyIndex v3 = (historyIndex redoneView - 1)%Z /\
    mindmapData v3 = mindmapData redoneView /\
    Forall2 sameButXY (store redoneView) (store v3) /\
    shows v3 (graft 9 (ANode (length (store undoneView) + length (addrs t1)) []) t1).
Proof.
  apply (change_after_undo_is_not_undone outlineText (lit "note") (lit "node-2")
           1700000000002 twiceView undoneView redoneView 9).
  - apply (reach_step _ _ (selectNode (lit "node-2") addedView)).
    + apply (reach_step _ _ addedView).
      * apply (reach_step _ _ selectedView).
        -- apply (reach_step _ _ outlineView).
           ++ apply reach_load. vm_compute. reflexivity.
           ++ apply step_select.
        -- apply (step_add 1700000000000). vm_compute. reflexivity.
      * apply step_select.
    + apply (step_add 1700000000001). vm_compute. reflexivity.
  - vm_compute. reflexivity.
  - vm_compute. reflexivity.
  - vm_compute. reflexivity.
  - vm_compute. reflexivity.
Defined.

End AfterUndo.

(** ** How far back [undo] goes *)

Section TwoBack.

Lemma coreAt_frame (h h' : list Node) a :
  Forall2 sameButXY h h' -> coreAt h' a = coreAt h a.
Proof.
  intros HF. unfold coreAt. destruct (h !! a) as [n|] eqn:Hn.
  - destruct (frame_lookup _ _ _ _ HF Hn) as (n' & -> & Hs). simpl.
    destruct (sameButXY_fields _ _ Hs) as (_ & -> & -> & -> & -> & _). reflexivity.
  - apply lookup_ge_None in Hn. rewrite (Forall2_length _ _ _ HF) in Hn.
    apply lookup_ge_None in Hn. now rewrite Hn.
Qed.

Lemma coreAt_reparent (h h' : list Node) a :
  Forall2 sameButParent h h' -> coreAt h' a = coreAt h a.
Proof.
  intros HF. unfold coreAt. destruct (h !! a) as [n|] eqn:Hn.
  - destruct (reparent_lookup _ _ _ _ HF Hn) as (n' & -> & Hs). simpl.
    destruct (sameButParent_fields _ _ Hs) as (_ & -> & _ & _ & _ & -> & -> & ->). reflexivity.
  - apply lookup_ge_None in Hn. rewrite (Forall2_length _ _ _ HF) in Hn.
    apply lookup_ge_None in Hn. now rewrite Hn.
Qed.

Lemma coreAt_app (h e : list Node) a : a < length h -> coreAt (h ++ e) a = coreAt h a.
Proof. intros Ha. unfold coreAt. now rewrite lookup_app_l. Qed.

Lemma coreAt_attach (h : list Node) p node a :
  a < length h -> a <> p -> coreAt (pushChild p (length h) (h ++ [node])) a = coreAt h a.
Proof.
  intros Ha Hne. unfold coreAt. rewrite attach_at.
  destruct (Nat.eqb_spec a p); [contradiction|]. rewrite lookup_app_l by exact Ha.
  now destruct (h !! a).
Qed.

Lemma repr_core h h' t :
  (forall a, a ∈ addrs t -> coreAt h' a = coreAt h a) -> repr h t -> repr h' t.
Proof.
  intros H. apply repr_ext. intros a Ha. specialize (H a Ha). unfold coreAt in H.
  destruct (h' !! a), (h !! a); simpl in *; congruence.
Qed.

Lemma content_core h h' t :
  (forall a, a ∈ addrs t -> coreAt h' a = coreAt h a) -> content h' t = content h t.
Proof.
  induction t as [a cs IH] using ATree_ind'. intros H. simpl.
  assert (Ha : coreAt h' a = coreAt h a) by (apply H, (addrs_root (ANode a cs))).
  unfold coreAt in Ha. unfold typeAt, levelAt, textAt.
  f_equal; try (destruct (h' !! a), (h !! a); simpl in *; congruence).
  apply map_ext_in. intros c Hc. apply list_elem_of_In in Hc.
  rewrite Forall_forall in IH. apply IH; [exact Hc|].
  intros b Hb. apply H. eapply addrs_child; eauto.
Qed.

(** What [addChildToSelectedNode] leaves of the objects that are not in the
    displayed tree. *)
Lemma addChild_outside now v t p v' a :
  shows v t -> getSelectedNode v = Some (Some p) ->
  addChildToSelectedNode now v = Some v' ->
  a < length (store v) -> a ∉ addrs t ->
  coreAt (store v') a = coreAt (store v) a /\ parentAt (store v') a = parentAt (store v) a.
Proof.
  intros Hshows Hsel Hadd Ha Hout.
  destruct (addChild_runs now v t p Hshows Hsel)
    as (pn & ext & v1 & h' & Hpn & Hp & E & Hs1 & Hlext & HF & Hrun & _).
  cbv zeta in HF, Hrun. rewrite Hadd in Hrun. injection Hrun as ->.
  cbn [store selectNode renderMindmap withStore].
  assert (Ha1 : a < length (store v1)) by (rewrite Hs1, length_app; lia).
  assert (Hne : a <> p) by (intros ->; contradiction).
  split.
  - rewrite (coreAt_frame _ _ _ HF), coreAt_attach by assumption.
    rewrite Hs1. now apply coreAt_app.
  - rewrite (frame_parentAt _ _ _ HF), attach_parentAt by assumption.
    unfold parentAt. rewrite Hs1. now rewrite lookup_app_l.
Qed.

(** The view after [addChildToSelectedNode] shows the tree with the new
    leaf. *)
Lemma addChild_shows now v t p v' :
  shows v t -> getSelectedNode v = Some (Some p) ->
  addChildToSelectedNode now v = Some v' ->
  shows v' (graft p (ANode (length (store v) + length (addrs t)) []) t) /\
  length (store v') = S (length (store v) + length (addrs t)) /\ p ∈ addrs t.
Proof.
  intros Hshows Hsel Hadd.
  destruct (addChild_runs now v t p Hshows Hsel)
    as (pn & ext & v1 & h' & Hpn & Hp & E & Hs1 & Hlext & HF & Hrun & Ht2 & Hok2 & Hpar2 & _).
  cbv zeta in HF, Hrun, Ht2, Hok2, Hpar2. rewrite Hadd in Hrun. injection Hrun as ->.
  assert (Ha : length (store v1) = length (store v) + length (addrs t)).
  { rewrite Hs1, length_app, Hlext. reflexivity. }
  rewrite Ha in *.
  destruct (saveToHistory_history _ _ E) as (Hd1 & _).
  destruct Hshows as (Hd & _).
  split; [|split; [|exact Hp]].
  - unfold shows. cbn [mindmapData canvasData store selectNode renderMindmap withStore].
    rewrite rootOf_graft. split; [now rewrite Hd1|]. split; [reflexivity|].
    split; [eapply frame_isTree; eauto|]. split; [eapply frame_parentOK; eauto|].
    now rewrite (frame_parentAt _ _ _ HF).
  - cbn [store selectNode renderMindmap withStore].
    rewrite <- (Forall2_length _ _ _ HF). unfold pushChild.
    rewrite length_alter, length_app, Hs1, length_app, Hlext. simpl. lia.
Qed.

(** The snapshot that the next change takes stands right under the index,
    and the index is not 0 after a second change. *)
Lemma saveToHistory_entry v v1 :
  saveToHistory v = Some v1 -> mindmapData v <> None ->
  length (history v) <= 20 -> (-1 <= historyIndex v < Z.of_nat (length (history v)))%Z ->
  exists c,
    history v1 !! Z.to_nat (historyIndex v1) = Some c /\
    (forall r, (0 <= historyIndex v)%Z ->
       history v !! Z.to_nat (historyIndex v) = Some r ->
       (0 < historyIndex v1)%Z /\ history v1 !! Z.to_nat (historyIndex v1 - 1) = Some r) /\
    (forall ext, (exists t, shows v t) -> store v1 = store v ++ ext -> c = length (store v)).
Proof.
  intros E Hd Hlen Hidx.
  destruct (saveToHistory_history _ _ E) as (_ & _ & _ & _ & _ & Hsome).
  destruct (mindmapData v) as [data|] eqn:Ed; [|congruence].
  destruct (Hsome data eq_refl) as (c & Hc). cbv zeta in Hc.
  set (hist := take (Z.to_nat (historyIndex v + 1)) (history v) ++ [c]) in *.
  assert (Hl : length hist = Z.to_nat (historyIndex v + 2)).
  { unfold hist. rewrite length_app, length_take. simpl. lia. }
  assert (Hlast : hist !! Z.to_nat (historyIndex v + 1) = Some c).
  { unfold hist. rewrite lookup_app_r by (rewrite length_take; lia).
    rewrite length_take. replace (_ - _) with 0 by lia. reflexivity. }
  assert (Hprev : forall r, (0 <= historyIndex v)%Z ->
            history v !! Z.to_nat (historyIndex v) = Some r ->
            hist !! Z.to_nat (historyIndex v) = Some r).
  { intros r H0 Hr. unfold hist. rewrite lookup_app_l by (rewrite length_take; lia).
    rewrite lookup_take_lt by lia. exact Hr. }
  exists c. rewrite Hl in Hc. split; [|split].
  - destruct (20 <? Z.to_nat (historyIndex v + 2)) eqn:E20; destruct Hc as [-> ->].
    + apply Nat.ltb_lt in E20. rewrite lookup_drop.
      replace (1 + Z.to_nat (historyIndex v)) with (Z.to_nat (historyIndex v + 1)) by lia.
      exact Hlast.
    + exact Hlast.
  - intros r H0 Hr.
    destruct (20 <? Z.to_nat (historyIndex v + 2)) eqn:E20; destruct Hc as [-> ->].
    + apply Nat.ltb_lt in E20. split; [lia|]. rewrite lookup_drop.
      replace (1 + Z.to_nat (historyIndex v - 1)) with (Z.to_nat (historyIndex v)) by lia.
      now apply Hprev.
    + split; [lia|]. replace (historyIndex v + 1 - 1)%Z with (historyIndex v) by lia.
      now apply Hprev.
  - intros ext [t Hshows] Hs1.
    destruct (saveToHistory_copy v t Hshows) as (ext' & E' & _). cbv zeta in E'.
    rewrite E in E'. injection E' as E'.
    assert (Hh : history v1 !! Z.to_nat (historyIndex v1)
                 = Some (length (store v))).
    { rewrite E'.
      set (hist' := take (Z.to_nat (historyIndex v + 1)) (history v) ++ [length (store v)]).
      assert (Hl' : length hist' = Z.to_nat (historyIndex v + 2)).
      { unfold hist'. rewrite length_app, length_take. simpl. lia. }
      assert (Hlast' : hist' !! Z.to_nat (historyIndex v + 1) = Some (length (store v))).
      { unfold hist'. rewrite lookup_app_r by (rewrite length_take; lia).
        rewrite length_take. replace (_ - _) with 0 by lia. reflexivity. }
      destruct (20 <? length hist') eqn:E20; cbn [history historyIndex].
      - apply Nat.ltb_lt in E20. rewrite lookup_drop.
        replace (1 + Z.to_nat (historyIndex v + 1 - 1))
          with (Z.to_nat (historyIndex v + 1)) by lia.
        exact Hlast'.
      - exact Hlast'. }
    destruct (20 <? Z.to_nat (historyIndex v + 2)) eqn:E20; destruct Hc as [Hc1 Hc2];
      rewrite Hc1, Hc2 in Hh.
    + apply Nat.ltb_lt in E20. rewrite lookup_drop in Hh.
      replace (1 + Z.to_nat (historyIndex v)) with (Z.to_nat (historyIndex v + 1)) in Hh by lia.
      congruence.
    + congruence.
Qed.

(** X21.  After two changes in a row, [undo] does not go back to the view
    before the second change but to the one before the first: in a view
    reached from the one that [loadFile] makes, by selecting, adding
    children at any reading of the clock, deleting, dragging and undoing,
    after two
    [addChildToSelectedNode] that each add a node, [undo] shows the
    snapshot taken at the first of them, a copy of the tree as it was
    before both, with the same kinds, levels and texts. *)
Theorem undo_goes_back_two_changes (doc fileName ident : list N) (now1 now2 : Z)
    (v v1 v2 : View) (p1 p2 : nat) :
  reachable doc fileName v ->
  getSelectedNode v = Some (Some p1) -> addChildToSelectedNode now1 v = Some v1 ->
  getSelectedNode (selectNode ident v1) = Some (Some p2) ->
  addChildToSelectedNode now2 (selectNode ident v1) = Some v2 ->
  exists t v3,
    shows v t /\ undo v2 = Some v3 /\
    shows v3 (renumber (length (store v)) t) /\
    content (store v3) (renumber (length (store v)) t) = content (store v) t.
Proof.
  intros Hreach Hsel1 Hadd1 Hsel2 Hadd2.
  destruct (reachable_index _ _ _ Hreach) as [Hlen Hidx].
  destruct (kept_reachable _ _ _ Hreach) as (t & snaps & Hshows & _).
  set (base := length (store v)). set (t' := renumber base t).
  assert (Hat' : addrs t' = seq base (length (addrs t))) by apply addrs_renumber.
  assert (Hrt' : rootOf t' = base) by apply rootOf_renumber.
  (* the first change *)
  destruct (addChild_runs now1 v t p1 Hshows Hsel1)
    as (pn1 & ext1 & v1s & h1' & Hpn1 & Hp1 & E1 & Hs1 & Hlext1 & HF1 & Hrun1 & _).
  cbv zeta in HF1, Hrun1. rewrite Hadd1 in Hrun1. injection Hrun1 as Hv1.
  destruct (saveToHistory_copy v t Hshows) as (ext1' & E1' & _ & Hrepr0 & Hcont0 & Hcop0).
  cbv zeta in E1', Hrepr0, Hcont0, Hcop0. fold base t' in Hrepr0, Hcont0, Hcop0.
  assert (Hext : ext1' = ext1).
  { rewrite E1 in E1'. injection E1' as E1'. apply (f_equal store) in E1'.
    rewrite Hs1 in E1'. destruct (20 <? _) in E1'; cbn [store] in E1';
      now apply app_inv_head in E1'. }
  subst ext1'. rewrite <- Hs1 in Hrepr0, Hcont0, Hcop0.
  assert (Hd : mindmapData v <> None).
  { destruct Hshows as (-> & _). discriminate. }
  destruct (saveToHistory_entry _ _ E1 Hd Hlen Hidx) as (c1 & Hc1 & _ & Hc1eq).
  assert (c1 = base) by (apply (Hc1eq ext1); eauto). subst c1.
  destruct (saveToHistory_index _ _ E1 Hlen Hidx) as (Hlen1 & Hidx1 & _ & Hpos1).
  specialize (Hpos1 Hd).
  destruct (addChild_shows now1 v t p1 v1 Hshows Hsel1 Hadd1) as (Hshows1 & Hl1 & _).
  fold base in Hshows1, Hl1.
  set (t1 := graft p1 (ANode (base + length (addrs t)) []) t) in *.
  assert (Hin' : forall a, a ∈ addrs t' -> base <= a < base + length (addrs t)).
  { intros a Ha. rewrite Hat' in Ha. apply elem_of_seq in Ha. lia. }
  assert (Hold : forall a, a ∈ addrs t -> a < base).
  { intros a Ha. destruct Hshows as (_ & _ & Ht & _). eapply repr_bound; [apply Ht|exact Ha]. }
  assert (Hcore1 : forall a, a ∈ addrs t' ->
            coreAt (store v1) a = coreAt (store v1s) a /\
            parentAt (store v1) a = parentAt (store v1s) a).
  { intros a Ha. specialize (Hin' a Ha). rewrite Hv1.
    cbn [store selectNode renderMindmap withStore].
    assert (Ha1 : a < length (store v1s)) by (rewrite Hs1, length_app; fold base; lia).
    assert (Hne : a <> p1) by (specialize (Hold p1 Hp1); lia).
    split.
    - now rewrite (coreAt_frame _ _ _ HF1), coreAt_attach.
    - now rewrite (frame_parentAt _ _ _ HF1), attach_parentAt. }
  (* the second change *)
  assert (Hshows1' : shows (selectNode ident v1) t1) by exact Hshows1.
  assert (Hout2 : forall a, a ∈ addrs t' -> a ∉ addrs t1).
  { intros a Ha Hin. specialize (Hin' a Ha).
    assert (Hperm : addrs t1 ≡ₚ addrs t ++ [base + length (addrs t)]).
    { unfold t1. apply (addrs_graft p1 (ANode (base + length (addrs t)) []) t); [|exact Hp1].
      destruct Hshows as (_ & _ & Ht & _). apply Ht. }
    rewrite Hperm in Hin. apply elem_of_app in Hin as [Hin|Hin].
    - specialize (Hold a Hin). lia.
    - apply list_elem_of_singleton in Hin. lia. }
  assert (Hcore2 : forall a, a ∈ addrs t' ->
            coreAt (store v2) a = coreAt (store v1) a /\
            parentAt (store v2) a = parentAt (store v1) a).
  { intros a Ha.
    apply (addChild_outside now2 (selectNode ident v1) t1 p2 v2 a Hshows1' Hsel2 Hadd2).
    - cbn [store selectNode]. specialize (Hin' a Ha). lia.
    - now apply Hout2. }
  destruct (addChild_runs now2 _ t1 p2 Hshows1' Hsel2)
    as (pn2 & ext2 & v2s & h2' & _ & _ & E2 & _ & _ & _ & Hrun2 & _).
  cbv zeta in Hrun2. rewrite Hadd2 in Hrun2. injection Hrun2 as Hv2.
  assert (Hh1 : history (selectNode ident v1) = history v1s /\
                historyIndex (selectNode ident v1) = historyIndex v1s).
  { rewrite Hv1. split; reflexivity. }
  destruct Hh1 as [Hh1 Hi1].
  assert (Hd1 : mindmapData (selectNode ident v1) <> None).
  { destruct Hshows1' as (-> & _). discriminate. }
  destruct (saveToHistory_entry _ _ E2 Hd1) as (_ & _ & Hprev & _).
  { now rewrite Hh1. } { now rewrite Hh1, Hi1. }
  destruct (Hprev base) as (Hpos2 & Hentry).
  { now rewrite Hi1. } { now rewrite Hh1, Hi1. }
  (* the undo *)
  assert (Hrepr2 : repr (store v2) t').
  { eapply repr_core; [|exact Hrepr0]. intros a Ha.
    rewrite (proj1 (Hcore2 a Ha)). apply (Hcore1 a Ha). }
  assert (Hnd' : NoDup (addrs t')) by (rewrite Hat'; apply NoDup_seq).
  assert (Hpar2 : parentAt (store v2) base = None).
  { assert (Hb : base ∈ addrs t') by (rewrite <- Hrt'; apply addrs_root).
    rewrite (proj2 (Hcore2 base Hb)), (proj2 (Hcore1 base Hb)).
    assert (Hhead : exists a0 rest, addrs t = a0 :: rest) by (destruct t; simpl; eauto).
    destruct Hhead as (a0 & rest & Ea). rewrite Hat', Ea in Hcop0. simpl in Hcop0.
    apply Forall2_cons_1 in Hcop0 as [(n & n' & _ & Hn' & Hpn & _) _].
    unfold parentAt. rewrite Hn'. exact Hpn. }
  destruct (restoreOk_all (length (store v2)) t' (store v2) Hrepr2 Hnd')
    as (h3 & E3 & HFp & Hfoot & Hok3).
  { apply isTree_height. now split. }
  rewrite Hrt' in E3.
  assert (Ht3 : isTree h3 t') by (split; [eapply reparent_repr; eauto|exact Hnd']).
  destruct (calculateNodePositions_spec h3 t' Ht3) as (h4 & E4 & HF4 & _).
  rewrite Hrt' in E4.
  assert (Hhist2 : history v2 = history v2s /\ historyIndex v2 = historyIndex v2s).
  { rewrite Hv2. split; reflexivity. }
  destruct Hhist2 as [Hh2 Hi2].
  exists t. eexists. split; [exact Hshows|]. split; [|split].
  - unfold undo. rewrite Hi2, Hh2. apply Z.ltb_lt in Hpos2. rewrite Hpos2, Hentry.
    cbn [mbind option_bind]. rewrite E3. cbn [mbind option_bind].
    unfold recalculateAndRender. cbn [mindmapData store]. rewrite E4.
    cbn [mbind option_bind]. reflexivity.
  - unfold shows. cbn [mindmapData canvasData store renderMindmap withStore]. fold base t'.
    rewrite Hrt'. split; [reflexivity|]. split; [reflexivity|].
    split; [eapply frame_isTree; eauto|]. split; [eapply frame_parentOK; eauto|].
    rewrite (frame_parentAt _ _ _ HF4). unfold parentAt. rewrite Hfoot; [exact Hpar2|].
    rewrite <- Hrt'. destruct t' as [b ks]. now apply root_not_in_kids.
  - cbn [store renderMindmap withStore]. fold base t'. rewrite <- Hcont0.
    apply content_core. intros a Ha.
    rewrite (coreAt_frame _ _ _ HF4), (coreAt_reparent _ _ _ HFp).
    rewrite (proj1 (Hcore2 a Ha)). apply (Hcore1 a Ha).
Qed.

Lemma undo_goes_back_two_changes_witness :
  exists t v3,
    shows selectedView t /\ undo twiceView = Some v3 /\
    shows v3 (renumber (length (store selectedView)) t) /\
    content (store v3) (renumber (length (store selectedView)) t)
    = content (store selectedView) t.
Proof.
  apply (undo_goes_back_two_changes outlineText (lit "note") (lit "node-2")
           1700000000000 1700000000001 selectedView addedView twiceView 2 2).
  - apply (reach_step _ _ outlineView).
    + apply reach_load. vm_compute. reflexivity.
    + apply step_select.
  - vm_compute. reflexivity.
  - vm_compute. reflexivity.
  - vm_compute. reflexivity.
  - vm_compute. reflexivity.
Defined.

End TwoBack.

(** ** What [generateMarkdown] writes *)

Section Written.

Lemma forEachR_app {S0} (f : nat -> list S0 -> result (list S0)) (g : ATree -> list S0)
    (cs : list ATree) :
  Forall (fun c => forall lines, f (rootOf c) lines = Return (lines ++ g c)) cs ->
  forall lines, forEachR f (map rootOf cs) lines = Return (lines ++ flat_map g cs).
Proof.
  induction 1 as [|c cs Hc _ IH]; intros lines; simpl.
  - now rewrite app_nil_r.
  - rewrite Hc. simpl. rewrite IH. now rewrite app_assoc.
Qed.

Lemma nodeLine_unlinked n :
  hasWikilink n = false \/ wikilinks n = [] ->
  nodeLine n = Return (itemLine (type n) (level n) (text n)).
Proof.
  intros H. unfold nodeLine, lineText, itemLine.
  assert (E : hasWikilink n && (0 <? length (wikilinks n)) = false).
  { destruct H as [->| ->]; [reflexivity|]. apply andb_false_r. }
  rewrite E. destruct (type n); simpl; [reflexivity|].
  replace (Z.to_nat (Z.max 0 (Z.of_nat (level n) - 7))) with (level n - 7) by lia.
  reflexivity.
Qed.

Lemma omap_flat_map {A B C} (f : B -> option C) (g : A -> list B) (l : list A) :
  omap f (flat_map g l) = flat_map (fun a => omap f (g a)) l.
Proof.
  induction l as [|a l IH]; [reflexivity|]. simpl. now rewrite omap_app, IH.
Qed.

Lemma omap_cons_eq {A B} (f : A -> option B) a (l : list A) :
  omap f (a :: l) = match f a with Some b => b :: omap f l | None => omap f l end.
Proof. reflexivity. Qed.

Lemma traverse_written h t :
  repr h t ->
  (forall a n, a ∈ addrs t -> h !! a = Some n ->
     id n = lit "root" \/ hasWikilink n = false \/ wikilinks n = []) ->
  forall fuel lines, height t <= fuel ->
    traverse fuel h (rootOf t) lines = Return (lines ++ omap (writtenLine h) (addrs t)).
Proof.
  induction t as [a cs IH] using ATree_ind'. intros Hr Hun fuel lines Hf.
  apply repr_inv in Hr as (n & Hn & Hc & Hcs).
  destruct fuel as [|fuel]; [simpl in Hf; lia|].
  simpl rootOf. rewrite traverse_eq, Hn, Hc.
  assert (Hkids : Forall (fun c => forall lines0,
             traverse fuel h (rootOf c) lines0
             = Return (lines0 ++ omap (writtenLine h) (addrs c))) cs).
  { rewrite Forall_forall in IH. rewrite Forall_forall in Hcs.
    apply Forall_forall. intros c Hcin lines0. apply IH; auto.
    - intros b m Hb Hm. apply (Hun b m); [|exact Hm]. eapply addrs_child; eauto.
    - pose proof (height_child a cs c Hcin). lia. }
  change (addrs (ANode a cs)) with (a :: flat_map addrs cs).
  rewrite omap_cons_eq, omap_flat_map. unfold writtenLine at 1. rewrite Hn. cbn [mbind option_bind].
  destruct (decide (id n = lit "root")) as [He|Hne].
  - now rewrite (forEachR_app _ _ cs Hkids).
  - destruct (Hun a n (addrs_root (ANode a cs)) Hn) as [?|Hw]; [contradiction|].
    rewrite (nodeLine_unlinked n Hw). cbn [rbind].
    rewrite (forEachR_app _ _ cs Hkids). now rewrite <- app_assoc.
Qed.

(** X22.  On a tree in which no node other than one named [root] has links
    recorded, [generateMarkdown] returns one line for every node that is
    not named [root], a node before its children and the children in their
    order, joined by newlines: as many [#] as the level, a space and the
    text for a header; one tab for each level above 7, [- ] and the text
    for a list item.  A node named [root] gives no line, wherever it is,
    but its children are written. *)
Theorem generateMarkdown_writes_one_line_per_node (h : list Node) (t : ATree) :
  isTree h t ->
  (forall a n, a ∈ addrs t -> h !! a = Some n ->
     id n = lit "root" \/ hasWikilink n = false \/ wikilinks n = []) ->
  generateMarkdown h (rootOf t)
  = Return (join c_newline (omap (writtenLine h) (addrs t))).
Proof.
  intros Ht Hun. unfold generateMarkdown.
  rewrite (traverse_written h t); [reflexivity|apply Ht|exact Hun|now apply isTree_height].
Qed.

Lemma generateMarkdown_writes_one_line_per_node_witness :
  generateMarkdown (store outlineView) (rootOf outlineShown)
  = Return (join c_newline (omap (writtenLine (store outlineView)) (addrs outlineShown))).
Proof.
  apply (generateMarkdown_writes_one_line_per_node (store outlineView) outlineShown).
  - apply (shownTree_shows outlineView outlineShown). reflexivity.
  - intros a n Ha Hn. right. left.
    assert (Hall : forallb (fun m => negb (hasWikilink m)) (store outlineView) = true)
      by (vm_compute; reflexivity).
    rewrite forallb_forall in Hall.
    apply negb_true_iff, Hall, list_elem_of_In. eapply list_elem_of_lookup_2; exact Hn.
Defined.

(** X23.  On a tree of the store, [restoreNodeReferences] returns; after it
    every node under the root refers to its parent in the tree, whatever it
    referred to before.  Nothing but parent references changes, and the
    root and the objects outside the tree are left as they are. *)
Theorem restoreNodeReferences_sets_parents (h : list Node) (t : ATree) :
  isTree h t ->
  exists h',
    restoreNodeReferences (length h) h (rootOf t) = Some h' /\
    parentOK h' t /\ Forall2 sameButParent h h' /\
    (forall a, a ∉ flat_map addrs (kids t) -> h' !! a = h !! a).
Proof.
  intros Ht. destruct (restoreOk_all (length h) t h) as (h' & E & HF & Hfoot & Hok).
  - apply Ht.
  - apply Ht.
  - now apply isTree_height.
  - exists h'. auto.
Qed.

Lemma restoreNodeReferences_sets_parents_witness :
  exists h',
    restoreNodeReferences (length (store addedView)) (store addedView) (rootOf snapshotTree)
    = Some h' /\
    parentOK h' snapshotTree /\ Forall2 sameButParent (store addedView) h' /\
    (forall a, a ∉ flat_map addrs (kids snapshotTree) -> h' !! a = store addedView !! a).
Proof.
  apply (restoreNodeReferences_sets_parents (store addedView) snapshotTree).
  exact (proj1 (treeAt_isTree (store addedView) 7 snapshotTree eq_refl)).
Defined.

End Written.

Section ClockIds.

Lemma firstWithId_in h ident l :
  ident ∈ map (idAt h) l -> exists p, firstWithId h ident l = Some p.
Proof.
  induction l as [|a l IH]; simpl; intros Hin; [now apply elem_of_nil in Hin|].
  destruct (decide (idAt h a = ident)) as [He|Hne]; [eauto|].
  apply elem_of_cons in Hin. destruct Hin as [Hin|Hin]; [congruence|]. now apply IH.
Qed.

(** A view that shows a tree in which the selected identifier occurs has a
    selected node. *)
Lemma getSelectedNode_some v t ident :
  shows v t -> selectedNodeId v = Some ident -> ident <> [] -> ident ∈ ids (store v) t ->
  exists p, getSelectedNode v = Some (Some p).
Proof.
  intros (_ & Hcd & Ht & _) Hsel Hne Hin. unfold getSelectedNode. rewrite Hsel, Hcd.
  destruct ident as [|c s]; [now contradiction Hne|].
  rewrite (findNodeById_spec _ _ (proj1 Ht)) by (now apply isTree_height).
  destruct (firstWithId_in _ _ _ Hin) as [p Hp]. exists p. now rewrite Hp.
Qed.

(** The identifiers of the tree after [addChildToSelectedNode]. *)
Lemma addChild_ids now v t p v' :
  shows v t -> getSelectedNode v = Some (Some p) ->
  addChildToSelectedNode now v = Some v' ->
  selectedNodeId v' = Some (nodeId now) /\
  ids (store v') (graft p (ANode (length (store v) + length (addrs t)) []) t)
  ≡ₚ ids (store v) t ++ [nodeId now].
Proof.
  intros Hshows Hsel Hadd.
  destruct (addChild_runs now v t p Hshows Hsel)
    as (pn & ext & v1 & h' & Hpn & Hp & E & Hs1 & Hlext & HF & Hrun & _ & _ & _ & _ & Hids).
  cbv zeta in HF, Hrun, Hids. rewrite Hadd in Hrun. injection Hrun as ->.
  assert (Ha : length (store v1) = length (store v) + length (addrs t)).
  { rewrite Hs1, length_app, Hlext. reflexivity. }
  rewrite Ha in *. split; [reflexivity|].
  cbn [store selectNode renderMindmap withStore].
  rewrite <- Hids. erewrite ids_ext; [reflexivity|]. intros a.
  now apply frame_idAt.
Qed.

(** C9.  The identifier of a node made by [addChildToSelectedNode] is
    [node-] followed by the reading of the clock, whatever the identifiers
    in use.  In a view reached from the one that [loadFile] makes, with a
    node selected, two additions at the same reading [now] both go through,
    the second under the node that the first made and left selected, and the
    view then shows a tree in which two nodes have the same identifier. *)
Theorem add_child_twice_at_one_clock_reading_repeats_id (content fileName : list N)
    (now : Z) (v : View) (p : nat) :
  reachable content fileName v -> getSelectedNode v = Some (Some p) ->
  exists v1 v2 t2,
    addChildToSelectedNode now v = Some v1 /\
    addChildToSelectedNode now v1 = Some v2 /\
    reachable content fileName v2 /\
    shows v2 t2 /\ ~ NoDup (ids (store v2) t2).
Proof.
  intros Hreach Hsel.
  destruct (kept_reachable _ _ _ Hreach) as (t & snaps & Hshows & _).
  destruct (addChild_runs now v t p Hshows Hsel)
    as (pn & ext & v1s & h' & _ & _ & _ & _ & _ & _ & Hadd1 & _).
  cbv zeta in Hadd1.
  set (v1 := selectNode (nodeId now) (renderMindmap (rootOf t) (withStore h' v1s))) in *.
  destruct (addChild_shows _ _ _ _ _ Hshows Hsel Hadd1) as (Hshows1 & _ & _).
  destruct (addChild_ids _ _ _ _ _ Hshows Hsel Hadd1) as (Hsel1 & Hids1).
  set (t1 := graft p (ANode (length (store v) + length (addrs t)) []) t) in *.
  assert (Hin : nodeId now ∈ ids (store v1) t1).
  { rewrite Hids1. apply elem_of_app. right. apply list_elem_of_singleton. reflexivity. }
  destruct (getSelectedNode_some v1 t1 (nodeId now) Hshows1 Hsel1) as [p1 Hp1];
    [discriminate|exact Hin|].
  destruct (addChild_runs now v1 t1 p1 Hshows1 Hp1)
    as (pn1 & ext1 & v2s & h'' & _ & _ & _ & _ & _ & _ & Hadd2 & _).
  cbv zeta in Hadd2.
  set (v2 := selectNode (nodeId now) (renderMindmap (rootOf t1) (withStore h'' v2s))) in *.
  destruct (addChild_shows _ _ _ _ _ Hshows1 Hp1 Hadd2) as (Hshows2 & _ & _).
  destruct (addChild_ids _ _ _ _ _ Hshows1 Hp1 Hadd2) as (_ & Hids2).
  exists v1, v2. eexists. split; [exact Hadd1|]. split; [exact Hadd2|]. split.
  - apply (reach_step _ _ v1); [apply (reach_step _ _ v); [exact Hreach|]|];
      now apply (step_add now).
  - split; [exact Hshows2|]. rewrite Hids2. intros Hnd. apply NoDup_app in Hnd.
    destruct Hnd as (_ & Hdisj & _). apply (Hdisj _ Hin).
    apply list_elem_of_singleton. reflexivity.
Qed.

Lemma add_child_twice_at_one_clock_reading_repeats_id_witness :
  exists v1 v2 t2,
    addChildToSelectedNode 1700000000000 selectedView = Some v1 /\
    addChildToSelectedNode 1700000000000 v1 = Some v2 /\
    reachable outlineText (lit "note") v2 /\
    shows v2 t2 /\ ~ NoDup (ids (store v2) t2).
Proof.
  apply (add_child_twice_at_one_clock_reading_repeats_id outlineText (lit "note")
           1700000000000 selectedView 2).
  - apply (reach_step _ _ outlineView).
    + apply reach_load. vm_compute. reflexivity.
    + apply step_select.
  - vm_compute. reflexivity.
Defined.

(** X26.  With fresh clock readings the identifiers stay different: every
    view reached from the one that [loadFile] makes by selecting, adding
    children, deleting, dragging nodes of the displayed tree and undoing,
    where each [addChildToSelectedNode] reads a clock whose identifier is
    that of no node of the tree displayed then, shows a tree whose nodes
    have different identifiers. *)
Theorem ids_unique_while_clock_is_fresh (content fileName : list N) (v : View) :
  freshlyReachable content fileName v ->
  exists t, shows v t /\ NoDup (ids (store v) t).
Proof.
  intros Hreach. destruct (kept_freshlyReachable _ _ _ Hreach) as (cur & snaps & Hshows & Hst).
  exists cur. split; [exact Hshows|]. destruct Hst as (Hg & _).
  apply Forall_cons in Hg. now apply Hg.
Qed.

Lemma ids_unique_while_clock_is_fresh_witness :
  exists t, shows addedView t /\ NoDup (ids (store addedView) t).
Proof.
  apply (ids_unique_while_clock_is_fresh outlineText (lit "note")).
  apply (fresh_next _ _ selectedView).
  - apply (fresh_next _ _ outlineView).
    + apply fresh_load. vm_compute. reflexivity.
    + apply fresh_select.
  - apply (fresh_add 1700000000000).
    + exists 0. split; vm_compute; reflexivity.
    + vm_compute. reflexivity.
Defined.

End ClockIds.

Section LinkedRoundTrip.

Lemma parseStep_root_collapsed st i line st' r :
  ps_heap st !! 0 = Some r -> collapsed r = None -> parseStep st i line = Some st' ->
  exists r', ps_heap st' !! 0 = Some r' /\ collapsed r' = None.
Proof.
  intros Hr Hc Hs.
  destruct (parseStep_cases _ _ _ _ Hs) as [(-> & _)|(node & p & _ & _ & -> & _)]; [eauto|].
  unfold attached. rewrite attach_at, (lookup_app_l_Some _ _ _ _ Hr). simpl.
  eexists. split; [reflexivity|]. destruct p; [|exact Hc]. destruct r. exact Hc.
Qed.

(** What [parseLine] sets, node by node, in the store of a parsed text. *)
Lemma parsed_nodes_fresh doc h a m :
  parseMarkdown doc = Some h -> 0 < a -> h !! a = Some m ->
  collapsed m = None /\ 1 <= level m /\ (type m = header <-> level m <= 6).
Proof.
  intros E Ha Hm.
  pose proof (parseMarkdown_map (fun m => (collapsed m, level m, type m))
                (fun _ l => (fun m => (collapsed m, level m, type m)) <$> parseLine l 0 0)
                doc h) as Hmap.
  cbv beta in Hmap. rewrite omap_zip_seq in Hmap.
  assert (Hin : (collapsed m, level m, type m)
                ∈ map (fun m => (collapsed m, level m, type m)) (drop 1 h)).
  { apply list_elem_of_In, in_map_iff. exists m. split; [reflexivity|].
    apply list_elem_of_In, list_elem_of_lookup. exists (a - 1).
    rewrite lookup_drop. replace (1 + (a - 1)) with a by lia. exact Hm. }
  rewrite Hmap in Hin; [|reflexivity|reflexivity| | |exact E].
  - apply list_elem_of_omap in Hin as (line & _ & Hl).
    destruct (parseLine line 0 0) as [n|] eqn:En; [|discriminate].
    injection Hl as Hc Hlv Hty.
    destruct (parseLine_fresh _ _ _ _ En) as (_ & _ & Hcn & _).
    destruct (parseLine_level _ _ _ _ En) as [H1 H6].
    rewrite <- Hc, <- Hlv, <- Hty. auto.
  - intros l i Hb. now rewrite parseLine_blank.
  - intros l i k. destruct (parseLine_cases l) as [Hnone|(ty & lvl & txt & links & col & Hs)].
    + now rewrite !Hnone.
    + now rewrite !Hs.
Qed.

(** The node of a parsed text made from a line with a link makes
    [generateMarkdown] raise. *)
Lemma parsed_link_throws doc h line n :
  parseMarkdown doc = Some h ->
  line ∈ split c_newline doc -> parseLine line 0 0 = Some n -> hasLink (text n) ->
  generateMarkdown h 0 = Throw.
Proof.
  intros E Hin Hn Hlink.
  destruct (parseMarkdown_order _ _ E) as (t & Hroot & Ht & Hok & Ha).
  pose proof (parseMarkdown_map (fun m => (hasWikilink m, wikilinks m))
                (fun _ l => (fun m => (hasWikilink m, wikilinks m)) <$> parseLine l 0 0)
                doc h) as Hm.
  cbv beta in Hm. rewrite omap_zip_seq in Hm.
  assert (Hmem : (hasWikilink n, wikilinks n)
                 ∈ map (fun m => (hasWikilink m, wikilinks m)) (drop 1 h)).
  { rewrite Hm; [|reflexivity|reflexivity| | |exact E].
    - apply list_elem_of_omap. exists line. split; [exact Hin|]. now rewrite Hn.
    - intros l i Hb. now rewrite parseLine_blank.
    - intros l i k. destruct (parseLine_cases l) as [Hnone|(ty & lvl & txt & links & col & Hs)].
      + now rewrite !Hnone.
      + now rewrite !Hs. }
  apply list_elem_of_In, in_map_iff in Hmem as (m & Hm' & Hmin).
  injection Hm' as Hw Hl.
  apply list_elem_of_In, list_elem_of_lookup in Hmin as [j Hj].
  rewrite lookup_drop in Hj.
  destruct (parseLine_link_iff _ _ _ _ Hn) as [Hi1 Hi2].
  destruct (parseMarkdown_ids _ _ E) as (ks & Hids).
  assert (Hidm : id m <> lit "root").
  { assert (Hk : (map id h) !! (1 + j) = Some (id m)).
    { change (map id) with (fmap (M:=list) id). now rewrite list_lookup_fmap, Hj. }
    rewrite Hids in Hk. simpl in Hk.
    change (map nodeId) with (fmap (M:=list) nodeId) in Hk.
    rewrite list_lookup_fmap in Hk. destruct (ks !! j); [|discriminate].
    injection Hk as <-. apply nodeId_not_root. }
  rewrite <- Hroot. apply (generateMarkdown_throws h t (1 + j) m).
  - exact Ht.
  - rewrite Ha. apply elem_of_seq. apply lookup_lt_Some in Hj. lia.
  - exact Hj.
  - exact Hidm.
  - rewrite Hw. now apply Hi1.
  - rewrite Hl. now apply Hi2.
Qed.

(** C1.  The round trip has no value on trees that [parseMarkdown] itself
    makes.  For a text in which some header or list line holds a link
    [[[..]]], [parseMarkdown] returns a tree of headers of levels 1 to 6 and
    list items, none with a collapsed flag, and [generateMarkdown] raises on
    it: every node with recorded links sends [traverse] to
    [this.restoreWikilinks] where [this] is undefined.  There is then no
    text to parse back. *)
Theorem round_trip_raises_on_parsed_links (doc line : list N) (n : Node) :
  line ∈ split c_newline doc -> parseLine line 0 0 = Some n -> hasLink (text n) ->
  exists h t,
    parseMarkdown doc = Some h /\ rootOf t = 0 /\ isTree h t /\
    (forall a m, a ∈ addrs t -> h !! a = Some m ->
       collapsed m = None /\
       (a <> 0 -> 1 <= level m /\ (type m = header <-> level m <= 6))) /\
    generateMarkdown h (rootOf t) = Throw.
Proof.
  intros Hin Hn Hlink.
  destruct (parseMarkdown_total doc) as [h E].
  destruct (parseMarkdown_order _ _ E) as (t & Hroot & Ht & _ & Ha).
  exists h, t. split; [exact E|]. split; [exact Hroot|]. split; [exact Ht|]. split.
  - intros a m _ Hm. destruct (Nat.eq_dec a 0) as [->|Hne].
    + split; [|now intros []].
      destruct (parseMarkdown_inv (fun st => exists r, ps_heap st !! 0 = Some r /\ collapsed r = None)
                  doc h) as (st & <- & r & Hr & Hc); [| |exact E|].
      * exists rootNode. split; reflexivity.
      * intros st i l st' (r & Hr & Hc) Hs. eapply parseStep_root_collapsed; eauto.
      * rewrite Hr in Hm. now injection Hm as <-.
    + destruct (parsed_nodes_fresh doc h a m E) as (Hc & Hl); [lia|exact Hm|]. auto.
  - rewrite Hroot. eapply parsed_link_throws; eauto.
Qed.

Lemma round_trip_raises_on_parsed_links_witness :
  exists h t,
    parseMarkdown linkedText = Some h /\ rootOf t = 0 /\ isTree h t /\
    (forall a m, a ∈ addrs t -> h !! a = Some m ->
       collapsed m = None /\
       (a <> 0 -> 1 <= level m /\ (type m = header <-> level m <= 6))) /\
    generateMarkdown h (rootOf t) = Throw.
Proof.
  apply (round_trip_raises_on_parsed_links linkedText linkedText
           (default rootNode (parseLine linkedText 0 0))).
  - vm_compute. apply list_elem_of_In. simpl. auto.
  - vm_compute. reflexivity.
  - exists (lit "see "), (lit "Target|alias"), []. split; [reflexivity|]. split; [discriminate|].
    vm_compute. intros H. apply list_elem_of_In in H. simpl in H. intuition discriminate.
Defined.

End LinkedRoundTrip.

Section ParentOfParsedNode.

(** One round of the loop on a line that gives a node. *)
Lemma parseStep_attaches st i line node :
  parseLine line i (ps_currentId st) = Some node ->
  parseStep st i line
  = (p ← findParentNode (ps_heap st) (ps_nodeStack st) (level node);
     let h := attached (ps_heap st) p node in
     Some (mkParseState h (updateNodeStack h (ps_nodeStack st) (length (ps_heap st)))
             (ps_currentId st + 1))).
Proof.
  intros E. unfold parseStep. destruct (trim line) as [|c s] eqn:Et.
  - rewrite parseLine_blank in E by exact Et. discriminate.
  - rewrite E. reflexivity.
Qed.

(** C2.  [findParentNode] returns the entry nearest the top of the stack whose
    level is under the level of the new node, and the bottom entry, the
    root, when no entry qualifies; [updateNodeStack] pops the entries at the
    top whose level is not under that of the new node and pushes the new
    node; and the loop of [parseMarkdown], on a line that gives a node,
    attaches the node under what [findParentNode] returns for the stack as
    it stands and goes on with the stack that [updateNodeStack] returns.

    For every text, then, [parseMarkdown] returns a store that holds, after
    the root, one node for each line for which [parseLine] returns one, in
    the order of the lines, with the kind, level and text that [parseLine]
    gave; the store is one tree under the root, with every object in it
    once; and every node but the root has as parent the last node before it
    with a smaller level: the parent precedes it, has a smaller level, lists
    it as a child, every node in between has a level that is not smaller,
    and the parent of a header is a header (the root is one, of level 0). *)
Theorem parent_is_nearest_open_ancestor :
  (forall h below p above lvl,
     levelAt h p < lvl -> Forall (fun a => lvl <= levelAt h a) above ->
     findParentNode h (below ++ p :: above) lvl = Some p) /\
  (forall h stack lvl,
     Forall (fun a => lvl <= levelAt h a) stack ->
     findParentNode h stack lvl = head stack) /\
  (forall h kept popped a,
     Forall (fun b => levelAt h a <= levelAt h b) popped ->
     match last kept with Some t => levelAt h t < levelAt h a | None => True end ->
     updateNodeStack h (kept ++ popped) a = kept ++ [a]) /\
  (forall st i line node,
     parseLine line i (ps_currentId st) = Some node ->
     parseStep st i line
     = (p ← findParentNode (ps_heap st) (ps_nodeStack st) (level node);
        let h := attached (ps_heap st) p node in
        Some (mkParseState h (updateNodeStack h (ps_nodeStack st) (length (ps_heap st)))
                (ps_currentId st + 1)))) /\
  (forall doc, exists h t,
     parseMarkdown doc = Some h /\
     map (fun n => (lineNumber n, originalText n, type n, level n, text n)) (drop 1 h)
     = omap (fun '(i, line) =>
               (fun n => (Z.of_nat i, line, type n, level n, text n)) <$> parseLine line i 0)
         (zip (seq 0 (length (split c_newline doc))) (split c_newline doc)) /\
     rootOf t = 0 /\ isTree h t /\ addrs t = seq 0 (length h) /\
     (exists r, h !! 0 = Some r /\ id r = lit "root" /\ level r = 0 /\ parent r = None) /\
     forall i n, 0 < i -> h !! i = Some n ->
       exists p pn, parent n = Some p /\ p < i /\ h !! p = Some pn /\
         level pn < level n /\
         (forall j nj, p < j < i -> h !! j = Some nj -> level n <= level nj) /\
         i ∈ children pn /\
         (type n = header -> type pn = header)).
Proof.
  split; [exact findParentNode_nearest|].
  split; [exact findParentNode_bottom|].
  split; [exact updateNodeStack_pops|].
  split; [exact parseStep_attaches|].
  intros doc. destruct (parseMarkdown_total doc) as [h Hh].
  destruct (parseMarkdown_order _ _ Hh) as (t & Hroot & Ht & _ & Ha).
  exists h, t. split; [exact Hh|]. split.
  { apply (parseMarkdown_map
             (fun n => (lineNumber n, originalText n, type n, level n, text n))
             (fun i line => (fun n => (Z.of_nat i, line, type n, level n, text n))
                              <$> parseLine line i 0)); [| | | |exact Hh].
    - intros cs []. reflexivity.
    - intros p []. reflexivity.
    - intros line i Hb. now rewrite parseLine_blank.
    - intros line i k.
      destruct (parseLine_cases line) as [Hn|(ty & lvl & txt & links & col & Hs)].
      + now rewrite !Hn.
      + now rewrite !Hs. }
  split; [exact Hroot|]. split; [exact Ht|]. split; [exact Ha|].
  destruct (parseMarkdown_tree _ _ Hh) as (t' & _ & _ & _ & Hpar & _).
  destruct (parseMarkdown_inv
              (fun st => ParseInv st /\ exists r, ps_heap st !! 0 = Some r /\ id r = lit "root")
              doc h) as (st & <- & Hinv & Hid); auto.
  { split; [exact ParseInv_init|]. exists rootNode. split; reflexivity. }
  { intros st i line st' [Hinv (r & Hr & Hid)] Hstep.
    split; [eapply ParseInv_step; eauto|].
    destruct (parseStep_cases _ _ _ _ Hstep) as
      [(Hh' & _)|(node & p & Hline & Hfind & Hh' & _)]; rewrite Hh'; [eauto|].
    destruct (parseLine_level _ _ _ _ Hline) as [Hl1 _].
    destruct (findParentNode_last st (level node) Hinv Hl1) as (p' & Hfind' & Hlast).
    rewrite Hfind in Hfind'. injection Hfind' as <-.
    destruct (lastBelow_some _ _ _ _ Hlast) as (Hp & _).
    destruct (attach_old (ps_heap st) p (setParent (Some p) node) 0 r Hp Hr)
      as (m & Hm & _ & _ & _ & Hmid & _).
    exists m. split; [exact Hm|congruence]. }
  split.
  { destruct Hid as (r & Hr & Hid). destruct (pi_root _ Hinv) as (r' & Hr' & Hl & _).
    exists r. split; [exact Hr|]. split; [exact Hid|]. split; [congruence|].
    unfold parentAt in Hpar. now rewrite Hr in Hpar. }
  intros i n Hi Hn.
  destruct (pi_parent _ Hinv i n Hi Hn) as (p & pn & Hp & Hpi & Hpn & Hpl & Hb & Hc).
  exists p, pn. repeat split; auto.
  - intros j nj Hj Hnj. rewrite <- (levelAt_lookup _ _ _ Hnj). now apply Hb.
  - intros Hty. destruct (pi_levels _ Hinv i n Hi Hn) as [_ Hlev].
    apply Hlev in Hty. destruct p as [|p].
    + destruct (pi_root _ Hinv) as (r & Hr & _ & Hrt). congruence.
    + destruct (pi_levels _ Hinv (S p) pn) as [_ Hlevp]; [lia|assumption|].
      apply Hlevp. lia.
Qed.

End ParentOfParsedNode.

Section LineEndings.

Lemma lineTerminator_isWhiteSpace e : isLineTerminator e = true -> isWhiteSpace e = true.
Proof.
  unfold isLineTerminator. rewrite !orb_true_iff, !N.eqb_eq.
  intros [[[->| ->]| ->]| ->]; reflexivity.
Qed.

Lemma dropWhile_app_stop {A} (p : A -> bool) (l k : list A) c r :
  dropWhile p l = c :: r -> dropWhile p (l ++ k) = c :: r ++ k.
Proof.
  induction l as [|a l IH]; simpl; [discriminate|].
  destruct (p a); [exact IH|]. now intros [= -> ->].
Qed.

(** [trim] takes a white space at the end away. *)
Lemma trim_snoc s e : isWhiteSpace e = true -> trim (s ++ [e]) = trim s.
Proof.
  intros He. unfold trim. destruct (dropWhile isWhiteSpace s) as [|c r] eqn:E.
  - apply dropWhile_nil in E. rewrite dropWhile_allb by exact E. simpl. now rewrite He.
  - rewrite (dropWhile_app_stop _ _ _ _ _ E).
    change (c :: r ++ [e]) with ((c :: r) ++ [e]). rewrite rev_app_distr. simpl.
    now rewrite He.
Qed.

(** The list pattern does not match a line that ends with a line
    terminator: [.] does not match it, and [$] wants the end of the line. *)
Lemma listRegex_line_terminator line e :
  isLineTerminator e = true -> Regex.exec listRegex (line ++ [e]) = None.
Proof.
  intros He. destruct (Regex.exec listRegex (line ++ [e])) as [[caps rest]|] eqn:E;
    [|reflexivity].
  exfalso. destruct (listRegex_sound _ _ _ E) as (indent & m2 & _ & Hform).
  destruct Hform as (ind & ws & txt & Hs & _ & _ & _ & Hne & Ht & _).
  destruct (exists_last Hne) as (txt' & x & ->).
  change (ind ++ c_dash :: ws ++ txt' ++ [x]) with (ind ++ [c_dash] ++ ws ++ txt' ++ [x]) in Hs.
  rewrite !app_assoc in Hs. apply app_inj_tail in Hs as [_ ->].
  unfold allb in Ht. apply Forall_app in Ht as [_ Ht]. apply Forall_cons in Ht as [Hx _].
  unfold notLineTerminator in Hx. rewrite He in Hx. discriminate.
Qed.

(** C8.  The list pattern is matched against the line as it is, the header
    pattern against the trimmed line.  So a line terminator at the end of a
    line, the carriage return that every line of a file with CRLF line
    endings has once the text is split at the line feeds, makes no
    difference to a header, and turns every list item into a line that
    [parseLine] returns [null] for, although the line is still optional
    white space, [-], white space and a text. *)
Theorem list_line_before_line_terminator_is_dropped (line : list N) (e : N)
    (lineNo : nat) (idNum : Z) (n : Node) :
  isLineTerminator e = true -> parseLine line lineNo idNum = Some n ->
  (type n = header ->
     exists n', parseLine (line ++ [e]) lineNo idNum = Some n' /\
       type n' = header /\ level n' = level n /\ text n' = text n) /\
  (type n = listItem ->
     (exists indent ws txt,
        line ++ [e] = indent ++ c_dash :: ws ++ txt /\ allb isWhiteSpace indent /\
        ws <> [] /\ allb isWhiteSpace ws /\ txt <> []) /\
     parseLine (line ++ [e]) lineNo idNum = None /\
     forall st, parseStep st lineNo (line ++ [e])
                = Some (mkParseState (ps_heap st) (ps_nodeStack st) (ps_currentId st + 1))).
Proof.
  intros He E.
  pose proof (trim_snoc line e (lineTerminator_isWhiteSpace e He)) as Ht.
  pose proof (listRegex_line_terminator line e He) as Hl.
  assert (Hcases :
    (type n = header /\
     exists n', parseLine (line ++ [e]) lineNo idNum = Some n' /\
       type n' = header /\ level n' = level n /\ text n' = text n) \/
    (type n = listItem /\ forall k, parseLine (line ++ [e]) lineNo k = None)).
  { unfold parseLine in *. rewrite Ht, Hl.
    destruct (Regex.exec headerRegex (trim line)) as [[[|m1 [|m2 [|m3 caps]]] rest]|];
      try (right; split; [|reflexivity];
           destruct (Regex.exec listRegex line) as [[[|i1 [|i2 [|i3 caps']]] rest']|];
           try discriminate; cbn [extractWikilinks] in E; now injection E as <-).
    left. cbn [extractWikilinks] in E |- *. injection E as <-.
    split; [reflexivity|]. eexists. split; [reflexivity|]. repeat split. }
  split.
  - intros Hty. destruct Hcases as [[_ H]|[H _]]; [exact H|congruence].
  - intros Hty. destruct Hcases as [[H _]|[_ Hnone]]; [congruence|].
    split; [|split; [apply Hnone|]].
    + destruct (parseLine_sound _ _ _ _ E) as [[H _]|[_ H]]; [congruence|].
      destruct H as (indent & ws & txt & -> & Hind & Hws & Hall & Hne & _).
      exists indent, ws, (txt ++ [e]). split; [rewrite <- app_assoc; simpl; now rewrite <- app_assoc|].
      repeat (split; [assumption|]). now destruct txt.
    + intros st. unfold parseStep. rewrite Ht.
      destruct (trim line) eqn:Eb; [|now rewrite Hnone].
      rewrite parseLine_blank in E by exact Eb. discriminate.
Qed.

Lemma list_line_before_line_terminator_is_dropped_witness :
  (type (default rootNode (parseLine (lit "- C") 1 2)) = header ->
     exists n', parseLine (lit "- C" ++ [13%N]) 1 2 = Some n' /\
       type n' = header /\
       level n' = level (default rootNode (parseLine (lit "- C") 1 2)) /\
       text n' = text (default rootNode (parseLine (lit "- C") 1 2))) /\
  (type (default rootNode (parseLine (lit "- C") 1 2)) = listItem ->
     (exists indent ws txt,
        lit "- C" ++ [13%N] = indent ++ c_dash :: ws ++ txt /\ allb isWhiteSpace indent /\
        ws <> [] /\ allb isWhiteSpace ws /\ txt <> []) /\
     parseLine (lit "- C" ++ [13%N]) 1 2 = None /\
     forall st, parseStep st 1 (lit "- C" ++ [13%N])
                = Some (mkParseState (ps_heap st) (ps_nodeStack st) (ps_currentId st + 1))).
Proof.
  apply (list_line_before_line_terminator_is_dropped (lit "- C") 13%N 1 2).
  - reflexivity.
  - vm_compute. reflexivity.
Defined.

End LineEndings.
